(** * Pong Versus server: matchmaking and match life cycle

    A shallow embedding of [server/index.js] and of the in-memory gateway of
    [server/persistence.js], followed by the properties of the
    matchmaking-and-match-lifecycle engine.

    Conventions of the embedding.
    - A JavaScript number that is always an integer here (timestamps in
      milliseconds, latencies, scores, seat counts) is a [Z] or a [nat].
    - A JavaScript number that can be [NaN] is an [option]: [None] is [NaN],
      and arithmetic is the option monad (an operation with a [NaN] operand
      is [NaN]; every comparison with [NaN] is false).  Ratings are
      [option Z], averages are [option Q] (exact rationals stand for the
      doubles), and the Elo expectation, which needs [10 ** x], is an
      [option R].
    - Reading a property that an object does not have gives [undefined],
      and [undefined] in arithmetic is [NaN]: such a read is [None] too.
    - [Date.now()] is an argument [now] of every handler that reads the clock.
    - A JavaScript [Map] keyed by strings is a [gmap string _]; where the
      iteration order of a [Map] matters (the members of a room) it is a
      list in insertion order. *)

From Stdlib Require Import ZArith QArith Qabs Qreals Reals Lia Lra Ascii Sorted.
From stdpp Require Import base option list gmap strings pretty.

Local Open Scope Z_scope.

(** ** Numbers *)

Definition jsZ := option Z.
Definition jsQ := option Q.

Definition clamp (value min max : Z) : Z := Z.max min (Z.min max value).

(** [Math.max(min, Math.min(max, value))] on a number that may be [NaN]. *)
Definition clampN (value : jsZ) (min max : Z) : jsZ :=
  v ← value; Some (clamp v min max).

Definition jadd (a b : jsZ) : jsZ := x ← a; y ← b; Some (x + y).
Definition jsub (a b : jsZ) : jsZ := x ← a; y ← b; Some (x - y).
Definition jneg (a : jsZ) : jsZ := x ← a; Some (- x).
Definition jmul (a b : jsZ) : jsZ := x ← a; y ← b; Some (x * y).
Definition jabs (a : jsZ) : jsZ := x ← a; Some (Z.abs x).

(** [a > b], false as soon as one side is [NaN]. *)
Definition jgtb (a b : jsZ) : bool :=
  match a, b with Some x, Some y => x >? y | _, _ => false end.
Definition jltb (a b : jsZ) : bool :=
  match a, b with Some x, Some y => x <? y | _, _ => false end.
(** [a !== b] on numbers: [NaN] differs from everything, itself included. *)
Definition jneqb (a b : jsZ) : bool :=
  match a, b with Some x, Some y => negb (x =? y) | _, _ => true end.

Definition qsub (a b : jsQ) : jsQ := x ← a; y ← b; Some (x - y)%Q.
Definition qabs (a : jsQ) : jsQ := x ← a; Some (Qabs x).
Definition qltb (a b : jsQ) : bool :=
  match a, b with
  | Some x, Some y => match (x ?= y)%Q with Lt => true | _ => false end
  | _, _ => false
  end.
Definition qneqb (a b : jsQ) : bool :=
  match a, b with Some x, Some y => negb (Qeq_bool x y) | _, _ => true end.

(** [Math.max(...xs)] and [Math.min(...xs)] over a non-empty argument list
    [x :: xs]; one [NaN] argument makes the result [NaN]. *)
Definition jmax_list (x : jsZ) (xs : list jsZ) : jsZ :=
  foldl (λ acc y, a ← acc; b ← y; Some (Z.max a b)) x xs.
Definition jmin_list (x : jsZ) (xs : list jsZ) : jsZ :=
  foldl (λ acc y, a ← acc; b ← y; Some (Z.min a b)) x xs.

(** ** [Array.prototype.sort] with a comparator

    The sort is stable: [x] goes in front of the first element [y] of the
    sorted tail that it does not have to follow ([cmp x y <= 0]). *)

Fixpoint insert_by {A} (cmp : A → A → Z) (x : A) (l : list A) : list A :=
  match l with
  | [] => [x]
  | y :: l' => if cmp x y <=? 0 then x :: y :: l' else y :: insert_by cmp x l'
  end.

Definition sort_by {A} (cmp : A → A → Z) (l : list A) : list A :=
  foldr (insert_by cmp) [] l.

(** ** Constants *)

Definition TICK_RATE : Z := 60.
Definition SNAPSHOT_RATE : Z := 20.
Definition INPUT_STALE_MS : Z := 380.
Definition READY_CHECK_MS : Z := 10000.
Definition RECONNECT_GRACE_MS : Z := 45000.
Definition QUEUE_SCAN_INTERVAL_MS : Z := 350.
Definition QUEUE_BASE_MMR_RANGE : Z := 120.
Definition QUEUE_EXPAND_STEP : Z := 40.
Definition QUEUE_EXPAND_EVERY_MS : Z := 10000.
Definition QUEUE_MAX_MMR_RANGE : Z := 720.
Definition QUEUE_REQUEUE_PRIORITY_MS : Z := 12000.
Definition MATCH_MAX_DURATION_MS : Z := 8 * 60 * 1000.
Definition DEFAULT_MAX_PING_MS : Z := 220.
Definition ELO_K : Z := 26.
Definition ABANDON_PENALTY : Z := 24.
Definition DEFAULT_RATING : Z := 1000.

(** ** Playlists *)

Inductive team := Team0 | Team1.

Global Instance team_eq_dec : EqDecision team.
Proof. solve_decision. Defined.

Record PlaylistConfig := mkPlaylist {
  pl_id : string;
  pl_label : string;
  teamSize : nat;
  totalSeats : nat;
  teamSlots : team → list nat;
  maxPartySize : nat;
}.

Definition ranked : PlaylistConfig :=
  {| pl_id := "ranked"; pl_label := "2v2 Ranked"; teamSize := 2; totalSeats := 4;
     teamSlots := λ t, match t with Team0 => [0; 1] | Team1 => [2; 3] end%nat;
     maxPartySize := 2 |}.

Definition duel : PlaylistConfig :=
  {| pl_id := "duel"; pl_label := "1v1 Duel"; teamSize := 1; totalSeats := 2;
     teamSlots := λ t, match t with Team0 => [0] | Team1 => [2] end%nat;
     maxPartySize := 1 |}.

(** [PLAYLISTS[playlist] ?? PLAYLISTS.ranked] *)
Definition getPlaylistConfig (playlist : string) : PlaylistConfig :=
  if String.eqb playlist "duel" then duel else ranked.

(** ** Queue entries *)

Record QueueEntry := mkQueueEntry {
  qe_id : string;
  qe_socketId : string;
  qe_playerId : string;
  qe_nickname : string;
  qe_partySize : nat;
  qe_rating : jsZ;
  qe_joinedAt : Z;
  qe_playlist : string;
  qe_region : string;
  qe_inputMode : string;
  qe_pingMs : Z;
  qe_maxPingMs : Z;
  qe_bucketKey : option string;
}.

Definition inputModeCompatible (a b : string) : bool :=
  String.eqb a "mixed" || String.eqb b "mixed" || String.eqb a b.

Definition mmrRangeForEntry (entry : QueueEntry) (now : Z) : Z :=
  let waitMs := Z.max 0 (now - qe_joinedAt entry) in
  let expansions := waitMs / QUEUE_EXPAND_EVERY_MS in
  Z.min QUEUE_MAX_MMR_RANGE (QUEUE_BASE_MMR_RANGE + expansions * QUEUE_EXPAND_STEP).

(** ** [ratingAverage]

    The function reads [entry.rating] and [entry.partySize] of whatever
    objects it is given.  [Rated] says what those two reads give for a type
    of objects. *)

Class Rated (A : Type) := {
  rating_of : A → jsZ;
  partySize_of : A → nat;
}.

Global Instance QueueEntry_Rated : Rated QueueEntry :=
  {| rating_of := qe_rating; partySize_of := qe_partySize |}.

Definition ratingAverage {A} `{Rated A} (entries : list A) : jsQ :=
  let totalWeight := foldl (λ sum entry, sum + partySize_of entry)%nat 0%nat entries in
  if (totalWeight <=? 0)%nat then Some (inject_Z DEFAULT_RATING)
  else
    weighted ← foldl (λ sum entry, jadd sum (jmul (rating_of entry) (Some (Z.of_nat (partySize_of entry)))))
                     (Some 0) entries;
    Some (inject_Z weighted / inject_Z (Z.of_nat totalWeight))%Q.

(** ** MatchFinder: team partition *)

Record BestPartition := mkBestPartition {
  bp_team0 : list QueueEntry;
  bp_team1 : list QueueEntry;
  bp_diff : jsQ;
}.

Record TeamPartition := mkTeamPartition {
  tp_assignmentByEntryId : gmap string team;
  tp_teamDiff : jsQ;
}.

Definition seatsOf (entries : list QueueEntry) : nat :=
  foldr (λ entry sum, qe_partySize entry + sum)%nat 0%nat entries.

(** The loop of [evaluatePartition] over [entries[index]], [index] counting
    up from the position of the first element of [entries]. *)
Fixpoint splitTeams (pickedSet : gset nat) (index : nat) (entries : list QueueEntry)
  : list QueueEntry * list QueueEntry :=
  match entries with
  | [] => ([], [])
  | entry :: rest =>
      let '(team0, team1) := splitTeams pickedSet (S index) rest in
      if bool_decide (index ∈ pickedSet) then (entry :: team0, team1)
      else (team0, entry :: team1)
  end.

Definition evaluatePartition (entries : list QueueEntry) (teamSize : nat)
    (indices : list nat) (best : option BestPartition) : option BestPartition :=
  let pickedSet : gset nat := list_to_set indices in
  let '(team0, team1) := splitTeams pickedSet 0 entries in
  let team0Seats := seatsOf team0 in
  let team1Seats := seatsOf team1 in
  if negb (team0Seats =? teamSize)%nat || negb (team1Seats =? teamSize)%nat then best
  else
    let avg0 := ratingAverage team0 in
    let avg1 := ratingAverage team1 in
    let diff := qabs (qsub avg0 avg1) in
    let found := Some {| bp_team0 := team0; bp_team1 := team1; bp_diff := diff |} in
    match best with
    | None => found
    | Some b => if qltb diff (bp_diff b) then found else best
    end.

(** The [for] loop of the inner [dfs]: [rest] holds the pairs
    [(i, entries[i])] for [i] from [startIndex] on. *)
Fixpoint partitionLoop (entries : list QueueEntry) (teamSize : nat)
    (rest : list (nat * QueueEntry)) (chosen : list nat) (currentSeats : nat)
    (best : option BestPartition) : option BestPartition :=
  match rest with
  | [] => best
  | (i, entry) :: rest' =>
      let chosen' := chosen ++ [i] in
      let seats' := (currentSeats + qe_partySize entry)%nat in
      let best' :=
        if (seats' =? teamSize)%nat then evaluatePartition entries teamSize chosen' best
        else if (teamSize <? seats')%nat then best
        else partitionLoop entries teamSize rest' chosen' seats' best in
      partitionLoop entries teamSize rest' chosen currentSeats best'
  end.

Definition indexed {A} (l : list A) : list (nat * A) := imap pair l.

(** [dfs(0, 0)] *)
Definition partitionDfs (entries : list QueueEntry) (teamSize : nat) : option BestPartition :=
  if (0 =? teamSize)%nat then evaluatePartition entries teamSize [] None
  else partitionLoop entries teamSize (indexed entries) [] 0 None.

Definition setTeam (t : team) (m : gmap string team) (entries : list QueueEntry)
  : gmap string team :=
  foldl (λ acc entry, <[qe_id entry := t]> acc) m entries.

Definition findBestTeamPartition (entries : list QueueEntry) (teamSize : nat)
  : option TeamPartition :=
  match partitionDfs entries teamSize with
  | None => None
  | Some best =>
      let assignmentByEntryId := setTeam Team1 (setTeam Team0 ∅ (bp_team0 best)) (bp_team1 best) in
      Some {| tp_assignmentByEntryId := assignmentByEntryId; tp_teamDiff := bp_diff best |}
  end.

(** ** MatchFinder: seat assignment *)

Fixpoint groupByTeam (assignmentByEntryId : gmap string team) (entries : list QueueEntry)
  : option (list QueueEntry * list QueueEntry) :=
  match entries with
  | [] => Some ([], [])
  | entry :: rest =>
      match assignmentByEntryId !! qe_id entry with
      | None => None
      | Some t =>
          '(byTeam0, byTeam1) ← groupByTeam assignmentByEntryId rest;
          Some (match t with
                | Team0 => (entry :: byTeam0, byTeam1)
                | Team1 => (byTeam0, entry :: byTeam1)
                end)
      end
  end.

Definition bySizeThenJoin (a b : QueueEntry) : Z :=
  if negb (qe_partySize b =? qe_partySize a)%nat
  then Z.of_nat (qe_partySize b) - Z.of_nat (qe_partySize a)
  else qe_joinedAt a - qe_joinedAt b.

(** One team's loop: every entry shifts [partySize] seats off the pool. *)
Fixpoint takeSlots (pool : list nat) (teamEntries : list QueueEntry)
    (result : gmap string (list nat)) : option (list nat * gmap string (list nat)) :=
  match teamEntries with
  | [] => Some (pool, result)
  | entry :: rest =>
      if (length pool <? qe_partySize entry)%nat then None
      else takeSlots (drop (qe_partySize entry) pool) rest
                     (<[qe_id entry := take (qe_partySize entry) pool]> result)
  end.

Definition assignSlots (entries : list QueueEntry) (assignmentByEntryId : gmap string team)
    (playlistConfig : PlaylistConfig) : option (gmap string (list nat)) :=
  '(byTeam0, byTeam1) ← groupByTeam assignmentByEntryId entries;
  let sorted0 := sort_by bySizeThenJoin byTeam0 in
  let sorted1 := sort_by bySizeThenJoin byTeam1 in
  '(_, result0) ← takeSlots (teamSlots playlistConfig Team0) sorted0 ∅;
  '(_, result1) ← takeSlots (teamSlots playlistConfig Team1) sorted1 result0;
  Some result1.

(** ** MatchFinder: compatibility *)

Definition pairCompatible (a b : QueueEntry) (now : Z) : bool :=
  inputModeCompatible (qe_inputMode a) (qe_inputMode b)
  && negb (jgtb (jabs (jsub (qe_rating a) (qe_rating b)))
                (Some (Z.min (mmrRangeForEntry a now) (mmrRangeForEntry b now))))
  && negb ((qe_pingMs a >? qe_maxPingMs b) || (qe_pingMs b >? qe_maxPingMs a)).

Fixpoint comboCompatible (entries : list QueueEntry) (now : Z) : bool :=
  match entries with
  | [] => true
  | a :: rest =>
      negb (qe_pingMs a >? qe_maxPingMs a)
      && forallb (λ b, pairCompatible a b now) rest
      && comboCompatible rest now
  end.

(** ** MatchFinder: the best candidate *)

Record Candidate := mkCandidate {
  cand_entries : list QueueEntry;
  cand_assignmentByEntryId : gmap string team;
  cand_slotsByEntryId : gmap string (list nat);
  cand_playlist : string;
  cand_region : string;
  cand_oldestJoinedAt : Z;
  cand_mmrSpan : jsZ;
  cand_teamDiff : jsQ;
  cand_avgPing : Q;
}.

Definition compareCandidate (a b : option Candidate) : option Candidate :=
  match a, b with
  | None, _ => b
  | _, None => a
  | Some x, Some y =>
      if negb (cand_oldestJoinedAt x =? cand_oldestJoinedAt y) then
        if cand_oldestJoinedAt x <? cand_oldestJoinedAt y then a else b
      else if jneqb (cand_mmrSpan x) (cand_mmrSpan y) then
        if jltb (cand_mmrSpan x) (cand_mmrSpan y) then a else b
      else if qneqb (cand_teamDiff x) (cand_teamDiff y) then
        if qltb (cand_teamDiff x) (cand_teamDiff y) then a else b
      else if Qle_bool (cand_avgPing x) (cand_avgPing y) then a else b
  end.

(** A computation that can end in an uncaught exception. *)
Inductive result (A : Type) :=
  | Ok (a : A)
  | Throw.
Arguments Ok {A} a.
Arguments Throw {A}.

Section FindBestCandidate.
Variable now : Z.
Variable playlistConfig : PlaylistConfig.

(** [current[0].playlist] throws a [TypeError] when [current] is empty. *)
Definition evaluateCurrent (current : list QueueEntry) (best : option Candidate)
  : result (option Candidate) :=
  if negb (comboCompatible current now) then Ok best
  else
    match findBestTeamPartition current (teamSize playlistConfig) with
    | None => Ok best
    | Some partition =>
        match assignSlots current (tp_assignmentByEntryId partition) playlistConfig with
        | None => Ok best
        | Some slotMap =>
            match current with
            | [] => Throw
            | first :: others =>
                let ratings := qe_rating <$> others in
                let pings := qe_pingMs <$> current in
                let pingSum := foldl Z.add 0 pings in
                let pingCount := Z.of_nat (length pings) in
                let candidate :=
                  {| cand_entries := current;
                     cand_assignmentByEntryId := tp_assignmentByEntryId partition;
                     cand_slotsByEntryId := slotMap;
                     cand_playlist := qe_playlist first;
                     cand_region := qe_region first;
                     cand_oldestJoinedAt :=
                       foldl Z.min (qe_joinedAt first) (qe_joinedAt <$> others);
                     cand_mmrSpan :=
                       jsub (jmax_list (qe_rating first) ratings)
                            (jmin_list (qe_rating first) ratings);
                     cand_teamDiff := tp_teamDiff partition;
                     cand_avgPing :=
                       (inject_Z pingSum / inject_Z pingCount)%Q |} in
                Ok (compareCandidate best (Some candidate))
            end
        end
    end.

(** The [for] loop of the outer [dfs] over [searchPool[i]], [i] from
    [startIndex] on; [pool] is that suffix of the search pool. *)
Fixpoint candidateLoop (pool : list QueueEntry) (current : list QueueEntry)
    (seatCount : nat) (best : option Candidate) : result (option Candidate) :=
  match pool with
  | [] => Ok best
  | entry :: pool' =>
      let current' := current ++ [entry] in
      let seats' := (seatCount + qe_partySize entry)%nat in
      let inner :=
        if (seats' =? totalSeats playlistConfig)%nat then evaluateCurrent current' best
        else if (totalSeats playlistConfig <? seats')%nat then Ok best
        else candidateLoop pool' current' seats' best in
      match inner with
      | Throw => Throw
      | Ok best' => candidateLoop pool' current seatCount best'
      end
  end.

Definition byJoinedAt (a b : QueueEntry) : Z := qe_joinedAt a - qe_joinedAt b.

Definition findBestCandidate (entries : list QueueEntry) : result (option Candidate) :=
  if (length entries <? 2)%nat then Ok None
  else
    let ordered := sort_by byJoinedAt entries in
    let searchPool := take 16 ordered in
    if (0 =? totalSeats playlistConfig)%nat then evaluateCurrent [] None
    else candidateLoop searchPool [] 0 None.
End FindBestCandidate.

(** ** Strings

    The embedding covers strings of ASCII characters: [toLowerCase] maps
    [A]..[Z], and [trim] strips tab, line feed, vertical tab, form feed,
    carriage return and space. *)

Definition truthyS (s : option string) : bool :=
  match s with Some s => negb (String.eqb s "") | None => false end.

(** Truthiness of a timestamp that is [null] or a number. *)
Definition truthyT (t : option Z) : bool :=
  match t with Some t => negb (t =? 0) | None => false end.

Definition lowerAscii (c : ascii) : ascii :=
  let n := nat_of_ascii c in
  if ((65 <=? n) && (n <=? 90))%nat then ascii_of_nat (n + 32) else c.

Fixpoint toLowerCase (s : string) : string :=
  match s with
  | EmptyString => EmptyString
  | String c s' => String (lowerAscii c) (toLowerCase s')
  end.

Definition isWhitespace (c : ascii) : bool :=
  let n := nat_of_ascii c in
  (((9 <=? n) && (n <=? 13)) || (n =? 32))%nat.

Fixpoint trimStart (s : string) : string :=
  match s with
  | EmptyString => EmptyString
  | String c s' => if isWhitespace c then trimStart s' else s
  end.

Definition trim (s : string) : string :=
  String.rev (trimStart (String.rev (trimStart s))).

(** [s.slice(0, n)] *)
Definition sliceTo (n : nat) (s : string) : string := String.substring 0 n s.

(** [s.slice(-n)] *)
Definition sliceLast (n : nat) (s : string) : string :=
  String.substring (String.length s - n) n s.

(** [a || b] on strings *)
Definition orElse (a b : string) : string := if String.eqb a "" then b else a.

Definition sanitizeNickname (value : option string) : string :=
  orElse (sliceTo 18 (trim (default "Jugador" value))) "Jugador".

Definition normalizePlaylist (value : option string) : string :=
  let normalized := trim (toLowerCase (default "ranked" value)) in
  if String.eqb normalized "duel" || String.eqb normalized "1v1" then "duel" else "ranked".

Definition normalizeRegion (value : option string) : string :=
  let normalized := sliceTo 8 (trim (toLowerCase (default "na" value))) in
  orElse normalized "na".

Definition normalizeInputMode (value : option string) : string :=
  let normalized := toLowerCase (default "mixed" value) in
  if String.eqb normalized "keyboard" || String.eqb normalized "controller"
  then normalized else "mixed".

Definition getBucketKey (entry : QueueEntry) : string :=
  qe_playlist entry +:+ "|" +:+ qe_region entry.

(** ** Ready checks, rooms and connections *)

Record SocketState := mkSocketState {
  ss_socketId : string;
  ss_playerId : string;
  ss_nickname : string;
  ss_rating : jsZ;
  ss_games : Z;
  ss_wins : Z;
  ss_losses : Z;
  ss_abandons : Z;
  ss_partySize : nat;
  ss_playlist : string;
  ss_region : string;
  ss_inputMode : string;
  ss_pendingReadyId : option string;
  ss_roomId : option string;
  ss_slots : list nat;
  ss_reconnect : option (string * string);
  ss_pingMs : Z;
}.

Record ReadyMember := mkReadyMember {
  rdm_socketId : string;
  rdm_playerId : string;
  rdm_nickname : string;
  rdm_partySize : nat;
  rdm_ratingBefore : jsZ;
  rdm_team : team;
  rdm_slots : list nat;
  rdm_reconnectToken : string;
  rdm_inputMode : string;
}.

Record ReadyCheck := mkReadyCheck {
  rd_id : string;
  rd_playlist : string;
  rd_region : string;
  rd_seed : string;
  rd_members : list ReadyMember;
  rd_accepted : gset string;
  rd_createdAt : Z;
  rd_expiresAt : Z;
  rd_timeoutHandle : option nat;
}.

Record RoomMember := mkRoomMember {
  rm_playerId : string;
  rm_nickname : string;
  rm_partySize : nat;
  rm_ratingBefore : jsZ;
  rm_ratingAfter : jsZ;
  rm_team : team;
  rm_slots : list nat;
  rm_reconnectToken : string;
  rm_reconnectCount : Z;
  rm_socketId : option string;
  rm_disconnectedAt : option Z;
  rm_abandoned : bool;
}.

(** A member of a room has a [ratingBefore] and a [ratingAfter] but no
    property called [rating]: reading [member.rating] gives [undefined]. *)
Global Instance RoomMember_Rated : Rated RoomMember :=
  {| rating_of := λ _, None; partySize_of := rm_partySize |}.

(** The part of a world snapshot that the server reads. *)
Record Snapshot := mkSnapshot {
  snap_score : Z * Z;
}.

Record Room := mkRoom {
  room_id : string;
  room_playlist : string;
  room_region : string;
  room_seed : string;
  room_startedAt : Z;
  room_createdAt : Z;
  room_members : list RoomMember;
  room_slotOwner : list (option string);
  room_serverSeq : Z;
  room_lastSnapshot : Snapshot;
  room_activeSlots : gset nat;
  room_inactiveSlots : gset nat;
  room_ended : bool;
}.

Inductive MatchResult := Win | Loss | Draw.

Record RatingChange := mkRatingChange {
  rc_playerId : string;
  rc_delta : jsZ;
  rc_ratingBefore : jsZ;
  rc_ratingAfter : jsZ;
  rc_abandoned : bool;
  rc_reconnectCount : Z;
  rc_result : MatchResult;
  rc_team : team;
  rc_slots : list nat;
  rc_partySize : nat;
}.

Record MatchEndedPayload := mkMatchEnded {
  me_roomId : string;
  me_reason : string;
  me_winnerTeam : option team;
  me_score : Z * Z;
  me_ratingChanges : list RatingChange;
}.

Record RosterEntry := mkRosterEntry {
  ro_playerId : string;
  ro_nickname : string;
  ro_partySize : nat;
  ro_team : team;
}.

(** What the server sends; a roster that repeats the members of a room is
    left out of the payload. *)
Inductive Message :=
  | identity (playerId nickname : string) (rating : jsZ) (serverTime : Z)
  | queued (position total : nat) (playlist region : string) (partySize : nat)
      (mmr : jsZ) (mmrRange : Z)
  | queueUpdate (position total : nat) (playlist region : string)
      (waitSeconds mmrRange : Z)
  | serverNotice (message : string)
  | readyCheck (matchId playlist region : string) (expiresAt : Z)
      (acceptedCount total : nat) (roster : list RosterEntry)
  | readyUpdate (matchId : string) (acceptedCount total : nat)
  | readyCancelled (matchId reason : string)
  | matchFound (roomId seed playlist region : string) (assignedSlots : list nat)
      (reconnectToken : string)
  | matchRejoined (roomId : string) (assignedSlots : list nat)
      (reconnectToken playlist region : string) (snapshot : Snapshot)
  | stateSnapshot (roomId : string) (snapshot : Snapshot) (sentAt serverSeq : Z)
  | playerPresence (playerId : string) (slots : list nat) (connected : bool)
  | playerLeft (playerId : string) (slots : list nat) (reason : string)
  | matchEnded (payload : MatchEndedPayload).

(** Whom a message goes to: one socket ([socket.emit]) or everybody in a
    socket.io room ([io.to(room).emit]); [forceDisconnect] is
    [socket.disconnect(true)]. *)
Inductive Effect :=
  | emitTo (socketId : string) (message : Message)
  | emitRoom (roomId : string) (message : Message)
  | forceDisconnect (socketId : string).

(** ** The in-memory persistence gateway *)

Record Player := mkPlayer {
  pp_playerId : string;
  pp_tokenHash : string;
  pp_nickname : string;
  pp_rating : jsZ;
  pp_games : Z;
  pp_wins : Z;
  pp_losses : Z;
  pp_abandons : Z;
  pp_createdAt : Z;
  pp_updatedAt : Z;
}.

Record MatchRecord := mkMatchRecord {
  mr_matchId : string;
  mr_playlist : string;
  mr_seed : string;
  mr_team0Score : Z;
  mr_team1Score : Z;
  mr_winnerTeam : option team;
  mr_startedAt : Z;
  mr_endedAt : Z;
  mr_durationSeconds : Q;
  mr_players : list RatingChange;
  mr_storedAt : Z;
}.

(** ** A [Map] in insertion order

    [queueByBucket] is iterated: a list of keys with their values, a key at
    most once, new keys at the end. *)

Definition ordmap (V : Type) := list (string * V).

Definition oget {V} (k : string) (m : ordmap V) : option V :=
  snd <$> List.find (λ kv, String.eqb (fst kv) k) m.

Fixpoint oset {V} (k : string) (v : V) (m : ordmap V) : ordmap V :=
  match m with
  | [] => [(k, v)]
  | (k', v') :: m' => if String.eqb k' k then (k, v) :: m' else (k', v') :: oset k v m'
  end.

Definition odelete {V} (k : string) (m : ordmap V) : ordmap V :=
  List.filter (λ kv, negb (String.eqb (fst kv) k)) m.

Definition okeys {V} (m : ordmap V) : list string := fst <$> m.

(** ** The state of the server

    Objects that are shared by reference live in a heap: [rooms] holds every
    room object ever made and [readies] every ready-check object, and a
    reference is an index into the heap.  [activeRooms] and
    [pendingReadyById] are the two [Map]s from ids to such references, so an
    object that was deleted from its [Map] is still there for whoever holds
    a reference to it.  [sockets] is [io.sockets.sockets], [joined] the
    membership of socket.io rooms, [timers] the armed [setTimeout] handles
    with the ready check they belong to and the time they are due, [drawn]
    the number of random UUIDs drawn so far, and [outbox] everything sent,
    oldest first.  [playersById], [playerIdByTokenHash] and [matches] are
    the fields of [MemoryPersistence]. *)

Record World := mkWorld {
  queueByBucket : ordmap (list QueueEntry);
  queueEntryBySocket : gmap string (string * QueueEntry);
  activeRooms : gmap string nat;
  pendingReadyById : gmap string nat;
  socketState : gmap string SocketState;
  playerSocket : gmap string string;
  roomSequence : nat;
  readySequence : nat;
  rooms : list Room;
  readies : list ReadyCheck;
  sockets : gset string;
  joined : gset (string * string);
  timers : gmap nat (nat * Z);
  nextTimer : nat;
  playersById : gmap string Player;
  playerIdByTokenHash : gmap string string;
  matches : list MatchRecord;
  drawn : nat;
  outbox : list Effect;
}.

Definition upd_queueByBucket (f : ordmap (list QueueEntry) → ordmap (list QueueEntry))
    (w : World) : World :=
  {| queueByBucket := f (queueByBucket w); queueEntryBySocket := queueEntryBySocket w;
     activeRooms := activeRooms w; pendingReadyById := pendingReadyById w;
     socketState := socketState w; playerSocket := playerSocket w;
     roomSequence := roomSequence w; readySequence := readySequence w; rooms := rooms w;
     readies := readies w; sockets := sockets w; joined := joined w; timers := timers w;
     nextTimer := nextTimer w; playersById := playersById w;
     playerIdByTokenHash := playerIdByTokenHash w; matches := matches w; drawn := drawn w;
     outbox := outbox w |}.

Definition upd_queueEntryBySocket (f : gmap string (string * QueueEntry) → gmap string (string * QueueEntry)) (w : World) : World :=
  {| queueByBucket := queueByBucket w; queueEntryBySocket := f (queueEntryBySocket w);
     activeRooms := activeRooms w; pendingReadyById := pendingReadyById w;
     socketState := socketState w; playerSocket := playerSocket w;
     roomSequence := roomSequence w; readySequence := readySequence w; rooms := rooms w;
     readies := readies w; sockets := sockets w; joined := joined w; timers := timers w;
     nextTimer := nextTimer w; playersById := playersById w;
     playerIdByTokenHash := playerIdByTokenHash w; matches := matches w; drawn := drawn w;
     outbox := outbox w |}.

Definition upd_activeRooms (f : gmap string nat → gmap string nat) (w : World) : World :=
  {| queueByBucket := queueByBucket w; queueEntryBySocket := queueEntryBySocket w;
     activeRooms := f (activeRooms w); pendingReadyById := pendingReadyById w;
     socketState := socketState w; playerSocket := playerSocket w;
     roomSequence := roomSequence w; readySequence := readySequence w; rooms := rooms w;
     readies := readies w; sockets := sockets w; joined := joined w; timers := timers w;
     nextTimer := nextTimer w; playersById := playersById w;
     playerIdByTokenHash := playerIdByTokenHash w; matches := matches w; drawn := drawn w;
     outbox := outbox w |}.

Definition upd_pendingReadyById (f : gmap string nat → gmap string nat) (w : World) : World :=
  {| queueByBucket := queueByBucket w; queueEntryBySocket := queueEntryBySocket w;
     activeRooms := activeRooms w; pendingReadyById := f (pendingReadyById w);
     socketState := socketState w; playerSocket := playerSocket w;
     roomSequence := roomSequence w; readySequence := readySequence w; rooms := rooms w;
     readies := readies w; sockets := sockets w; joined := joined w; timers := timers w;
     nextTimer := nextTimer w; playersById := playersById w;
     playerIdByTokenHash := playerIdByTokenHash w; matches := matches w; drawn := drawn w;
     outbox := outbox w |}.

Definition upd_socketState (f : gmap string SocketState → gmap string SocketState) (w : World) : World :=
  {| queueByBucket := queueByBucket w; queueEntryBySocket := queueEntryBySocket w;
     activeRooms := activeRooms w; pendingReadyById := pendingReadyById w;
     socketState := f (socketState w); playerSocket := playerSocket w;
     roomSequence := roomSequence w; readySequence := readySequence w; rooms := rooms w;
     readies := readies w; sockets := sockets w; joined := joined w; timers := timers w;
     nextTimer := nextTimer w; playersById := playersById w;
     playerIdByTokenHash := playerIdByTokenHash w; matches := matches w; drawn := drawn w;
     outbox := outbox w |}.

Definition upd_playerSocket (f : gmap string string → gmap string string) (w : World) : World :=
  {| queueByBucket := queueByBucket w; queueEntryBySocket := queueEntryBySocket w;
     activeRooms := activeRooms w; pendingReadyById := pendingReadyById w;
     socketState := socketState w; playerSocket := f (playerSocket w);
     roomSequence := roomSequence w; readySequence := readySequence w; rooms := rooms w;
     readies := readies w; sockets := sockets w; joined := joined w; timers := timers w;
     nextTimer := nextTimer w; playersById := playersById w;
     playerIdByTokenHash := playerIdByTokenHash w; matches := matches w; drawn := drawn w;
     outbox := outbox w |}.

Definition upd_roomSequence (f : nat → nat) (w : World) : World :=
  {| queueByBucket := queueByBucket w; queueEntryBySocket := queueEntryBySocket w;
     activeRooms := activeRooms w; pendingReadyById := pendingReadyById w;
     socketState := socketState w; playerSocket := playerSocket w;
     roomSequence := f (roomSequence w); readySequence := readySequence w;
     rooms := rooms w; readies := readies w; sockets := sockets w; joined := joined w;
     timers := timers w; nextTimer := nextTimer w; playersById := playersById w;
     playerIdByTokenHash := playerIdByTokenHash w; matches := matches w; drawn := drawn w;
     outbox := outbox w |}.

Definition upd_readySequence (f : nat → nat) (w : World) : World :=
  {| queueByBucket := queueByBucket w; queueEntryBySocket := queueEntryBySocket w;
     activeRooms := activeRooms w; pendingReadyById := pendingReadyById w;
     socketState := socketState w; playerSocket := playerSocket w;
     roomSequence := roomSequence w; readySequence := f (readySequence w);
     rooms := rooms w; readies := readies w; sockets := sockets w; joined := joined w;
     timers := timers w; nextTimer := nextTimer w; playersById := playersById w;
     playerIdByTokenHash := playerIdByTokenHash w; matches := matches w; drawn := drawn w;
     outbox := outbox w |}.

Definition upd_rooms (f : list Room → list Room) (w : World) : World :=
  {| queueByBucket := queueByBucket w; queueEntryBySocket := queueEntryBySocket w;
     activeRooms := activeRooms w; pendingReadyById := pendingReadyById w;
     socketState := socketState w; playerSocket := playerSocket w;
     roomSequence := roomSequence w; readySequence := readySequence w;
     rooms := f (rooms w); readies := readies w; sockets := sockets w; joined := joined w;
     timers := timers w; nextTimer := nextTimer w; playersById := playersById w;
     playerIdByTokenHash := playerIdByTokenHash w; matches := matches w; drawn := drawn w;
     outbox := outbox w |}.

Definition upd_readies (f : list ReadyCheck → list ReadyCheck) (w : World) : World :=
  {| queueByBucket := queueByBucket w; queueEntryBySocket := queueEntryBySocket w;
     activeRooms := activeRooms w; pendingReadyById := pendingReadyById w;
     socketState := socketState w; playerSocket := playerSocket w;
     roomSequence := roomSequence w; readySequence := readySequence w; rooms := rooms w;
     readies := f (readies w); sockets := sockets w; joined := joined w;
     timers := timers w; nextTimer := nextTimer w; playersById := playersById w;
     playerIdByTokenHash := playerIdByTokenHash w; matches := matches w; drawn := drawn w;
     outbox := outbox w |}.

Definition upd_sockets (f : gset string → gset string) (w : World) : World :=
  {| queueByBucket := queueByBucket w; queueEntryBySocket := queueEntryBySocket w;
     activeRooms := activeRooms w; pendingReadyById := pendingReadyById w;
     socketState := socketState w; playerSocket := playerSocket w;
     roomSequence := roomSequence w; readySequence := readySequence w; rooms := rooms w;
     readies := readies w; sockets := f (sockets w); joined := joined w;
     timers := timers w; nextTimer := nextTimer w; playersById := playersById w;
     playerIdByTokenHash := playerIdByTokenHash w; matches := matches w; drawn := drawn w;
     outbox := outbox w |}.

Definition upd_joined (f : gset (string * string) → gset (string * string)) (w : World) : World :=
  {| queueByBucket := queueByBucket w; queueEntryBySocket := queueEntryBySocket w;
     activeRooms := activeRooms w; pendingReadyById := pendingReadyById w;
     socketState := socketState w; playerSocket := playerSocket w;
     roomSequence := roomSequence w; readySequence := readySequence w; rooms := rooms w;
     readies := readies w; sockets := sockets w; joined := f (joined w);
     timers := timers w; nextTimer := nextTimer w; playersById := playersById w;
     playerIdByTokenHash := playerIdByTokenHash w; matches := matches w; drawn := drawn w;
     outbox := outbox w |}.

Definition upd_timers (f : gmap nat (nat * Z) → gmap nat (nat * Z)) (w : World) : World :=
  {| queueByBucket := queueByBucket w; queueEntryBySocket := queueEntryBySocket w;
     activeRooms := activeRooms w; pendingReadyById := pendingReadyById w;
     socketState := socketState w; playerSocket := playerSocket w;
     roomSequence := roomSequence w; readySequence := readySequence w; rooms := rooms w;
     readies := readies w; sockets := sockets w; joined := joined w;
     timers := f (timers w); nextTimer := nextTimer w; playersById := playersById w;
     playerIdByTokenHash := playerIdByTokenHash w; matches := matches w; drawn := drawn w;
     outbox := outbox w |}.

Definition upd_nextTimer (f : nat → nat) (w : World) : World :=
  {| queueByBucket := queueByBucket w; queueEntryBySocket := queueEntryBySocket w;
     activeRooms := activeRooms w; pendingReadyById := pendingReadyById w;
     socketState := socketState w; playerSocket := playerSocket w;
     roomSequence := roomSequence w; readySequence := readySequence w; rooms := rooms w;
     readies := readies w; sockets := sockets w; joined := joined w; timers := timers w;
     nextTimer := f (nextTimer w); playersById := playersById w;
     playerIdByTokenHash := playerIdByTokenHash w; matches := matches w; drawn := drawn w;
     outbox := outbox w |}.

Definition upd_playersById (f : gmap string Player → gmap string Player) (w : World) : World :=
  {| queueByBucket := queueByBucket w; queueEntryBySocket := queueEntryBySocket w;
     activeRooms := activeRooms w; pendingReadyById := pendingReadyById w;
     socketState := socketState w; playerSocket := playerSocket w;
     roomSequence := roomSequence w; readySequence := readySequence w; rooms := rooms w;
     readies := readies w; sockets := sockets w; joined := joined w; timers := timers w;
     nextTimer := nextTimer w; playersById := f (playersById w);
     playerIdByTokenHash := playerIdByTokenHash w; matches := matches w; drawn := drawn w;
     outbox := outbox w |}.

Definition upd_playerIdByTokenHash (f : gmap string string → gmap string string) (w : World) : World :=
  {| queueByBucket := queueByBucket w; queueEntryBySocket := queueEntryBySocket w;
     activeRooms := activeRooms w; pendingReadyById := pendingReadyById w;
     socketState := socketState w; playerSocket := playerSocket w;
     roomSequence := roomSequence w; readySequence := readySequence w; rooms := rooms w;
     readies := readies w; sockets := sockets w; joined := joined w; timers := timers w;
     nextTimer := nextTimer w; playersById := playersById w;
     playerIdByTokenHash := f (playerIdByTokenHash w); matches := matches w;
     drawn := drawn w; outbox := outbox w |}.

Definition upd_matches (f : list MatchRecord → list MatchRecord) (w : World) : World :=
  {| queueByBucket := queueByBucket w; queueEntryBySocket := queueEntryBySocket w;
     activeRooms := activeRooms w; pendingReadyById := pendingReadyById w;
     socketState := socketState w; playerSocket := playerSocket w;
     roomSequence := roomSequence w; readySequence := readySequence w; rooms := rooms w;
     readies := readies w; sockets := sockets w; joined := joined w; timers := timers w;
     nextTimer := nextTimer w; playersById := playersById w;
     playerIdByTokenHash := playerIdByTokenHash w; matches := f (matches w);
     drawn := drawn w; outbox := outbox w |}.

Definition upd_drawn (f : nat → nat) (w : World) : World :=
  {| queueByBucket := queueByBucket w; queueEntryBySocket := queueEntryBySocket w;
     activeRooms := activeRooms w; pendingReadyById := pendingReadyById w;
     socketState := socketState w; playerSocket := playerSocket w;
     roomSequence := roomSequence w; readySequence := readySequence w; rooms := rooms w;
     readies := readies w; sockets := sockets w; joined := joined w; timers := timers w;
     nextTimer := nextTimer w; playersById := playersById w;
     playerIdByTokenHash := playerIdByTokenHash w; matches := matches w;
     drawn := f (drawn w); outbox := outbox w |}.

Definition upd_outbox (f : list Effect → list Effect) (w : World) : World :=
  {| queueByBucket := queueByBucket w; queueEntryBySocket := queueEntryBySocket w;
     activeRooms := activeRooms w; pendingReadyById := pendingReadyById w;
     socketState := socketState w; playerSocket := playerSocket w;
     roomSequence := roomSequence w; readySequence := readySequence w; rooms := rooms w;
     readies := readies w; sockets := sockets w; joined := joined w; timers := timers w;
     nextTimer := nextTimer w; playersById := playersById w;
     playerIdByTokenHash := playerIdByTokenHash w; matches := matches w; drawn := drawn w;
     outbox := f (outbox w) |}.

Definition emit (e : Effect) : World → World := upd_outbox (λ o, o ++ [e]).

(** ** Room members

    [room.members] is a [Map] from player ids to member objects, iterated
    in insertion order. *)

Definition isPlayer (playerId : string) (member : RoomMember) : bool :=
  String.eqb (rm_playerId member) playerId.

Definition getMember (playerId : string) (members : list RoomMember) : option RoomMember :=
  List.find (isPlayer playerId) members.

(** A write to fields of the member object stored under [playerId]. *)
Fixpoint alterMember (playerId : string) (f : RoomMember → RoomMember)
    (members : list RoomMember) : list RoomMember :=
  match members with
  | [] => []
  | m :: rest =>
      if isPlayer playerId m then f m :: rest else m :: alterMember playerId f rest
  end.

(** [members.set(member.playerId, member)] *)
Fixpoint setMember (member : RoomMember) (members : list RoomMember) : list RoomMember :=
  match members with
  | [] => [member]
  | m :: rest =>
      if isPlayer (rm_playerId member) m then member :: rest else m :: setMember member rest
  end.

Definition withConnection (socketId : option string) (disconnectedAt : option Z)
    (m : RoomMember) : RoomMember :=
  {| rm_playerId := rm_playerId m; rm_nickname := rm_nickname m;
     rm_partySize := rm_partySize m; rm_ratingBefore := rm_ratingBefore m;
     rm_ratingAfter := rm_ratingAfter m; rm_team := rm_team m; rm_slots := rm_slots m;
     rm_reconnectToken := rm_reconnectToken m; rm_reconnectCount := rm_reconnectCount m;
     rm_socketId := socketId; rm_disconnectedAt := disconnectedAt;
     rm_abandoned := rm_abandoned m |}.

Definition withAbandoned (abandoned : bool) (m : RoomMember) : RoomMember :=
  {| rm_playerId := rm_playerId m; rm_nickname := rm_nickname m;
     rm_partySize := rm_partySize m; rm_ratingBefore := rm_ratingBefore m;
     rm_ratingAfter := rm_ratingAfter m; rm_team := rm_team m; rm_slots := rm_slots m;
     rm_reconnectToken := rm_reconnectToken m; rm_reconnectCount := rm_reconnectCount m;
     rm_socketId := rm_socketId m; rm_disconnectedAt := rm_disconnectedAt m;
     rm_abandoned := abandoned |}.

Definition withReconnectCount (count : Z) (m : RoomMember) : RoomMember :=
  {| rm_playerId := rm_playerId m; rm_nickname := rm_nickname m;
     rm_partySize := rm_partySize m; rm_ratingBefore := rm_ratingBefore m;
     rm_ratingAfter := rm_ratingAfter m; rm_team := rm_team m; rm_slots := rm_slots m;
     rm_reconnectToken := rm_reconnectToken m; rm_reconnectCount := count;
     rm_socketId := rm_socketId m; rm_disconnectedAt := rm_disconnectedAt m;
     rm_abandoned := rm_abandoned m |}.

Definition withRatingAfter (ratingAfter : jsZ) (m : RoomMember) : RoomMember :=
  {| rm_playerId := rm_playerId m; rm_nickname := rm_nickname m;
     rm_partySize := rm_partySize m; rm_ratingBefore := rm_ratingBefore m;
     rm_ratingAfter := ratingAfter; rm_team := rm_team m; rm_slots := rm_slots m;
     rm_reconnectToken := rm_reconnectToken m; rm_reconnectCount := rm_reconnectCount m;
     rm_socketId := rm_socketId m; rm_disconnectedAt := rm_disconnectedAt m;
     rm_abandoned := rm_abandoned m |}.

Definition withMembers (f : list RoomMember → list RoomMember) (r : Room) : Room :=
  {| room_id := room_id r; room_playlist := room_playlist r; room_region := room_region r;
     room_seed := room_seed r; room_startedAt := room_startedAt r;
     room_createdAt := room_createdAt r; room_members := f (room_members r);
     room_slotOwner := room_slotOwner r; room_serverSeq := room_serverSeq r;
     room_lastSnapshot := room_lastSnapshot r; room_activeSlots := room_activeSlots r;
     room_inactiveSlots := room_inactiveSlots r; room_ended := room_ended r |}.

Definition withEnded (ended : bool) (r : Room) : Room :=
  {| room_id := room_id r; room_playlist := room_playlist r; room_region := room_region r;
     room_seed := room_seed r; room_startedAt := room_startedAt r;
     room_createdAt := room_createdAt r; room_members := room_members r;
     room_slotOwner := room_slotOwner r; room_serverSeq := room_serverSeq r;
     room_lastSnapshot := room_lastSnapshot r; room_activeSlots := room_activeSlots r;
     room_inactiveSlots := room_inactiveSlots r; room_ended := ended |}.

Definition withSnapshot (snapshot : Snapshot) (serverSeq : Z) (r : Room) : Room :=
  {| room_id := room_id r; room_playlist := room_playlist r; room_region := room_region r;
     room_seed := room_seed r; room_startedAt := room_startedAt r;
     room_createdAt := room_createdAt r; room_members := room_members r;
     room_slotOwner := room_slotOwner r; room_serverSeq := serverSeq;
     room_lastSnapshot := snapshot; room_activeSlots := room_activeSlots r;
     room_inactiveSlots := room_inactiveSlots r; room_ended := room_ended r |}.

(** A write to the room object behind the reference [ref]. *)
Definition updRoom (ref : nat) (f : Room → Room) : World → World :=
  upd_rooms (alter f ref).

(** ** RatingService *)

(** [Math.round]: the nearest integer, halves upwards. *)
Definition roundHalfUp (x : R) : Z := Int_part (x + / 2).

Definition expectedScore (avg0 avg1 : jsQ) : option R :=
  a0 ← avg0; a1 ← avg1;
  Some (1 / (1 + Rpower 10 ((Q2R a1 - Q2R a0) / 400)))%R.

Definition resultOfTeam0 (winnerTeam : option team) : R :=
  match winnerTeam with
  | None => (1 / 2)%R
  | Some Team0 => 1%R
  | Some Team1 => 0%R
  end.

Definition resultFor (winnerTeam : option team) (t : team) : MatchResult :=
  match winnerTeam with
  | None => Draw
  | Some w => if decide (w = t) then Win else Loss
  end.

Definition onTeamB (t : team) (member : RoomMember) : bool :=
  bool_decide (rm_team member = t).

Definition buildRatingChanges (participants : list RoomMember) (winnerTeam : option team)
  : list RatingChange :=
  let team0 := List.filter (onTeamB Team0) participants in
  let team1 := List.filter (onTeamB Team1) participants in
  let avg0 := ratingAverage team0 in
  let avg1 := ratingAverage team1 in
  let expected0 := expectedScore avg0 avg1 in
  let result0 := resultOfTeam0 winnerTeam in
  let delta0 : jsZ := e ← expected0; Some (roundHalfUp (IZR ELO_K * (result0 - e))) in
  (λ member,
     let delta := if onTeamB Team0 member then delta0 else jneg delta0 in
     let abandoned := rm_abandoned member in
     let delta := if abandoned then jsub delta (Some ABANDON_PENALTY) else delta in
     let ratingAfter := clampN (jadd (rm_ratingBefore member) delta) 100 4000 in
     {| rc_playerId := rm_playerId member;
        rc_delta := delta;
        rc_ratingBefore := rm_ratingBefore member;
        rc_ratingAfter := ratingAfter;
        rc_abandoned := abandoned;
        rc_reconnectCount := rm_reconnectCount member;
        rc_result := resultFor winnerTeam (rm_team member);
        rc_team := rm_team member;
        rc_slots := rm_slots member;
        rc_partySize := rm_partySize member |}) <$> participants.

(** ** Writes to the fields of a connection's state *)

Definition set_ss_nickname (v : string) (s : SocketState) : SocketState :=
  {| ss_socketId := ss_socketId s; ss_playerId := ss_playerId s; ss_nickname := v;
     ss_rating := ss_rating s; ss_games := ss_games s; ss_wins := ss_wins s;
     ss_losses := ss_losses s; ss_abandons := ss_abandons s;
     ss_partySize := ss_partySize s; ss_playlist := ss_playlist s;
     ss_region := ss_region s; ss_inputMode := ss_inputMode s;
     ss_pendingReadyId := ss_pendingReadyId s; ss_roomId := ss_roomId s;
     ss_slots := ss_slots s; ss_reconnect := ss_reconnect s; ss_pingMs := ss_pingMs s |}.

Definition set_ss_rating (v : jsZ) (s : SocketState) : SocketState :=
  {| ss_socketId := ss_socketId s; ss_playerId := ss_playerId s;
     ss_nickname := ss_nickname s; ss_rating := v; ss_games := ss_games s;
     ss_wins := ss_wins s; ss_losses := ss_losses s; ss_abandons := ss_abandons s;
     ss_partySize := ss_partySize s; ss_playlist := ss_playlist s;
     ss_region := ss_region s; ss_inputMode := ss_inputMode s;
     ss_pendingReadyId := ss_pendingReadyId s; ss_roomId := ss_roomId s;
     ss_slots := ss_slots s; ss_reconnect := ss_reconnect s; ss_pingMs := ss_pingMs s |}.

Definition set_ss_partySize (v : nat) (s : SocketState) : SocketState :=
  {| ss_socketId := ss_socketId s; ss_playerId := ss_playerId s;
     ss_nickname := ss_nickname s; ss_rating := ss_rating s; ss_games := ss_games s;
     ss_wins := ss_wins s; ss_losses := ss_losses s; ss_abandons := ss_abandons s;
     ss_partySize := v; ss_playlist := ss_playlist s; ss_region := ss_region s;
     ss_inputMode := ss_inputMode s; ss_pendingReadyId := ss_pendingReadyId s;
     ss_roomId := ss_roomId s; ss_slots := ss_slots s; ss_reconnect := ss_reconnect s;
     ss_pingMs := ss_pingMs s |}.

Definition set_ss_playlist (v : string) (s : SocketState) : SocketState :=
  {| ss_socketId := ss_socketId s; ss_playerId := ss_playerId s;
     ss_nickname := ss_nickname s; ss_rating := ss_rating s; ss_games := ss_games s;
     ss_wins := ss_wins s; ss_losses := ss_losses s; ss_abandons := ss_abandons s;
     ss_partySize := ss_partySize s; ss_playlist := v; ss_region := ss_region s;
     ss_inputMode := ss_inputMode s; ss_pendingReadyId := ss_pendingReadyId s;
     ss_roomId := ss_roomId s; ss_slots := ss_slots s; ss_reconnect := ss_reconnect s;
     ss_pingMs := ss_pingMs s |}.

Definition set_ss_region (v : string) (s : SocketState) : SocketState :=
  {| ss_socketId := ss_socketId s; ss_playerId := ss_playerId s;
     ss_nickname := ss_nickname s; ss_rating := ss_rating s; ss_games := ss_games s;
     ss_wins := ss_wins s; ss_losses := ss_losses s; ss_abandons := ss_abandons s;
     ss_partySize := ss_partySize s; ss_playlist := ss_playlist s; ss_region := v;
     ss_inputMode := ss_inputMode s; ss_pendingReadyId := ss_pendingReadyId s;
     ss_roomId := ss_roomId s; ss_slots := ss_slots s; ss_reconnect := ss_reconnect s;
     ss_pingMs := ss_pingMs s |}.

Definition set_ss_inputMode (v : string) (s : SocketState) : SocketState :=
  {| ss_socketId := ss_socketId s; ss_playerId := ss_playerId s;
     ss_nickname := ss_nickname s; ss_rating := ss_rating s; ss_games := ss_games s;
     ss_wins := ss_wins s; ss_losses := ss_losses s; ss_abandons := ss_abandons s;
     ss_partySize := ss_partySize s; ss_playlist := ss_playlist s;
     ss_region := ss_region s; ss_inputMode := v; ss_pendingReadyId := ss_pendingReadyId s;
     ss_roomId := ss_roomId s; ss_slots := ss_slots s; ss_reconnect := ss_reconnect s;
     ss_pingMs := ss_pingMs s |}.

Definition set_ss_pendingReadyId (v : option string) (s : SocketState) : SocketState :=
  {| ss_socketId := ss_socketId s; ss_playerId := ss_playerId s;
     ss_nickname := ss_nickname s; ss_rating := ss_rating s; ss_games := ss_games s;
     ss_wins := ss_wins s; ss_losses := ss_losses s; ss_abandons := ss_abandons s;
     ss_partySize := ss_partySize s; ss_playlist := ss_playlist s;
     ss_region := ss_region s; ss_inputMode := ss_inputMode s; ss_pendingReadyId := v;
     ss_roomId := ss_roomId s; ss_slots := ss_slots s; ss_reconnect := ss_reconnect s;
     ss_pingMs := ss_pingMs s |}.

Definition set_ss_roomId (v : option string) (s : SocketState) : SocketState :=
  {| ss_socketId := ss_socketId s; ss_playerId := ss_playerId s;
     ss_nickname := ss_nickname s; ss_rating := ss_rating s; ss_games := ss_games s;
     ss_wins := ss_wins s; ss_losses := ss_losses s; ss_abandons := ss_abandons s;
     ss_partySize := ss_partySize s; ss_playlist := ss_playlist s;
     ss_region := ss_region s; ss_inputMode := ss_inputMode s;
     ss_pendingReadyId := ss_pendingReadyId s; ss_roomId := v; ss_slots := ss_slots s;
     ss_reconnect := ss_reconnect s; ss_pingMs := ss_pingMs s |}.

Definition set_ss_slots (v : list nat) (s : SocketState) : SocketState :=
  {| ss_socketId := ss_socketId s; ss_playerId := ss_playerId s;
     ss_nickname := ss_nickname s; ss_rating := ss_rating s; ss_games := ss_games s;
     ss_wins := ss_wins s; ss_losses := ss_losses s; ss_abandons := ss_abandons s;
     ss_partySize := ss_partySize s; ss_playlist := ss_playlist s;
     ss_region := ss_region s; ss_inputMode := ss_inputMode s;
     ss_pendingReadyId := ss_pendingReadyId s; ss_roomId := ss_roomId s; ss_slots := v;
     ss_reconnect := ss_reconnect s; ss_pingMs := ss_pingMs s |}.

Definition set_ss_reconnect (v : option (string * string)) (s : SocketState) : SocketState :=
  {| ss_socketId := ss_socketId s; ss_playerId := ss_playerId s;
     ss_nickname := ss_nickname s; ss_rating := ss_rating s; ss_games := ss_games s;
     ss_wins := ss_wins s; ss_losses := ss_losses s; ss_abandons := ss_abandons s;
     ss_partySize := ss_partySize s; ss_playlist := ss_playlist s;
     ss_region := ss_region s; ss_inputMode := ss_inputMode s;
     ss_pendingReadyId := ss_pendingReadyId s; ss_roomId := ss_roomId s;
     ss_slots := ss_slots s; ss_reconnect := v; ss_pingMs := ss_pingMs s |}.

Definition set_ss_pingMs (v : Z) (s : SocketState) : SocketState :=
  {| ss_socketId := ss_socketId s; ss_playerId := ss_playerId s;
     ss_nickname := ss_nickname s; ss_rating := ss_rating s; ss_games := ss_games s;
     ss_wins := ss_wins s; ss_losses := ss_losses s; ss_abandons := ss_abandons s;
     ss_partySize := ss_partySize s; ss_playlist := ss_playlist s;
     ss_region := ss_region s; ss_inputMode := ss_inputMode s;
     ss_pendingReadyId := ss_pendingReadyId s; ss_roomId := ss_roomId s;
     ss_slots := ss_slots s; ss_reconnect := ss_reconnect s; ss_pingMs := v |}.

(** [state.roomId = null; state.slots = []; state.reconnect = null] *)
Definition clearRoomState (s : SocketState) : SocketState :=
  set_ss_reconnect None (set_ss_slots [] (set_ss_roomId None s)).

(** ** End of a match: decision *)

Record EndDecision := mkEndDecision {
  ed_reason : string;
  ed_winner : option team;
}.

Definition scoreWinner (score : Z * Z) : option team :=
  if fst score =? snd score then None
  else if fst score >? snd score then Some Team0 else Some Team1.

(** One turn of the loop over the members in [shouldEndRoom]: the member
    that has been away for longer than the grace window is marked, and a
    member that is not abandoned makes its team active. *)
Definition markIfExpired (now : Z) (member : RoomMember) : RoomMember :=
  if negb (truthyS (rm_socketId member)) && truthyT (rm_disconnectedAt member) then
    match rm_disconnectedAt member with
    | Some disconnectedAt =>
        if now - disconnectedAt >? RECONNECT_GRACE_MS then withAbandoned true member
        else member
    | None => member
    end
  else member.

Definition memberTurn (now : Z) (acc : list RoomMember * (bool * bool))
    (member : RoomMember) : list RoomMember * (bool * bool) :=
  let '(seen, (active0, active1)) := acc in
  let member' := markIfExpired now member in
  let active := negb (rm_abandoned member') in
  let teamActive :=
    if active then
      match rm_team member' with
      | Team0 => (true, active1)
      | Team1 => (active0, true)
      end
    else (active0, active1) in
  (seen ++ [member'], teamActive).

Section Server.
(** [Number(process.env.MATCH_SCORE_LIMIT ?? 7)] *)
Variable SCORE_LIMIT : Z.
(** The [n]-th value that [randomUUID()] returns. *)
Variable randomUUID : nat → string.
(** SHA-256 in hexadecimal. *)
Variable hashToken : string → string.
(** The [n]-th value of [Math.floor(Math.random() * 100000)]. *)
Variable randomSeed : nat → Z.

Definition shouldEndRoom (room : Room) (now : Z) : Room * option EndDecision :=
  let score := snap_score (room_lastSnapshot room) in
  if Z.max (fst score) (snd score) >=? SCORE_LIMIT then
    (room, Some {| ed_reason := "Limite de puntuacion alcanzado (" +:+ pretty SCORE_LIMIT +:+ ")";
                   ed_winner := scoreWinner score |})
  else if now - room_startedAt room >? MATCH_MAX_DURATION_MS then
    (room, Some {| ed_reason := "Tiempo maximo de partida alcanzado";
                   ed_winner := scoreWinner score |})
  else
    let '(members, (active0, active1)) :=
      foldl (memberTurn now) ([], (false, false)) (room_members room) in
    let room' := withMembers (λ _, members) room in
    if negb active0 || negb active1 then
      (room', Some {| ed_reason := "Equipo completo abandono la partida";
                      ed_winner := if negb active0 && negb active1 then None
                                   else if active0 then Some Team0 else Some Team1 |})
    else (room', None).

(** ** [MemoryPersistence] *)

Fixpoint stripDashes (s : string) : string :=
  match s with
  | EmptyString => EmptyString
  | String c s' => if Ascii.eqb c "-" then stripDashes s' else String c (stripDashes s')
  end.

(** [createSessionToken()]: two UUIDs without their dashes. *)
Definition createSessionToken (w : World) : string * World :=
  (stripDashes (randomUUID (drawn w)) +:+ stripDashes (randomUUID (S (drawn w))),
   upd_drawn (λ n, S (S n)) w).

Definition createPlayer (nickname tokenHash : string) (providedPlayerId : string)
    (now : Z) (w : World) : Player * World :=
  let '(playerId, w) :=
    if String.eqb providedPlayerId ""
    then ("p_" +:+ randomUUID (drawn w), upd_drawn S w)
    else (providedPlayerId, w) in
  let player :=
    {| pp_playerId := playerId; pp_tokenHash := tokenHash; pp_nickname := nickname;
       pp_rating := Some DEFAULT_RATING; pp_games := 0; pp_wins := 0; pp_losses := 0;
       pp_abandons := 0; pp_createdAt := now; pp_updatedAt := now |} in
  (player,
   upd_playerIdByTokenHash (insert tokenHash playerId)
     (upd_playersById (insert playerId player) w)).

Definition setPlayerRating (rating : jsZ) (p : Player) : Player :=
  {| pp_playerId := pp_playerId p; pp_tokenHash := pp_tokenHash p;
     pp_nickname := pp_nickname p; pp_rating := rating; pp_games := pp_games p;
     pp_wins := pp_wins p; pp_losses := pp_losses p; pp_abandons := pp_abandons p;
     pp_createdAt := pp_createdAt p; pp_updatedAt := pp_updatedAt p |}.

Definition recordResult (entry : RatingChange) (now : Z) (p : Player) : Player :=
  {| pp_playerId := pp_playerId p; pp_tokenHash := pp_tokenHash p;
     pp_nickname := pp_nickname p;
     pp_rating := clampN (rc_ratingAfter entry) 100 4000;
     pp_games := pp_games p + 1;
     pp_wins := match rc_result entry with Win => pp_wins p + 1 | _ => pp_wins p end;
     pp_losses := match rc_result entry with Loss => pp_losses p + 1 | _ => pp_losses p end;
     pp_abandons := if rc_abandoned entry then pp_abandons p + 1 else pp_abandons p;
     pp_createdAt := pp_createdAt p; pp_updatedAt := now |}.

(** One turn of the loop over [matchRecord.players]. *)
Definition applyPlayerResult (now : Z) (w : World) (entry : RatingChange) : World :=
  let w :=
    match playersById w !! rc_playerId entry with
    | Some _ => w
    | None =>
        let '(token, w) := createSessionToken w in
        let '(created, w) :=
          createPlayer ("Jugador-" +:+ sliceLast 4 (rc_playerId entry)) (hashToken token)
                       (rc_playerId entry) now w in
        upd_playersById (alter (setPlayerRating (rc_ratingBefore entry)) (pp_playerId created)) w
    end in
  upd_playersById (alter (recordResult entry now) (rc_playerId entry)) w.

Definition applyMatchResult (matchRecord : MatchRecord) (now : Z) (w : World) : World :=
  let w := foldl (applyPlayerResult now) w (mr_players matchRecord) in
  upd_matches (λ ms, ms ++ [matchRecord]) w.

(** ** End of a match: settlement *)

(** One turn of the loop of [finishRoomForSockets]. *)
Definition finishMember (roomId : string) (payload : MatchEndedPayload)
    (w : World) (member : RoomMember) : World :=
  match rm_socketId member with
  | Some socketId =>
      if negb (truthyS (Some socketId)) then w
      else
        let w := upd_socketState (alter clearRoomState socketId) w in
        if bool_decide (socketId ∈ sockets w) then
          emit (emitTo socketId (matchEnded payload))
               (upd_joined (λ j, j ∖ {[ (socketId, roomId) ]}) w)
        else w
  | None => w
  end.

Definition finishRoomForSockets (ref : nat) (payload : MatchEndedPayload) (w : World)
  : World :=
  match rooms w !! ref with
  | Some room => foldl (finishMember (room_id room) payload) w (room_members room)
  | None => w
  end.

(** [new Map(ratingChanges.map((entry) => [entry.playerId, entry]))] *)
Definition changesByPlayerId (ratingChanges : list RatingChange) : gmap string RatingChange :=
  foldl (λ m entry, <[rc_playerId entry := entry]> m) ∅ ratingChanges.

Definition storeRatingAfter (byPlayerId : gmap string RatingChange) (member : RoomMember)
  : RoomMember :=
  match byPlayerId !! rm_playerId member with
  | Some change => withRatingAfter (rc_ratingAfter change) member
  | None => member
  end.

Definition storeStateRating (byPlayerId : gmap string RatingChange) (w : World)
    (member : RoomMember) : World :=
  match byPlayerId !! rm_playerId member with
  | Some change =>
      match playerSocket w !! rm_playerId member with
      | Some socketId =>
          if truthyS (Some socketId)
          then upd_socketState (alter (set_ss_rating (rc_ratingAfter change)) socketId) w
          else w
      | None => w
      end
  | None => w
  end.

(** [endRoom] up to its [await]: the guard, the flag, the removal from
    [activeRooms], the rating changes and the call of
    [applyMatchResult], whose body in [MemoryPersistence] has no [await]
    of its own and so runs within the call.  The result holds what the
    rest of [endRoom] needs when it resumes, or nothing when the guard
    returned. *)
Definition endRoomBegin (ref : nat) (reason : string) (explicitWinner : option team)
    (now : Z) (w : World) : World * option MatchEndedPayload :=
  match rooms w !! ref with
  | None => (w, None)
  | Some room =>
      if room_ended room then (w, None)
      else
        let w := updRoom ref (withEnded true) w in
        let w := upd_activeRooms (delete (room_id room)) w in
        let '(team0, team1) := snap_score (room_lastSnapshot room) in
        let winnerTeam :=
          match explicitWinner with
          | None => if team0 =? team1 then None
                    else if team0 >? team1 then Some Team0 else Some Team1
          | Some t => Some t
          end in
        let participants := room_members room in
        let ratingChanges := buildRatingChanges participants winnerTeam in
        let byPlayerId := changesByPlayerId ratingChanges in
        let w := updRoom ref (withMembers (fmap (storeRatingAfter byPlayerId))) w in
        let w := foldl (storeStateRating byPlayerId) w participants in
        let w :=
          applyMatchResult
            {| mr_matchId := room_id room; mr_playlist := room_playlist room;
               mr_seed := room_seed room; mr_team0Score := team0; mr_team1Score := team1;
               mr_winnerTeam := winnerTeam; mr_startedAt := room_startedAt room;
               mr_endedAt := now;
               mr_durationSeconds := (inject_Z (now - room_startedAt room) / 1000)%Q;
               mr_players := ratingChanges; mr_storedAt := now |} now w in
        (w, Some {| me_roomId := room_id room; me_reason := reason;
                    me_winnerTeam := winnerTeam; me_score := (team0, team1);
                    me_ratingChanges := ratingChanges |})
  end.

(** [endRoom] from its [await] on. *)
Definition endRoomResume (ref : nat) (payload : MatchEndedPayload) (w : World) : World :=
  finishRoomForSockets ref payload w.

(** [endRoom] run from its call to its end with nothing in between. *)
Definition endRoom (ref : nat) (reason : string) (explicitWinner : option team)
    (now : Z) (w : World) : World :=
  match endRoomBegin ref reason explicitWinner now w with
  | (w', Some payload) => endRoomResume ref payload w'
  | (w', None) => w'
  end.

(** ** Presence of the members of a room *)

Definition updState (socketId : string) (f : SocketState → SocketState)
  : World → World :=
  upd_socketState (alter f socketId).

Definition updMember (ref : nat) (playerId : string) (f : RoomMember → RoomMember)
  : World → World :=
  updRoom ref (withMembers (alterMember playerId f)).

(** [markMemberDisconnected(state, reason)], [state] being the state
    object of the connection [socketId]. *)
Definition markMemberDisconnected (socketId : string) (reason : string) (now : Z)
    (w : World) : World :=
  match socketState w !! socketId with
  | None => w
  | Some state =>
      match ss_roomId state with
      | Some roomId =>
          if negb (truthyS (Some roomId)) then w
          else
            match r ← activeRooms w !! roomId; room ← rooms w !! r; Some (r, room) with
            | None => updState socketId clearRoomState w
            | Some (ref, room) =>
                match getMember (ss_playerId state) (room_members room) with
                | None => updState socketId clearRoomState w
                | Some member =>
                    let disconnectedAt :=
                      if negb (truthyT (rm_disconnectedAt member)) then Some now
                      else rm_disconnectedAt member in
                    let w := updMember ref (ss_playerId state)
                               (withConnection None disconnectedAt) w in
                    let w := emit (emitRoom (room_id room)
                                     (playerLeft (rm_playerId member) (rm_slots member) reason)) w in
                    updState socketId (λ s, set_ss_slots [] (set_ss_roomId None s)) w
                end
            end
      | None => w
      end
  end.

Definition emitPresence (room : Room) (member : RoomMember) (connected : bool)
  : World → World :=
  emit (emitRoom (room_id room)
          (playerPresence (rm_playerId member) (rm_slots member) connected)).

(** What a client presents to come back: [{ roomId, token }], each of
    the two a string or missing. *)
Definition ReconnectPayload := option (option string * option string).

(** [tryReconnectToRoom(socket, state, reconnectPayload)] for the
    connection [socketId] and its state object. *)
Definition tryReconnectToRoom (socketId : string) (reconnectPayload : ReconnectPayload)
    (now : Z) (w : World) : World * bool :=
  match socketState w !! socketId with
  | None => (w, false)
  | Some state =>
      match reconnectPayload ≫= fst, reconnectPayload ≫= snd with
      | Some roomId, Some token =>
          if negb (truthyS (Some roomId)) || negb (truthyS (Some token)) then (w, false)
          else
            match r ← activeRooms w !! roomId; room ← rooms w !! r; Some (r, room) with
            | None => (w, false)
            | Some (ref, room) =>
                match getMember (ss_playerId state) (room_members room) with
                | None => (w, false)
                | Some member =>
                    if negb (String.eqb (rm_reconnectToken member) token) then (w, false)
                    else if truthyT (rm_disconnectedAt member)
                            && (now - default 0 (rm_disconnectedAt member)
                                >? RECONNECT_GRACE_MS)
                    then (w, false)
                    else
                      let w :=
                        match rm_socketId member with
                        | Some old =>
                            if truthyS (Some old) && negb (String.eqb old socketId)
                               && bool_decide (old ∈ sockets w)
                            then emit (forceDisconnect old) w else w
                        | None => w
                        end in
                      let w := updMember ref (ss_playerId state)
                                 (λ m, withReconnectCount (rm_reconnectCount m + 1)
                                         (withConnection (Some socketId) None m)) w in
                      let w := updState socketId
                                 (λ s, set_ss_reconnect (Some (room_id room, rm_reconnectToken member))
                                         (set_ss_slots (rm_slots member)
                                            (set_ss_roomId (Some (room_id room)) s))) w in
                      let w := upd_joined (λ j, {[ (socketId, room_id room) ]} ∪ j) w in
                      let w := emit (emitTo socketId
                                       (matchRejoined (room_id room) (rm_slots member)
                                          (rm_reconnectToken member) (room_playlist room)
                                          (room_region room) (room_lastSnapshot room))) w in
                      let w := emit (emitTo socketId
                                       (stateSnapshot (room_id room) (room_lastSnapshot room)
                                          now (room_serverSeq room))) w in
                      (emitPresence room member true w, true)
                end
            end
      | _, _ => (w, false)
      end
  end.

(** The handler of [leaveMatch] on the connection [socketId]. *)
Definition leaveMatch (socketId : string) (now : Z) (w : World) : World :=
  match socketState w !! socketId with
  | None => w
  | Some currentState =>
      match ss_roomId currentState with
      | Some roomId =>
          if negb (truthyS (Some roomId)) then w
          else
            match r ← activeRooms w !! roomId; room ← rooms w !! r; Some (r, room) with
            | None => updState socketId clearRoomState w
            | Some (ref, room) =>
                match getMember (ss_playerId currentState) (room_members room) with
                | None => w
                | Some member =>
                    let w := updMember ref (ss_playerId currentState)
                               (λ m, withAbandoned true (withConnection None (Some now) m)) w in
                    let w := upd_joined (λ j, j ∖ {[ (socketId, room_id room) ]}) w in
                    let w := emitPresence room member false w in
                    let w := emit (emitRoom (room_id room)
                                     (playerLeft (rm_playerId member) (rm_slots member)
                                        "Jugador salio de la partida")) w in
                    updState socketId clearRoomState w
                end
            end
      | None => w
      end
  end.

(** ** The tick of one room

    One turn of the loop of [tickRooms] over the room object [ref].  The
    simulation engine is a collaborator: [snapshot] is what [game.step]
    returns this tick, and [broadcast] says whether the snapshot timer
    has run out.  When the room is to end, [endRoom] runs up to its
    [await]; what it resumes with is the second component. *)
Definition tickRoom (ref : nat) (snapshot : Snapshot) (broadcast : bool) (now : Z)
    (w : World) : World * option MatchEndedPayload :=
  match rooms w !! ref with
  | None => (w, None)
  | Some room =>
      if room_ended room then (w, None)
      else
        let serverSeq := if broadcast then room_serverSeq room + 1 else room_serverSeq room in
        let room := withSnapshot snapshot serverSeq room in
        let w := updRoom ref (λ _, room) w in
        let w := if broadcast
                 then emit (emitRoom (room_id room)
                              (stateSnapshot (room_id room) snapshot now serverSeq)) w
                 else w in
        let '(room', endDecision) := shouldEndRoom room now in
        let w := updRoom ref (λ _, room') w in
        match endDecision with
        | Some decision => endRoomBegin ref (ed_reason decision) (ed_winner decision) now w
        | None => (w, None)
        end
  end.

(** ** QueueManager *)

(** What a client sends with [joinQueue], and what [cancelReadyCheck]
    passes when it puts a member back: every field a value of its type
    or missing.  The two numbers are whole here (a missing one stands for
    [NaN] as well); what the code makes of any number is in [queueFields]
    below. *)
Record QueuePayload := mkQueuePayload {
  qp_nickname : option string;
  qp_partySize : option Z;
  qp_playlist : option string;
  qp_region : option string;
  qp_inputMode : option string;
  qp_maxPingMs : option Z;
}.

(** [Number(x) || fallback] *)
Definition numberOr (x : option Z) (fallback : Z) : Z :=
  match x with
  | Some n => if n =? 0 then fallback else n
  | None => fallback
  end.

Definition createQueueEntry (socketState : SocketState) (socketId nickname : string)
    (partySize : nat) (playlist region inputMode : string) (maxPingMs joinedAt : Z)
    (w : World) : QueueEntry * World :=
  ({| qe_id := "q_" +:+ randomUUID (drawn w);
      qe_socketId := socketId;
      qe_playerId := ss_playerId socketState;
      qe_nickname := nickname;
      qe_partySize := partySize;
      qe_rating := ss_rating socketState;
      qe_joinedAt := joinedAt;
      qe_playlist := playlist;
      qe_region := region;
      qe_inputMode := inputMode;
      qe_pingMs := ss_pingMs socketState;
      qe_maxPingMs := maxPingMs;
      qe_bucketKey := None |},
   upd_drawn S w).

Definition withBucketKey (key : string) (e : QueueEntry) : QueueEntry :=
  {| qe_id := qe_id e; qe_socketId := qe_socketId e; qe_playerId := qe_playerId e;
     qe_nickname := qe_nickname e; qe_partySize := qe_partySize e;
     qe_rating := qe_rating e; qe_joinedAt := qe_joinedAt e;
     qe_playlist := qe_playlist e; qe_region := qe_region e;
     qe_inputMode := qe_inputMode e; qe_pingMs := qe_pingMs e;
     qe_maxPingMs := qe_maxPingMs e; qe_bucketKey := Some key |}.

(** [list.splice(index, 1)] at the first entry with this id, if any. *)
Fixpoint removeFirstId (id : string) (bucket : list QueueEntry) : list QueueEntry :=
  match bucket with
  | [] => []
  | e :: rest => if String.eqb (qe_id e) id then rest else e :: removeFirstId id rest
  end.

Definition removeQueueEntry (socketId : string) (w : World) : World * option QueueEntry :=
  match queueEntryBySocket w !! socketId with
  | None => (w, None)
  | Some (bucketKey, entry) =>
      let w :=
        match oget bucketKey (queueByBucket w) with
        | Some bucket =>
            let bucket := removeFirstId (qe_id entry) bucket in
            if (length bucket =? 0)%nat then upd_queueByBucket (odelete bucketKey) w
            else upd_queueByBucket (oset bucketKey bucket) w
        | None => upd_queueByBucket (odelete bucketKey) w
        end in
      (upd_queueEntryBySocket (delete socketId) w, Some entry)
  end.

(** The [forEach] of [updateQueuePositions]; [index] is the position of
    the first entry of [bucket]. *)
Fixpoint reportPositions (now : Z) (total : nat) (index : nat) (bucket : list QueueEntry)
    (w : World) : World :=
  match bucket with
  | [] => w
  | entry :: rest =>
      let w :=
        if bool_decide (qe_socketId entry ∈ sockets w) then
          emit (emitTo (qe_socketId entry)
                  (queueUpdate (index + 1) total (qe_playlist entry) (qe_region entry)
                     ((now - qe_joinedAt entry) / 1000) (mmrRangeForEntry entry now))) w
        else w in
      reportPositions now total (S index) rest w
  end.

Definition updateQueuePositions (bucketKey : string) (now : Z) (w : World) : World :=
  match oget bucketKey (queueByBucket w) with
  | Some bucket =>
      let bucket := sort_by byJoinedAt bucket in
      let w := upd_queueByBucket (oset bucketKey bucket) w in
      reportPositions now (length bucket) 0 bucket w
  | None => w
  end.

Definition updateAllQueuePositions (now : Z) (w : World) : World :=
  foldl (λ w key, updateQueuePositions key now w) w (okeys (queueByBucket w)).

(** [MemoryPersistence.updateNickname] *)
Definition updateNickname (playerId nickname : string) (now : Z) : World → World :=
  upd_playersById
    (alter (λ p, {| pp_playerId := pp_playerId p; pp_tokenHash := pp_tokenHash p;
                    pp_nickname := sanitizeNickname (Some nickname);
                    pp_rating := pp_rating p; pp_games := pp_games p;
                    pp_wins := pp_wins p; pp_losses := pp_losses p;
                    pp_abandons := pp_abandons p; pp_createdAt := pp_createdAt p;
                    pp_updatedAt := now |}) playerId).

(** The position that [findIndex] gives, plus one. *)
Fixpoint positionOf (id : string) (index : nat) (bucket : list QueueEntry) : nat :=
  match bucket with
  | [] => 0
  | e :: rest => if String.eqb (qe_id e) id then S index else positionOf id (S index) rest
  end.

(** [enqueueFromSocketState(state, payload, priorityMs)], [state] being
    the state object of the connection [sid]. *)
Definition enqueueFromSocketState (sid : string) (payload : QueuePayload)
    (priorityMs : Z) (now : Z) (w : World) : World :=
  match socketState w !! sid with
  | None => w
  | Some state =>
      let playlist := normalizePlaylist (qp_playlist payload) in
      let playlistConfig := getPlaylistConfig playlist in
      let region := normalizeRegion (qp_region payload) in
      let inputMode := normalizeInputMode (qp_inputMode payload) in
      let nickname :=
        sanitizeNickname (Some (default (ss_nickname state) (qp_nickname payload))) in
      let requestedParty := clamp (numberOr (qp_partySize payload) 1) 1 4 in
      let partySize := clamp requestedParty 1 (Z.of_nat (maxPartySize playlistConfig)) in
      let maxPingMs := clamp (numberOr (qp_maxPingMs payload) DEFAULT_MAX_PING_MS) 80 500 in
      let w := updState sid
                 (λ s, set_ss_inputMode inputMode
                         (set_ss_region region
                            (set_ss_playlist playlist
                               (set_ss_partySize (Z.to_nat partySize)
                                  (set_ss_nickname nickname s))))) w in
      let w := updateNickname (ss_playerId state) nickname now w in
      let joinedAt := now - Z.max 0 priorityMs in
      let '(entry, w) :=
        createQueueEntry state (ss_socketId state) nickname (Z.to_nat partySize)
          playlist region inputMode maxPingMs joinedAt w in
      let key := getBucketKey entry in
      let entry := withBucketKey key entry in
      let bucket := default [] (oget key (queueByBucket w)) in
      let bucket := sort_by byJoinedAt (bucket ++ [entry]) in
      let w := upd_queueByBucket (oset key bucket) w in
      let w := upd_queueEntryBySocket (insert (ss_socketId state) (key, entry)) w in
      let live := bool_decide (ss_socketId state ∈ sockets w) in
      let w :=
        if live then
          emit (emitTo (ss_socketId state)
                  (queued (positionOf (qe_id entry) 0 bucket) (length bucket) playlist region
                     (Z.to_nat partySize) (qe_rating entry) (mmrRangeForEntry entry now))) w
        else w in
      let w :=
        if live && negb (requestedParty =? partySize) then
          emit (emitTo (ss_socketId state)
                  (serverNotice ("Party size ajustado a " +:+ pretty partySize
                                 +:+ " para cola " +:+ pl_label playlistConfig +:+ "."))) w
        else w in
      updateQueuePositions key now w
  end.

(** ** ReadyCheckCoordinator *)

Definition withAccepted (accepted : gset string) (r : ReadyCheck) : ReadyCheck :=
  {| rd_id := rd_id r; rd_playlist := rd_playlist r; rd_region := rd_region r;
     rd_seed := rd_seed r; rd_members := rd_members r; rd_accepted := accepted;
     rd_createdAt := rd_createdAt r; rd_expiresAt := rd_expiresAt r;
     rd_timeoutHandle := rd_timeoutHandle r |}.

Definition withTimeoutHandle (handle : option nat) (r : ReadyCheck) : ReadyCheck :=
  {| rd_id := rd_id r; rd_playlist := rd_playlist r; rd_region := rd_region r;
     rd_seed := rd_seed r; rd_members := rd_members r; rd_accepted := rd_accepted r;
     rd_createdAt := rd_createdAt r; rd_expiresAt := rd_expiresAt r;
     rd_timeoutHandle := handle |}.

Definition updReady (ref : nat) (f : ReadyCheck → ReadyCheck) : World → World :=
  upd_readies (alter f ref).

(** [clearTimeout(handle)] *)
Definition clearTimeout (handle : option nat) : World → World :=
  match handle with
  | Some h => upd_timers (delete h)
  | None => λ w, w
  end.

Definition clearPendingReadyAssociation (ready : ReadyCheck) (w : World) : World :=
  foldl (λ w member,
           updState (rdm_socketId member)
             (λ s, if bool_decide (ss_pendingReadyId s = Some (rd_id ready))
                   then set_ss_pendingReadyId None s else s) w)
        w (rd_members ready).

(** One turn of the second loop of [cancelReadyCheck]. *)
Definition requeueMember (ready : ReadyCheck) (acceptedOnly : bool)
    (excludePlayerId : option string) (now : Z) (w : World) (member : ReadyMember)
  : World :=
  if bool_decide (Some (rdm_playerId member) = excludePlayerId) then w
  else if acceptedOnly && negb (bool_decide (rdm_playerId member ∈ rd_accepted ready)) then w
  else
    match playerSocket w !! rdm_playerId member with
    | None => w
    | Some currentSocketId =>
        if negb (truthyS (Some currentSocketId)) then w
        else
          match socketState w !! currentSocketId with
          | None => w
          | Some state =>
              if truthyS (ss_roomId state) then w
              else
                let w := fst (removeQueueEntry currentSocketId w) in
                enqueueFromSocketState currentSocketId
                  {| qp_nickname := Some (rdm_nickname member);
                     qp_partySize := Some (Z.of_nat (rdm_partySize member));
                     qp_playlist := Some (rd_playlist ready);
                     qp_region := Some (rd_region ready);
                     qp_inputMode := Some (rdm_inputMode member);
                     qp_maxPingMs := None |}
                  QUEUE_REQUEUE_PRIORITY_MS now w
          end
    end.

(** [cancelReadyCheck(ready, reason, { acceptedOnly, excludePlayerId })]
    on the ready-check object [ref]. *)
Definition cancelReadyCheck (ref : nat) (reason : string) (acceptedOnly : bool)
    (excludePlayerId : option string) (now : Z) (w : World) : World :=
  match readies w !! ref with
  | None => w
  | Some ready =>
      match pendingReadyById w !! rd_id ready with
      | None => w
      | Some _ =>
          let w := clearTimeout (rd_timeoutHandle ready) w in
          let w := upd_pendingReadyById (delete (rd_id ready)) w in
          let w := clearPendingReadyAssociation ready w in
          let w :=
            foldl (λ w member,
                     if bool_decide (rdm_socketId member ∈ sockets w)
                     then emit (emitTo (rdm_socketId member)
                                  (readyCancelled (rd_id ready) reason)) w
                     else w)
                  w (rd_members ready) in
          foldl (requeueMember ready acceptedOnly excludePlayerId now) w (rd_members ready)
      end
  end.

(** The callback armed by [setTimeout] for the ready-check object [ref]. *)
Definition readyTimeout (ref : nat) (now : Z) (w : World) : World :=
  match readies w !! ref with
  | None => w
  | Some ready =>
      match pendingReadyById w !! rd_id ready with
      | None => w
      | Some current => cancelReadyCheck current "Ready-check expiro" true None now w
      end
  end.

(** [selected.map(...).filter(Boolean)]: the members of a ready check
    from the selected entries, each with a fresh reconnect token. *)
Fixpoint readyMembers (candidate : Candidate) (selected : list QueueEntry) (w : World)
  : list ReadyMember * World :=
  match selected with
  | [] => ([], w)
  | entry :: rest =>
      match cand_assignmentByEntryId candidate !! qe_id entry,
            cand_slotsByEntryId candidate !! qe_id entry with
      | Some t, Some slots =>
          let member :=
            {| rdm_socketId := qe_socketId entry; rdm_playerId := qe_playerId entry;
               rdm_nickname := qe_nickname entry; rdm_partySize := qe_partySize entry;
               rdm_ratingBefore := qe_rating entry; rdm_team := t; rdm_slots := slots;
               rdm_reconnectToken := "rc_" +:+ randomUUID (drawn w);
               rdm_inputMode := qe_inputMode entry |} in
          let '(members, w) := readyMembers candidate rest (upd_drawn S w) in
          (member :: members, w)
      | _, _ => readyMembers candidate rest w
      end
  end.

Definition rosterOf (members : list ReadyMember) : list RosterEntry :=
  (λ entry, {| ro_playerId := rdm_playerId entry; ro_nickname := rdm_nickname entry;
               ro_partySize := rdm_partySize entry; ro_team := rdm_team entry |})
    <$> members.

(** The last loop of an iteration of [tryCreateReadyChecks]. *)
Definition inviteMember (ready : ReadyCheck) (w : World) (member : ReadyMember) : World :=
  let w := updState (rdm_socketId member) (set_ss_pendingReadyId (Some (rd_id ready))) w in
  if bool_decide (rdm_socketId member ∈ sockets w) then
    emit (emitTo (rdm_socketId member)
            (readyCheck (rd_id ready) (rd_playlist ready) (rd_region ready)
               (rd_expiresAt ready) (size (rd_accepted ready)) (length (rd_members ready))
               (rosterOf (rd_members ready)))) w
  else w.

Definition inCandidate (candidate : Candidate) (entry : QueueEntry) : bool :=
  bool_decide (qe_id entry ∈ qe_id <$> cand_entries candidate).

(** The [while (true)] loop of [tryCreateReadyChecks].  [bucket] is the
    array that the loop holds on to; every turn that does not leave the
    loop takes at least one entry out of it, so [fuel] above its length
    is never used up. *)
Fixpoint readyLoop (fuel : nat) (bucketKey : string) (playlistConfig : PlaylistConfig)
    (now : Z) (bucket : list QueueEntry) (w : World) : World :=
  match fuel with
  | O => w
  | S fuel' =>
      match findBestCandidate now playlistConfig bucket with
      | Throw | Ok None => w
      | Ok (Some candidate) =>
          let selected := reverse (List.filter (inCandidate candidate) bucket) in
          let w := foldl (λ w entry, upd_queueEntryBySocket (delete (qe_socketId entry)) w)
                     w selected in
          let bucket := List.filter (λ e, negb (inCandidate candidate e)) bucket in
          let w := match oget bucketKey (queueByBucket w) with
                   | Some _ => upd_queueByBucket (oset bucketKey bucket) w
                   | None => w
                   end in
          match selected with
          | [] => w
          | first :: _ =>
              let w := if (length bucket =? 0)%nat
                       then upd_queueByBucket (odelete bucketKey) w else w in
              let readyId := "ready-" +:+ pretty (readySequence w) in
              let w := upd_readySequence S w in
              let seed := pretty now +:+ "-" +:+ pretty (randomSeed (drawn w)) in
              let w := upd_drawn S w in
              let '(members, w) := readyMembers candidate selected w in
              if (length members =? 0)%nat
              then readyLoop fuel' bucketKey playlistConfig now bucket w
              else
                let ref := length (readies w) in
                let handle := nextTimer w in
                let ready :=
                  {| rd_id := readyId; rd_playlist := qe_playlist first;
                     rd_region := qe_region first; rd_seed := seed; rd_members := members;
                     rd_accepted := ∅; rd_createdAt := now;
                     rd_expiresAt := now + READY_CHECK_MS;
                     rd_timeoutHandle := Some handle |} in
                let w := upd_readies (λ h, h ++ [ready]) w in
                let w := upd_pendingReadyById (insert readyId ref) w in
                let w := upd_timers (insert handle (ref, now + (READY_CHECK_MS + 80))) w in
                let w := upd_nextTimer S w in
                let w := foldl (inviteMember ready) w members in
                readyLoop fuel' bucketKey playlistConfig now bucket w
          end
      end
  end.

Definition tryCreateReadyChecks (bucketKey : string) (now : Z) (w : World) : World :=
  match oget bucketKey (queueByBucket w) with
  | None => w
  | Some bucket =>
      if (length bucket <? 2)%nat then w
      else
        let playlist := default "ranked" (qe_playlist <$> head bucket) in
        let playlistConfig := getPlaylistConfig playlist in
        let w := readyLoop (S (length bucket)) bucketKey playlistConfig now bucket w in
        updateQueuePositions bucketKey now w
  end.

Definition tickQueueMatchmaking (now : Z) (w : World) : World :=
  foldl (λ w key, tryCreateReadyChecks key now w) w (okeys (queueByBucket w)).

(** ** RoomManager: a room from a confirmed ready check *)

(** [array[index] = value], which lengthens the array when it has to. *)
Definition arraySet {A} (index : nat) (value : A) (array : list (option A))
  : list (option A) :=
  if (index <? length array)%nat then <[index := Some value]> array
  else array ++ replicate (index - length array) None ++ [Some value].

Definition seatMember (w : World) (now : Z) (room : Room) (member : ReadyMember) : Room :=
  let live := bool_decide (rdm_socketId member ∈ sockets w) in
  let roomMember :=
    {| rm_playerId := rdm_playerId member; rm_nickname := rdm_nickname member;
       rm_partySize := rdm_partySize member; rm_ratingBefore := rdm_ratingBefore member;
       rm_ratingAfter := rdm_ratingBefore member; rm_team := rdm_team member;
       rm_slots := rdm_slots member; rm_reconnectToken := rdm_reconnectToken member;
       rm_reconnectCount := 0;
       rm_socketId := if live then Some (rdm_socketId member) else None;
       rm_disconnectedAt := if live then None else Some now;
       rm_abandoned := false |} in
  {| room_id := room_id room; room_playlist := room_playlist room;
     room_region := room_region room; room_seed := room_seed room;
     room_startedAt := room_startedAt room; room_createdAt := room_createdAt room;
     room_members := setMember roomMember (room_members room);
     room_slotOwner := foldl (λ owners slot, arraySet slot (rm_playerId roomMember) owners)
                         (room_slotOwner room) (rm_slots roomMember);
     room_serverSeq := room_serverSeq room;
     room_lastSnapshot := room_lastSnapshot room;
     room_activeSlots := room_activeSlots room ∪ list_to_set (rm_slots roomMember);
     room_inactiveSlots := room_inactiveSlots room ∖ list_to_set (rm_slots roomMember);
     room_ended := room_ended room |}.

(** [createRoomFromReady(ready)]; the new engine starts at 0-0. *)
Definition createRoomFromReady (ready : ReadyCheck) (now : Z) (w : World) : World :=
  let roomId := "match-" +:+ pretty (roomSequence w) in
  let w := upd_roomSequence S w in
  let empty :=
    {| room_id := roomId; room_playlist := rd_playlist ready;
       room_region := rd_region ready; room_seed := rd_seed ready;
       room_startedAt := now; room_createdAt := now; room_members := [];
       room_slotOwner := [None; None; None; None]; room_serverSeq := 0;
       room_lastSnapshot := {| snap_score := (0, 0) |};
       room_activeSlots := ∅; room_inactiveSlots := list_to_set [0; 1; 2; 3]%nat;
       room_ended := false |} in
  let room := foldl (seatMember w now) empty (rd_members ready) in
  let w :=
    foldl (λ w member,
             updState (rdm_socketId member)
               (λ s, set_ss_reconnect (Some (roomId, rdm_reconnectToken member))
                       (set_ss_pendingReadyId None
                          (set_ss_slots (rdm_slots member)
                             (set_ss_roomId (Some roomId) s)))) w)
          w (rd_members ready) in
  let ref := length (rooms w) in
  let w := upd_rooms (λ h, h ++ [room]) w in
  let w := upd_activeRooms (insert roomId ref) w in
  foldl (λ w member,
           if bool_decide (rdm_socketId member ∈ sockets w) then
             let w := upd_joined (λ j, {[ (rdm_socketId member, roomId) ]} ∪ j) w in
             let w := emit (emitTo (rdm_socketId member)
                              (matchFound roomId (room_seed room) (room_playlist room)
                                 (room_region room) (rdm_slots member)
                                 (rdm_reconnectToken member))) w in
             emit (emitTo (rdm_socketId member)
                     (stateSnapshot roomId (room_lastSnapshot room) now
                        (room_serverSeq room))) w
           else w)
        w (rd_members ready).

(** What a client sends with [readyCheckResponse]. *)
Record ReadyResponse := mkReadyResponse {
  rr_matchId : option string;
  rr_accept : option bool;
}.

(** [acceptReady(socket, payload)] on the connection [socketId]. *)
Definition acceptReady (socketId : string) (payload : ReadyResponse) (now : Z)
    (w : World) : World :=
  match socketState w !! socketId with
  | None => w
  | Some state =>
      match ss_pendingReadyId state with
      | None => w
      | Some pendingReadyId =>
          if negb (truthyS (Some pendingReadyId)) then w
          else
            let readyId := default pendingReadyId (rr_matchId payload) in
            match r ← pendingReadyById w !! readyId; ready ← readies w !! r; Some (r, ready) with
            | None => updState socketId (set_ss_pendingReadyId None) w
            | Some (ref, ready) =>
                if negb (existsb (λ entry, String.eqb (rdm_playerId entry) (ss_playerId state))
                           (rd_members ready))
                then w
                else if bool_decide (rr_accept payload = Some false) then
                  cancelReadyCheck ref "Un jugador rechazo el ready-check" true
                    (Some (ss_playerId state)) now w
                else
                  let accepted := {[ ss_playerId state ]} ∪ rd_accepted ready in
                  let w := updReady ref (withAccepted accepted) w in
                  let w :=
                    foldl (λ w readyMember,
                             if bool_decide (rdm_socketId readyMember ∈ sockets w) then
                               emit (emitTo (rdm_socketId readyMember)
                                       (readyUpdate (rd_id ready) (size accepted)
                                          (length (rd_members ready)))) w
                             else w)
                          w (rd_members ready) in
                  if (size accepted <? length (rd_members ready))%nat then w
                  else
                    let w := clearTimeout (rd_timeoutHandle ready) w in
                    let w := upd_pendingReadyById (delete (rd_id ready)) w in
                    let w := clearPendingReadyAssociation ready w in
                    createRoomFromReady (withAccepted accepted ready) now w
            end
      end
  end.

(** ** The handlers of a connection *)

Definition joinQueue (socketId : string) (payload : QueuePayload) (now : Z) (w : World)
  : World :=
  match socketState w !! socketId with
  | None => w
  | Some socketStateEntry =>
      if truthyS (ss_roomId socketStateEntry) then
        emit (emitTo socketId (serverNotice "Ya estas en una partida activa.")) w
      else if truthyS (ss_pendingReadyId socketStateEntry) then
        emit (emitTo socketId (serverNotice "Ya tienes un ready-check pendiente.")) w
      else
        let w := fst (removeQueueEntry socketId w) in
        let w := enqueueFromSocketState socketId payload 0 now w in
        tickQueueMatchmaking now w
  end.

Definition leaveQueue (socketId : string) (now : Z) (w : World) : World :=
  let '(w, removed) := removeQueueEntry socketId w in
  match removed ≫= qe_bucketKey with
  | Some bucketKey =>
      if truthyS (Some bucketKey) then updateQueuePositions bucketKey now w
      else updateAllQueuePositions now w
  | None => updateAllQueuePositions now w
  end.

(** The handler of [disconnect]; the socket is gone from
    [io.sockets.sockets] by the time it runs. *)
Definition disconnect (socketId : string) (now : Z) (w : World) : World :=
  let w := upd_sockets (λ ss, ss ∖ {[ socketId ]}) w in
  match socketState w !! socketId with
  | None => w
  | Some current =>
      let w := fst (removeQueueEntry socketId w) in
      let w :=
        match ss_pendingReadyId current with
        | Some pendingReadyId =>
            if truthyS (Some pendingReadyId) then
              match pendingReadyById w !! pendingReadyId with
              | Some ready =>
                  cancelReadyCheck ready "Jugador desconectado durante ready-check" true
                    (Some (ss_playerId current)) now w
              | None => w
              end
            else w
        | None => w
        end in
      let w := markMemberDisconnected socketId "Jugador desconectado" now w in
      let w := if bool_decide (playerSocket w !! ss_playerId current = Some socketId)
               then upd_playerSocket (delete (ss_playerId current)) w else w in
      let w := upd_socketState (delete socketId) w in
      updateAllQueuePositions now w
  end.

(** What [persistence.getOrCreatePlayer] hands to the handler of
    [connection]; the lookup itself belongs to the gateway. *)
Record Identity := mkIdentity {
  id_playerId : string;
  id_nickname : string;
  id_rating : jsZ;
  id_games : Z;
  id_wins : Z;
  id_losses : Z;
  id_abandons : Z;
}.

(** The handler of [connection] from the point where the identity of the
    player is known. *)
Definition connect (socketId : string) (player : Identity)
    (reconnect : ReconnectPayload) (now : Z) (w : World) : World :=
  let w := upd_sockets (λ ss, {[ socketId ]} ∪ ss) w in
  let w :=
    match playerSocket w !! id_playerId player with
    | Some activeSocketForPlayer =>
        if truthyS (Some activeSocketForPlayer)
           && negb (String.eqb activeSocketForPlayer socketId)
           && bool_decide (activeSocketForPlayer ∈ sockets w)
        then emit (forceDisconnect activeSocketForPlayer)
               (emit (emitTo activeSocketForPlayer
                        (serverNotice "Tu cuenta se conecto desde otro cliente.")) w)
        else w
    | None => w
    end in
  let w := upd_playerSocket (insert (id_playerId player) socketId) w in
  let w := upd_socketState
             (insert socketId
                {| ss_socketId := socketId; ss_playerId := id_playerId player;
                   ss_nickname := id_nickname player; ss_rating := id_rating player;
                   ss_games := id_games player; ss_wins := id_wins player;
                   ss_losses := id_losses player; ss_abandons := id_abandons player;
                   ss_partySize := 1; ss_playlist := "ranked"; ss_region := "na";
                   ss_inputMode := "mixed"; ss_pendingReadyId := None; ss_roomId := None;
                   ss_slots := []; ss_reconnect := None; ss_pingMs := 80 |}) w in
  let w := emit (emitTo socketId
                   (identity (id_playerId player) (id_nickname player) (id_rating player) now))
             w in
  let '(w, reconnectOk) := tryReconnectToRoom socketId reconnect now w in
  if negb reconnectOk && truthyS (reconnect ≫= fst) then
    emit (emitTo socketId (serverNotice "No se pudo reconectar a la partida previa.")) w
  else w.

(** A timer that is due runs its callback, once. *)
Definition fireTimer (handle : nat) (now : Z) (w : World) : World :=
  match timers w !! handle with
  | Some (ref, due) =>
      if due <=? now then readyTimeout ref now (upd_timers (delete handle) w) else w
  | None => w
  end.

(** ** What happens to the server *)

Inductive Event :=
  | EvConnect (socketId : string) (player : Identity) (reconnect : ReconnectPayload)
      (now : Z)
  | EvJoinQueue (socketId : string) (payload : QueuePayload) (now : Z)
  | EvLeaveQueue (socketId : string) (now : Z)
  | EvReadyCheckResponse (socketId : string) (payload : ReadyResponse) (now : Z)
  | EvLeaveMatch (socketId : string) (now : Z)
  | EvDisconnect (socketId : string) (now : Z)
  | EvQueueTimer (now : Z)
  | EvReadyTimer (handle : nat) (now : Z)
  | EvTickRoom (ref : nat) (snapshot : Snapshot) (broadcast : bool) (now : Z)
  | EvEndRoomResumes (ref : nat) (payload : MatchEndedPayload)
  | EvShutdownRoom (ref : nat) (now : Z).

Definition eventTime (e : Event) : option Z :=
  match e with
  | EvConnect _ _ _ now | EvJoinQueue _ _ now | EvLeaveQueue _ now
  | EvReadyCheckResponse _ _ now | EvLeaveMatch _ now | EvDisconnect _ now
  | EvQueueTimer now | EvReadyTimer _ now | EvTickRoom _ _ _ now
  | EvShutdownRoom _ now => Some now
  | EvEndRoomResumes _ _ => None
  end.

Definition handle (e : Event) (w : World) : World :=
  match e with
  | EvConnect socketId player reconnect now => connect socketId player reconnect now w
  | EvJoinQueue socketId payload now => joinQueue socketId payload now w
  | EvLeaveQueue socketId now => leaveQueue socketId now w
  | EvReadyCheckResponse socketId payload now => acceptReady socketId payload now w
  | EvLeaveMatch socketId now => leaveMatch socketId now w
  | EvDisconnect socketId now => disconnect socketId now w
  | EvQueueTimer now => tickQueueMatchmaking now w
  | EvReadyTimer handle now => fireTimer handle now w
  | EvTickRoom ref snapshot broadcast now => fst (tickRoom ref snapshot broadcast now w)
  | EvEndRoomResumes ref payload => endRoomResume ref payload w
  | EvShutdownRoom ref now => fst (endRoomBegin ref "Servidor en shutdown" None now w)
  end.
End Server.

(** ** [MemoryPersistence.getOrCreatePlayer] *)

(** What the gateway hands out of a stored player. *)
Definition publicPlayer (p : Player) : Identity :=
  {| id_playerId := pp_playerId p; id_nickname := pp_nickname p; id_rating := pp_rating p;
     id_games := pp_games p; id_wins := pp_wins p; id_losses := pp_losses p;
     id_abandons := pp_abandons p |}.

(** [player.nickname = cleanNickname; player.updatedAt = Date.now()] *)
Definition renamePlayer (nickname : string) (now : Z) (p : Player) : Player :=
  {| pp_playerId := pp_playerId p; pp_tokenHash := pp_tokenHash p;
     pp_nickname := nickname; pp_rating := pp_rating p; pp_games := pp_games p;
     pp_wins := pp_wins p; pp_losses := pp_losses p; pp_abandons := pp_abandons p;
     pp_createdAt := pp_createdAt p; pp_updatedAt := now |}.

Record IdentityResult := mkIdentityResult {
  ir_player : Identity;
  ir_playerToken : string;
  ir_created : bool;
}.

Section Gateway.
(** The [n]-th value of [randomUUID()]. *)
Variable randomUUID : nat → string.
(** [hashToken]: the SHA-256 of the token, in hexadecimal. *)
Variable hashToken : string → string.

(** The player that the first lookup finds: the one stored under
    [playerId], if its token hash is the hash supplied. *)
Definition playerByIdAndHash (playerId : option string) (suppliedHash : option string)
    (w : World) : option (string * Player) :=
  match playerId, suppliedHash with
  | Some playerId, Some suppliedHash =>
      if truthyS (Some playerId) && truthyS (Some suppliedHash) then
        match playersById w !! playerId with
        | Some player =>
            if String.eqb (pp_tokenHash player) suppliedHash then Some (playerId, player)
            else None
        | None => None
        end
      else None
  | _, _ => None
  end.

(** The player that the second lookup finds: the owner of the token. *)
Definition playerByHash (suppliedHash : option string) (w : World)
  : option (string * Player) :=
  match suppliedHash with
  | Some suppliedHash =>
      if truthyS (Some suppliedHash) then
        match playerIdByTokenHash w !! suppliedHash with
        | Some tokenOwnerId =>
            if truthyS (Some tokenOwnerId) then
              match playersById w !! tokenOwnerId with
              | Some player => Some (tokenOwnerId, player)
              | None => None
              end
            else None
        | None => None
        end
      else None
  | None => None
  end.

(** [getOrCreatePlayer({ playerId, playerToken, nickname })] *)
Definition getOrCreatePlayer (playerId playerToken nickname : option string) (now : Z)
    (w : World) : IdentityResult * World :=
  let cleanNickname := sanitizeNickname nickname in
  let suppliedToken := trim (default "" playerToken) in
  let suppliedHash :=
    if truthyS (Some suppliedToken) then Some (hashToken suppliedToken) else None in
  let found :=
    match playerByIdAndHash playerId suppliedHash w with
    | Some known => Some known
    | None => playerByHash suppliedHash w
    end in
  match found with
  | Some (key, player) =>
      let player := renamePlayer cleanNickname now player in
      ({| ir_player := publicPlayer player; ir_playerToken := suppliedToken;
          ir_created := false |},
       upd_playersById (insert key player) w)
  | None =>
      let '(issuedToken, w) := createSessionToken randomUUID w in
      let issuedHash := hashToken issuedToken in
      let '(newPlayer, w) :=
        createPlayer randomUUID cleanNickname issuedHash (default "" playerId) now w in
      ({| ir_player := publicPlayer newPlayer; ir_playerToken := issuedToken;
          ir_created := true |}, w)
  end.
End Gateway.

(** ** Player input

    A number of JavaScript that may be anything: [NaN], an infinity, or a
    finite number, taken exactly. *)

Inductive jsNum := NaN | NegInf | PosInf | Fin (q : Q).

(** [Math.min(a, b)] and [Math.max(a, b)] for a finite [a]. *)
Definition minWith (a : Q) (b : jsNum) : jsNum :=
  match b with
  | NaN => NaN
  | NegInf => NegInf
  | PosInf => Fin a
  | Fin q => Fin (if Qle_bool a q then a else q)
  end.

Definition maxWith (a : Q) (b : jsNum) : jsNum :=
  match b with
  | NaN => NaN
  | NegInf => Fin a
  | PosInf => PosInf
  | Fin q => Fin (if Qle_bool a q then q else a)
  end.

(** [clamp(value, min, max)] with finite bounds *)
Definition clampNum (value : jsNum) (min max : Q) : jsNum :=
  maxWith min (minWith max value).

(** [x || 0]: [NaN] and zero are falsy. *)
Definition orZero (x : jsNum) : jsNum :=
  match x with
  | NaN => Fin 0
  | Fin q => if Qeq_bool q 0 then Fin 0 else Fin q
  | other => other
  end.

(** [Number.isFinite(slot) && slot >= 0 && slot <= 3], and
    [slots.includes(slot)]: the seat that [slot] is, if it is one of
    [slots]. *)
Definition ownSeat (slots : list nat) (slot : jsNum) : option nat :=
  match slot with
  | Fin q =>
      if Qle_bool 0 q && Qle_bool q 3
      then List.find (λ s, Qeq_bool (inject_Z (Z.of_nat s)) q) slots
      else None
  | _ => None
  end.

(** [room.slotInputs] and [room.slotFires]: the last axis value of a seat
    with the time it was seen, and the seats that want to fire. *)
Record InputBoard := mkInputBoard {
  slotInputs : gmap nat (jsNum * Z);
  slotFires : gset nat;
}.

Definition emptyBoard : InputBoard := {| slotInputs := ∅; slotFires := ∅ |}.

(** [payload.inputs.fires]: missing, something to iterate over, or
    something else. *)
Inductive FiresField (Value : Type) :=
  | NoFires
  | FiresOf (values : list Value)
  | NotIterable.
Arguments NoFires {Value}.
Arguments FiresOf {Value} values.
Arguments NotIterable {Value}.

(** What a client sends with [playerInput]: the entries of
    [payload.inputs.axes] and of [payload.inputs], where they are there,
    and [payload.inputs.fires]. *)
Record InputPayload (Value : Type) := mkInputPayload {
  ip_axes : option (list (string * Value));
  ip_inputs : option (list (string * Value));
  ip_fires : FiresField Value;
}.
Arguments ip_axes {Value} _.
Arguments ip_inputs {Value} _.
Arguments ip_fires {Value} _.

Section Inputs.
(** The values that a client can send, and what [Number] makes of a value
    and of the key of an object. *)
Variable Value : Type.
Variable NumberOf : Value → jsNum.
Variable NumberOfKey : string → jsNum.

(** One turn of the loop over the entries of [axes]. *)
Definition registerAxis (slots : list nat) (now : Z) (board : InputBoard)
    (entry : string * Value) : InputBoard :=
  match ownSeat slots (NumberOfKey (fst entry)) with
  | Some slot =>
      {| slotInputs :=
           <[slot := (clampNum (orZero (NumberOf (snd entry))) (-1) 1, now)]>
             (slotInputs board);
         slotFires := slotFires board |}
  | None => board
  end.

(** One turn of the loop over [fires]. *)
Definition registerFire (slots : list nat) (board : InputBoard) (slotRaw : Value)
  : InputBoard :=
  match ownSeat slots (NumberOf slotRaw) with
  | Some slot => {| slotInputs := slotInputs board; slotFires := {[ slot ]} ∪ slotFires board |}
  | None => board
  end.

(** [registerInput(socket, payload)] for the connection [socketId];
    [boards] holds the input fields of the room objects, by reference, a
    room without an entry having empty ones.  The second component says
    whether the call ended in a [TypeError], which it does, after the axes
    have been written, when [fires] cannot be iterated over. *)
Definition registerInput (socketId : string) (payload : InputPayload Value) (now : Z)
    (w : World) (boards : gmap nat InputBoard) : gmap nat InputBoard * bool :=
  match socketState w !! socketId with
  | None => (boards, false)
  | Some state =>
      match ss_roomId state with
      | None => (boards, false)
      | Some roomId =>
          if negb (truthyS (Some roomId)) then (boards, false)
          else
            match r ← activeRooms w !! roomId; room ← rooms w !! r; Some (r, room) with
            | None => (boards, false)
            | Some (ref, room) =>
                match getMember (ss_playerId state) (room_members room) with
                | None => (boards, false)
                | Some member =>
                    if negb (bool_decide (rm_socketId member = Some socketId))
                    then (boards, false)
                    else
                      let axes := default (default [] (ip_inputs payload)) (ip_axes payload) in
                      let board := default emptyBoard (boards !! ref) in
                      let board := foldl (registerAxis (rm_slots member) now) board axes in
                      match ip_fires payload with
                      | NotIterable => (<[ref := board]> boards, true)
                      | NoFires => (<[ref := board]> boards, false)
                      | FiresOf fires =>
                          let board := foldl (registerFire (rm_slots member)) board fires in
                          (<[ref := board]> boards, false)
                      end
                end
            end
      end
  end.
End Inputs.

(** * The vocabulary of the properties

    Predicates and relations in which the properties below are stated, and a
    run of the server on which they are tried. *)

(** ** Combinations and seats *)

(** What [evaluatePartition] records is an exact split. *)
Definition exactSplit (entries : list QueueEntry) (teamSize : nat) (b : BestPartition) : Prop :=
  seatsOf (bp_team0 b) = teamSize ∧ seatsOf (bp_team1 b) = teamSize
  ∧ bp_team0 b ++ bp_team1 b ≡ₚ entries.

Definition onTeam (assignmentByEntryId : gmap string team) (t : team) (entry : QueueEntry) : Prop :=
  assignmentByEntryId !! qe_id entry = Some t.

Global Instance onTeam_dec a t e : Decision (onTeam a t e).
Proof. unfold onTeam. apply _. Defined.

(** The seats an entry is given, empty when the slot map has no key for it. *)
Definition seatsGiven (slotMap : gmap string (list nat)) (entry : QueueEntry) : list nat :=
  default [] (slotMap !! qe_id entry).

(** The seats that the members of a ready check hold for team [t]. *)
Definition memberSeats (t : team) (members : list ReadyMember) : nat :=
  foldr (λ member sum, if decide (rdm_team member = t)
                       then rdm_partySize member + sum else sum)%nat 0%nat members.

(** Where a candidate comes from: a combination that passed the three
    filters of [evaluateCurrent]. *)
Definition builtFrom (now : Z) (cfg : PlaylistConfig) (current : list QueueEntry)
    (c : Candidate) : Prop :=
  cand_entries c = current
  ∧ comboCompatible current now = true
  ∧ ∃ partition,
      findBestTeamPartition current (teamSize cfg) = Some partition
      ∧ cand_assignmentByEntryId c = tp_assignmentByEntryId partition
      ∧ assignSlots current (tp_assignmentByEntryId partition) cfg
        = Some (cand_slotsByEntryId c).

(** ** Ratings and end conditions *)

Definition totalWeight (members : list RoomMember) (acc : nat) : nat :=
  foldl (λ sum entry, sum + partySize_of entry)%nat acc members.

(** A team is active when one of its members is not abandoned. *)
Definition teamActive (t : team) (members : list RoomMember) : bool :=
  existsb (λ m, negb (rm_abandoned m) && onTeamB t m) members.

(** How the score decides: the side with more points, nobody on a tie. *)
Definition higherScore (score : Z * Z) (winner : option team) : Prop :=
  (fst score = snd score ∧ winner = None)
  ∨ (fst score > snd score ∧ winner = Some Team0)
  ∨ (fst score < snd score ∧ winner = Some Team1).

(** All members of team [t] are abandoned. *)
Definition allAbandoned (t : team) (members : list RoomMember) : Prop :=
  ∀ m, m ∈ members → rm_team m = t → rm_abandoned m = true.

(** ** Tokens and notifications *)

(** [member], entered under [playerId] in the live room [roomId], holds
    [token]. *)
Definition holdsToken (w : World) (roomId playerId token : string) (member : RoomMember)
  : Prop :=
  ∃ ref room,
    activeRooms w !! roomId = Some ref ∧ rooms w !! ref = Some room
    ∧ getMember playerId (room_members room) = Some member
    ∧ rm_reconnectToken member = token.

(** Reconnect tokens are fresh UUIDs: no two seats of the live rooms
    share one. *)
Definition tokensDistinct (w : World) : Prop :=
  ∀ r1 p1 m1 r2 p2 m2 token,
    holdsToken w r1 p1 token m1 → holdsToken w r2 p2 token m2 → r1 = r2 ∧ p1 = p2.

(** The connections that [finishRoomForSockets] reaches: those of the
    members that have one, as far as the socket is still there. *)
Definition notifiedSockets (w : World) (members : list RoomMember) : list string :=
  omap (λ m, match rm_socketId m with
             | Some socketId =>
                 if truthyS (Some socketId) && bool_decide (socketId ∈ sockets w)
                 then Some socketId else None
             | None => None
             end) members.

(** ** What a step leaves alone

    [quiet] steps touch neither rooms nor ready checks; [grows] steps (the
    queue and the ready checks) leave the rooms alone, keep every
    ready-check object as it is and put into [pendingReadyById] only objects
    that they have just made; [still] steps (the rooms) leave the ready
    checks alone. *)

Definition quiet (w w' : World) : Prop :=
  rooms w' = rooms w ∧ readies w' = readies w
  ∧ pendingReadyById w' = pendingReadyById w ∧ activeRooms w' = activeRooms w.

Definition grows (w w' : World) : Prop :=
  rooms w' = rooms w ∧ activeRooms w' = activeRooms w
  ∧ (∃ more, readies w' = readies w ++ more)
  ∧ (∀ id ref, pendingReadyById w' !! id = Some ref →
               pendingReadyById w !! id = Some ref ∨ (length (readies w) ≤ ref)%nat).

(** Ready checks are as they were. *)
Definition still (w w' : World) : Prop :=
  readies w' = readies w ∧ pendingReadyById w' = pendingReadyById w.

Definition pendingRef (w : World) (ref : nat) : Prop :=
  ∃ id, pendingReadyById w !! id = Some ref.

(** A ready check that is in no entry of [pendingReadyById] (it has been
    confirmed or cancelled) stays out and stays as it is. *)
Definition readyStep (w w' : World) : Prop :=
  ∀ ref ready, readies w !! ref = Some ready → ¬ pendingRef w ref →
    readies w' !! ref = Some ready ∧ ¬ pendingRef w' ref.

(** ** What a step does to the members of a room *)

(** Every room object stays where it is, and its members, one by one and
    in order, are related by [P]. *)
Definition roomsRel (P : RoomMember → RoomMember → Prop) (w w' : World) : Prop :=
  ∀ ref room, rooms w !! ref = Some room →
    ∃ room', rooms w' !! ref = Some room'
             ∧ Forall2 P (room_members room) (room_members room').

(** The member keeps its player and its flag. *)
Definition presence (m m' : RoomMember) : Prop :=
  rm_playerId m' = rm_playerId m ∧ rm_abandoned m' = rm_abandoned m.

(** The member of the player of connection [socketId] has left the match
    at [now]. *)
Definition hasLeft (w : World) (socketId : string) (now : Z) (m m' : RoomMember) : Prop :=
  rm_playerId m' = rm_playerId m ∧ rm_abandoned m' = true
  ∧ rm_socketId m' = None ∧ rm_disconnectedAt m' = Some now
  ∧ ∃ state, socketState w !! socketId = Some state ∧ ss_playerId state = rm_playerId m.

(** The member has been marked, or left as it was, by the tick at [now]. *)
Definition ticked (now : Z) (m m' : RoomMember) : Prop :=
  rm_playerId m' = rm_playerId m
  ∧ (rm_abandoned m' = rm_abandoned m
     ∨ (rm_abandoned m' = true ∧ truthyS (rm_socketId m) = false
        ∧ ∃ t, rm_disconnectedAt m = Some t ∧ now - t > RECONNECT_GRACE_MS)).

(** What one event may do to one member of a room. *)
Definition memberStep (e : Event) (w : World) (m m' : RoomMember) : Prop :=
  rm_playerId m' = rm_playerId m
  ∧ (rm_abandoned m = true → rm_abandoned m' = true)
  ∧ (rm_abandoned m = false → rm_abandoned m' = true →
       (∃ socketId now state,
           e = EvLeaveMatch socketId now
           ∧ socketState w !! socketId = Some state
           ∧ ss_playerId state = rm_playerId m
           ∧ rm_socketId m' = None ∧ rm_disconnectedAt m' = Some now)
       ∨ (∃ ref snapshot broadcast now t,
           e = EvTickRoom ref snapshot broadcast now
           ∧ truthyS (rm_socketId m) = false
           ∧ rm_disconnectedAt m = Some t
           ∧ now - t > RECONNECT_GRACE_MS)).

(** The member entered under [playerId] in the room object [ref]. *)
Definition memberAt (w : World) (ref : nat) (playerId : string) : option RoomMember :=
  room ← rooms w !! ref; getMember playerId (room_members room).

(** ** Two claims of the spec, word for word *)

(** The second claim as the spec states it: an event sets the flag of a member only if
    that member has no connection and its disconnect time lies more than
    the grace window before the event. *)
Definition flaggedOnlyAfterGrace (SCORE_LIMIT : Z) (randomUUID : nat → string)
    (hashToken : string → string) (randomSeed : nat → Z) : Prop :=
  ∀ e w ref playerId m m',
    memberAt w ref playerId = Some m →
    memberAt (handle SCORE_LIMIT randomUUID hashToken randomSeed e w) ref playerId = Some m' →
    rm_abandoned m = false → rm_abandoned m' = true →
    truthyS (rm_socketId m) = false
    ∧ ∃ t now, eventTime e = Some now ∧ rm_disconnectedAt m = Some t
               ∧ now - t > RECONNECT_GRACE_MS.

(** The ninth claim as the spec states it: an event later than the expiry time of a
    ready check does not touch the ready check (no acceptance is recorded). *)
Definition untouchedAfterExpiry (SCORE_LIMIT : Z) (randomUUID : nat → string)
    (hashToken : string → string) (randomSeed : nat → Z) : Prop :=
  ∀ e w ref ready now,
    readies w !! ref = Some ready →
    eventTime e = Some now → rd_expiresAt ready < now →
    readies (handle SCORE_LIMIT randomUUID hashToken randomSeed e w) !! ref = Some ready.

(** ** A run of the server

    Two players connect, queue for a duel with the region ["us east 1"],
    and are matched; the scenarios go on from there. *)

Definition emptyWorld : World :=
  {| queueByBucket := []; queueEntryBySocket := ∅; activeRooms := ∅;
     pendingReadyById := ∅; socketState := ∅; playerSocket := ∅; roomSequence := 1;
     readySequence := 1; rooms := []; readies := []; sockets := ∅; joined := ∅;
     timers := ∅; nextTimer := 0; playersById := ∅; playerIdByTokenHash := ∅;
     matches := []; drawn := 0; outbox := [] |}.

Definition demoUUID (n : nat) : string := pretty n.
Definition demoHash (token : string) : string := "h" +:+ token.
Definition demoSeed (n : nat) : Z := 0.

Definition demoHandle : Event → World → World := handle 7 demoUUID demoHash demoSeed.

Definition run (events : list Event) (w : World) : World :=
  foldl (λ w e, demoHandle e w) w events.

Definition demoPlayer (playerId : string) : Identity :=
  {| id_playerId := playerId; id_nickname := playerId; id_rating := Some 1000;
     id_games := 0; id_wins := 0; id_losses := 0; id_abandons := 0 |}.

Definition duelRequest (region : string) : QueuePayload :=
  {| qp_nickname := None; qp_partySize := Some 1; qp_playlist := Some "duel";
     qp_region := Some region; qp_inputMode := None; qp_maxPingMs := None |}.

Definition acceptIt : ReadyResponse := {| rr_matchId := None; rr_accept := Some true |}.

(** Ana is queued alone. *)
Definition anaQueued : World :=
  run [EvConnect "s1" (demoPlayer "ana") None 0; EvConnect "s2" (demoPlayer "luis") None 0;
       EvJoinQueue "s1" (duelRequest "us east 1") 1000] emptyWorld.

(** Luis has joined and the ready check [ready-1] is out since 2000: it
    expires at 12000 and its timer is due at 12080.  Ana accepts at 3000. *)
Definition anaAccepted : World :=
  run [EvJoinQueue "s2" (duelRequest "us east 1") 2000;
       EvReadyCheckResponse "s1" acceptIt 3000] anaQueued.

(** Luis never answers and the timer runs. *)
Definition timedOut : World := run [EvReadyTimer 0 12080] anaAccepted.

(** Or Luis accepts at 12050, and the match [match-1] starts. *)
Definition playing : World := run [EvReadyCheckResponse "s2" acceptIt 12050] anaAccepted.

(** Ana leaves the match at 20000 and is back on a new connection 10 ms
    later with her token. *)
Definition anaLeft : World := run [EvLeaveMatch "s1" 20000] playing.

(** Luis leaves as well, 5 ms after Ana. *)
Definition bothGone : World := run [EvLeaveMatch "s2" 20005] anaLeft.

Definition anaBack : World :=
  run [EvConnect "s3" (demoPlayer "ana") (Some (Some "match-1", Some "rc_4")) 20010] anaLeft.

(** Or, 10 ms after leaving, Ana is on a new connection that has not
    asked for the match yet. *)
Definition anaKnocks : World :=
  run [EvConnect "s3" (demoPlayer "ana") None 20010] anaLeft.

Definition duelist (playerId : string) (t : team) (seat : nat) : RoomMember :=
  {| rm_playerId := playerId; rm_nickname := playerId; rm_partySize := 1;
     rm_ratingBefore := Some 1000; rm_ratingAfter := Some 1000; rm_team := t;
     rm_slots := [seat]; rm_reconnectToken := "rc_" +:+ playerId; rm_reconnectCount := 0;
     rm_socketId := Some ("socket_" +:+ playerId); rm_disconnectedAt := None;
     rm_abandoned := false |}.

(** Ana's entry in the member table of [match-1]. *)
Definition anaIn (w : World) : RoomMember :=
  default (duelist "ana" Team0 0) (memberAt w 0 "ana").

Definition theRoom (w : World) : Room :=
  default (mkRoom "" "" "" "" 0 0 [] [] 0 (mkSnapshot (0, 0)) ∅ ∅ true) (rooms w !! 0%nat).

Definition theReady (w : World) : ReadyCheck :=
  default (mkReadyCheck "" "" "" "" [] ∅ 0 0 None) (readies w !! 0%nat).

Definition demoEntry (name : string) (partySize : nat) (rating joinedAt : Z) : QueueEntry :=
  {| qe_id := "q_" +:+ name; qe_socketId := "s_" +:+ name; qe_playerId := name;
     qe_nickname := name; qe_partySize := partySize; qe_rating := Some rating;
     qe_joinedAt := joinedAt; qe_playlist := "duel"; qe_region := "na";
     qe_inputMode := "mixed"; qe_pingMs := 80; qe_maxPingMs := 220;
     qe_bucketKey := Some "duel|na" |}.

Definition demoBucket : list QueueEntry :=
  [demoEntry "ana" 1 1000 5; demoEntry "luis" 1 1000 9].

(** ** More vocabulary *)

(** Join order: [a] joined no later than [b]. *)
Definition joinOrder (a b : QueueEntry) : Prop := qe_joinedAt a <= qe_joinedAt b.

(** The counters of a stored player are consistent: no more wins and
    losses than games, no more abandons than games, nothing negative. *)
Definition countsConsistent (p : Player) : Prop :=
  0 <= pp_wins p ∧ 0 <= pp_losses p ∧ 0 <= pp_abandons p
  ∧ pp_wins p + pp_losses p <= pp_games p ∧ pp_abandons p <= pp_games p.

(** The input fields of the room object [ref]. *)
Definition boardOf (boards : gmap nat InputBoard) (ref : nat) : InputBoard :=
  default emptyBoard (boards !! ref).

(** What a call for a member with the seats [slots] at [now] may have done
    to the seat [slot] of a board: nothing, or, if the seat is one of
    [slots], a fire request and an axis value between -1 and 1 seen at
    [now]. *)
Definition seatWritten (slots : list nat) (now : Z) (slot : nat) (b b' : InputBoard)
  : Prop :=
  (slotInputs b' !! slot = slotInputs b !! slot
   ∧ (slot ∈ slotFires b' ↔ slot ∈ slotFires b))
  ∨ (slot ∈ slots ∧ (slot <= 3)%nat
     ∧ (slot ∈ slotFires b → slot ∈ slotFires b')
     ∧ (slotInputs b' !! slot = slotInputs b !! slot
        ∨ ∃ v, slotInputs b' !! slot = Some (Fin v, now) ∧ (-1 <= v <= 1)%Q)).

(** ** Invariants of the ready checks and of the rooms *)

(** A step that leaves the ready checks, their timers and the rooms alone. *)
Definition untouched (w w' : World) : Prop :=
  readies w' = readies w ∧ pendingReadyById w' = pendingReadyById w
  ∧ timers w' = timers w ∧ nextTimer w' = nextTimer w
  ∧ readySequence w' = readySequence w
  ∧ rooms w' = rooms w ∧ activeRooms w' = activeRooms w
  ∧ roomSequence w' = roomSequence w.

(** A step that leaves the ready checks and their timers alone. *)
Definition readySide (w w' : World) : Prop :=
  readies w' = readies w ∧ pendingReadyById w' = pendingReadyById w
  ∧ timers w' = timers w ∧ nextTimer w' = nextTimer w
  ∧ readySequence w' = readySequence w.

(** A step that leaves the rooms alone. *)
Definition roomSide (w w' : World) : Prop :=
  rooms w' = rooms w ∧ activeRooms w' = activeRooms w ∧ roomSequence w' = roomSequence w.

(** What a room object is known by: its id, and whether it has ended. *)
Definition roomTag (room : Room) : string * bool := (room_id room, room_ended room).

(** A step that starts no room and ends none. *)
Definition roomsKeep (w w' : World) : Prop :=
  roomTag <$> rooms w' = roomTag <$> rooms w
  ∧ activeRooms w' = activeRooms w ∧ roomSequence w' = roomSequence w.

(** The players of a ready check. *)
Definition memberIds (ready : ReadyCheck) : gset string :=
  list_to_set (rdm_playerId <$> rd_members ready).

(** The ready checks are in order:
    - a pending id leads to the ready-check object of that id, whose timer
      is armed for [READY_CHECK_MS + 80] after its creation;
    - a timer belongs to a ready check that is pending, and holds its handle;
    - the ids are ["ready-n"] with [n] below [readySequence], no two
      ready-check objects sharing one;
    - only members are among the accepted. *)
Definition readyInv (w : World) : Prop :=
  (∀ id ref, pendingReadyById w !! id = Some ref →
     ∃ ready handle,
       readies w !! ref = Some ready ∧ rd_id ready = id
       ∧ rd_timeoutHandle ready = Some handle
       ∧ timers w !! handle = Some (ref, rd_createdAt ready + (READY_CHECK_MS + 80)))
  ∧ (∀ handle ref due, timers w !! handle = Some (ref, due) →
       (handle < nextTimer w)%nat
       ∧ ∃ ready, readies w !! ref = Some ready
                  ∧ rd_timeoutHandle ready = Some handle
                  ∧ pendingReadyById w !! rd_id ready = Some ref)
  ∧ (∀ ref ready, readies w !! ref = Some ready →
       ∃ n, (n < readySequence w)%nat ∧ rd_id ready = "ready-" +:+ pretty n)
  ∧ (∀ ref1 ref2 ready1 ready2,
       readies w !! ref1 = Some ready1 → readies w !! ref2 = Some ready2 →
       rd_id ready1 = rd_id ready2 → ref1 = ref2)
  ∧ (∀ ref ready, readies w !! ref = Some ready → rd_accepted ready ⊆ memberIds ready).

(** The rooms are in order:
    - [activeRooms] holds the room objects that have not ended, each under
      its own id, and no others;
    - the ids are ["match-n"] with [n] below [roomSequence], no two room
      objects sharing one. *)
Definition roomInv (w : World) : Prop :=
  (∀ id ref, activeRooms w !! id = Some ref →
     ∃ room, rooms w !! ref = Some room ∧ room_id room = id ∧ room_ended room = false)
  ∧ (∀ ref room, rooms w !! ref = Some room → room_ended room = false →
       activeRooms w !! room_id room = Some ref)
  ∧ (∀ ref room, rooms w !! ref = Some room →
       ∃ n, (n < roomSequence w)%nat ∧ room_id room = "match-" +:+ pretty n)
  ∧ (∀ ref1 ref2 room1 room2,
       rooms w !! ref1 = Some room1 → rooms w !! ref2 = Some room2 →
       room_id room1 = room_id room2 → ref1 = ref2).

(** The states that the server can be in: the state it starts in, and
    what the handlers make of a state that it can be in. *)
Inductive reachable (SCORE_LIMIT : Z) (randomUUID : nat → string)
    (hashToken : string → string) (randomSeed : nat → Z) : World → Prop :=
  | reachable_start : reachable SCORE_LIMIT randomUUID hashToken randomSeed emptyWorld
  | reachable_step (e : Event) (w : World) :
      reachable SCORE_LIMIT randomUUID hashToken randomSeed w →
      reachable SCORE_LIMIT randomUUID hashToken randomSeed
        (handle SCORE_LIMIT randomUUID hashToken randomSeed e w).

(** ** More of the run *)

(** The state object of the connection [socketId]. *)
Definition theState (socketId : string) (w : World) : SocketState :=
  default (mkSocketState "" "" "" None 0 0 0 0 0 "" "" "" None None [] None 0)
          (socketState w !! socketId).

(** The record of a duel that Ana won 7-3 against Luis. *)
Definition demoRecord : MatchRecord :=
  {| mr_matchId := "match-1"; mr_playlist := "duel"; mr_seed := "2000-0";
     mr_team0Score := 7; mr_team1Score := 3; mr_winnerTeam := Some Team0;
     mr_startedAt := 12050; mr_endedAt := 30000; mr_durationSeconds := 17.95%Q;
     mr_players := buildRatingChanges [duelist "ana" Team0 0; duelist "luis" Team1 2]
                     (Some Team0);
     mr_storedAt := 30000 |}.

(** Ana has her account, made at her first connection. *)
Definition anaSignedUp : World :=
  snd (getOrCreatePlayer demoUUID demoHash None None (Some "Ana") 0 emptyWorld).

(** What the state of a connection is known by: its connection, its
    player and its room. *)
Definition stateTag (state : SocketState) : string * string * option string :=
  (ss_socketId state, ss_playerId state, ss_roomId state).

(** A step that leaves the connections with their players and rooms. *)
Definition sessionsKeep (w w' : World) : Prop :=
  playerSocket w' = playerSocket w
  ∧ stateTag <$> socketState w' = stateTag <$> socketState w.

(** The connection [socketId] is back in the queue,
    [QUEUE_REQUEUE_PRIORITY_MS] ahead of [now], under what
    [normalizePlaylist] and [normalizeRegion] make of the playlist and the
    region of [ready]; that need not be the region of [ready] itself. *)
Definition requeued (ready : ReadyCheck) (now : Z) (socketId : string) (w : World) : Prop :=
  ∃ key entry,
    queueEntryBySocket w !! socketId = Some (key, entry)
    ∧ qe_socketId entry = socketId
    ∧ qe_joinedAt entry = now - QUEUE_REQUEUE_PRIORITY_MS
    ∧ qe_playlist entry = normalizePlaylist (Some (rd_playlist ready))
    ∧ qe_region entry = normalizeRegion (Some (rd_region ready)).

(** The connection [socketId] has its state, under its own name, and is
    in no room. *)
Definition idle (socketId : string) (w : World) : Prop :=
  ∃ state, socketState w !! socketId = Some state ∧ ss_socketId state = socketId
           ∧ truthyS (ss_roomId state) = false.

(** Ana's entry among the members of [ready-1]. *)
Definition anaInvited (w : World) : ReadyMember :=
  default (mkReadyMember "" "" "" 0 None Team0 [] "" "")
          (List.find (λ member, String.eqb (rdm_playerId member) "ana")
             (rd_members (theReady w))).

(** ** The invariant of the queue *)

(** The entries queued under [key]; a bucket that is not there has none. *)
Definition bucketOf (key : string) (w : World) : list QueueEntry :=
  default [] (oget key (queueByBucket w)).

(** A step that leaves the queue alone, but for the order within the
    buckets: every bucket holds what it held, the index of the
    connections is as it was, no UUID is given back and every state object
    keeps its connection. *)
Definition queueKeep (w w' : World) : Prop :=
  (∀ key, bucketOf key w' ≡ₚ bucketOf key w)
  ∧ queueEntryBySocket w' = queueEntryBySocket w
  ∧ (drawn w ≤ drawn w')%nat
  ∧ ss_socketId <$> socketState w' = ss_socketId <$> socketState w.

(** The queue is in order:
    - the entry that [queueEntryBySocket] has for a connection is an entry
      of that connection and is in the bucket named with it;
    - an entry in a bucket is the one that [queueEntryBySocket] has for its
      connection, under the key of that bucket;
    - no two entries of a bucket have the same id, every id being
      ["q_"] and a UUID drawn before;
    - a state object is the state of the connection it names. *)
Definition queueInv (randomUUID : nat → string) (w : World) : Prop :=
  (∀ socketId key entry,
     queueEntryBySocket w !! socketId = Some (key, entry) →
     qe_socketId entry = socketId ∧ entry ∈ bucketOf key w)
  ∧ (∀ key entry, entry ∈ bucketOf key w →
       queueEntryBySocket w !! qe_socketId entry = Some (key, entry))
  ∧ (∀ key, NoDup (qe_id <$> bucketOf key w))
  ∧ (∀ key entry, entry ∈ bucketOf key w →
       ∃ n, (n < drawn w)%nat ∧ qe_id entry = "q_" +:+ randomUUID n)
  ∧ (∀ socketId state, socketState w !! socketId = Some state →
       ss_socketId state = socketId).

(** ** The end of a room at a tick *)

(** The tick with the outcome [outcome] has ended the room [room], held
    at [ref] in [w]: the reason and the winner are announced, the match is
    recorded once with that winner, and the room, flagged, is out of
    [activeRooms]. *)
Definition endedWith (w : World) (ref : nat) (room : Room)
    (outcome : World * option MatchEndedPayload) (reason : string) (winner : option team)
  : Prop :=
  ∃ payload record,
    snd outcome = Some payload
    ∧ me_reason payload = reason ∧ me_winnerTeam payload = winner
    ∧ matches (fst outcome) = matches w ++ [record]
    ∧ mr_matchId record = room_id room ∧ mr_winnerTeam record = winner
    ∧ activeRooms (fst outcome) = delete (room_id room) (activeRooms w)
    ∧ (room_ended <$> rooms (fst outcome) !! ref) = Some true.

(** The tick has left the room live, and nothing is recorded. *)
Definition goesOn (w : World) (ref : nat) (outcome : World * option MatchEndedPayload)
  : Prop :=
  snd outcome = None
  ∧ matches (fst outcome) = matches w
  ∧ activeRooms (fst outcome) = activeRooms w
  ∧ (room_ended <$> rooms (fst outcome) !! ref) = Some false.

(** ** The expiry time of a ready check *)

(** Every ready check expires [READY_CHECK_MS] after it was made. *)
Definition expiryInv (w : World) : Prop :=
  ∀ ref ready, readies w !! ref = Some ready →
    rd_expiresAt ready = rd_createdAt ready + READY_CHECK_MS.

(** ** The fields of a queue request

    [enqueueFromSocketState] takes the party size and the latency limit
    of the payload through [Number(x) || fallback] and [clamp], and does
    not round them: they may be any number of JavaScript, and a party size
    of 1.5 stays 1.5. *)

(** [x || fallback] for a number [x] and a finite [fallback]: [NaN] and
    zero are falsy. *)
Definition orNum (x : jsNum) (fallback : Q) : jsNum :=
  match x with
  | NaN => Fin fallback
  | Fin q => if Qeq_bool q 0 then Fin fallback else Fin q
  | other => other
  end.

(** What a client sends with [joinQueue]; the two numbers are
    [Number(payload?.partySize)] and [Number(payload?.maxPingMs)]. *)
Record QueueRequest := mkQueueRequest {
  rq_nickname : option string;
  rq_partySize : jsNum;
  rq_playlist : option string;
  rq_region : option string;
  rq_inputMode : option string;
  rq_maxPingMs : jsNum;
}.

Record QueueFields := mkQueueFields {
  qf_playlist : string;
  qf_region : string;
  qf_inputMode : string;
  qf_nickname : string;
  qf_requestedParty : jsNum;
  qf_partySize : jsNum;
  qf_maxPingMs : jsNum;
}.

(** The constants that [enqueueFromSocketState] computes first, from the
    payload and the state of the connection. *)
Definition queueFields (state : SocketState) (request : QueueRequest) : QueueFields :=
  let playlist := normalizePlaylist (rq_playlist request) in
  let playlistConfig := getPlaylistConfig playlist in
  let region := normalizeRegion (rq_region request) in
  let inputMode := normalizeInputMode (rq_inputMode request) in
  let nickname :=
    sanitizeNickname (Some (default (ss_nickname state) (rq_nickname request))) in
  let requestedParty := clampNum (orNum (rq_partySize request) 1) 1 4 in
  let partySize :=
    clampNum requestedParty 1 (inject_Z (Z.of_nat (maxPartySize playlistConfig))) in
  let maxPingMs :=
    clampNum (orNum (rq_maxPingMs request) (inject_Z DEFAULT_MAX_PING_MS)) 80 500 in
  {| qf_playlist := playlist; qf_region := region; qf_inputMode := inputMode;
     qf_nickname := nickname; qf_requestedParty := requestedParty;
     qf_partySize := partySize; qf_maxPingMs := maxPingMs |}.

(** A whole number, or none, as a number of JavaScript. *)
Definition sentNumber (x : option Z) : jsNum :=
  match x with
  | Some n => Fin (inject_Z n)
  | None => NaN
  end.

(** A payload whose numbers are whole or missing. *)
Definition requestOf (payload : QueuePayload) : QueueRequest :=
  {| rq_nickname := qp_nickname payload;
     rq_partySize := sentNumber (qp_partySize payload);
     rq_playlist := qp_playlist payload;
     rq_region := qp_region payload;
     rq_inputMode := qp_inputMode payload;
     rq_maxPingMs := sentNumber (qp_maxPingMs payload) |}.

(** A party of one and a half, for the ranked playlist. *)
Definition oddRequest : QueueRequest :=
  {| rq_nickname := None; rq_partySize := Fin (3 # 2); rq_playlist := Some "ranked";
     rq_region := None; rq_inputMode := None; rq_maxPingMs := PosInf |}.

(** * Properties of the MatchFinder *)

Section SortFacts.
Context {A : Type} (cmp : A → A → Z).

Lemma insert_by_Permutation x l : insert_by cmp x l ≡ₚ x :: l.
Proof.
  induction l as [|y l IH]; simpl; [done|].
  destruct (cmp x y <=? 0); [done|].
  rewrite IH. apply Permutation_swap.
Qed.

Lemma sort_by_Permutation l : sort_by cmp l ≡ₚ l.
Proof.
  unfold sort_by. induction l as [|x l IH]; simpl; [done|].
  by rewrite insert_by_Permutation, IH.
Qed.
End SortFacts.

Lemma seatsOf_app l1 l2 : seatsOf (l1 ++ l2) = (seatsOf l1 + seatsOf l2)%nat.
Proof. unfold seatsOf. induction l1 as [|e l1 IH]; simpl; [done|]. rewrite IH. lia. Qed.

Lemma seatsOf_Permutation l1 l2 : l1 ≡ₚ l2 → seatsOf l1 = seatsOf l2.
Proof.
  unfold seatsOf. induction 1; simpl; try lia.
Qed.

Lemma splitTeams_Permutation pickedSet index entries team0 team1 :
  splitTeams pickedSet index entries = (team0, team1) → team0 ++ team1 ≡ₚ entries.
Proof.
  revert index team0 team1.
  induction entries as [|e rest IH]; intros index team0 team1; simpl.
  - by intros [= <- <-].
  - destruct (splitTeams pickedSet (S index) rest) as [t0 t1] eqn:Hs.
    specialize (IH _ _ _ Hs).
    case_bool_decide; intros [= <- <-]; simpl.
    + by rewrite IH.
    + by rewrite <- Permutation_middle, IH.
  Qed.

Lemma evaluatePartition_exact entries teamSize indices best b :
  (∀ b0, best = Some b0 → exactSplit entries teamSize b0) →
  evaluatePartition entries teamSize indices best = Some b →
  exactSplit entries teamSize b.
Proof.
  intros Hbest. unfold evaluatePartition.
  destruct (splitTeams _ 0 entries) as [team0 team1] eqn:Hs.
  destruct (seatsOf team0 =? teamSize)%nat eqn:H0; simpl; [|by auto].
  destruct (seatsOf team1 =? teamSize)%nat eqn:H1; simpl; [|by auto].
  apply Nat.eqb_eq in H0, H1.
  assert (exactSplit entries teamSize
            {| bp_team0 := team0; bp_team1 := team1;
               bp_diff := qabs (qsub (ratingAverage team0) (ratingAverage team1)) |}) as Hnew.
  { repeat split; simpl; eauto using splitTeams_Permutation. }
  destruct best as [b0|]; [destruct (qltb _ _)|]; intros [= <-]; auto.
Qed.

Lemma partitionLoop_exact entries teamSize rest chosen currentSeats best b :
  (∀ b0, best = Some b0 → exactSplit entries teamSize b0) →
  partitionLoop entries teamSize rest chosen currentSeats best = Some b →
  exactSplit entries teamSize b.
Proof.
  revert chosen currentSeats best b.
  induction rest as [|[i entry] rest IH]; intros chosen currentSeats best b Hbest; simpl.
  - auto.
  - apply IH. intros b0.
    destruct (_ =? teamSize)%nat; [by apply evaluatePartition_exact|].
    destruct (teamSize <? _)%nat; [by auto|].
    by apply IH.
Qed.

Lemma partitionDfs_exact entries teamSize b :
  partitionDfs entries teamSize = Some b → exactSplit entries teamSize b.
Proof.
  unfold partitionDfs. destruct (0 =? teamSize)%nat.
  - apply evaluatePartition_exact. by intros.
  - apply partitionLoop_exact. by intros.
Qed.

Lemma setTeam_lookup t m entries k :
  setTeam t m entries !! k
  = if bool_decide (k ∈ qe_id <$> entries) then Some t else m !! k.
Proof.
  unfold setTeam. revert m.
  induction entries as [|e rest IH]; intros m.
  - case_bool_decide as Hin; [|done]. by apply elem_of_nil in Hin.
  - rewrite fmap_cons. simpl. rewrite IH.
    destruct (decide (k = qe_id e)) as [->|Hne].
    + rewrite lookup_insert_eq.
      rewrite (bool_decide_eq_true_2 (_ ∈ _ :: _)) by (apply elem_of_cons; by left).
      by case_bool_decide.
    + rewrite lookup_insert_ne by done.
      case_bool_decide as H1; case_bool_decide as H2; try done.
      * exfalso. apply H2, elem_of_cons. by right.
      * exfalso. apply elem_of_cons in H2 as [?|?]; done.
Qed.

Lemma filter_Forall_id {A} (P : A → Prop) `{∀ x, Decision (P x)} (l : list A) :
  Forall P l → filter P l = l.
Proof.
  induction 1 as [|x l Hx Hl IH]; [done|].
  rewrite filter_cons_True by done. by rewrite IH.
Qed.

Lemma filter_Forall_nil {A} (P : A → Prop) `{∀ x, Decision (P x)} (l : list A) :
  Forall (λ x, ¬ P x) l → filter P l = [].
Proof.
  induction 1 as [|x l Hx Hl IH]; [done|].
  by rewrite filter_cons_False.
Qed.

Lemma groupByTeam_filter a entries byTeam0 byTeam1 :
  groupByTeam a entries = Some (byTeam0, byTeam1) →
  byTeam0 = filter (onTeam a Team0) entries ∧ byTeam1 = filter (onTeam a Team1) entries.
Proof.
  revert byTeam0 byTeam1.
  induction entries as [|e rest IH]; intros byTeam0 byTeam1; simpl.
  - by intros [= <- <-].
  - destruct (a !! qe_id e) as [t|] eqn:Ht; [|done].
    destruct (groupByTeam a rest) as [[b0 b1]|]; simpl; [|done].
    destruct (IH _ _ eq_refl) as [-> ->].
    destruct t; intros [= <- <-].
    + rewrite filter_cons_True by done.
      rewrite (filter_cons_False (onTeam a Team1)); [done|].
      unfold onTeam. by rewrite Ht.
    + rewrite (filter_cons_False (onTeam a Team0)) by (unfold onTeam; by rewrite Ht).
      by rewrite filter_cons_True.
Qed.

Lemma takeSlots_spec pool teamEntries result pool' result' :
  NoDup (qe_id <$> teamEntries) →
  takeSlots pool teamEntries result = Some (pool', result') →
  pool = concat (seatsGiven result' <$> teamEntries) ++ pool'
  ∧ Forall (λ e, ∃ sl, result' !! qe_id e = Some sl ∧ length sl = qe_partySize e) teamEntries
  ∧ ∀ k, k ∉ qe_id <$> teamEntries → result' !! k = result !! k.
Proof.
  revert pool result.
  induction teamEntries as [|e rest IH]; intros pool result Hnd Htake; simpl in Htake.
  - injection Htake as <- <-. split_and!; auto.
  - destruct (length pool <? qe_partySize e)%nat eqn:Hlen; [done|].
    apply Nat.ltb_ge in Hlen.
    rewrite fmap_cons in Hnd. apply NoDup_cons in Hnd as [Hnotin Hnd].
    destruct (IH _ _ Hnd Htake) as (Hpool & Hall & Hother).
    assert (result' !! qe_id e = Some (take (qe_partySize e) pool)) as He.
    { rewrite Hother by done. apply lookup_insert_eq. }
    split_and!.
    + rewrite fmap_cons. cbn [concat]. unfold seatsGiven at 1. rewrite He.
      cbn [default]. rewrite <- (assoc_L (++)), <- Hpool.
      symmetry. apply take_drop.
    + constructor; [|done]. eexists; split; [done|].
      rewrite length_take. lia.
    + intros k Hk. rewrite fmap_cons in Hk. apply not_elem_of_cons in Hk as [Hk1 Hk2].
      rewrite Hother by done. by apply lookup_insert_ne.
Qed.

Lemma length_concat_seatsGiven slotMap teamEntries :
  Forall (λ e, ∃ sl, slotMap !! qe_id e = Some sl ∧ length sl = qe_partySize e) teamEntries →
  length (concat (seatsGiven slotMap <$> teamEntries)) = seatsOf teamEntries.
Proof.
  induction 1 as [|e l (sl & Hsl & Hlen) _ IH]; [done|].
  rewrite fmap_cons. cbn [concat seatsOf foldr]. rewrite length_app, IH.
  unfold seatsGiven at 1. rewrite Hsl. simpl. fold (seatsOf l). lia.
Qed.

Lemma seatsGiven_ext m1 m2 (entries : list QueueEntry) :
  (∀ e, e ∈ entries → m1 !! qe_id e = m2 !! qe_id e) →
  seatsGiven m1 <$> entries = seatsGiven m2 <$> entries.
Proof.
  intros Heq. apply list_fmap_ext. intros i e He%list_elem_of_lookup_2.
  unfold seatsGiven. by rewrite Heq.
Qed.

(** The team map written by [findBestTeamPartition], read back at the
    entries of the two teams when entry ids are pairwise distinct. *)
Lemma assignment_teams (team0 team1 : list QueueEntry) :
  NoDup (qe_id <$> (team0 ++ team1)) →
  let a := setTeam Team1 (setTeam Team0 ∅ team0) team1 in
  Forall (onTeam a Team0) team0 ∧ Forall (onTeam a Team1) team1.
Proof.
  rewrite fmap_app. intros (Hnd0 & Hdisj & Hnd1)%NoDup_app a.
  split; apply Forall_forall; intros e He; unfold onTeam, a;
    rewrite !setTeam_lookup.
  - rewrite bool_decide_eq_false_2.
    + rewrite bool_decide_eq_true_2; [done|]. by apply list_elem_of_fmap_2.
    + apply Hdisj. by apply list_elem_of_fmap_2.
  - rewrite bool_decide_eq_true_2; [done|]. by apply list_elem_of_fmap_2.
Qed.

Lemma filter_onTeam a (team0 team1 entries : list QueueEntry) :
  Forall (onTeam a Team0) team0 → Forall (onTeam a Team1) team1 →
  team0 ++ team1 ≡ₚ entries →
  filter (onTeam a Team0) entries ≡ₚ team0 ∧ filter (onTeam a Team1) entries ≡ₚ team1.
Proof.
  intros H0 H1 Hperm. rewrite <- Hperm, !filter_app.
  rewrite (filter_Forall_id (onTeam a Team0) team0) by done.
  rewrite (filter_Forall_id (onTeam a Team1) team1) by done.
  rewrite (filter_Forall_nil (onTeam a Team0) team1).
  2:{ eapply Forall_impl; [exact H1|]. unfold onTeam. intros e -> [=]. }
  rewrite (filter_Forall_nil (onTeam a Team1) team0).
  2:{ eapply Forall_impl; [exact H0|]. unfold onTeam. intros e -> [=]. }
  by rewrite app_nil_r.
Qed.

Lemma groupByTeam_Permutation a entries byTeam0 byTeam1 :
  groupByTeam a entries = Some (byTeam0, byTeam1) → byTeam0 ++ byTeam1 ≡ₚ entries.
Proof.
  revert byTeam0 byTeam1.
  induction entries as [|e rest IH]; intros byTeam0 byTeam1; simpl.
  - by intros [= <- <-].
  - destruct (a !! qe_id e) as [t|]; [|done].
    destruct (groupByTeam a rest) as [[b0 b1]|]; simpl; [|done].
    specialize (IH _ _ eq_refl).
    destruct t; intros [= <- <-]; simpl.
    + by rewrite IH.
    + by rewrite <- Permutation_middle, IH.
Qed.

(** Seat assignment on an exact split hands out every seat of both teams. *)
Lemma assignSlots_exact entries a cfg slotMap :
  NoDup (qe_id <$> entries) →
  seatsOf (filter (onTeam a Team0) entries) = length (teamSlots cfg Team0) →
  seatsOf (filter (onTeam a Team1) entries) = length (teamSlots cfg Team1) →
  assignSlots entries a cfg = Some slotMap →
  concat (seatsGiven slotMap <$> entries) ≡ₚ teamSlots cfg Team0 ++ teamSlots cfg Team1
  ∧ Forall (λ e, ∃ sl, slotMap !! qe_id e = Some sl ∧ length sl = qe_partySize e) entries.
Proof.
  intros Hnd Hs0 Hs1. unfold assignSlots.
  destruct (groupByTeam a entries) as [[byTeam0 byTeam1]|] eqn:Hg; simpl; [|done].
  pose proof (groupByTeam_Permutation _ _ _ _ Hg) as Hsplit.
  apply groupByTeam_filter in Hg as [E0 E1]. rewrite <- E0 in Hs0. rewrite <- E1 in Hs1.
  clear E0 E1.
  set (sorted0 := sort_by bySizeThenJoin byTeam0).
  set (sorted1 := sort_by bySizeThenJoin byTeam1).
  assert (sorted0 ≡ₚ byTeam0) as Hp0 by apply sort_by_Permutation.
  assert (sorted1 ≡ₚ byTeam1) as Hp1 by apply sort_by_Permutation.
  assert (sorted0 ++ sorted1 ≡ₚ entries) as Hsorted by (by rewrite Hp0, Hp1).
  assert (NoDup (qe_id <$> (sorted0 ++ sorted1))) as Hnd' by (by rewrite Hsorted).
  rewrite fmap_app in Hnd'. apply NoDup_app in Hnd' as (Hnd0 & Hdisj & Hnd1).
  destruct (takeSlots (teamSlots cfg Team0) sorted0 ∅) as [[pool0 result0]|] eqn:Ht0;
    simpl; [|done].
  destruct (takeSlots (teamSlots cfg Team1) sorted1 result0) as [[pool1 result1]|] eqn:Ht1;
    simpl; [|done].
  intros [= <-].
  destruct (takeSlots_spec _ _ _ _ _ Hnd0 Ht0) as (Hpool0 & Hall0 & _).
  destruct (takeSlots_spec _ _ _ _ _ Hnd1 Ht1) as (Hpool1 & Hall1 & Hkeep).
  assert (∀ e, e ∈ sorted0 → result1 !! qe_id e = result0 !! qe_id e) as Hsame.
  { intros e He. apply Hkeep, Hdisj. by apply list_elem_of_fmap_2. }
  assert (Forall (λ e, ∃ sl, result1 !! qe_id e = Some sl ∧ length sl = qe_partySize e)
            sorted0) as Hall0'.
  { apply Forall_forall. intros e He. rewrite Hsame by done.
    revert e He. by apply Forall_forall. }
  rewrite <- (seatsGiven_ext result1 result0 sorted0) in Hpool0 by done.
  assert (pool0 = []) as ->.
  { apply nil_length_inv. apply (f_equal length) in Hpool0.
    rewrite length_app, length_concat_seatsGiven in Hpool0 by done.
    rewrite (seatsOf_Permutation _ _ Hp0) in Hpool0. lia. }
  assert (pool1 = []) as ->.
  { apply nil_length_inv. apply (f_equal length) in Hpool1.
    rewrite length_app, length_concat_seatsGiven in Hpool1 by done.
    rewrite (seatsOf_Permutation _ _ Hp1) in Hpool1. lia. }
  rewrite app_nil_r in Hpool0, Hpool1.
  split.
  - rewrite <- Hsorted, fmap_app, concat_app. by rewrite <- Hpool0, <- Hpool1.
  - rewrite <- Hsorted. by apply Forall_app.
Qed.

Section CandidateFacts.
Variable now : Z.
Variable cfg : PlaylistConfig.

Lemma compareCandidate_cases a b :
  compareCandidate a b = a ∨ compareCandidate a b = b.
Proof.
  destruct a as [x|], b as [y|]; simpl; auto.
  repeat match goal with |- context [if ?g then _ else _] => destruct g end; auto.
Qed.

Lemma evaluateCurrent_built current best r c :
  evaluateCurrent now cfg current best = Ok r → r = Some c →
  best = Some c ∨ builtFrom now cfg current c.
Proof.
  unfold evaluateCurrent.
  destruct (comboCompatible current now) eqn:Hcompat; simpl;
    [|intros [= <-]; auto].
  destruct (findBestTeamPartition _ _) as [partition|] eqn:Hpart;
    [|intros [= <-]; auto].
  destruct (assignSlots _ _ _) as [slotMap|] eqn:Hslots; [|intros [= <-]; auto].
  destruct current as [|first others]; [done|].
  intros [= <-] Hc.
  match type of Hc with compareCandidate _ (Some ?new) = _ => set (cn := new) in * end.
  destruct (compareCandidate_cases best (Some cn)) as [E|E]; rewrite E in Hc; auto.
  injection Hc as <-. right. unfold builtFrom. simpl.
  split_and!; try done. by exists partition.
Qed.

Lemma candidateLoop_built pool current seatCount best r c :
  candidateLoop now cfg pool current seatCount best = Ok r → r = Some c →
  best = Some c ∨ ∃ sub, sub `sublist_of` pool ∧ builtFrom now cfg (current ++ sub) c.
Proof.
  revert current seatCount best r.
  induction pool as [|entry pool' IH]; intros current seatCount best r; simpl.
  - intros [= <-]. auto.
  - match goal with |- match ?i with _ => _ end = _ → _ => destruct i as [best'|] eqn:Hinner end;
      [|done].
    intros Hloop Hr.
    destruct (IH _ _ _ _ Hloop Hr) as [Hb|(sub & Hsub & Hbuilt)].
    + assert (best = Some c ∨ ∃ sub, sub `sublist_of` pool'
                ∧ builtFrom now cfg ((current ++ [entry]) ++ sub) c) as [?|(sub & Hsub & Hbuilt)].
      { destruct (_ =? totalSeats cfg)%nat.
        - destruct (evaluateCurrent_built _ _ _ _ Hinner Hb) as [?|Hbuilt]; auto.
          right. exists []. split; [apply sublist_nil_l|]. by rewrite app_nil_r.
        - destruct (totalSeats cfg <? _)%nat.
          + injection Hinner as <-. auto.
          + eapply IH; eauto. }
      * auto.
      * right. exists (entry :: sub). split; [by apply sublist_skip|].
        by rewrite <- (assoc_L (++)) in Hbuilt.
    + right. exists sub. split; [by apply sublist_cons|done].
Qed.

Lemma findBestCandidate_built entries c :
  findBestCandidate now cfg entries = Ok (Some c) →
  ∃ sub, sub ⊆+ entries ∧ builtFrom now cfg sub c.
Proof.
  unfold findBestCandidate. destruct (length entries <? 2)%nat; [done|].
  destruct (0 =? totalSeats cfg)%nat.
  - intros Hev. destruct (evaluateCurrent_built _ _ _ _ Hev eq_refl) as [?|Hb]; [done|].
    exists []. split; [apply submseteq_nil_l|done].
  - intros Hloop.
    destruct (candidateLoop_built _ _ _ _ _ _ Hloop eq_refl) as [?|(sub & Hsub & Hb)];
      [done|].
    exists sub. split; [|done].
    rewrite <- (sort_by_Permutation byJoinedAt entries).
    apply sublist_submseteq. etrans; [exact Hsub|apply sublist_take].
Qed.
End CandidateFacts.

Lemma comboCompatible_latency entries now :
  comboCompatible entries now = true →
  ∀ a b, a ∈ entries → b ∈ entries → qe_pingMs a <= qe_maxPingMs b.
Proof.
  induction entries as [|x rest IH].
  - intros _ a b Ha. by apply elem_of_nil in Ha.
  - cbn [comboCompatible]. intros [[Hself Hpairs]%andb_true_iff Hrest]%andb_true_iff.
    specialize (IH Hrest).
    rewrite forallb_forall in Hpairs.
    assert (∀ y, y ∈ rest →
              qe_pingMs x <= qe_maxPingMs y ∧ qe_pingMs y <= qe_maxPingMs x) as Hxy.
    { intros y Hy%list_elem_of_In. specialize (Hpairs y Hy).
      unfold pairCompatible in Hpairs.
      apply andb_true_iff in Hpairs as [_ Hping].
      apply negb_true_iff, orb_false_iff in Hping as [H1 H2]. lia. }
    intros a b [->|Ha]%elem_of_cons [->|Hb]%elem_of_cons.
    + apply negb_true_iff in Hself. lia.
    + by apply Hxy.
    + by apply Hxy.
    + by apply IH.
Qed.

Lemma playlist_slots_length playlist t :
  length (teamSlots (getPlaylistConfig playlist) t) = teamSize (getPlaylistConfig playlist).
Proof. unfold getPlaylistConfig. by destruct (String.eqb _ _), t. Qed.

(** C5.  In every combination that MatchFinder returns, for every pair of
    its entries the observed latency of the one does not exceed the declared
    maximum latency of the other, in both directions. *)
Theorem C5_latency_tolerance_both_ways now playlistConfig entries candidate :
  findBestCandidate now playlistConfig entries = Ok (Some candidate) →
  ∀ a b, a ∈ cand_entries candidate → b ∈ cand_entries candidate →
    qe_pingMs a <= qe_maxPingMs b ∧ qe_pingMs b <= qe_maxPingMs a.
Proof.
  intros (sub & _ & Hentries & Hcompat & _)%findBestCandidate_built a b Ha Hb.
  rewrite Hentries in Ha, Hb.
  split; eapply comboCompatible_latency; eauto.
Qed.

Lemma List_filter_Permutation {A} (f : A → bool) (l1 l2 : list A) :
  l1 ≡ₚ l2 → List.filter f l1 ≡ₚ List.filter f l2.
Proof.
  induction 1 as [|x l1 l2 _ IH|x y l|l1 l2 l3 _ IH1 _ IH2]; simpl.
  - done.
  - destruct (f x); by rewrite IH.
  - destruct (f x), (f y); try done. apply perm_swap.
  - by etrans.
Qed.

(** With distinct ids the entries taken out of the bucket are the entries
    of the candidate. *)
Lemma selected_Permutation candidate bucket :
  NoDup (qe_id <$> bucket) → cand_entries candidate ⊆+ bucket →
  reverse (List.filter (inCandidate candidate) bucket) ≡ₚ cand_entries candidate.
Proof.
  intros Hnd Hsub. rewrite reverse_Permutation.
  apply submseteq_Permutation in Hsub as [others Hothers].
  rewrite (List_filter_Permutation _ _ _ Hothers), List.filter_app.
  rewrite Hothers, fmap_app in Hnd. apply NoDup_app in Hnd as (_ & Hdisj & _).
  assert (List.filter (inCandidate candidate) (cand_entries candidate)
          = cand_entries candidate) as ->.
  { apply forallb_filter_id, forallb_forall. intros e He.
    unfold inCandidate. apply bool_decide_eq_true_2, list_elem_of_fmap_2.
    by apply list_elem_of_In. }
  assert (List.filter (inCandidate candidate) others = []) as ->.
  { assert (Forall (λ e, qe_id e ∉ qe_id <$> cand_entries candidate) others) as Hout.
    { apply Forall_forall. intros e He Hin. apply (Hdisj _ Hin).
      by apply list_elem_of_fmap_2. }
    clear Hdisj Hothers. induction Hout as [|e others He _ IH]; [done|]. simpl.
    unfold inCandidate at 1. by rewrite bool_decide_eq_false_2. }
  by rewrite app_nil_r.
Qed.

(** Entries with a team and seats all become members, with that team and
    those seats. *)
Lemma readyMembers_seats randomUUID candidate selected w :
  Forall (λ e, is_Some (cand_assignmentByEntryId candidate !! qe_id e)
               ∧ is_Some (cand_slotsByEntryId candidate !! qe_id e)) selected →
  let members := fst (readyMembers randomUUID candidate selected w) in
  rdm_slots <$> members = seatsGiven (cand_slotsByEntryId candidate) <$> selected
  ∧ ∀ t, memberSeats t members
         = seatsOf (filter (onTeam (cand_assignmentByEntryId candidate) t) selected).
Proof.
  revert w. induction selected as [|e rest IH]; intros w Hall; [done|].
  apply Forall_cons in Hall as [[[t Ht] [sl Hsl]] Hrest].
  cbn [readyMembers]. rewrite Ht, Hsl.
  specialize (IH (upd_drawn S w) Hrest).
  destruct (readyMembers randomUUID candidate rest (upd_drawn S w)) as [members w'].
  cbn [fst] in *. destruct IH as [IHslots IHteams]. split.
  - rewrite !fmap_cons, IHslots. f_equal. unfold seatsGiven. by rewrite Hsl.
  - intros t'. rewrite filter_cons.
    cbn [memberSeats foldr rdm_team rdm_partySize]. fold (memberSeats t' members).
    rewrite IHteams.
    destruct (decide (t = t')) as [->|Hne].
    + by rewrite decide_True by exact Ht.
    + rewrite decide_False; [done|]. unfold onTeam. rewrite Ht. congruence.
Qed.

(** C4.  In every combination that MatchFinder returns for a playlist, the
    party sizes of the entries assigned to each team add up to exactly
    [teamSize], every entry holds as many seats as its party size, and the
    seats of all entries together are the seats of the playlist, each once.
    The members of the ready check that [tryCreateReadyChecks] makes of the
    combination carry the same teams and seats. *)
Theorem C4_seats_exact randomUUID now playlist entries candidate :
  NoDup (qe_id <$> entries) →
  findBestCandidate now (getPlaylistConfig playlist) entries = Ok (Some candidate) →
  let cfg := getPlaylistConfig playlist in
  (∀ t, seatsOf (filter (onTeam (cand_assignmentByEntryId candidate) t)
                        (cand_entries candidate)) = teamSize cfg)
  ∧ Forall (λ e, ∃ sl, cand_slotsByEntryId candidate !! qe_id e = Some sl
                       ∧ length sl = qe_partySize e) (cand_entries candidate)
  ∧ concat (seatsGiven (cand_slotsByEntryId candidate) <$> cand_entries candidate)
    ≡ₚ teamSlots cfg Team0 ++ teamSlots cfg Team1
  ∧ NoDup (concat (seatsGiven (cand_slotsByEntryId candidate) <$> cand_entries candidate))
  ∧ ∀ w,
      let selected := reverse (List.filter (inCandidate candidate) entries) in
      let members := fst (readyMembers randomUUID candidate selected w) in
      (∀ t, memberSeats t members = teamSize cfg)
      ∧ concat (rdm_slots <$> members) ≡ₚ teamSlots cfg Team0 ++ teamSlots cfg Team1.
Proof.
  intros Hnd Hfind cfg. fold cfg in Hfind.
  apply findBestCandidate_built in Hfind
    as (sub & Hsub & Hentries & _ & partition & Hpart & Hassign & Hslots).
  assert (Hselected : reverse (List.filter (inCandidate candidate) entries) ≡ₚ sub).
  { rewrite <- Hentries. apply selected_Permutation; [done|by rewrite Hentries]. }
  rewrite Hentries, Hassign.
  assert (NoDup (qe_id <$> sub)) as Hnds.
  { assert (qe_id <$> sub ⊆+ qe_id <$> entries) as Hids by (by apply fmap_submseteq).
    apply submseteq_Permutation in Hids as [k Hk]. rewrite Hk in Hnd.
    by apply NoDup_app in Hnd as [? _]. }
  unfold findBestTeamPartition in Hpart.
  destruct (partitionDfs sub (teamSize cfg)) as [best|] eqn:Hdfs; [|done].
  injection Hpart as <-. simpl in *.
  destruct (partitionDfs_exact _ _ _ Hdfs) as (Hs0 & Hs1 & Hperm).
  set (a := setTeam Team1 (setTeam Team0 ∅ (bp_team0 best)) (bp_team1 best)) in *.
  destruct (assignment_teams (bp_team0 best) (bp_team1 best)) as [Hon0 Hon1].
  { by rewrite Hperm. }
  destruct (filter_onTeam a _ _ _ Hon0 Hon1 Hperm) as [Hf0 Hf1].
  assert (∀ t, seatsOf (filter (onTeam a t) sub) = teamSize cfg) as Hteams.
  { intros []; [rewrite (seatsOf_Permutation _ _ Hf0)|rewrite (seatsOf_Permutation _ _ Hf1)];
      done. }
  destruct (assignSlots_exact sub a cfg (cand_slotsByEntryId candidate) Hnds)
    as [Hseats Hall]; try done.
  { rewrite Hteams. symmetry. apply playlist_slots_length. }
  { rewrite Hteams. symmetry. apply playlist_slots_length. }
  split_and!; try done.
  - rewrite Hseats. unfold cfg, getPlaylistConfig.
    destruct (String.eqb playlist "duel"); simpl; compute_done.
  - intros w.
    destruct (readyMembers_seats randomUUID candidate
                (reverse (List.filter (inCandidate candidate) entries)) w)
      as [Hgiven Hsizes].
    { rewrite Hselected. apply Forall_forall. intros e He. split.
      - rewrite Hassign. rewrite <- Hperm in He. apply elem_of_app in He as [He|He].
        + rewrite Forall_forall in Hon0. by exists Team0; apply Hon0.
        + rewrite Forall_forall in Hon1. by exists Team1; apply Hon1.
      - rewrite Forall_forall in Hall. destruct (Hall e He) as (sl & Hsl & _).
        by exists sl. }
    split.
    + intros t. rewrite Hsizes, Hassign, <- (Hteams t).
      apply seatsOf_Permutation. by rewrite Hselected.
    + rewrite Hgiven, Hselected. exact Hseats.
Qed.

(** [current[0]] is there whenever [evaluateCurrent] runs on a combination
    that is not empty. *)
Lemma evaluateCurrent_returns now cfg current best :
  current ≠ [] → ∃ best', evaluateCurrent now cfg current best = Ok best'.
Proof.
  intros Hcurrent. unfold evaluateCurrent.
  destruct (negb _); [by eexists|].
  destruct (findBestTeamPartition _ _); [|by eexists].
  destruct (assignSlots _ _ _); [|by eexists].
  destruct current; [done|]. by eexists.
Qed.

Lemma candidateLoop_returns now cfg pool current seatCount best :
  ∃ best', candidateLoop now cfg pool current seatCount best = Ok best'.
Proof.
  revert current seatCount best.
  induction pool as [|entry pool IH]; intros current seatCount best; simpl; [by eexists|].
  assert (Hinner : ∃ b,
            (if (seatCount + qe_partySize entry =? totalSeats cfg)%nat
             then evaluateCurrent now cfg (current ++ [entry]) best
             else if (totalSeats cfg <? seatCount + qe_partySize entry)%nat then Ok best
                  else candidateLoop now cfg pool (current ++ [entry])
                         (seatCount + qe_partySize entry) best) = Ok b).
  { destruct (_ =? _)%nat.
    - apply evaluateCurrent_returns. by destruct current.
    - destruct (_ <? _)%nat; [by eexists|]. apply IH. }
  destruct Hinner as [b ->]. apply IH.
Qed.

(** With the two playlists of the server [findBestCandidate] does not
    throw. *)
Lemma findBestCandidate_returns now playlist entries :
  ∃ best, findBestCandidate now (getPlaylistConfig playlist) entries = Ok best.
Proof.
  unfold findBestCandidate. destruct (_ <? _)%nat; [by eexists|].
  replace (0 =? totalSeats (getPlaylistConfig playlist))%nat with false.
  - apply candidateLoop_returns.
  - unfold getPlaylistConfig. by destruct (String.eqb _ _).
Qed.

(** * Properties of the RatingService *)

(** The weighted sum over objects without a [rating] is [NaN] from the
    first object on. *)
Lemma weighted_NaN (members : list RoomMember) (sum : jsZ) :
  members ≠ [] →
  foldl (λ sum entry, jadd sum (jmul (rating_of entry) (Some (Z.of_nat (partySize_of entry)))))
        sum members = None.
Proof.
  intros Hne. destruct members as [|m rest]; [congruence|]. simpl.
  assert (jadd sum None = None) as -> by (by destruct sum).
  clear. induction rest as [|m' rest IH]; [done|]. simpl. exact IH.
Qed.

Lemma ratingAverage_members (members : list RoomMember) :
  ratingAverage members = None
  ∨ ratingAverage members = Some (inject_Z DEFAULT_RATING).
Proof.
  destruct members as [|m rest]; [by right|].
  unfold ratingAverage. destruct (_ <=? 0)%nat; [by right|left].
  by rewrite weighted_NaN.
Qed.

Lemma totalWeight_ge members acc : (acc ≤ totalWeight members acc)%nat.
Proof.
  revert acc. induction members as [|m rest IH]; intros acc; simpl; [done|].
  etrans; [|apply IH]. lia.
Qed.

Lemma totalWeight_pos members acc :
  Exists (λ m, (0 < rm_partySize m)%nat) members → (acc < totalWeight members acc)%nat.
Proof.
  intros Hex. revert acc.
  induction Hex as [m rest Hm|m rest _ IH]; intros acc; simpl.
  - eapply Nat.lt_le_trans; [|apply totalWeight_ge]. simpl. lia.
  - eapply Nat.le_lt_trans; [|apply IH]. lia.
Qed.

(** The average over the members of a team is [NaN]. *)
Lemma ratingAverage_members_NaN (members : list RoomMember) :
  Exists (λ m, (0 < rm_partySize m)%nat) members → ratingAverage members = None.
Proof.
  intros Hex. pose proof (totalWeight_pos members 0 Hex) as Hpos.
  unfold ratingAverage. fold (totalWeight members 0).
  destruct (_ <=? 0)%nat eqn:Hle; [apply Nat.leb_le in Hle; lia|].
  destruct members as [|m rest]; [by apply Exists_nil in Hex|].
  by rewrite weighted_NaN.
Qed.

Lemma expectedScore_NaN avg0 avg1 :
  avg0 = None ∨ avg1 = None → expectedScore avg0 avg1 = None.
Proof. intros [-> | ->]; [done|]. by destruct avg0. Qed.

Lemma team_average_NaN (participants : list RoomMember) (member : RoomMember) :
  Forall (λ m, (0 < rm_partySize m)%nat) participants →
  member ∈ participants →
  ratingAverage (List.filter (onTeamB (rm_team member)) participants) = None.
Proof.
  intros Hpos Hin. apply ratingAverage_members_NaN, Exists_exists.
  exists member. split.
  - apply list_elem_of_In, filter_In. split; [by apply list_elem_of_In|].
    unfold onTeamB. by apply bool_decide_eq_true_2.
  - rewrite Forall_forall in Hpos. by apply Hpos.
Qed.

(** C8, as the code has it.  [buildRatingChanges] averages [member.rating],
    a property that the members of a room do not have ([ratingBefore] is
    what they carry), so whenever the room has members with seats the
    average of a team is [NaN], and with it every delta and every new
    rating, whoever won: no delta is positive, none is the negation of
    another, and a draw does not give zero. *)
Theorem C8_rating_deltas_are_NaN (participants : list RoomMember) (winnerTeam : option team) :
  Forall (λ m, (0 < rm_partySize m)%nat) participants →
  Forall (λ change, rc_delta change = None ∧ rc_ratingAfter change = None)
         (buildRatingChanges participants winnerTeam).
Proof.
  intros Hpos. unfold buildRatingChanges.
  apply Forall_fmap, Forall_forall. intros member Hin. simpl.
  pose proof (team_average_NaN participants member Hpos Hin) as Havg.
  assert (expectedScore (ratingAverage (List.filter (onTeamB Team0) participants))
                        (ratingAverage (List.filter (onTeamB Team1) participants)) = None)
    as ->.
  { apply expectedScore_NaN. destruct (rm_team member); auto. }
  simpl. assert (∀ b : bool, (if b then None else jneg None) = (None : jsZ)) as Hd
    by (by intros []).
  rewrite Hd. destruct (rm_abandoned member); simpl; split; try done;
    by destruct (rm_ratingBefore member).
Qed.

(** Two players of rating 1000, one a side, and the first side wins. *)
Lemma C8_rating_deltas_are_NaN_witness :
  Forall (λ change, rc_delta change = None ∧ rc_ratingAfter change = None)
         (buildRatingChanges [duelist "ana" Team0 0; duelist "luis" Team1 2] (Some Team0)).
Proof.
  apply C8_rating_deltas_are_NaN. repeat constructor.
Defined.

(** The same formula on numbers. *)
Lemma expectedScore_equal (avg : Q) : expectedScore (Some avg) (Some avg) = Some (1 / 2)%R.
Proof.
  unfold expectedScore. simpl. f_equal.
  replace ((Q2R avg - Q2R avg) / 400)%R with 0%R by lra.
  rewrite Rpower_O by lra. lra.
Qed.

Lemma roundHalfUp_IZR (z : Z) : roundHalfUp (IZR z) = z.
Proof.
  unfold roundHalfUp. symmetry. apply Int_part_spec. lra.
Qed.

(** What the formula gives for averages that are numbers and equal: 13 for
    a win of team 0, -13 for a loss, 0 for a draw. *)
Lemma delta0_of_equal_averages (avg : Q) (winnerTeam : option team) :
  (e ← expectedScore (Some avg) (Some avg);
   Some (roundHalfUp (IZR ELO_K * (resultOfTeam0 winnerTeam - e))))
  = Some match winnerTeam with
         | Some Team0 => 13
         | Some Team1 => -13
         | None => 0
         end.
Proof.
  rewrite expectedScore_equal. simpl. f_equal. unfold ELO_K.
  destruct winnerTeam as [[]|]; simpl.
  - replace (26 * (1 - 1 / 2))%R with (IZR 13) by lra. apply roundHalfUp_IZR.
  - replace (26 * (0 - 1 / 2))%R with (IZR (-13)) by lra. apply roundHalfUp_IZR.
  - replace (26 * (1 / 2 - 1 / 2))%R with (IZR 0) by lra. apply roundHalfUp_IZR.
Qed.

(** * Properties of the end of a match *)

Lemma memberTurn_foldl now members seen active0 active1 :
  foldl (memberTurn now) (seen, (active0, active1)) members
  = (seen ++ (markIfExpired now <$> members),
     (active0 || teamActive Team0 (markIfExpired now <$> members),
      active1 || teamActive Team1 (markIfExpired now <$> members))).
Proof.
  revert seen active0 active1.
  induction members as [|m rest IH]; intros seen active0 active1.
  - simpl. by rewrite app_nil_r, !orb_false_r.
  - rewrite fmap_cons. cbn [foldl]. unfold memberTurn at 2.
    set (m' := markIfExpired now m).
    assert (∀ t, teamActive t (m' :: (markIfExpired now <$> rest))
                 = (negb (rm_abandoned m') && onTeamB t m')
                   || teamActive t (markIfExpired now <$> rest)) as Hcons by done.
    rewrite !Hcons. unfold onTeamB at 1 2.
    destruct (rm_abandoned m') eqn:Hab, (rm_team m') eqn:Ht; cbn [negb andb orb];
      rewrite IH, <- (assoc_L (++)); cbn [app]; f_equal; f_equal;
      rewrite ?(bool_decide_eq_true_2 (Team0 = Team0)) by done;
      rewrite ?(bool_decide_eq_true_2 (Team1 = Team1)) by done;
      rewrite ?(bool_decide_eq_false_2 (Team0 = Team1)) by done;
      rewrite ?(bool_decide_eq_false_2 (Team1 = Team0)) by done;
      cbn [orb]; rewrite ?orb_true_r; reflexivity.
Qed.

Lemma teamActive_false t members :
  teamActive t members = false
  ↔ ∀ m, m ∈ members → rm_team m = t → rm_abandoned m = true.
Proof.
  unfold teamActive. rewrite <- not_true_iff_false, existsb_exists. split.
  - intros Hno m Hin Ht. destruct (rm_abandoned m) eqn:Hab; [done|].
    exfalso. apply Hno. exists m. split; [by apply list_elem_of_In|].
    rewrite Hab. unfold onTeamB. by rewrite bool_decide_eq_true_2.
  - intros Hall (m & Hin%list_elem_of_In & Hact).
    apply andb_true_iff in Hact as [Hab Ht].
    unfold onTeamB in Ht. apply bool_decide_eq_true_1 in Ht.
    rewrite (Hall m Hin Ht) in Hab. done.
Qed.

Lemma scoreWinner_higherScore score : higherScore score (scoreWinner score).
Proof.
  unfold higherScore, scoreWinner.
  destruct (fst score =? snd score) eqn:Heq; [apply Z.eqb_eq in Heq; auto|].
  apply Z.eqb_neq in Heq.
  destruct (fst score >? snd score) eqn:Hgt.
  - right; left. split; [lia|done].
  - right; right. split; [lia|done].
Qed.

Section EndConditions.
Variable SCORE_LIMIT : Z.

(** [shouldEndRoom] checks, in this order: (a) a score at the limit,
    (b) a match longer than the maximum, (c) a team whose members are all
    abandoned once the members away for longer than the grace window have
    been marked.  (a) and (b) give the side with the higher score, nobody
    on a tie; (c) gives the team that is not abandoned, nobody when both
    are; otherwise the room goes on. *)
Lemma shouldEndRoom_in_order (room : Room) (now : Z) :
  let score := snap_score (room_lastSnapshot room) in
  let result := shouldEndRoom SCORE_LIMIT room now in
  let members := room_members (fst result) in
  (Z.max (fst score) (snd score) >= SCORE_LIMIT →
     ∃ d, snd result = Some d
          ∧ ed_reason d = "Limite de puntuacion alcanzado (" +:+ pretty SCORE_LIMIT +:+ ")"
          ∧ higherScore score (ed_winner d))
  ∧ (Z.max (fst score) (snd score) < SCORE_LIMIT →
     now - room_startedAt room > MATCH_MAX_DURATION_MS →
     ∃ d, snd result = Some d
          ∧ ed_reason d = "Tiempo maximo de partida alcanzado"
          ∧ higherScore score (ed_winner d))
  ∧ (Z.max (fst score) (snd score) < SCORE_LIMIT →
     now - room_startedAt room <= MATCH_MAX_DURATION_MS →
     members = markIfExpired now <$> room_members room
     ∧ (allAbandoned Team0 members ∨ allAbandoned Team1 members →
        ∃ d, snd result = Some d
             ∧ ed_reason d = "Equipo completo abandono la partida"
             ∧ (allAbandoned Team0 members → allAbandoned Team1 members →
                ed_winner d = None)
             ∧ (allAbandoned Team0 members → ¬ allAbandoned Team1 members →
                ed_winner d = Some Team1)
             ∧ (¬ allAbandoned Team0 members → allAbandoned Team1 members →
                ed_winner d = Some Team0))
     ∧ (¬ allAbandoned Team0 members → ¬ allAbandoned Team1 members →
        snd result = None)).
Proof.
  intros score result members. subst result members. unfold shouldEndRoom.
  fold score. split_and!.
  - intros Hmax. destruct (_ >=? SCORE_LIMIT) eqn:Hge; [|lia].
    eexists. simpl. split_and!; try done. apply scoreWinner_higherScore.
  - intros Hmax Hlong. destruct (_ >=? SCORE_LIMIT) eqn:Hge; [lia|].
    destruct (_ >? MATCH_MAX_DURATION_MS) eqn:Hgt; [|lia].
    eexists. simpl. split_and!; try done. apply scoreWinner_higherScore.
  - intros Hmax Hshort. destruct (_ >=? SCORE_LIMIT) eqn:Hge; [lia|].
    destruct (_ >? MATCH_MAX_DURATION_MS) eqn:Hgt; [lia|].
    rewrite memberTurn_foldl. cbn [app orb].
    set (members := markIfExpired now <$> room_members room).
    pose proof (teamActive_false Team0 members) as H0.
    pose proof (teamActive_false Team1 members) as H1.
    fold (allAbandoned Team0 members) in H0. fold (allAbandoned Team1 members) in H1.
    destruct (teamActive Team0 members), (teamActive Team1 members); simpl;
      (split_and!; [done| |]).
    all: try (intros [Ha|Ha]; [apply H0 in Ha|apply H1 in Ha]; done).
    all: try (intros _; eexists; split_and!; [done|done|..]; intros Ha Hb;
              try done; try (apply H0 in Ha; done); try (apply H1 in Hb; done);
              try (exfalso; apply Ha; by apply H0);
              try (exfalso; apply Hb; by apply H1)).
    all: try (intros Ha Hb; try done; exfalso;
              (apply Ha; by apply H0) || (apply Hb; by apply H1)).
Qed.
End EndConditions.

(** What [endRoom] settles: the winner it is given, and the higher score
    when it is given [null]. *)
Lemma endRoomBegin_winner randomUUID hashToken ref reason winner now w room :
  rooms w !! ref = Some room → room_ended room = false →
  ∃ payload,
    snd (endRoomBegin randomUUID hashToken ref reason winner now w) = Some payload
    ∧ me_reason payload = reason
    ∧ me_winnerTeam payload
      = match winner with
        | Some t => Some t
        | None => scoreWinner (snap_score (room_lastSnapshot room))
        end.
Proof.
  intros Hroom Hlive. unfold endRoomBegin. rewrite Hroom, Hlive.
  destruct (snap_score (room_lastSnapshot room)) as [team0 team1]. simpl.
  eexists. split; [reflexivity|]. simpl. split; [reflexivity|].
  unfold scoreWinner. simpl. reflexivity.
Qed.

(** The tick of a live room ends it exactly when [shouldEndRoom] gives a
    decision, with the reason of the decision; the winner of the decision
    goes to [endRoom] as [explicitWinner], where [null] stands for none
    given. *)
Lemma tickRoom_settles SCORE_LIMIT randomUUID hashToken ref snapshot (broadcast : bool) now
    (w : World) (room : Room) :
  rooms w !! ref = Some room → room_ended room = false →
  let serverSeq := if broadcast then room_serverSeq room + 1 else room_serverSeq room in
  let outcome := tickRoom SCORE_LIMIT randomUUID hashToken ref snapshot broadcast now w in
  match snd (shouldEndRoom SCORE_LIMIT (withSnapshot snapshot serverSeq room) now) with
  | Some decision =>
      ∃ payload,
        snd outcome = Some payload
        ∧ me_reason payload = ed_reason decision
        ∧ me_winnerTeam payload
          = match ed_winner decision with
            | Some t => Some t
            | None => scoreWinner (snap_score snapshot)
            end
  | None => snd outcome = None
  end.
Proof.
  intros Hroom Hlive serverSeq outcome. subst outcome. unfold tickRoom.
  rewrite Hroom, Hlive. fold serverSeq.
  destruct (shouldEndRoom SCORE_LIMIT (withSnapshot snapshot serverSeq room) now)
    as [room' decision] eqn:Hend.
  simpl. destruct decision as [decision|]; [|reflexivity].
  assert (Hsnap : room_lastSnapshot room' = snapshot ∧ room_ended room' = false).
  { unfold shouldEndRoom in Hend.
    repeat (case_match; simplify_eq/=); done. }
  destruct Hsnap as [Hsnap Hlive'].
  rewrite <- Hsnap.
  apply endRoomBegin_winner; [|done].
  unfold updRoom. destruct broadcast; simpl;
    rewrite !list_lookup_alter, Hroom; destruct (decide (ref = ref)); done.
Qed.

(** Ana and Luis have both left [match-1] when the room ticks at 1-0:
    [shouldEndRoom] names no winner, and the match is recorded as won by
    Ana's team. *)
Example both_sides_gone_the_score_decides :
  let room := withSnapshot (mkSnapshot (1, 0)) 0 (theRoom bothGone) in
  let w := run [EvTickRoom 0 (mkSnapshot (1, 0)) false 20016] bothGone in
  (ed_winner <$> snd (shouldEndRoom 7 room 20016)) = Some None
  ∧ (mr_winnerTeam <$> matches w) = [Some Team0]
  ∧ (rc_result <$> (matches w ≫= mr_players)) = [Loss; Win].
Proof. vm_compute. repeat split. Qed.

(** * Properties of the ReconnectionManager *)

Lemma getMember_Some playerId members member :
  getMember playerId members = Some member →
  rm_playerId member = playerId ∧ member ∈ members.
Proof.
  unfold getMember. intros Hfind. apply find_some in Hfind as [Hin Hp].
  split; [by apply String.eqb_eq|by apply list_elem_of_In].
Qed.

Lemma tryReconnectToRoom_true socketId payload now w :
  snd (tryReconnectToRoom socketId payload now w) = true →
  ∃ state roomId token member,
    socketState w !! socketId = Some state
    ∧ payload = Some (Some roomId, Some token)
    ∧ holdsToken w roomId (ss_playerId state) token member
    ∧ (∀ t, rm_disconnectedAt member = Some t → t ≠ 0 → now - t <= RECONNECT_GRACE_MS).
Proof.
  unfold tryReconnectToRoom.
  destruct (socketState w !! socketId) as [state|] eqn:Hstate; [|done].
  destruct payload as [[[roomId|] [token|]]|]; simpl; try done.
  destruct (negb (negb (String.eqb roomId "")) || negb (negb (String.eqb token "")));
    [done|].
  destruct (activeRooms w !! roomId) as [ref|] eqn:Hactive; simpl; [|done].
  destruct (rooms w !! ref) as [room|] eqn:Hroom; simpl; [|done].
  destruct (getMember _ _) as [member|] eqn:Hmember; [|done].
  destruct (String.eqb (rm_reconnectToken member) token) eqn:Htoken; simpl; [|done].
  apply String.eqb_eq in Htoken.
  destruct (truthyT (rm_disconnectedAt member)
            && (now - default 0 (rm_disconnectedAt member) >? RECONNECT_GRACE_MS))
    eqn:Hlate; [done|].
  intros _. exists state, roomId, token, member. split_and!; try done.
  - by exists ref, room.
  - intros t Ht Hnz. rewrite Ht in Hlate. simpl in Hlate.
    apply andb_false_iff in Hlate as [Hz|Hle]; [|lia].
    apply negb_false_iff, Z.eqb_eq in Hz. done.
Qed.

Lemma tryReconnectToRoom_false socketId payload now w :
  snd (tryReconnectToRoom socketId payload now w) = false →
  fst (tryReconnectToRoom socketId payload now w) = w.
Proof.
  unfold tryReconnectToRoom.
  repeat (match goal with
          | |- context [match ?x with _ => _ end] => destruct x eqn:?
          end; simpl; try done).
Qed.

(** C6.  A reconnection is accepted only if the room id names a live room,
    the member of that room entered under the player of the connection
    holds exactly the token presented, and that member, if away, has been
    away for no longer than the grace window.  So, tokens being distinct, a
    token of room R and member M is turned down for every other room and
    every other member, and the right token is turned down once the grace
    window has passed.  A rejected attempt changes nothing. *)
Theorem C6_reconnect_guard (socketId : string) (payload : ReconnectPayload) (now : Z)
    (w : World) :
  let attempt := tryReconnectToRoom socketId payload now w in
  (snd attempt = true →
     ∃ state roomId token member,
       socketState w !! socketId = Some state
       ∧ payload = Some (Some roomId, Some token)
       ∧ holdsToken w roomId (ss_playerId state) token member
       ∧ (∀ t, rm_disconnectedAt member = Some t → t ≠ 0 →
               now - t <= RECONNECT_GRACE_MS))
  ∧ (∀ state roomId token R M m,
       socketState w !! socketId = Some state →
       payload = Some (Some roomId, Some token) →
       tokensDistinct w → holdsToken w R M token m →
       roomId ≠ R ∨ ss_playerId state ≠ M →
       snd attempt = false)
  ∧ (∀ state roomId token member t,
       socketState w !! socketId = Some state →
       payload = Some (Some roomId, Some token) →
       holdsToken w roomId (ss_playerId state) token member →
       rm_disconnectedAt member = Some t → t ≠ 0 →
       now - t > RECONNECT_GRACE_MS →
       snd attempt = false)
  ∧ (snd attempt = false → fst attempt = w).
Proof.
  intros attempt. subst attempt. split_and!.
  - apply tryReconnectToRoom_true.
  - intros state roomId token R M m Hstate Hpayload Hdistinct Hholds Hother.
    destruct (snd (tryReconnectToRoom socketId payload now w)) eqn:Hok; [|done].
    apply tryReconnectToRoom_true in Hok
      as (state' & roomId' & token' & member & Hstate' & Hpayload' & Hholds' & _).
    rewrite Hstate in Hstate'. injection Hstate' as <-.
    rewrite Hpayload in Hpayload'. injection Hpayload' as <- <-.
    destruct (Hdistinct _ _ _ _ _ _ _ Hholds Hholds') as [-> ->].
    by destruct Hother.
  - intros state roomId token member t Hstate Hpayload Hholds Haway Hnz Hlate.
    destruct (snd (tryReconnectToRoom socketId payload now w)) eqn:Hok; [|done].
    apply tryReconnectToRoom_true in Hok
      as (state' & roomId' & token' & member' & Hstate' & Hpayload' & Hholds' & Hgrace).
    rewrite Hstate in Hstate'. injection Hstate' as <-.
    rewrite Hpayload in Hpayload'. injection Hpayload' as <- <-.
    destruct Hholds as (ref & room & Ha & Hr & Hm & _).
    destruct Hholds' as (ref' & room' & Ha' & Hr' & Hm' & _).
    rewrite Ha in Ha'. injection Ha' as <-. rewrite Hr in Hr'. injection Hr' as <-.
    rewrite Hm in Hm'. injection Hm' as <-.
    specialize (Hgrace t Haway Hnz). lia.
  - apply tryReconnectToRoom_false.
Qed.

(** * Frame facts: what a step leaves alone *)

Lemma foldl_frame {A B} (proj : World → B) (f : World → A → World) (l : list A) (w : World) :
  (∀ w a, proj (f w a) = proj w) → proj (foldl f w l) = proj w.
Proof.
  intros Hf. revert w. induction l as [|a l IH]; intros w; simpl; [done|].
  by rewrite IH, Hf.
Qed.

Ltac frame_step :=
  repeat (simpl in *; case_match; simplify_eq/=); try done.

Section SettlementFacts.
Variable randomUUID : nat → string.
Variable hashToken : string → string.

Lemma applyPlayerResult_frame now w entry :
  let w' := applyPlayerResult randomUUID hashToken now w entry in
  rooms w' = rooms w ∧ sockets w' = sockets w ∧ outbox w' = outbox w
  ∧ matches w' = matches w ∧ activeRooms w' = activeRooms w
  ∧ readies w' = readies w ∧ pendingReadyById w' = pendingReadyById w.
Proof. unfold applyPlayerResult, createPlayer, createSessionToken. frame_step. Qed.

Lemma applyMatchResult_frame record now w :
  let w' := applyMatchResult randomUUID hashToken record now w in
  rooms w' = rooms w ∧ sockets w' = sockets w ∧ outbox w' = outbox w
  ∧ matches w' = matches w ++ [record] ∧ activeRooms w' = activeRooms w
  ∧ readies w' = readies w ∧ pendingReadyById w' = pendingReadyById w.
Proof.
  unfold applyMatchResult. simpl.
  split_and!; try (rewrite (foldl_frame _ (applyPlayerResult _ _ now)); [done|];
                   intros; apply applyPlayerResult_frame).
Qed.

Lemma storeStateRating_frame byPlayerId w member :
  let w' := storeStateRating byPlayerId w member in
  rooms w' = rooms w ∧ sockets w' = sockets w ∧ outbox w' = outbox w
  ∧ matches w' = matches w ∧ activeRooms w' = activeRooms w
  ∧ readies w' = readies w ∧ pendingReadyById w' = pendingReadyById w.
Proof. unfold storeStateRating. frame_step. Qed.
End SettlementFacts.

(** * Idempotence of the end of a room *)

Lemma finishMember_frame roomId payload w member :
  let w' := finishMember roomId payload w member in
  rooms w' = rooms w ∧ sockets w' = sockets w ∧ matches w' = matches w
  ∧ activeRooms w' = activeRooms w
  ∧ readies w' = readies w ∧ pendingReadyById w' = pendingReadyById w.
Proof. unfold finishMember. frame_step. Qed.

Lemma finishMembers_outbox roomId payload members w :
  outbox (foldl (finishMember roomId payload) w members)
  = outbox w ++ ((λ socketId, emitTo socketId (matchEnded payload))
                   <$> notifiedSockets w members).
Proof.
  revert w. induction members as [|m rest IH]; intros w.
  - simpl. by rewrite app_nil_r.
  - cbn [foldl]. rewrite IH.
    assert (notifiedSockets (finishMember roomId payload w m) rest = notifiedSockets w rest)
      as ->.
    { unfold notifiedSockets.
      by destruct (finishMember_frame roomId payload w m) as (_ & -> & _). }
    unfold notifiedSockets at 2. cbn [omap list_omap]. fold (notifiedSockets w rest).
    unfold finishMember.
    destruct (rm_socketId m) as [socketId|]; [|done].
    destruct (truthyS (Some socketId)) eqn:Htruthy; cbn [negb andb]; [|done].
    cbn [sockets upd_socketState].
    destruct (bool_decide (socketId ∈ sockets w)); [|done].
    cbn [fmap list_fmap]. simpl. by rewrite <- (assoc_L (++)).
Qed.

Section EndRoomFacts.
Variable SCORE_LIMIT : Z.
Variable randomUUID : nat → string.
Variable hashToken : string → string.

Lemma endRoomBegin_ended ref reason winner now w room :
  rooms w !! ref = Some room → room_ended room = true →
  endRoomBegin randomUUID hashToken ref reason winner now w = (w, None).
Proof. intros Hroom Hended. unfold endRoomBegin. by rewrite Hroom, Hended. Qed.

Lemma storeRatingAfter_socketId byPlayerId member :
  rm_socketId (storeRatingAfter byPlayerId member) = rm_socketId member.
Proof. unfold storeRatingAfter. by destruct (byPlayerId !! _). Qed.

(** What the first run of [endRoom] up to its [await] does. *)
Lemma endRoomBegin_live ref reason winner now w room :
  rooms w !! ref = Some room → room_ended room = false →
  ∃ wmid payload record room',
    endRoomBegin randomUUID hashToken ref reason winner now w = (wmid, Some payload)
    ∧ rooms wmid !! ref = Some room'
    ∧ room_ended room' = true
    ∧ room_id room' = room_id room
    ∧ rm_socketId <$> room_members room' = rm_socketId <$> room_members room
    ∧ sockets wmid = sockets w
    ∧ outbox wmid = outbox w
    ∧ matches wmid = matches w ++ [record]
    ∧ mr_matchId record = room_id room
    ∧ activeRooms wmid = delete (room_id room) (activeRooms w).
Proof.
  intros Hroom Hended. unfold endRoomBegin. rewrite Hroom, Hended.
  destruct (snap_score (room_lastSnapshot room)) as [team0 team1].
  set (winnerTeam := match winner with
                     | Some t => Some t
                     | None => _
                     end).
  set (changes := buildRatingChanges (room_members room) winnerTeam).
  match goal with
  | |- context [applyMatchResult _ _ ?r now ?w0] =>
      set (record := r); set (w3 := w0)
  end.
  destruct (applyMatchResult_frame randomUUID hashToken record now w3)
    as (Hrooms & Hsockets & Houtbox & Hmatches & Hactive & _).
  assert (rooms w3 = alter (withMembers (fmap (storeRatingAfter (changesByPlayerId changes))))
                       ref (alter (withEnded true) ref (rooms w))
          ∧ sockets w3 = sockets w ∧ outbox w3 = outbox w ∧ matches w3 = matches w
          ∧ activeRooms w3 = delete (room_id room) (activeRooms w))
    as (Hrooms3 & Hsockets3 & Houtbox3 & Hmatches3 & Hactive3).
  { unfold w3. split_and!;
      (rewrite (foldl_frame _ (storeStateRating (changesByPlayerId changes)));
       [done|intros; apply storeStateRating_frame]). }
  eexists _, _, record, _. split; [reflexivity|].
  split_and!.
  - rewrite Hrooms, Hrooms3, !list_lookup_alter_eq, Hroom. reflexivity.
  - done.
  - done.
  - simpl. rewrite <- list_fmap_compose. apply list_fmap_ext.
    intros i m _. apply storeRatingAfter_socketId.
  - congruence.
  - congruence.
  - congruence.
  - done.
  - congruence.
Qed.
End EndRoomFacts.

Section EndRoomIdempotent.
Variable SCORE_LIMIT : Z.
Variable randomUUID : nat → string.
Variable hashToken : string → string.

Lemma finishRoomForSockets_frame ref payload w :
  let w' := finishRoomForSockets ref payload w in
  rooms w' = rooms w ∧ sockets w' = sockets w ∧ matches w' = matches w
  ∧ activeRooms w' = activeRooms w
  ∧ readies w' = readies w ∧ pendingReadyById w' = pendingReadyById w.
Proof.
  unfold finishRoomForSockets. destruct (rooms w !! ref) as [room|]; [|done].
  simpl. split_and!;
    (rewrite (foldl_frame _ (finishMember (room_id room) payload));
     [done|intros; apply finishMember_frame]).
Qed.

Lemma notifiedSockets_ext w w' members members' :
  sockets w' = sockets w →
  rm_socketId <$> members' = rm_socketId <$> members →
  notifiedSockets w' members' = notifiedSockets w members.
Proof.
  intros Hs. unfold notifiedSockets. rewrite Hs. clear Hs.
  revert members'. induction members as [|m rest IH]; intros [|m' rest']; try done.
  rewrite !fmap_cons. intros [= Hm Hrest]. cbn [omap list_omap].
  rewrite Hm. by rewrite (IH _ Hrest).
Qed.

(** C1.  The first run of the end transition of a room that has not ended
    stores exactly one match record, sends [matchEnded] once to each
    connection of a member that it can still reach, and takes the room out
    of [activeRooms]; from then on every further end trigger on that room
    object, a direct call or a tick, changes nothing: already once the
    first run has reached its [await], and all the more after it. *)
Theorem C1_endRoom_idempotent (ref : nat) (reason : string) (winner : option team)
    (now : Z) (w : World) (room : Room) :
  rooms w !! ref = Some room → room_ended room = false →
  let w1 := endRoom randomUUID hashToken ref reason winner now w in
  (∃ record, matches w1 = matches w ++ [record] ∧ mr_matchId record = room_id room)
  ∧ (∃ payload,
       outbox w1 = outbox w ++ ((λ socketId, emitTo socketId (matchEnded payload))
                                  <$> notifiedSockets w (room_members room)))
  ∧ activeRooms w1 = delete (room_id room) (activeRooms w)
  ∧ (∀ reason' winner' now',
       endRoom randomUUID hashToken ref reason' winner' now' w1 = w1)
  ∧ (∀ snapshot broadcast now',
       tickRoom SCORE_LIMIT randomUUID hashToken ref snapshot broadcast now' w1 = (w1, None))
  ∧ (∀ reason' winner' now',
       let wmid := fst (endRoomBegin randomUUID hashToken ref reason winner now w) in
       endRoomBegin randomUUID hashToken ref reason' winner' now' wmid = (wmid, None)).
Proof.
  intros Hroom Hended w1.
  destruct (endRoomBegin_live randomUUID hashToken ref reason winner now w room Hroom Hended)
    as (wmid & payload & record & room' & Hbegin & Hroom' & Hended' & Hid & Hsock
        & Hsockets & Houtbox & Hmatches & Hrecord & Hactive).
  assert (w1 = finishRoomForSockets ref payload wmid) as Hw1.
  { unfold w1, endRoom. by rewrite Hbegin. }
  destruct (finishRoomForSockets_frame ref payload wmid)
    as (Hrooms1 & Hsockets1 & Hmatches1 & Hactive1 & _).
  rewrite <- Hw1 in Hrooms1, Hsockets1, Hmatches1, Hactive1.
  assert (rooms w1 !! ref = Some room') as Hroom1 by (by rewrite Hrooms1).
  split_and!.
  - exists record. split; [congruence|done].
  - exists payload. rewrite Hw1. unfold finishRoomForSockets. rewrite Hroom'.
    rewrite finishMembers_outbox, Houtbox. f_equal. f_equal.
    by apply notifiedSockets_ext.
  - congruence.
  - intros reason' winner' now'. unfold endRoom.
    by rewrite (endRoomBegin_ended _ _ _ _ _ _ _ room' Hroom1 Hended').
  - intros snapshot broadcast now'. unfold tickRoom. by rewrite Hroom1, Hended'.
  - intros reason' winner' now'. rewrite Hbegin. simpl.
    by apply (endRoomBegin_ended _ _ _ _ _ _ _ room').
Qed.
End EndRoomIdempotent.

(** * Steps that touch neither rooms nor ready checks *)

Global Instance quiet_refl : Reflexive quiet.
Proof. by intros w. Qed.

Global Instance quiet_trans : Transitive quiet.
Proof.
  intros w1 w2 w3 (H1 & H2 & H3 & H4) (H1' & H2' & H3' & H4').
  unfold quiet. split_and!; congruence.
Qed.

Lemma quiet_foldl {A} (f : World → A → World) (l : list A) (w : World) :
  (∀ w a, quiet w (f w a)) → quiet w (foldl f w l).
Proof.
  intros Hf. revert w. induction l as [|a l IH]; intros w; simpl; [done|].
  etrans; [apply Hf|apply IH].
Qed.

Section QuietSteps.
Variable randomUUID : nat → string.

Lemma quiet_removeQueueEntry socketId w : quiet w (fst (removeQueueEntry socketId w)).
Proof. unfold removeQueueEntry, quiet. frame_step. Qed.

Lemma quiet_reportPositions now total index bucket w :
  quiet w (reportPositions now total index bucket w).
Proof.
  revert index w. induction bucket as [|entry rest IH]; intros index w; simpl; [done|].
  etrans; [|apply IH]. by case_bool_decide.
Qed.

Lemma quiet_updateQueuePositions bucketKey now w :
  quiet w (updateQueuePositions bucketKey now w).
Proof.
  unfold updateQueuePositions. destruct (oget _ _); [|done].
  etrans; [|apply quiet_reportPositions]. done.
Qed.

Lemma quiet_updateAllQueuePositions now w : quiet w (updateAllQueuePositions now w).
Proof.
  unfold updateAllQueuePositions. apply quiet_foldl.
  intros; apply quiet_updateQueuePositions.
Qed.

Lemma quiet_enqueueFromSocketState sid payload priorityMs now w :
  quiet w (enqueueFromSocketState randomUUID sid payload priorityMs now w).
Proof.
  unfold enqueueFromSocketState. destruct (socketState w !! sid) as [state|]; [|done].
  cbv zeta. unfold createQueueEntry.
  etrans; [|apply quiet_updateQueuePositions].
  unfold quiet. frame_step.
Qed.

Lemma quiet_clearPendingReadyAssociation ready w :
  quiet w (clearPendingReadyAssociation ready w).
Proof. unfold clearPendingReadyAssociation. apply quiet_foldl. by intros. Qed.

Lemma quiet_requeueMember ready acceptedOnly excludePlayerId now w member :
  quiet w (requeueMember randomUUID ready acceptedOnly excludePlayerId now w member).
Proof.
  unfold requeueMember.
  repeat (case_match; try done).
  etrans; [apply quiet_removeQueueEntry|apply quiet_enqueueFromSocketState].
Qed.
End QuietSteps.

(** * Steps of the queue and of the ready checks *)

Lemma quiet_grows w w' : quiet w w' → grows w w'.
Proof.
  intros (Hr & Hd & Hp & Ha). unfold grows. split_and!; try done.
  - exists []. by rewrite app_nil_r.
  - intros id ref. rewrite Hp. auto.
Qed.

Global Instance grows_refl : Reflexive grows.
Proof. intros w. by apply quiet_grows. Qed.

Global Instance grows_trans : Transitive grows.
Proof.
  intros w1 w2 w3 (Hr & Ha & [m1 Hd] & Hp) (Hr' & Ha' & [m2 Hd'] & Hp').
  unfold grows. split_and!; try congruence.
  - exists (m1 ++ m2). by rewrite Hd', Hd, (assoc_L (++)).
  - intros id ref Hin. destruct (Hp' _ _ Hin) as [Hold|Hnew].
    + by apply Hp.
    + right. rewrite Hd, length_app in Hnew. lia.
Qed.

Lemma grows_foldl {A} (f : World → A → World) (l : list A) (w : World) :
  (∀ w a, grows w (f w a)) → grows w (foldl f w l).
Proof.
  intros Hf. revert w. induction l as [|a l IH]; intros w; simpl; [done|].
  etrans; [apply Hf|apply IH].
Qed.

Lemma grows_delete_pending id w w' :
  rooms w' = rooms w → activeRooms w' = activeRooms w → readies w' = readies w →
  pendingReadyById w' = delete id (pendingReadyById w) →
  grows w w'.
Proof.
  intros Hr Ha Hd Hp. unfold grows. split_and!; try done.
  - exists []. by rewrite app_nil_r.
  - intros id' ref. rewrite Hp. intros Hin. left.
    by apply lookup_delete_Some in Hin as [_ Hin].
Qed.

Section ReadySteps.
Variable randomUUID : nat → string.
Variable randomSeed : nat → Z.

Lemma grows_cancelReadyCheck ref reason acceptedOnly excludePlayerId now w :
  grows w (cancelReadyCheck randomUUID ref reason acceptedOnly excludePlayerId now w).
Proof.
  unfold cancelReadyCheck.
  destruct (readies w !! ref) as [ready|]; [|done].
  destruct (pendingReadyById w !! rd_id ready); [|done].
  etrans; [|apply grows_foldl; intros; apply quiet_grows, quiet_requeueMember].
  etrans; [|apply grows_foldl; intros; apply quiet_grows; by case_bool_decide].
  etrans; [|apply quiet_grows, quiet_clearPendingReadyAssociation].
  apply (grows_delete_pending (rd_id ready)); simpl;
    by destruct (rd_timeoutHandle ready).
Qed.

Lemma grows_readyTimeout ref now w : grows w (readyTimeout randomUUID ref now w).
Proof.
  unfold readyTimeout. repeat (case_match; try done). apply grows_cancelReadyCheck.
Qed.

Lemma grows_fireTimer handle now w : grows w (fireTimer randomUUID handle now w).
Proof.
  unfold fireTimer. repeat (case_match; try done).
  etrans; [|apply grows_readyTimeout]. by apply quiet_grows.
Qed.

Lemma readyMembers_frame candidate selected w :
  quiet w (snd (readyMembers randomUUID candidate selected w)).
Proof.
  revert w. induction selected as [|entry rest IH]; intros w; simpl; [done|].
  repeat (case_match; simplify_eq/=; try done); try apply IH.
  match goal with
  | H : readyMembers _ _ _ ?w0 = (_, ?w1) |- _ =>
      specialize (IH w0); rewrite H in IH; simpl in IH
  end.
  etrans; [|exact IH]. done.
Qed.

Lemma quiet_inviteMember ready w member : quiet w (inviteMember ready w member).
Proof. unfold inviteMember. by case_bool_decide. Qed.

Lemma grows_readyLoop fuel bucketKey playlistConfig now bucket w :
  grows w (readyLoop randomUUID randomSeed fuel bucketKey playlistConfig now bucket w).
Proof.
  revert bucket w. induction fuel as [|fuel IH]; intros bucket w; simpl; [done|].
  destruct (findBestCandidate now playlistConfig bucket) as [[candidate|]|]; try done.
  set (selected := reverse (List.filter (inCandidate candidate) bucket)).
  set (w1 := foldl (λ w entry, upd_queueEntryBySocket (delete (qe_socketId entry)) w)
               w selected).
  assert (quiet w w1) as Hq1 by (apply quiet_foldl; by intros).
  match goal with
  | |- context [match oget bucketKey (queueByBucket w1) with _ => _ end] =>
      set (w2 := match oget bucketKey (queueByBucket w1) with
                 | Some _ => _
                 | None => w1
                 end)
  end.
  assert (quiet w1 w2) as Hq2 by (unfold w2; by destruct (oget _ _)).
  destruct selected as [|first others] eqn:Hsel.
  { apply quiet_grows. by etrans. }
  match goal with
  | |- context [readyMembers randomUUID candidate (first :: others) ?w0] =>
      set (w3 := w0);
      pose proof (readyMembers_frame candidate (first :: others) w3) as Hq4;
      destruct (readyMembers randomUUID candidate (first :: others) w3)
        as [members w4] eqn:Hmembers
  end.
  simpl in Hq4.
  assert (quiet w2 w3) as Hq3 by (unfold w3; by destruct (_ =? 0)%nat).
  assert (quiet w w4) as Hq by (etrans; [|exact Hq4]; etrans; [|exact Hq3]; by etrans).
  destruct (length members =? 0)%nat.
  { etrans; [|apply IH]. by apply quiet_grows. }
  etrans; [|apply IH].
  etrans; [|apply quiet_grows, quiet_foldl; intros; apply quiet_inviteMember].
  destruct Hq as (Hr & Hd & Hp & Ha).
  unfold grows. simpl. split_and!; try done.
  - rewrite Hd. by eexists.
  - intros id ref. rewrite Hd, Hp. intros Hin.
    apply lookup_insert_Some in Hin as [[_ <-]|[_ Hin]]; auto.
Qed.

Lemma grows_tryCreateReadyChecks bucketKey now w :
  grows w (tryCreateReadyChecks randomUUID randomSeed bucketKey now w).
Proof.
  unfold tryCreateReadyChecks. repeat (case_match; try done).
  etrans; [apply grows_readyLoop|apply quiet_grows, quiet_updateQueuePositions].
Qed.

Lemma grows_tickQueueMatchmaking now w :
  grows w (tickQueueMatchmaking randomUUID randomSeed now w).
Proof.
  unfold tickQueueMatchmaking. apply grows_foldl.
  intros; apply grows_tryCreateReadyChecks.
Qed.

Lemma grows_joinQueue socketId payload now w :
  grows w (joinQueue randomUUID randomSeed socketId payload now w).
Proof.
  unfold joinQueue. repeat (case_match; try done; try (by apply quiet_grows)).
  etrans; [|apply grows_tickQueueMatchmaking].
  apply quiet_grows.
  etrans; [apply quiet_removeQueueEntry|apply quiet_enqueueFromSocketState].
Qed.

Lemma grows_leaveQueue socketId now w : grows w (leaveQueue socketId now w).
Proof.
  unfold leaveQueue.
  pose proof (quiet_removeQueueEntry socketId w) as Hq.
  destruct (removeQueueEntry socketId w) as [w' removed]. simpl in Hq.
  apply quiet_grows. etrans; [exact Hq|].
  repeat (case_match; try done);
    auto using quiet_updateQueuePositions, quiet_updateAllQueuePositions.
Qed.
End ReadySteps.

(** Every turn of the loop of [tryCreateReadyChecks] that goes on takes an
    entry out of the bucket: fuel above the length of the bucket is never
    used up. *)
Lemma readyLoop_fuel randomUUID randomSeed fuel fuel' bucketKey cfg now bucket w :
  (length bucket < fuel)%nat → (length bucket < fuel')%nat →
  readyLoop randomUUID randomSeed fuel bucketKey cfg now bucket w
  = readyLoop randomUUID randomSeed fuel' bucketKey cfg now bucket w.
Proof.
  revert fuel' bucket w. induction fuel as [|fuel IH]; intros fuel' bucket w Hfuel Hfuel'; [lia|].
  destruct fuel' as [|fuel']; [lia|]. simpl.
  destruct (findBestCandidate now cfg bucket) as [[candidate|]|]; [|done|done].
  pose proof (List.filter_length (inCandidate candidate) bucket) as Hlen.
  rewrite <- (length_reverse (List.filter (inCandidate candidate) bucket)) in Hlen.
  destruct (reverse (List.filter (inCandidate candidate) bucket)) as [|first rest] eqn:Hsel;
    [done|].
  simpl in Hlen.
  assert (Hshort : (length (List.filter (λ e, negb (inCandidate candidate e)) bucket)
                    < length bucket)%nat) by lia.
  repeat case_match; try done; apply IH; lia.
Qed.

(** * Steps of the rooms *)

Lemma Forall2_same {A} (P : A → A → Prop) (l : list A) :
  (∀ x, P x x) → Forall2 P l l.
Proof. intros HP. induction l; constructor; auto. Qed.

Lemma Forall2_fmap_same {A} (P : A → A → Prop) (f : A → A) (l : list A) :
  (∀ x, P x (f x)) → Forall2 P l (f <$> l).
Proof. intros HP. induction l; constructor; auto. Qed.

Lemma Forall2_compose {A} (P Q : A → A → Prop) (l1 l2 l3 : list A) :
  Forall2 P l1 l2 → Forall2 Q l2 l3 → Forall2 (λ a c, ∃ b, P a b ∧ Q b c) l1 l3.
Proof.
  intros H12. revert l3. induction H12 as [|a b l1 l2 Hab _ IH]; intros l3 H23.
  - inversion H23. constructor.
  - inversion H23 as [|? c ? l3' Hbc H23']; subst. constructor; eauto.
Qed.

Lemma alterMember_Forall2 (P : RoomMember → RoomMember → Prop) playerId f members :
  (∀ m, P m m) → (∀ m, rm_playerId m = playerId → P m (f m)) →
  Forall2 P members (alterMember playerId f members).
Proof.
  intros Hrefl Hf. induction members as [|m rest IH]; simpl; [constructor|].
  unfold isPlayer at 1. destruct (String.eqb (rm_playerId m) playerId) eqn:Heq.
  - apply String.eqb_eq in Heq. constructor; [by apply Hf|by apply Forall2_same].
  - constructor; [apply Hrefl|apply IH].
Qed.

Lemma roomsRel_same (P : RoomMember → RoomMember → Prop) w w' :
  (∀ m, P m m) → rooms w' = rooms w → roomsRel P w w'.
Proof.
  intros Hrefl Hrooms ref room Hroom. exists room. rewrite Hrooms.
  split; [done|by apply Forall2_same].
Qed.

Lemma roomsRel_more (P : RoomMember → RoomMember → Prop) w w' more :
  (∀ m, P m m) → rooms w' = rooms w ++ more → roomsRel P w w'.
Proof.
  intros Hrefl Hrooms ref room Hroom. exists room. rewrite Hrooms.
  split; [by apply lookup_app_l_Some|by apply Forall2_same].
Qed.

Lemma roomsRel_alter (P : RoomMember → RoomMember → Prop) w w' ref f :
  (∀ m, P m m) → rooms w' = alter f ref (rooms w) →
  (∀ room, rooms w !! ref = Some room →
           Forall2 P (room_members room) (room_members (f room))) →
  roomsRel P w w'.
Proof.
  intros Hrefl Hrooms Hf ref' room Hroom. rewrite Hrooms.
  destruct (decide (ref = ref')) as [<-|Hne].
  - exists (f room). rewrite list_lookup_alter_eq, Hroom. split; [done|by apply Hf].
  - exists room. rewrite list_lookup_alter_ne by done.
    split; [done|by apply Forall2_same].
Qed.

Lemma roomsRel_compose (P Q : RoomMember → RoomMember → Prop) w1 w2 w3 :
  roomsRel P w1 w2 → roomsRel Q w2 w3 →
  roomsRel (λ a c, ∃ b, P a b ∧ Q b c) w1 w3.
Proof.
  intros H12 H23 ref room Hroom.
  destruct (H12 _ _ Hroom) as (room2 & Hroom2 & HP).
  destruct (H23 _ _ Hroom2) as (room3 & Hroom3 & HQ).
  exists room3. split; [done|]. by eapply Forall2_compose.
Qed.

Lemma roomsRel_impl (P Q : RoomMember → RoomMember → Prop) w w' :
  (∀ m m', P m m' → Q m m') → roomsRel P w w' → roomsRel Q w w'.
Proof.
  intros HPQ HP ref room Hroom. destruct (HP _ _ Hroom) as (room' & ? & ?).
  exists room'. split; [done|]. eapply Forall2_impl; eauto.
Qed.

Lemma presence_refl m : presence m m.
Proof. done. Qed.

Lemma presence_trans m1 m2 m3 : presence m1 m2 → presence m2 m3 → presence m1 m3.
Proof. intros [? ?] [? ?]. split; congruence. Qed.

Lemma storeRatingAfter_presence byPlayerId m : presence m (storeRatingAfter byPlayerId m).
Proof. unfold storeRatingAfter. by destruct (byPlayerId !! _). Qed.

Lemma markIfExpired_ticked now m : ticked now m (markIfExpired now m).
Proof.
  unfold ticked, markIfExpired.
  destruct (truthyS (rm_socketId m)) eqn:Hs; simpl; [auto|].
  destruct (truthyT (rm_disconnectedAt m)); simpl; [|auto].
  destruct (rm_disconnectedAt m) as [t|]; [|auto].
  destruct (now - t >? RECONNECT_GRACE_MS) eqn:Hlate; [|auto].
  split; [done|]. right. split_and!; try done. exists t. split; [done|lia].
Qed.

Section RoomSteps.
Variable SCORE_LIMIT : Z.
Variable randomUUID : nat → string.
Variable hashToken : string → string.

Lemma markMemberDisconnected_rooms socketId reason now w :
  roomsRel presence w (markMemberDisconnected socketId reason now w)
  ∧ still w (markMemberDisconnected socketId reason now w).
Proof.
  unfold markMemberDisconnected.
  repeat (case_match; simplify_eq/=;
          try (split; [by apply roomsRel_same|done])).
  all: split; [|done].
  all: eapply roomsRel_alter; [apply presence_refl|reflexivity|].
  all: intros room _; simpl; apply alterMember_Forall2; by intros.
Qed.

Lemma tryReconnectToRoom_rooms socketId payload now w :
  roomsRel presence w (fst (tryReconnectToRoom socketId payload now w))
  ∧ still w (fst (tryReconnectToRoom socketId payload now w)).
Proof.
  unfold tryReconnectToRoom.
  repeat (case_match; simplify_eq/=;
          try (split; [by apply roomsRel_same|done])).
  all: split; [|done].
  all: eapply roomsRel_alter; [apply presence_refl|reflexivity|].
  all: intros room _; simpl; apply alterMember_Forall2; by intros.
Qed.

Lemma leaveMatch_rooms socketId now w :
  roomsRel (λ m m', m' = m ∨ hasLeft w socketId now m m') w (leaveMatch socketId now w)
  ∧ still w (leaveMatch socketId now w).
Proof.
  unfold leaveMatch.
  destruct (socketState w !! socketId) as [state|] eqn:Hstate;
    [|split; [apply roomsRel_same; auto|done]].
  repeat (case_match; simplify_eq/=;
          try (split; [apply roomsRel_same; by auto|done])).
  split; [|done].
  eapply roomsRel_alter; [by auto|reflexivity|].
  intros room _. simpl. apply alterMember_Forall2; [by auto|].
  intros m Hm. right. unfold hasLeft. simpl. split_and!; try done.
  by exists state.
Qed.

Lemma endRoomBegin_rooms ref reason winner now w :
  roomsRel presence w (fst (endRoomBegin randomUUID hashToken ref reason winner now w))
  ∧ still w (fst (endRoomBegin randomUUID hashToken ref reason winner now w)).
Proof.
  unfold endRoomBegin.
  destruct (rooms w !! ref) as [room|] eqn:Hroom;
    [|split; [by apply roomsRel_same|done]].
  destruct (room_ended room); [split; [by apply roomsRel_same|done]|].
  destruct (snap_score (room_lastSnapshot room)) as [team0 team1]. simpl.
  match goal with
  | |- context [applyMatchResult _ _ ?r now ?w0] => set (record := r); set (w3 := w0)
  end.
  destruct (applyMatchResult_frame randomUUID hashToken record now w3)
    as (Hrooms & _ & _ & _ & _ & Hreadies & Hpending).
  match goal with
  | w3 := foldl (storeStateRating ?by0) ?w0 ?ps |- _ =>
      assert (rooms w3 = rooms w0 ∧ readies w3 = readies w0
              ∧ pendingReadyById w3 = pendingReadyById w0) as (Hr3 & Hd3 & Hp3)
        by (unfold w3; split_and!;
            (rewrite (foldl_frame _ (storeStateRating by0));
             [done|intros; apply storeStateRating_frame]))
  end.
  simpl in Hr3, Hd3, Hp3. split.
  - intros ref' room0 Hroom0. rewrite Hrooms, Hr3.
    destruct (decide (ref = ref')) as [<-|Hne].
    + rewrite !list_lookup_alter_eq, Hroom0. simpl. eexists. split; [done|].
      simpl. apply Forall2_fmap_same. intros; apply storeRatingAfter_presence.
    + rewrite !list_lookup_alter_ne by done. exists room0.
      split; [done|by apply Forall2_same].
  - split; congruence.
Qed.

Lemma endRoomResume_rooms ref payload w :
  roomsRel presence w (endRoomResume ref payload w)
  ∧ still w (endRoomResume ref payload w).
Proof.
  destruct (finishRoomForSockets_frame ref payload w) as (Hr & _ & _ & _ & Hd & Hp).
  split; [by apply roomsRel_same|done].
Qed.
End RoomSteps.

Lemma roomsRel_presence_trans w1 w2 w3 :
  roomsRel presence w1 w2 → roomsRel presence w2 w3 → roomsRel presence w1 w3.
Proof.
  intros H12 H23. eapply roomsRel_impl; [|by eapply roomsRel_compose].
  intros m m' (b & Hb & Hb'). by eapply presence_trans.
Qed.

Lemma roomsRel_from (P : RoomMember → RoomMember → Prop) w0 w w' :
  rooms w0 = rooms w → roomsRel P w0 w' → roomsRel P w w'.
Proof. intros Heq HP ref room Hroom. apply HP. by rewrite Heq. Qed.

Lemma roomsRel_to (P : RoomMember → RoomMember → Prop) w w0 w' :
  rooms w' = rooms w0 → roomsRel P w w0 → roomsRel P w w'.
Proof.
  intros Heq HP ref room Hroom. destruct (HP _ _ Hroom) as (room' & ? & ?).
  exists room'. by rewrite Heq.
Qed.

Lemma grows_roomsRel w w' : grows w w' → roomsRel presence w w'.
Proof. intros (Hr & _). by apply roomsRel_same. Qed.

Global Instance readyStep_refl : Reflexive readyStep.
Proof. by intros w ref ready. Qed.

Global Instance readyStep_trans : Transitive readyStep.
Proof.
  intros w1 w2 w3 H12 H23 ref ready Hready Hterminal.
  destruct (H12 _ _ Hready Hterminal) as [Hready2 Hterminal2]. by apply H23.
Qed.

Lemma grows_readyStep w w' : grows w w' → readyStep w w'.
Proof.
  intros (_ & _ & [more Hd] & Hp) ref ready Hready Hterminal. split.
  - rewrite Hd. by apply lookup_app_l_Some.
  - intros [id Hin]. destruct (Hp _ _ Hin) as [Hold|Hnew].
    + apply Hterminal. by exists id.
    + apply lookup_lt_Some in Hready. lia.
Qed.

Lemma still_readyStep w w' : still w w' → readyStep w w'.
Proof.
  intros [Hd Hp] ref ready Hready Hterminal. unfold pendingRef. rewrite Hd, Hp. done.
Qed.

Lemma quiet_still w w' : quiet w w' → still w w'.
Proof. by intros (_ & ? & ? & _). Qed.

Section MoreRoomSteps.
Variable SCORE_LIMIT : Z.
Variable randomUUID : nat → string.
Variable hashToken : string → string.
Variable randomSeed : nat → Z.

Lemma shouldEndRoom_members room now :
  Forall2 (ticked now) (room_members room)
          (room_members (fst (shouldEndRoom SCORE_LIMIT room now))).
Proof.
  assert (∀ m, ticked now m m) as Hrefl by (intros m; split; auto).
  unfold shouldEndRoom.
  destruct (_ >=? SCORE_LIMIT); [by apply Forall2_same|].
  destruct (_ >? MATCH_MAX_DURATION_MS); [by apply Forall2_same|].
  rewrite memberTurn_foldl. cbn [app].
  destruct (negb _ || negb _); simpl;
    apply Forall2_fmap_same; intros; apply markIfExpired_ticked.
Qed.

Lemma tickRoom_rooms ref snapshot broadcast now w :
  roomsRel (λ m m', ∃ b, ticked now m b ∧ presence b m') w
           (fst (tickRoom SCORE_LIMIT randomUUID hashToken ref snapshot broadcast now w))
  ∧ still w (fst (tickRoom SCORE_LIMIT randomUUID hashToken ref snapshot broadcast now w)).
Proof.
  assert (∀ m, ticked now m m) as Hrefl by (intros m; split; auto).
  assert (∀ m, ∃ b, ticked now m b ∧ presence b m) as Hrefl'.
  { intros m. exists m. split; [apply Hrefl|done]. }
  unfold tickRoom.
  destruct (rooms w !! ref) as [room|] eqn:Hroom;
    [|split; [by apply roomsRel_same|done]].
  destruct (room_ended room); [split; [by apply roomsRel_same|done]|].
  set (room1 := withSnapshot snapshot _ room).
  pose proof (shouldEndRoom_members room1 now) as Hmembers.
  destruct (shouldEndRoom SCORE_LIMIT room1 now) as [room' decision]. simpl in Hmembers.
  match goal with
  | |- context [updRoom ref (λ _, room') ?w0] => set (w1 := w0)
  end.
  set (w2 := updRoom ref (λ _, room') w1).
  assert (rooms w2 = alter (λ _, room') ref (rooms w)) as Hrooms2.
  { unfold w2, w1. destruct broadcast; simpl; by rewrite list_alter_alter_eq. }
  assert (still w w2) as Hstill2 by (unfold w2, w1; by destruct broadcast).
  assert (roomsRel (ticked now) w w2) as Hticked.
  { eapply roomsRel_alter; [done|exact Hrooms2|].
    intros room0 Hroom0. rewrite Hroom in Hroom0. by injection Hroom0 as <-. }
  destruct decision as [decision|]; simpl.
  - destruct (endRoomBegin_rooms randomUUID hashToken ref (ed_reason decision)
                (ed_winner decision) now w2) as [Hrel [Hd Hp]].
    split; [by eapply roomsRel_compose|].
    destruct Hstill2. split; congruence.
  - split; [|done]. eapply roomsRel_impl; [|exact Hticked].
    intros m m' Hmm. by exists m'.
Qed.

Lemma connect_rooms socketId player reconnect now w :
  roomsRel presence w (connect socketId player reconnect now w)
  ∧ still w (connect socketId player reconnect now w).
Proof.
  unfold connect.
  match goal with
  | |- context [tryReconnectToRoom socketId reconnect now ?w0] => set (w1 := w0)
  end.
  assert (quiet w w1) as (Hr & Hd & Hp & _).
  { unfold w1, quiet. simpl. by repeat case_match. }
  destruct (tryReconnectToRoom_rooms socketId reconnect now w1) as [Hrel [Hd' Hp']].
  destruct (tryReconnectToRoom socketId reconnect now w1) as [w2 ok]. simpl in *.
  assert (roomsRel presence w w2) by (by eapply roomsRel_from).
  assert (still w w2) by (split; congruence).
  by destruct (negb ok && _).
Qed.

Lemma createRoomFromReady_rooms ready now w :
  (∃ room, rooms (createRoomFromReady ready now w) = rooms w ++ [room])
  ∧ still w (createRoomFromReady ready now w).
Proof.
  unfold createRoomFromReady.
  match goal with
  | |- context [foldl ?f (upd_activeRooms ?g (upd_rooms ?h ?w0)) (rd_members ready)] =>
      set (step := f); set (w1 := w0); set (w2 := upd_activeRooms g (upd_rooms h w1))
  end.
  assert (quiet w w1) as (Hr1 & Hd1 & Hp1 & _).
  { unfold w1. etrans; [|apply quiet_foldl; by intros]. done. }
  assert (∀ w a, rooms (step w a) = rooms w ∧ still w (step w a)) as Hstep.
  { intros w0 a. unfold step. by case_bool_decide. }
  split.
  - eexists. rewrite (foldl_frame rooms step); [|intros; apply Hstep].
    unfold w2. cbn [rooms upd_activeRooms upd_rooms]. by rewrite Hr1.
  - split.
    + rewrite (foldl_frame readies step); [|intros; apply Hstep]. exact Hd1.
    + rewrite (foldl_frame pendingReadyById step); [|intros; apply Hstep]. exact Hp1.
Qed.
End MoreRoomSteps.

Section HandlerSteps.
Variable SCORE_LIMIT : Z.
Variable randomUUID : nat → string.
Variable hashToken : string → string.
Variable randomSeed : nat → Z.

Lemma acceptReady_steps socketId payload now w :
  let w' := acceptReady randomUUID socketId payload now w in
  (∃ more, rooms w' = rooms w ++ more) ∧ readyStep w w'.
Proof.
  assert (∀ w0 w1, grows w0 w1 → (∃ more, rooms w1 = rooms w0 ++ more) ∧ readyStep w0 w1)
    as Hgrows.
  { intros w0 w1 Hg. split; [|by apply grows_readyStep].
    exists []. destruct Hg as (-> & _). by rewrite app_nil_r. }
  unfold acceptReady.
  destruct (socketState w !! socketId) as [state|]; [|by apply Hgrows].
  destruct (ss_pendingReadyId state) as [pendingReadyId|]; [|by apply Hgrows].
  destruct (negb (truthyS (Some pendingReadyId))); [by apply Hgrows|].
  set (readyId := default pendingReadyId (rr_matchId payload)).
  destruct (pendingReadyById w !! readyId ≫= _) as [[ref0 ready0]|] eqn:Hlookup;
    [|by apply Hgrows, quiet_grows].
  apply bind_Some in Hlookup as (r & Hpending & Hlookup).
  apply bind_Some in Hlookup as (ready' & Hready0 & [= <- <-]).
  destruct (negb (existsb _ _)); [by apply Hgrows|].
  case_bool_decide; [apply Hgrows, grows_cancelReadyCheck|].
  set (accepted := {[ ss_playerId state ]} ∪ rd_accepted ready').
  set (w1 := updReady r (withAccepted accepted) w).
  match goal with
  | |- context [foldl ?f w1 (rd_members ready')] => set (w2 := foldl f w1 (rd_members ready'))
  end.
  assert (quiet w1 w2) as Hq2 by (apply quiet_foldl; intros; by case_bool_decide).
  assert (rooms w2 = rooms w) as Hrooms2 by (by destruct Hq2 as (-> & _)).
  assert (readyStep w w2) as Hstep2.
  { intros ref ready Hready Hterminal.
    destruct Hq2 as (_ & Hd & Hp & _). unfold pendingRef. rewrite Hd, Hp. simpl.
    split; [|done]. rewrite list_lookup_alter_ne; [done|].
    intros ->. apply Hterminal. by exists readyId. }
  destruct (size accepted <? length (rd_members ready'))%nat.
  { split; [|done]. exists []. by rewrite app_nil_r. }
  match goal with
  | |- context [createRoomFromReady ?rd now ?w0] => set (w3 := w0); set (confirmed := rd)
  end.
  destruct (createRoomFromReady_rooms confirmed now w3) as [[room Hroom] Hstill].
  assert (grows w2 w3) as Hg3.
  { unfold w3. etrans; [|apply quiet_grows, quiet_clearPendingReadyAssociation].
    apply (grows_delete_pending (rd_id ready')); simpl;
      by destruct (rd_timeoutHandle ready'). }
  split.
  - exists [room]. rewrite Hroom. destruct Hg3 as (-> & _). by rewrite Hrooms2.
  - etrans; [exact Hstep2|]. etrans; [by apply grows_readyStep|by apply still_readyStep].
Qed.

Lemma disconnect_steps socketId now w :
  let w' := disconnect randomUUID socketId now w in
  roomsRel presence w w' ∧ readyStep w w'.
Proof.
  unfold disconnect.
  set (w0 := upd_sockets _ w).
  assert (grows w w0) as Hg0 by (by apply quiet_grows).
  destruct (socketState w0 !! socketId) as [current|];
    [|split; [by apply grows_roomsRel|by apply grows_readyStep]].
  set (w1 := fst (removeQueueEntry socketId w0)).
  assert (grows w0 w1) as Hg1 by apply quiet_grows, quiet_removeQueueEntry.
  match goal with
  | |- context [markMemberDisconnected socketId _ now ?wx] => set (w2 := wx)
  end.
  assert (grows w1 w2) as Hg2.
  { unfold w2. repeat (case_match; try done). apply grows_cancelReadyCheck. }
  destruct (markMemberDisconnected_rooms socketId "Jugador desconectado" now w2)
    as [Hrel Hstill].
  set (w3 := markMemberDisconnected socketId "Jugador desconectado" now w2) in *.
  match goal with
  | |- context [updateAllQueuePositions now ?wx] => set (w4 := wx)
  end.
  assert (quiet w3 w4) as Hq4 by (unfold w4; by case_bool_decide).
  pose proof (quiet_updateAllQueuePositions now w4) as Hq5.
  assert (grows w w2) as Hg by (etrans; [exact Hg0|]; by etrans).
  assert (quiet w3 (updateAllQueuePositions now w4)) as Hq by (by etrans).
  split.
  - eapply roomsRel_presence_trans; [by apply grows_roomsRel|].
    eapply roomsRel_to; [|exact Hrel]. by destruct Hq as (-> & _).
  - etrans; [by apply grows_readyStep|].
    etrans; [by apply still_readyStep|]. by apply still_readyStep, quiet_still.
Qed.

Lemma presence_memberStep e w m m' : presence m m' → memberStep e w m m'.
Proof.
  intros [Hid Hab]. unfold memberStep. rewrite Hab. split_and!; try done.
  intros -> [=].
Qed.

Lemma handle_rooms (e : Event) (w : World) :
  roomsRel (memberStep e w) w
    (handle SCORE_LIMIT randomUUID hashToken randomSeed e w).
Proof.
  assert (∀ w', roomsRel presence w w' → roomsRel (memberStep e w) w w') as Hpres.
  { intros w'. apply roomsRel_impl. apply presence_memberStep. }
  destruct e as [socketId player reconnect now|socketId payload now|socketId now
                 |socketId payload now|socketId now|socketId now|now|timer now
                 |ref snapshot broadcast now|ref payload|ref now]; simpl.
  - apply Hpres, connect_rooms.
  - apply Hpres, grows_roomsRel, grows_joinQueue.
  - apply Hpres, grows_roomsRel, grows_leaveQueue.
  - apply Hpres. destruct (acceptReady_steps socketId payload now w) as [[more Hmore] _].
    by eapply roomsRel_more.
  - eapply roomsRel_impl; [|apply leaveMatch_rooms].
    intros m m' [->|(Hid & Hab & Hsock & Hat & state & Hstate & Hplayer)].
    + by apply presence_memberStep.
    + split_and!; try done. intros _ _. left. by exists socketId, now, state.
  - apply Hpres, disconnect_steps.
  - apply Hpres, grows_roomsRel, grows_tickQueueMatchmaking.
  - apply Hpres, grows_roomsRel, grows_fireTimer.
  - eapply roomsRel_impl; [|apply tickRoom_rooms].
    intros m m' (b & (Hid & Hticked) & (Hid' & Hab')).
    split_and!; try congruence.
    + intros Hm. destruct Hticked as [Hsame|(Hb & _)]; congruence.
    + intros Hm Hm'. right.
      destruct Hticked as [Hsame|(Hb & Hsock & t & Hat & Hlate)]; [congruence|].
      by exists ref, snapshot, broadcast, now, t.
  - apply Hpres, endRoomResume_rooms.
  - apply Hpres, endRoomBegin_rooms.
Qed.

Lemma handle_readies (e : Event) (w : World) :
  readyStep w (handle SCORE_LIMIT randomUUID hashToken randomSeed e w).
Proof.
  destruct e as [socketId player reconnect now|socketId payload now|socketId now
                 |socketId payload now|socketId now|socketId now|now|timer now
                 |ref snapshot broadcast now|ref payload|ref now]; simpl.
  - apply still_readyStep, connect_rooms.
  - apply grows_readyStep, grows_joinQueue.
  - apply grows_readyStep, grows_leaveQueue.
  - apply acceptReady_steps.
  - apply still_readyStep, leaveMatch_rooms.
  - apply disconnect_steps.
  - apply grows_readyStep, grows_tickQueueMatchmaking.
  - apply grows_readyStep, grows_fireTimer.
  - apply still_readyStep, tickRoom_rooms.
  - apply still_readyStep, endRoomResume_rooms.
  - apply still_readyStep, endRoomBegin_rooms.
Qed.
End HandlerSteps.

(** * The abandoned flag *)

Lemma getMember_Forall2 (P : RoomMember → RoomMember → Prop) playerId members members' m :
  (∀ a b, P a b → rm_playerId b = rm_playerId a) →
  Forall2 P members members' →
  getMember playerId members = Some m →
  ∃ m', getMember playerId members' = Some m' ∧ P m m'.
Proof.
  intros Hid Hrel. unfold getMember.
  induction Hrel as [|a b l l' Hab _ IH]; simpl; [done|].
  unfold isPlayer at 1 3. rewrite (Hid _ _ Hab).
  destruct (String.eqb (rm_playerId a) playerId).
  - intros [= <-]. by exists b.
  - apply IH.
Qed.

Lemma memberAt_roomsRel (P : RoomMember → RoomMember → Prop) w w' ref playerId m :
  (∀ a b, P a b → rm_playerId b = rm_playerId a) →
  roomsRel P w w' → memberAt w ref playerId = Some m →
  ∃ m', memberAt w' ref playerId = Some m' ∧ P m m'.
Proof.
  intros Hid Hrel. unfold memberAt. intros (room & Hroom & Hm)%bind_Some.
  destruct (Hrel _ _ Hroom) as (room' & Hroom' & Hmembers).
  destruct (getMember_Forall2 P _ _ _ _ Hid Hmembers Hm) as (m' & Hm' & HP).
  exists m'. by rewrite Hroom'.
Qed.

Lemma getMember_alterMember playerId f members m :
  getMember playerId members = Some m → rm_playerId (f m) = rm_playerId m →
  getMember playerId (alterMember playerId f members) = Some (f m).
Proof.
  unfold getMember. intros Hget Hid.
  induction members as [|a rest IH]; simpl in *; [done|].
  destruct (isPlayer playerId a) eqn:Ha.
  - injection Hget as <-. simpl. unfold isPlayer in *. by rewrite Hid, Ha.
  - simpl. rewrite Ha. by apply IH.
Qed.

(** A successful reconnection re-attaches the member and nothing else:
    the connection is the new one, the disconnect time is cleared, the
    reconnect count is one more, the flag is what it was. *)
Lemma tryReconnectToRoom_member socketId payload now w w' :
  tryReconnectToRoom socketId payload now w = (w', true) →
  ∃ state roomId ref room m m',
    socketState w !! socketId = Some state
    ∧ activeRooms w !! roomId = Some ref ∧ rooms w !! ref = Some room
    ∧ memberAt w ref (ss_playerId state) = Some m
    ∧ memberAt w' ref (ss_playerId state) = Some m'
    ∧ rm_socketId m' = Some socketId
    ∧ rm_disconnectedAt m' = None
    ∧ rm_reconnectCount m' = rm_reconnectCount m + 1
    ∧ rm_abandoned m' = rm_abandoned m.
Proof.
  unfold tryReconnectToRoom.
  destruct (socketState w !! socketId) as [state|] eqn:Hstate; [|done].
  destruct payload as [[[roomId|] [token|]]|]; simpl; try done.
  destruct (negb (negb (String.eqb roomId "")) || negb (negb (String.eqb token "")));
    [done|].
  destruct (activeRooms w !! roomId) as [ref|] eqn:Hactive; simpl; [|done].
  destruct (rooms w !! ref) as [room|] eqn:Hroom; simpl; [|done].
  destruct (getMember _ _) as [m|] eqn:Hmember; [|done].
  destruct (negb (String.eqb (rm_reconnectToken m) token)); [done|].
  destruct (truthyT (rm_disconnectedAt m) && _); [done|].
  intros [= <-].
  set (f := λ m0, withReconnectCount (rm_reconnectCount m0 + 1)
                    (withConnection (Some socketId) None m0)).
  exists state, roomId, ref, room, m, (f m). split_and!; try done.
  - unfold memberAt. by rewrite Hroom.
  - unfold memberAt. simpl.
    assert (∀ w0, rooms w0 = rooms w →
              alter (withMembers (alterMember (ss_playerId state) f)) ref (rooms w0)
              !! ref ≫= (λ room0, getMember (ss_playerId state) (room_members room0))
              = Some (f m)) as Halter.
    { intros w0 ->. rewrite list_lookup_alter_eq, Hroom. simpl.
      by apply (getMember_alterMember _ f). }
    destruct (rm_socketId m) as [old|]; [|by apply Halter].
    match goal with |- context [if ?c then _ else _] => destruct c end;
      by apply Halter.
Qed.

Lemma markIfExpired_keeps_flag now m :
  rm_abandoned m = true → rm_abandoned (markIfExpired now m) = true.
Proof.
  intros Hm. destruct (markIfExpired_ticked now m) as [_ [Hsame|[Hset _]]]; congruence.
Qed.

Lemma allAbandoned_marked now t members :
  allAbandoned t members → allAbandoned t (markIfExpired now <$> members).
Proof.
  intros Hall m' (m & -> & Hin)%list_elem_of_fmap Ht.
  apply markIfExpired_keeps_flag, Hall; [done|].
  by destruct (markIfExpired_ticked now m) as [Hid _];
    unfold markIfExpired in *; repeat case_match.
Qed.

(** The penalty in [buildRatingChanges]: one delta for team 0, its negation
    for team 1, and [ABANDON_PENALTY] less for a member that is flagged. *)
Lemma buildRatingChanges_penalty participants winnerTeam :
  ∃ delta0 : jsZ,
    Forall2 (λ m change,
               rc_playerId change = rm_playerId m
               ∧ rc_abandoned change = rm_abandoned m
               ∧ rc_delta change
                 = let teamDelta := if onTeamB Team0 m then delta0 else jneg delta0 in
                   if rm_abandoned m then jsub teamDelta (Some ABANDON_PENALTY)
                   else teamDelta)
            participants (buildRatingChanges participants winnerTeam).
Proof.
  unfold buildRatingChanges. eexists. apply Forall2_fmap_r, Forall2_same.
  intros m. simpl. split_and!; reflexivity.
Qed.

(** A team whose members are all flagged ends the match, connected or not. *)
Lemma shouldEndRoom_abandoned SCORE_LIMIT room now t :
  Z.max (fst (snap_score (room_lastSnapshot room)))
        (snd (snap_score (room_lastSnapshot room))) < SCORE_LIMIT →
  now - room_startedAt room <= MATCH_MAX_DURATION_MS →
  allAbandoned t (room_members room) →
  ∃ d, snd (shouldEndRoom SCORE_LIMIT room now) = Some d
       ∧ ed_reason d = "Equipo completo abandono la partida".
Proof.
  intros Hscore Htime Hall. unfold shouldEndRoom.
  destruct (_ >=? SCORE_LIMIT) eqn:Hge; [lia|].
  destruct (_ >? MATCH_MAX_DURATION_MS) eqn:Hgt; [lia|].
  rewrite memberTurn_foldl. cbn [app orb].
  apply (allAbandoned_marked now) in Hall. apply teamActive_false in Hall.
  destruct t; rewrite Hall; cbn [negb orb].
  - by eexists.
  - rewrite orb_true_r. by eexists.
Qed.

Section AbandonedFlag.
Variable SCORE_LIMIT : Z.
Variable randomUUID : nat → string.
Variable hashToken : string → string.
Variable randomSeed : nat → Z.

(** C10.  No event clears the abandoned flag of a member.  A reconnection
    that succeeds re-attaches the member (new connection, no disconnect
    time, reconnect count one more) and leaves the flag as it was, so a
    member that left and came back stays flagged: a team whose members are
    all flagged ends the match as abandoned even when they are connected,
    and the rating change of a flagged member is marked abandoned and has
    the penalty taken off its delta. *)
Theorem C10_abandoned_flag_is_never_cleared :
  (∀ e w ref playerId m,
     memberAt w ref playerId = Some m → rm_abandoned m = true →
     ∃ m', memberAt (handle SCORE_LIMIT randomUUID hashToken randomSeed e w) ref playerId
           = Some m'
           ∧ rm_abandoned m' = true)
  ∧ (∀ socketId payload now w w',
       tryReconnectToRoom socketId payload now w = (w', true) →
       ∃ state roomId ref room m m',
         socketState w !! socketId = Some state
         ∧ activeRooms w !! roomId = Some ref ∧ rooms w !! ref = Some room
         ∧ memberAt w ref (ss_playerId state) = Some m
         ∧ memberAt w' ref (ss_playerId state) = Some m'
         ∧ rm_socketId m' = Some socketId
         ∧ rm_disconnectedAt m' = None
         ∧ rm_reconnectCount m' = rm_reconnectCount m + 1
         ∧ rm_abandoned m' = rm_abandoned m)
  ∧ (∀ room now t,
       Z.max (fst (snap_score (room_lastSnapshot room)))
             (snd (snap_score (room_lastSnapshot room))) < SCORE_LIMIT →
       now - room_startedAt room <= MATCH_MAX_DURATION_MS →
       allAbandoned t (room_members room) →
       ∃ d, snd (shouldEndRoom SCORE_LIMIT room now) = Some d
            ∧ ed_reason d = "Equipo completo abandono la partida")
  ∧ (∀ participants winnerTeam,
       ∃ delta0 : jsZ,
         Forall2 (λ m change,
                    rc_playerId change = rm_playerId m
                    ∧ rc_abandoned change = rm_abandoned m
                    ∧ rc_delta change
                      = let teamDelta := if onTeamB Team0 m then delta0 else jneg delta0 in
                        if rm_abandoned m then jsub teamDelta (Some ABANDON_PENALTY)
                        else teamDelta)
                 participants (buildRatingChanges participants winnerTeam)).
Proof.
  split_and!.
  - intros e w ref playerId m Hm Hflag.
    destruct (memberAt_roomsRel (memberStep e w) w _ ref playerId m
                ltac:(by intros a b [? _])
                (handle_rooms SCORE_LIMIT randomUUID hashToken randomSeed e w) Hm)
      as (m' & Hm' & _ & Hkeep & _).
    exists m'. auto.
  - apply tryReconnectToRoom_member.
  - intros room now t. apply shouldEndRoom_abandoned.
  - apply buildRatingChanges_penalty.
Qed.

(** C2, amended.  The flag of a member is set by two events only: by the
    tick of its room, when the member has no connection and its disconnect
    time lies more than the grace window back; and by [leaveMatch] of the
    player's own connection, at once, whatever the grace window. *)
Theorem C2_flag_set_by_tick_after_grace_or_by_leaving :
  ∀ e w ref playerId m m',
    memberAt w ref playerId = Some m →
    memberAt (handle SCORE_LIMIT randomUUID hashToken randomSeed e w) ref playerId = Some m' →
    rm_abandoned m = false → rm_abandoned m' = true →
    (∃ socketId now state,
        e = EvLeaveMatch socketId now
        ∧ socketState w !! socketId = Some state
        ∧ ss_playerId state = rm_playerId m
        ∧ rm_socketId m' = None ∧ rm_disconnectedAt m' = Some now)
    ∨ (∃ ref' snapshot broadcast now t,
        e = EvTickRoom ref' snapshot broadcast now
        ∧ truthyS (rm_socketId m) = false
        ∧ rm_disconnectedAt m = Some t
        ∧ now - t > RECONNECT_GRACE_MS).
Proof.
  intros e w ref playerId m m' Hm Hm' Hclear Hset.
  destruct (memberAt_roomsRel (memberStep e w) w _ ref playerId m
              ltac:(by intros a b [? _])
              (handle_rooms SCORE_LIMIT randomUUID hashToken randomSeed e w) Hm)
    as (m'' & Hm'' & _ & _ & Hcause).
  rewrite Hm' in Hm''. injection Hm'' as <-. by apply Hcause.
Qed.
End AbandonedFlag.

(** * The abandoned flag on the run *)

(** C2 fails as stated: in the match of Ana and Luis, Ana is connected and
    not flagged; her [leaveMatch] at 20000 flags her at once, without any
    time spent disconnected. *)
Lemma C2_counterexample_leaving_flags_at_once :
  ¬ flaggedOnlyAfterGrace 7 demoUUID demoHash demoSeed.
Proof.
  intros Hclaim.
  destruct (Hclaim (EvLeaveMatch "s1" 20000) playing 0%nat "ana"
              (anaIn playing) (anaIn anaLeft)) as [Hconnected _].
  - vm_compute. reflexivity.
  - vm_compute. reflexivity.
  - vm_compute. reflexivity.
  - vm_compute. reflexivity.
  - vm_compute in Hconnected. discriminate.
Qed.

(** In that run the amended statement names the cause: Ana's own
    [leaveMatch]. *)
Lemma C2_witness :
  (∃ socketId now state,
      EvLeaveMatch "s1" 20000 = EvLeaveMatch socketId now
      ∧ socketState playing !! socketId = Some state
      ∧ ss_playerId state = rm_playerId (anaIn playing)
      ∧ rm_socketId (anaIn anaLeft) = None ∧ rm_disconnectedAt (anaIn anaLeft) = Some now)
  ∨ (∃ ref' snapshot broadcast now t,
      EvLeaveMatch "s1" 20000 = EvTickRoom ref' snapshot broadcast now
      ∧ truthyS (rm_socketId (anaIn playing)) = false
      ∧ rm_disconnectedAt (anaIn playing) = Some t
      ∧ now - t > RECONNECT_GRACE_MS).
Proof.
  apply (C2_flag_set_by_tick_after_grace_or_by_leaving 7 demoUUID demoHash demoSeed
           (EvLeaveMatch "s1" 20000) playing 0%nat "ana").
  - vm_compute. reflexivity.
  - vm_compute. reflexivity.
  - vm_compute. reflexivity.
  - vm_compute. reflexivity.
Defined.

(** Ana, back within the grace window, is connected again and still
    flagged. *)
Lemma C10_witness :
  ∃ m', memberAt anaBack 0 "ana" = Some m' ∧ rm_abandoned m' = true.
Proof.
  apply (proj1 (C10_abandoned_flag_is_never_cleared 7 demoUUID demoHash demoSeed)
           (EvConnect "s3" (demoPlayer "ana") (Some (Some "match-1", Some "rc_4")) 20010)
           anaLeft 0%nat "ana" (anaIn anaLeft)).
  - vm_compute. reflexivity.
  - vm_compute. reflexivity.
Defined.

Example anaBack_is_attached :
  rm_socketId (anaIn anaBack) = Some "s3"
  ∧ rm_disconnectedAt (anaIn anaBack) = None
  ∧ rm_reconnectCount (anaIn anaBack) = 1
  ∧ rm_abandoned (anaIn anaBack) = true.
Proof. vm_compute. done. Qed.

(** * The life of a ready check *)

Section ReadyCheckLife.
Variable SCORE_LIMIT : Z.
Variable randomUUID : nat → string.
Variable hashToken : string → string.
Variable randomSeed : nat → Z.

Lemma cancelReadyCheck_pending ref reason acceptedOnly excludePlayerId now w ready :
  readies w !! ref = Some ready →
  pendingReadyById (cancelReadyCheck randomUUID ref reason acceptedOnly excludePlayerId now w)
  = delete (rd_id ready) (pendingReadyById w).
Proof.
  intros Hready. unfold cancelReadyCheck. rewrite Hready.
  destruct (pendingReadyById w !! rd_id ready) eqn:Hpending;
    [|by rewrite delete_id].
  match goal with
  | |- pendingReadyById (foldl ?f (foldl ?g ?w0 _) _) = _ =>
      assert (quiet w0 (foldl f (foldl g w0 (rd_members ready)) (rd_members ready)))
        as (_ & _ & -> & _)
        by (etrans; [apply (quiet_foldl g); intros; by case_bool_decide|];
            apply (quiet_foldl f); intros; apply quiet_requeueMember)
  end.
  destruct (quiet_clearPendingReadyAssociation ready
              (upd_pendingReadyById (delete (rd_id ready))
                 (clearTimeout (rd_timeoutHandle ready) w))) as (_ & _ & -> & _).
  simpl. by destruct (rd_timeoutHandle ready).
Qed.

End ReadyCheckLife.

(** C9 fails as stated: the ready check of Ana and Luis expires at 12000
    and its timer is due at 12080; Luis accepts at 12050, the acceptance is
    recorded, and the match starts. *)
Lemma C9_counterexample_accepted_after_expiry :
  ¬ untouchedAfterExpiry 7 demoUUID demoHash demoSeed.
Proof.
  intros Hclaim.
  pose proof (Hclaim (EvReadyCheckResponse "s2" acceptIt 12050) anaAccepted 0%nat
                (theReady anaAccepted) 12050) as Hsame.
  assert (size (rd_accepted (theReady playing)) = size (rd_accepted (theReady anaAccepted)))
    as Hsize.
  { unfold theReady at 1. unfold playing, run. cbn [foldl]. fold demoHandle.
    unfold demoHandle. rewrite Hsame; [done| | |].
    - vm_compute. reflexivity.
    - reflexivity.
    - vm_compute. reflexivity. }
  vm_compute in Hsize. discriminate.
Qed.

Example accepted_after_expiry_starts_the_match :
  rd_expiresAt (theReady anaAccepted) = 12000
  ∧ timers anaAccepted !! 0%nat = Some (0%nat, 12080)
  ∧ length (rooms anaAccepted) = 0%nat
  ∧ room_id (theRoom playing) = "match-1"
  ∧ room_startedAt (theRoom playing) = 12050
  ∧ pendingReadyById playing !! "ready-1" = None.
Proof. vm_compute. done. Qed.


(** * Back into the queue after a cancelled ready check *)

Lemma reportPositions_entries now total index bucket w :
  queueEntryBySocket (reportPositions now total index bucket w) = queueEntryBySocket w.
Proof.
  revert index w. induction bucket as [|entry rest IH]; intros index w; simpl; [done|].
  rewrite IH. by case_bool_decide.
Qed.

Lemma updateQueuePositions_entries bucketKey now w :
  queueEntryBySocket (updateQueuePositions bucketKey now w) = queueEntryBySocket w.
Proof.
  unfold updateQueuePositions. destruct (oget _ _); [|done].
  by rewrite reportPositions_entries.
Qed.

(** What [enqueueFromSocketState] registers for the connection: an entry
    in the bucket of the normalised playlist and region, with the priority
    taken off its join time. *)
Lemma enqueueFromSocketState_entry randomUUID sid payload priorityMs now w state :
  socketState w !! sid = Some state →
  ∃ entry,
    queueEntryBySocket (enqueueFromSocketState randomUUID sid payload priorityMs now w)
      !! ss_socketId state = Some (getBucketKey entry, entry)
    ∧ qe_joinedAt entry = now - Z.max 0 priorityMs
    ∧ qe_playlist entry = normalizePlaylist (qp_playlist payload)
    ∧ qe_region entry = normalizeRegion (qp_region payload).
Proof.
  intros Hstate. unfold enqueueFromSocketState. rewrite Hstate.
  unfold createQueueEntry. cbv beta iota zeta.
  rewrite updateQueuePositions_entries.
  match goal with
  | |- context [withBucketKey ?k ?e] => set (entry := withBucketKey k e)
  end.
  exists entry. split; [|done].
  repeat match goal with
         | |- context [if ?c then _ else _] => destruct c
         end; simpl; apply lookup_insert_eq.
Qed.

(** A member put back by [cancelReadyCheck] joins earlier than a request
    made at the same moment. *)
Lemma requeue_priority_is_earlier now :
  now - Z.max 0 QUEUE_REQUEUE_PRIORITY_MS < now - Z.max 0 0.
Proof. unfold QUEUE_REQUEUE_PRIORITY_MS. lia. Qed.

(** Normalising a region twice is not normalising it once: the cut to 8
    characters comes after the trim and can leave a space at the end. *)
Example normalizeRegion_twice :
  normalizeRegion (Some "us east 1") = "us east "
  ∧ normalizeRegion (Some (normalizeRegion (Some "us east 1"))) = "us east".
Proof. vm_compute. done. Qed.

(** C7, as the code has it.  Ana and Luis queue for a duel with the region
    ["us east 1"], which the server keeps as ["us east "]: their bucket is
    ["duel|us east "].  The ready check times out with Ana's acceptance
    alone.  Ana is put back with a join time 12000 ms before the timeout,
    and Luis is not put back; but [enqueueFromSocketState] normalises the
    region of the ready check once more, so Ana's bucket is now
    ["duel|us east"], another one than the bucket she came from. *)
Theorem C7_requeue_lands_in_another_bucket :
  fst <$> queueEntryBySocket anaQueued !! "s1" = Some "duel|us east "
  ∧ rd_region (theReady anaAccepted) = "us east "
  ∧ rd_accepted (theReady anaAccepted) = {[ "ana" ]}
  ∧ fst <$> queueEntryBySocket timedOut !! "s1" = Some "duel|us east"
  ∧ qe_joinedAt ∘ snd <$> queueEntryBySocket timedOut !! "s1"
    = Some (12080 - QUEUE_REQUEUE_PRIORITY_MS)
  ∧ queueEntryBySocket timedOut !! "s2" = None
  ∧ okeys (queueByBucket timedOut) = ["duel|us east"].
Proof. vm_compute. done. Qed.

(** * The theorems at work *)

Lemma C4_witness :
  ∃ c, findBestCandidate 10 (getPlaylistConfig "duel") demoBucket = Ok (Some c)
       ∧ concat (seatsGiven (cand_slotsByEntryId c) <$> cand_entries c) ≡ₚ [0; 2]%nat.
Proof.
  eexists. split; [vm_compute; reflexivity|].
  refine (proj1 (proj2 (proj2 (C4_seats_exact demoUUID 10 "duel" demoBucket _ _ _)))).
  - compute_done.
  - vm_compute. reflexivity.
Defined.

Lemma C5_witness :
  ∃ c, findBestCandidate 10 (getPlaylistConfig "duel") demoBucket = Ok (Some c)
       ∧ qe_pingMs (demoEntry "ana" 1 1000 5) <= qe_maxPingMs (demoEntry "luis" 1 1000 9)
       ∧ qe_pingMs (demoEntry "luis" 1 1000 9) <= qe_maxPingMs (demoEntry "ana" 1 1000 5).
Proof.
  eexists. split; [vm_compute; reflexivity|].
  refine (C5_latency_tolerance_both_ways 10 (getPlaylistConfig "duel") demoBucket _ _ _ _ _ _).
  - vm_compute. reflexivity.
  - apply list_elem_of_In. vm_compute. auto.
  - apply list_elem_of_In. vm_compute. auto.
Defined.

(** The first scenario of the spec: two solo players of rating 1000 in a
    duel bucket end up on opposite teams, seats by join order. *)
Example duel_of_two :
  ∃ c, findBestCandidate 10 (getPlaylistConfig "duel") demoBucket = Ok (Some c)
       ∧ cand_assignmentByEntryId c !! "q_ana" = Some Team0
       ∧ cand_assignmentByEntryId c !! "q_luis" = Some Team1
       ∧ cand_slotsByEntryId c !! "q_ana" = Some [0%nat]
       ∧ cand_slotsByEntryId c !! "q_luis" = Some [2%nat].
Proof. eexists. split; [vm_compute; reflexivity|]. vm_compute. done. Qed.

Lemma C1_witness :
  endRoom demoUUID demoHash 0 "otra vez" None 31000
    (endRoom demoUUID demoHash 0 "fin" None 30000 playing)
  = endRoom demoUUID demoHash 0 "fin" None 30000 playing.
Proof.
  refine (proj1 (proj2 (proj2 (proj2
            (C1_endRoom_idempotent 7 demoUUID demoHash 0 "fin" None 30000 playing
               (theRoom playing) _ _)))) _ _ _).
  - vm_compute. reflexivity.
  - vm_compute. reflexivity.
Defined.

(** The end of [match-1] at 0-0: one record, both players told, and the
    ratings that come out are [NaN]. *)
Example end_of_the_duel :
  let w1 := endRoom demoUUID demoHash 0 "fin" None 30000 playing in
  length (matches w1) = 1%nat
  ∧ activeRooms w1 !! "match-1" = None
  ∧ (rc_delta <$> (matches w1 ≫= mr_players)) = [None; None]
  ∧ (pp_rating <$> playersById w1 !! "ana") = Some None.
Proof. vm_compute. done. Qed.

(** In [match-1] no two seats share a token. *)
Lemma tokensDistinct_anaKnocks : tokensDistinct anaKnocks.
Proof.
  assert (Hheld : ∀ r p token m, holdsToken anaKnocks r p token m →
            r = "match-1"
            ∧ (p = "ana" ∧ token = "rc_4" ∨ p = "luis" ∧ token = "rc_3")).
  { intros r p token m (ref & room & Hr & Hroom & Hm & Htoken).
    replace (activeRooms anaKnocks) with ({[ "match-1" := 0%nat ]} : gmap string nat) in Hr
      by (vm_compute; reflexivity).
    apply lookup_singleton_Some in Hr as [<- <-].
    split; [reflexivity|].
    vm_compute in Hroom. injection Hroom as <-.
    unfold getMember in Hm. cbn [room_members find] in Hm.
    unfold isPlayer in Hm. cbn [rm_playerId] in Hm.
    revert Hm Htoken. destruct (String.eqb_spec "luis" p) as [<-|_].
    { intros [= <-] Htoken. right. split; [reflexivity|]. symmetry. exact Htoken. }
    destruct (String.eqb_spec "ana" p) as [<-|_]; [|intros Hm; inversion Hm].
    intros [= <-] Htoken. left. split; [reflexivity|]. symmetry. exact Htoken. }
  intros r1 p1 m1 r2 p2 m2 token H1 H2.
  apply Hheld in H1 as [-> H1]. apply Hheld in H2 as [-> H2]. clear Hheld.
  split; [reflexivity|].
  destruct H1 as [[-> ->]|[-> ->]], H2 as [[-> H2]|[-> H2]];
    first [reflexivity | inversion H2].
Qed.

(** Luis cannot take Ana's seat with her token, and Ana's own token is
    turned down once she has been away for longer than the grace window. *)
Lemma C6_witness :
  snd (tryReconnectToRoom "s2" (Some (Some "match-1", Some "rc_4")) 20010 anaKnocks) = false
  ∧ snd (tryReconnectToRoom "s3" (Some (Some "match-1", Some "rc_4")) 65001 anaKnocks) = false.
Proof.
  assert (Hana : holdsToken anaKnocks "match-1" "ana" "rc_4" (anaIn anaKnocks)).
  { exists 0%nat, (theRoom anaKnocks). vm_compute. repeat split. }
  split.
  - refine (proj1 (proj2 (C6_reconnect_guard "s2" _ 20010 anaKnocks))
              _ "match-1" "rc_4" "match-1" "ana" (anaIn anaKnocks) _ eq_refl
              tokensDistinct_anaKnocks Hana _).
    + vm_compute. reflexivity.
    + right. vm_compute. intros H. inversion H.
  - refine (proj1 (proj2 (proj2 (C6_reconnect_guard "s3" _ 65001 anaKnocks)))
              _ "match-1" "rc_4" (anaIn anaKnocks) 20000 _ eq_refl _ _ _ _).
    + vm_compute. reflexivity.
    + exact Hana.
    + vm_compute. reflexivity.
    + intros H. inversion H.
    + vm_compute. reflexivity.
Defined.

(** At 20016 the next tick finds Ana, who left at 20000, abandoned: the
    match goes to Luis's team. *)
Example the_team_that_stays_wins :
  ∃ d, snd (shouldEndRoom 7 (theRoom anaLeft) 20016) = Some d
       ∧ ed_reason d = "Equipo completo abandono la partida"
       ∧ ed_winner d = Some Team1.
Proof.
  destruct (shouldEndRoom_in_order 7 (theRoom anaLeft) 20016) as (_ & _ & Hc).
  destruct Hc as (_ & Hend & _); [vm_compute; reflexivity | vm_compute; intros H; inversion H |].
  assert (H0 : allAbandoned Team0
                 (room_members (fst (shouldEndRoom 7 (theRoom anaLeft) 20016))))
    by (refine (proj1 (teamActive_false Team0 _) _); vm_compute; reflexivity).
  assert (H1 : ¬ allAbandoned Team1
                 (room_members (fst (shouldEndRoom 7 (theRoom anaLeft) 20016)))).
  { intros H. pose proof (proj2 (teamActive_false Team1 _) H) as Hno.
    vm_compute in Hno. inversion Hno. }
  destruct (Hend (or_introl H0)) as (d & Hd & Hreason & _ & Hwinner & _).
  exists d. split; [exact Hd|]. split; [exact Hreason|]. exact (Hwinner H0 H1).
Qed.

(** * More of the MatchFinder *)

Lemma inputModeCompatible_sym a b : inputModeCompatible a b = inputModeCompatible b a.
Proof.
  unfold inputModeCompatible. rewrite (String.eqb_sym a b).
  destruct (String.eqb a "mixed"), (String.eqb b "mixed"); reflexivity.
Qed.

Lemma comboCompatible_pairs entries now :
  comboCompatible entries now = true →
  ∀ i j a b, (i < j)%nat → entries !! i = Some a → entries !! j = Some b →
    pairCompatible a b now = true.
Proof.
  induction entries as [|x rest IH]; [by intros _ [] ? ? ? ? [=]|].
  cbn [comboCompatible]. intros [[_ Hpairs]%andb_true_iff Hrest]%andb_true_iff.
  rewrite forallb_forall in Hpairs.
  intros [|i] [|j] a b Hij Ha Hb; simpl in *; try lia.
  - injection Ha as <-. apply Hpairs, list_elem_of_In. by eapply list_elem_of_lookup_2.
  - apply (IH Hrest i j); [lia|done|done].
Qed.

Lemma mmrRangeForEntry_base entry now : QUEUE_BASE_MMR_RANGE <= mmrRangeForEntry entry now.
Proof.
  unfold mmrRangeForEntry, QUEUE_BASE_MMR_RANGE, QUEUE_MAX_MMR_RANGE, QUEUE_EXPAND_EVERY_MS,
    QUEUE_EXPAND_STEP.
  assert (0 <= Z.max 0 (now - qe_joinedAt entry) / 10000) by (apply Z.div_pos; lia).
  lia.
Qed.

(** X4.  The window of an entry starts at 120, grows with the wait and stops
    at 720: it is 120 during the first ten seconds in the queue and 720
    from two and a half minutes on. *)
Theorem X4_mmrRangeForEntry_window entry now :
  QUEUE_BASE_MMR_RANGE <= mmrRangeForEntry entry now <= QUEUE_MAX_MMR_RANGE
  ∧ (∀ later, now <= later → mmrRangeForEntry entry now <= mmrRangeForEntry entry later)
  ∧ (now - qe_joinedAt entry < QUEUE_EXPAND_EVERY_MS →
     mmrRangeForEntry entry now = QUEUE_BASE_MMR_RANGE)
  ∧ (15 * QUEUE_EXPAND_EVERY_MS <= now - qe_joinedAt entry →
     mmrRangeForEntry entry now = QUEUE_MAX_MMR_RANGE).
Proof.
  unfold mmrRangeForEntry, QUEUE_BASE_MMR_RANGE, QUEUE_MAX_MMR_RANGE, QUEUE_EXPAND_EVERY_MS,
    QUEUE_EXPAND_STEP.
  assert (Hdiv : ∀ x, 0 <= x → 0 <= x / 10000) by (intros; apply Z.div_pos; lia).
  split_and!.
  - pose proof (Hdiv (Z.max 0 (now - qe_joinedAt entry))). lia.
  - pose proof (Hdiv (Z.max 0 (now - qe_joinedAt entry))). lia.
  - intros later Hlater.
    assert (Z.max 0 (now - qe_joinedAt entry) / 10000
            <= Z.max 0 (later - qe_joinedAt entry) / 10000)
      by (apply Z.div_le_mono; lia).
    lia.
  - intros Hearly.
    assert (Z.max 0 (now - qe_joinedAt entry) / 10000 = 0) as ->
      by (apply Z.div_small; lia).
    lia.
  - intros Hlate.
    assert (15 <= Z.max 0 (now - qe_joinedAt entry) / 10000)
      by (apply Z.div_le_lower_bound; lia).
    lia.
Qed.

(** Any two entries of a compatible combination, in whatever order: their
    input modes go together and their rating gap lies within the windows
    of both. *)
Lemma comboCompatible_modes_and_ratings entries now :
  comboCompatible entries now = true →
  ∀ a b, a ∈ entries → b ∈ entries →
    inputModeCompatible (qe_inputMode a) (qe_inputMode b) = true
    ∧ ∀ ra rb, qe_rating a = Some ra → qe_rating b = Some rb →
        Z.abs (ra - rb) <= Z.min (mmrRangeForEntry a now) (mmrRangeForEntry b now).
Proof.
  intros Hcompat.
  assert (Hordered : ∀ a b, pairCompatible a b now = true →
            inputModeCompatible (qe_inputMode a) (qe_inputMode b) = true
            ∧ ∀ ra rb, qe_rating a = Some ra → qe_rating b = Some rb →
                Z.abs (ra - rb) <= Z.min (mmrRangeForEntry a now) (mmrRangeForEntry b now)).
  { intros a b [[Hmode Hmmr]%andb_true_iff _]%andb_true_iff. split; [done|].
    intros ra rb Hra Hrb. rewrite Hra, Hrb in Hmmr. simpl in Hmmr.
    apply negb_true_iff in Hmmr. lia. }
  intros a b [i Hi]%list_elem_of_lookup [j Hj]%list_elem_of_lookup.
  destruct (lt_eq_lt_dec i j) as [[Hlt|Heq]|Hgt].
  - apply Hordered. by apply (comboCompatible_pairs entries now Hcompat i j).
  - subst j. assert (a = b) as <- by congruence. split.
    + unfold inputModeCompatible. rewrite String.eqb_refl. by rewrite orb_true_r.
    + intros ra rb Hra Hrb. assert (ra = rb) as <- by congruence.
      pose proof (mmrRangeForEntry_base a now) as Hwindow.
      unfold QUEUE_BASE_MMR_RANGE in Hwindow. lia.
  - destruct (Hordered b a) as [Hmode Hmmr].
    { by apply (comboCompatible_pairs entries now Hcompat j i). }
    split; [by rewrite inputModeCompatible_sym|].
    intros ra rb Hra Hrb. specialize (Hmmr rb ra Hrb Hra). lia.
Qed.

(** X1.  No combination that MatchFinder returns puts a keyboard-only and a
    controller-only entry together: of any two of its entries, one takes
    any input mode or both name the same. *)
Theorem X1_candidate_input_modes_go_together now playlistConfig entries candidate :
  findBestCandidate now playlistConfig entries = Ok (Some candidate) →
  ∀ a b, a ∈ cand_entries candidate → b ∈ cand_entries candidate →
    qe_inputMode a = "mixed" ∨ qe_inputMode b = "mixed" ∨ qe_inputMode a = qe_inputMode b.
Proof.
  intros (sub & _ & Hentries & Hcompat & _)%findBestCandidate_built a b Ha Hb.
  rewrite Hentries in Ha, Hb.
  destruct (comboCompatible_modes_and_ratings sub now Hcompat a b Ha Hb) as [Hmode _].
  unfold inputModeCompatible in Hmode.
  apply orb_true_iff in Hmode as [[Hm|Hm]%orb_true_iff|Hm]; apply String.eqb_eq in Hm; auto.
Qed.

(** X2.  In every combination that MatchFinder returns, the ratings of any two
    entries that have one lie no further apart than the window of either
    entry at the time of the search. *)
Theorem X2_candidate_ratings_within_both_windows now playlistConfig entries candidate :
  findBestCandidate now playlistConfig entries = Ok (Some candidate) →
  ∀ a b ra rb, a ∈ cand_entries candidate → b ∈ cand_entries candidate →
    qe_rating a = Some ra → qe_rating b = Some rb →
    Z.abs (ra - rb) <= mmrRangeForEntry a now
    ∧ Z.abs (ra - rb) <= mmrRangeForEntry b now.
Proof.
  intros (sub & _ & Hentries & Hcompat & _)%findBestCandidate_built a b ra rb Ha Hb Hra Hrb.
  rewrite Hentries in Ha, Hb.
  destruct (comboCompatible_modes_and_ratings sub now Hcompat a b Ha Hb) as [_ Hgap].
  specialize (Hgap ra rb Hra Hrb). lia.
Qed.

(** X3.  Only the sixteen entries that have waited longest are searched: the
    entries of a combination come, in their order, from the first sixteen
    of the bucket sorted by join time, and their party sizes add up to the
    seats of the playlist. *)
Theorem X3_candidate_from_the_sixteen_oldest now playlist entries candidate :
  findBestCandidate now (getPlaylistConfig playlist) entries = Ok (Some candidate) →
  cand_entries candidate `sublist_of` take 16 (sort_by byJoinedAt entries)
  ∧ seatsOf (cand_entries candidate) = totalSeats (getPlaylistConfig playlist).
Proof.
  set (cfg := getPlaylistConfig playlist).
  intros Hfind.
  assert (Hseats : totalSeats cfg = (teamSize cfg + teamSize cfg)%nat).
  { unfold cfg, getPlaylistConfig. by destruct (String.eqb _ _). }
  assert (Hbuilt : ∃ sub, sub `sublist_of` take 16 (sort_by byJoinedAt entries)
                          ∧ builtFrom now cfg sub candidate).
  { unfold findBestCandidate in Hfind. destruct (length entries <? 2)%nat; [done|].
    replace (0 =? totalSeats cfg)%nat with false in Hfind
      by (unfold cfg, getPlaylistConfig; by destruct (String.eqb _ _)).
    destruct (candidateLoop_built _ _ _ _ _ _ _ _ Hfind eq_refl) as [?|(sub & Hsub & Hb)];
      [done|].
    by exists sub. }
  destruct Hbuilt as (sub & Hsub & Hentries & _ & partition & Hpart & _).
  rewrite Hentries. split; [done|].
  unfold findBestTeamPartition in Hpart.
  destruct (partitionDfs sub (teamSize cfg)) as [best|] eqn:Hdfs; [|done].
  destruct (partitionDfs_exact _ _ _ Hdfs) as (Hs0 & Hs1 & Hperm).
  rewrite <- (seatsOf_Permutation _ _ Hperm), seatsOf_app. lia.
Qed.

Lemma X1_witness :
  ∃ c, findBestCandidate 10 (getPlaylistConfig "duel") demoBucket = Ok (Some c)
       ∧ (qe_inputMode (demoEntry "ana" 1 1000 5) = "mixed"
          ∨ qe_inputMode (demoEntry "luis" 1 1000 9) = "mixed"
          ∨ qe_inputMode (demoEntry "ana" 1 1000 5) = qe_inputMode (demoEntry "luis" 1 1000 9)).
Proof.
  eexists. split; [vm_compute; reflexivity|].
  refine (X1_candidate_input_modes_go_together 10 (getPlaylistConfig "duel") demoBucket
            _ _ _ _ _ _).
  - vm_compute. reflexivity.
  - apply list_elem_of_In. vm_compute. auto.
  - apply list_elem_of_In. vm_compute. auto.
Defined.

Lemma X2_witness :
  ∃ c, findBestCandidate 10 (getPlaylistConfig "duel") demoBucket = Ok (Some c)
       ∧ Z.abs (1000 - 1000) <= mmrRangeForEntry (demoEntry "ana" 1 1000 5) 10
       ∧ Z.abs (1000 - 1000) <= mmrRangeForEntry (demoEntry "luis" 1 1000 9) 10.
Proof.
  eexists. split; [vm_compute; reflexivity|].
  refine (X2_candidate_ratings_within_both_windows 10 (getPlaylistConfig "duel") demoBucket
            _ _ (demoEntry "ana" 1 1000 5) (demoEntry "luis" 1 1000 9) 1000 1000
            _ _ eq_refl eq_refl).
  - vm_compute. reflexivity.
  - apply list_elem_of_In. vm_compute. auto.
  - apply list_elem_of_In. vm_compute. auto.
Defined.

Lemma X3_witness :
  ∃ c, findBestCandidate 10 (getPlaylistConfig "duel") demoBucket = Ok (Some c)
       ∧ seatsOf (cand_entries c) = 2%nat.
Proof.
  eexists. split; [vm_compute; reflexivity|].
  refine (proj2 (X3_candidate_from_the_sixteen_oldest 10 "duel" demoBucket _ _)).
  vm_compute. reflexivity.
Defined.

(** * Names, playlists, regions and input modes *)

Lemma substring_length_le (n m : nat) (s : string) :
  (String.length (String.substring n m s) <= m)%nat.
Proof.
  revert n m. induction s as [|c s IH]; intros [|n] [|m]; simpl; try lia.
  - specialize (IH 0%nat m). lia.
  - apply IH.
  - apply IH.
Qed.

Lemma orElse_not_empty a b : b ≠ "" → orElse a b ≠ "".
Proof.
  intros Hb. unfold orElse. destruct (String.eqb_spec a ""); [done|done].
Qed.

Lemma orElse_length a b n :
  (String.length a <= n)%nat → (String.length b <= n)%nat →
  (String.length (orElse a b) <= n)%nat.
Proof. intros Ha Hb. unfold orElse. by destruct (String.eqb a ""). Qed.

Lemma sanitizeNickname_shape value :
  sanitizeNickname value ≠ "" ∧ (String.length (sanitizeNickname value) <= 18)%nat.
Proof.
  unfold sanitizeNickname. split.
  - by apply orElse_not_empty.
  - apply orElse_length; [apply substring_length_le|simpl; lia].
Qed.

Lemma normalizeRegion_shape value :
  normalizeRegion value ≠ "" ∧ (String.length (normalizeRegion value) <= 8)%nat.
Proof.
  unfold normalizeRegion. split.
  - by apply orElse_not_empty.
  - apply orElse_length; [apply substring_length_le|simpl; lia].
Qed.

Lemma normalizePlaylist_cases value :
  normalizePlaylist value = "duel" ∨ normalizePlaylist value = "ranked".
Proof. unfold normalizePlaylist. destruct (_ || _); auto. Qed.

Lemma normalizeInputMode_cases value :
  normalizeInputMode value = "keyboard" ∨ normalizeInputMode value = "controller"
  ∨ normalizeInputMode value = "mixed".
Proof.
  unfold normalizeInputMode.
  destruct (String.eqb_spec (toLowerCase (default "mixed" value)) "keyboard") as [->|_];
    [auto|].
  destruct (String.eqb_spec (toLowerCase (default "mixed" value)) "controller") as [->|_];
    simpl; auto.
Qed.

Lemma lowerAscii_twice c : lowerAscii (lowerAscii c) = lowerAscii c.
Proof.
  unfold lowerAscii.
  destruct ((65 <=? nat_of_ascii c)%nat && (nat_of_ascii c <=? 90)%nat) eqn:Hupper; [|by rewrite Hupper].
  apply andb_true_iff in Hupper as [H1%Nat.leb_le H2%Nat.leb_le].
  rewrite nat_ascii_embedding by lia.
  replace (nat_of_ascii c + 32 <=? 90)%nat with false by (symmetry; apply Nat.leb_gt; lia).
  by rewrite andb_false_r.
Qed.

Lemma toLowerCase_twice s : toLowerCase (toLowerCase s) = toLowerCase s.
Proof. induction s as [|c s IH]; simpl; [done|]. by rewrite lowerAscii_twice, IH. Qed.

(** X6.  Playlist, region and input mode are read without regard to upper
    and lower case: a value and its lower-case form are normalised to the
    same string. *)
Theorem X6_normalisation_ignores_case (value : string) :
  normalizePlaylist (Some (toLowerCase value)) = normalizePlaylist (Some value)
  ∧ normalizeRegion (Some (toLowerCase value)) = normalizeRegion (Some value)
  ∧ normalizeInputMode (Some (toLowerCase value)) = normalizeInputMode (Some value).
Proof.
  unfold normalizePlaylist, normalizeRegion, normalizeInputMode. simpl.
  by rewrite toLowerCase_twice.
Qed.

(** X5.  A nickname that went through [sanitizeNickname] is never empty and
    never longer than 18 characters, whatever was sent. *)
Theorem X5_sanitizeNickname_never_empty (value : option string) :
  sanitizeNickname value ≠ ""
  ∧ (1 <= String.length (sanitizeNickname value) <= 18)%nat.
Proof.
  destruct (sanitizeNickname_shape value) as [Hne Hlen]. split; [done|].
  split; [|done]. destruct (sanitizeNickname value); [done|simpl; lia].
Qed.

(** * The queue *)

Lemma oget_oset {V} k (v : V) m : oget k (oset k v m) = Some v.
Proof.
  unfold oget. induction m as [|[k' v'] m IH]; simpl.
  - by rewrite String.eqb_refl.
  - destruct (String.eqb k' k) eqn:Hk; simpl.
    + by rewrite String.eqb_refl.
    + by rewrite Hk.
Qed.

Lemma oget_oset_ne {V} k k' (v : V) m : k ≠ k' → oget k' (oset k v m) = oget k' m.
Proof.
  intros Hne. unfold oget. induction m as [|[k0 v0] m IH]; simpl.
  - by rewrite (proj2 (String.eqb_neq k k')).
  - destruct (String.eqb_spec k0 k) as [->|Hk0]; simpl.
    + by rewrite !(proj2 (String.eqb_neq k k')).
    + destruct (String.eqb k0 k'); [done|apply IH].
Qed.

Lemma oget_odelete {V} k (m : ordmap V) : oget k (odelete k m) = None.
Proof.
  unfold oget, odelete. induction m as [|[k' v'] m IH]; simpl; [done|].
  destruct (String.eqb k' k) eqn:Hk; simpl; [done|]. by rewrite Hk.
Qed.

Lemma oget_odelete_ne {V} k k' (m : ordmap V) : k ≠ k' → oget k' (odelete k m) = oget k' m.
Proof.
  intros Hne. unfold oget, odelete. induction m as [|[k0 v0] m IH]; simpl; [done|].
  destruct (String.eqb_spec k0 k) as [->|Hk0]; simpl.
  - by rewrite (proj2 (String.eqb_neq k k')).
  - destruct (String.eqb k0 k'); [done|apply IH].
Qed.

Lemma oget_None_oset_odelete {V} k (v : V) m :
  oget k m = None → odelete k (oset k v m) = m.
Proof.
  unfold oget, odelete. induction m as [|[k' v'] m IH]; simpl.
  - by rewrite String.eqb_refl.
  - destruct (String.eqb k' k) eqn:Hk; simpl; [done|].
    intros Hm. by rewrite Hk, IH.
Qed.

Lemma reportPositions_queue now total index bucket w :
  queueByBucket (reportPositions now total index bucket w) = queueByBucket w.
Proof.
  revert index w. induction bucket as [|entry rest IH]; intros index w; simpl; [done|].
  rewrite IH. by case_bool_decide.
Qed.

Lemma insert_by_joinOrder x l :
  StronglySorted joinOrder l → StronglySorted joinOrder (insert_by byJoinedAt x l).
Proof.
  induction 1 as [|y l Hl IH Hy]; simpl.
  - repeat constructor.
  - unfold byJoinedAt at 1. destruct (Z.leb_spec (qe_joinedAt x - qe_joinedAt y) 0).
    + constructor; [by constructor|]. constructor; [unfold joinOrder; lia|].
      eapply Forall_impl; [exact Hy|]. unfold joinOrder. intros; lia.
    + constructor; [done|].
      rewrite (insert_by_Permutation byJoinedAt x l). constructor; [unfold joinOrder; lia|done].
Qed.

Lemma sort_by_joinOrder l : StronglySorted joinOrder (sort_by byJoinedAt l).
Proof.
  unfold sort_by. induction l as [|x l IH]; simpl; [constructor|].
  by apply insert_by_joinOrder.
Qed.

Lemma oset_oset {V} k (v1 v2 : V) m : oset k v2 (oset k v1 m) = oset k v2 m.
Proof.
  induction m as [|[k' v'] m IH]; simpl.
  - by rewrite String.eqb_refl.
  - destruct (String.eqb k' k) eqn:Hk; simpl.
    + by rewrite String.eqb_refl.
    + by rewrite Hk, IH.
Qed.

Lemma updateQueuePositions_queue bucketKey now w bucket :
  oget bucketKey (queueByBucket w) = Some bucket →
  queueByBucket (updateQueuePositions bucketKey now w)
  = oset bucketKey (sort_by byJoinedAt bucket) (queueByBucket w).
Proof.
  intros Hbucket. unfold updateQueuePositions. rewrite Hbucket.
  by rewrite reportPositions_queue.
Qed.

(** What [enqueueFromSocketState] leaves in the two queue maps. *)
Lemma enqueueFromSocketState_maps randomUUID sid payload priorityMs now w state :
  socketState w !! sid = Some state →
  let playlist := normalizePlaylist (qp_playlist payload) in
  let partySize :=
    clamp (clamp (numberOr (qp_partySize payload) 1) 1 4) 1
      (Z.of_nat (maxPartySize (getPlaylistConfig playlist))) in
  ∃ entry,
    let key := getBucketKey entry in
    let w' := enqueueFromSocketState randomUUID sid payload priorityMs now w in
    queueEntryBySocket w' = <[ss_socketId state := (key, entry)]> (queueEntryBySocket w)
    ∧ queueByBucket w'
      = oset key (sort_by byJoinedAt
                    (sort_by byJoinedAt (default [] (oget key (queueByBucket w)) ++ [entry])))
          (queueByBucket w)
    ∧ qe_id entry = "q_" +:+ randomUUID (drawn w)
    ∧ qe_socketId entry = ss_socketId state
    ∧ qe_playerId entry = ss_playerId state
    ∧ qe_nickname entry
      = sanitizeNickname (Some (default (ss_nickname state) (qp_nickname payload)))
    ∧ qe_partySize entry = Z.to_nat partySize
    ∧ qe_rating entry = ss_rating state
    ∧ qe_joinedAt entry = now - Z.max 0 priorityMs
    ∧ qe_playlist entry = playlist
    ∧ qe_region entry = normalizeRegion (qp_region payload)
    ∧ qe_inputMode entry = normalizeInputMode (qp_inputMode payload)
    ∧ qe_pingMs entry = ss_pingMs state
    ∧ qe_maxPingMs entry = clamp (numberOr (qp_maxPingMs payload) DEFAULT_MAX_PING_MS) 80 500
    ∧ qe_bucketKey entry = Some key.
Proof.
  intros Hstate playlist partySize. unfold enqueueFromSocketState. rewrite Hstate.
  unfold createQueueEntry. cbv beta iota zeta.
  match goal with
  | |- context [withBucketKey ?k ?e] => set (entry := withBucketKey k e)
  end.
  exists entry. cbv zeta.
  assert (Hkey : getBucketKey entry
                 = normalizePlaylist (qp_playlist payload) +:+ "|"
                   +:+ normalizeRegion (qp_region payload)) by reflexivity.
  split_and!; try reflexivity.
  - rewrite updateQueuePositions_entries.
    repeat match goal with
           | |- context [if ?c then _ else _] => destruct c
           end; reflexivity.
  - erewrite updateQueuePositions_queue.
    + repeat match goal with
             | |- context [if ?c then _ else _] => destruct c
             end; simpl; rewrite oset_oset; reflexivity.
    + repeat match goal with
             | |- context [if ?c then _ else _] => destruct c
             end; simpl; apply oget_oset.
Qed.

Lemma clamp_between value lo hi : lo <= hi → lo <= clamp value lo hi <= hi.
Proof. unfold clamp. lia. Qed.

Lemma Qle_bool_inject_Z a b : Qle_bool (inject_Z a) (inject_Z b) = (a <=? b).
Proof. unfold Qle_bool. simpl. by rewrite !Z.mul_1_r. Qed.

Lemma Qeq_bool_inject_Z a b : Qeq_bool (inject_Z a) (inject_Z b) = (a =? b).
Proof.
  destruct (Z.eqb_spec a b) as [->|Hne].
  - apply Qeq_bool_iff. reflexivity.
  - apply not_true_is_false. intros Heq. apply Hne, inject_Z_injective, Qeq_bool_eq, Heq.
Qed.

(** On whole numbers the clamp of numbers is the clamp of integers. *)
Lemma clampNum_whole n lo hi :
  clampNum (Fin (inject_Z n)) (inject_Z lo) (inject_Z hi) = Fin (inject_Z (clamp n lo hi)).
Proof.
  unfold clampNum, clamp. simpl. rewrite Qle_bool_inject_Z.
  destruct (Z.leb_spec hi n); rewrite Qle_bool_inject_Z;
    match goal with |- context [lo <=? ?x] => destruct (Z.leb_spec lo x) end;
    do 2 f_equal; lia.
Qed.

Lemma orNum_whole x fallback :
  orNum (sentNumber x) (inject_Z fallback) = Fin (inject_Z (numberOr x fallback)).
Proof.
  destruct x as [n|]; simpl; [|done].
  change 0%Q with (inject_Z 0). rewrite Qeq_bool_inject_Z. by destruct (n =? 0).
Qed.

(** A clamp between finite bounds is a finite number between them, unless
    the value is [NaN]. *)
Lemma clampNum_between value lo hi :
  value ≠ NaN → (lo <= hi)%Q →
  ∃ q, clampNum value lo hi = Fin q ∧ (lo <= q <= hi)%Q.
Proof.
  intros Hvalue Hbounds. unfold clampNum.
  destruct value as [| | |q]; simpl; [done| | |].
  - exists lo. split; [done|]. split; [apply Qle_refl|done].
  - rewrite (proj2 (Qle_bool_iff lo hi) Hbounds). exists hi.
    split; [done|]. split; [done|apply Qle_refl].
  - destruct (Qle_bool hi q) eqn:Hhi.
    + rewrite (proj2 (Qle_bool_iff lo hi) Hbounds). exists hi.
      split; [done|]. split; [done|apply Qle_refl].
    + assert (q <= hi)%Q as Hq.
      { apply Qlt_le_weak, Qnot_le_lt. intros Hle.
        apply Qle_bool_iff in Hle. congruence. }
      destruct (Qle_bool lo q) eqn:Hlo.
      * exists q. split; [done|]. split; [by apply Qle_bool_iff|done].
      * exists lo. split; [done|]. split; [apply Qle_refl|done].
Qed.

Lemma orNum_number x fallback : orNum x fallback ≠ NaN.
Proof. destruct x as [| | |q]; simpl; try done. by destruct (Qeq_bool q 0). Qed.

Lemma partySize_whole sent playlistConfig :
  clampNum (clampNum (orNum (sentNumber sent) 1) 1 4) 1
    (inject_Z (Z.of_nat (maxPartySize playlistConfig)))
  = Fin (inject_Z (clamp (clamp (numberOr sent 1) 1 4) 1
                     (Z.of_nat (maxPartySize playlistConfig)))).
Proof.
  change 1%Q with (inject_Z 1). change 4%Q with (inject_Z 4).
  by rewrite orNum_whole, !clampNum_whole.
Qed.

Lemma maxPingMs_whole sent :
  clampNum (orNum (sentNumber sent) (inject_Z DEFAULT_MAX_PING_MS)) 80 500
  = Fin (inject_Z (clamp (numberOr sent DEFAULT_MAX_PING_MS) 80 500)).
Proof.
  change 80%Q with (inject_Z 80). change 500%Q with (inject_Z 500).
  by rewrite orNum_whole, clampNum_whole.
Qed.

Lemma maxPartySize_positive playlist :
  (1 <= maxPartySize (getPlaylistConfig playlist))%nat.
Proof. unfold getPlaylistConfig. destruct (String.eqb _ _); simpl; lia. Qed.

(** X7.  Whatever a client sends with [joinQueue], the fields that
    [enqueueFromSocketState] takes from it are well formed: the playlist is
    one of the two, the party size is a finite number between 1 and the
    largest party of that playlist, the latency limit a finite number
    between 80 and 500, the region has 1 to 8 characters, the input mode is
    one of the three and the nickname has 1 to 18 characters.  The two
    numbers are not rounded, so they need not be whole.  When the numbers
    sent are whole or missing, the entry that is queued for the connection
    carries exactly these fields. *)
Theorem X7_queue_fields_are_well_formed randomUUID sid priorityMs now w state :
  socketState w !! sid = Some state →
  (∀ request,
     let fields := queueFields state request in
     (qf_playlist fields = "duel" ∨ qf_playlist fields = "ranked")
     ∧ (∃ size,
          qf_partySize fields = Fin size
          ∧ (1 <= size
             <= inject_Z (Z.of_nat (maxPartySize (getPlaylistConfig (qf_playlist fields)))))%Q)
     ∧ (∃ limit, qf_maxPingMs fields = Fin limit ∧ (80 <= limit <= 500)%Q)
     ∧ (1 <= String.length (qf_region fields) <= 8)%nat
     ∧ (qf_inputMode fields = "keyboard" ∨ qf_inputMode fields = "controller"
        ∨ qf_inputMode fields = "mixed")
     ∧ (1 <= String.length (qf_nickname fields) <= 18)%nat)
  ∧ (∀ payload,
       let fields := queueFields state (requestOf payload) in
       ∃ entry,
         queueEntryBySocket (enqueueFromSocketState randomUUID sid payload priorityMs now w)
           !! ss_socketId state = Some (getBucketKey entry, entry)
         ∧ qe_playlist entry = qf_playlist fields
         ∧ Fin (inject_Z (Z.of_nat (qe_partySize entry))) = qf_partySize fields
         ∧ Fin (inject_Z (qe_maxPingMs entry)) = qf_maxPingMs fields
         ∧ qe_region entry = qf_region fields
         ∧ qe_inputMode entry = qf_inputMode fields
         ∧ qe_nickname entry = qf_nickname fields).
Proof.
  intros Hstate. split.
  - intros request. unfold queueFields. cbn [qf_playlist qf_partySize qf_maxPingMs qf_region
                                               qf_inputMode qf_nickname].
    refine (conj _ (conj _ (conj _ (conj _ (conj _ _))))).
    + apply normalizePlaylist_cases.
    + apply clampNum_between.
      * destruct (clampNum_between (orNum (rq_partySize request) 1) 1 4
                    (orNum_number _ _)) as (q & -> & _); [|done].
        apply Qle_bool_iff. reflexivity.
      * change 1%Q with (inject_Z 1). rewrite <- Zle_Qle.
        pose proof (maxPartySize_positive (normalizePlaylist (rq_playlist request))). lia.
    + apply clampNum_between; [apply orNum_number|].
      apply Qle_bool_iff. reflexivity.
    + destruct (normalizeRegion_shape (rq_region request)) as [Hne Hlen].
      split; [|done]. destruct (normalizeRegion (rq_region request)); [done|simpl; lia].
    + apply normalizeInputMode_cases.
    + destruct (sanitizeNickname_shape
                  (Some (default (ss_nickname state) (rq_nickname request))))
        as [Hne Hlen].
      split; [|done]. destruct (sanitizeNickname _); [done|simpl; lia].
  - intros payload.
    destruct (enqueueFromSocketState_maps randomUUID sid payload priorityMs now w state Hstate)
      as (entry & Hsockets & _ & _ & _ & _ & Hnick & Hparty & _ & _ & Hplaylist & Hregion
          & Hmode & _ & Hping & _).
    exists entry. unfold queueFields, requestOf.
    cbn [qf_playlist qf_partySize qf_maxPingMs qf_region qf_inputMode qf_nickname
         rq_playlist rq_partySize rq_maxPingMs rq_region rq_inputMode rq_nickname].
    refine (conj _ (conj _ (conj _ (conj _ (conj _ (conj _ _)))))); try done.
    + rewrite Hsockets. apply lookup_insert_eq.
    + rewrite partySize_whole, Hparty. do 2 f_equal. apply Z2Nat.id.
      pose proof (clamp_between (clamp (numberOr (qp_partySize payload) 1) 1 4) 1
                    (Z.of_nat (maxPartySize (getPlaylistConfig
                                               (normalizePlaylist (qp_playlist payload)))))).
      pose proof (maxPartySize_positive (normalizePlaylist (qp_playlist payload))). lia.
    + by rewrite maxPingMs_whole, Hping.
Qed.

(** X8.  After [enqueueFromSocketState] the bucket of the new entry holds
    what it held before and the new entry, in the order of their join
    times; the other buckets are as they were. *)
Theorem X8_bucket_in_join_order randomUUID sid payload priorityMs now w state :
  socketState w !! sid = Some state →
  let w' := enqueueFromSocketState randomUUID sid payload priorityMs now w in
  ∃ key entry bucket,
    queueEntryBySocket w' !! ss_socketId state = Some (key, entry)
    ∧ oget key (queueByBucket w') = Some bucket
    ∧ bucket ≡ₚ default [] (oget key (queueByBucket w)) ++ [entry]
    ∧ StronglySorted joinOrder bucket
    ∧ ∀ other, other ≠ key → oget other (queueByBucket w') = oget other (queueByBucket w).
Proof.
  intros Hstate w'. subst w'.
  destruct (enqueueFromSocketState_maps randomUUID sid payload priorityMs now w state Hstate)
    as (entry & Hsockets & Hqueue & _).
  cbv zeta in Hsockets, Hqueue.
  exists (getBucketKey entry), entry. eexists. rewrite Hqueue, Hsockets. split_and!.
  - apply lookup_insert_eq.
  - apply oget_oset.
  - by rewrite !sort_by_Permutation.
  - apply sort_by_joinOrder.
  - intros other Hother. by apply oget_oset_ne.
Qed.

Lemma removeFirstId_Permutation (e : QueueEntry) (l : list QueueEntry) :
  e ∈ l → (∀ x, x ∈ l → qe_id x = qe_id e → x = e) →
  l ≡ₚ e :: removeFirstId (qe_id e) l.
Proof.
  induction l as [|y l IH]; [by intros ?%elem_of_nil|].
  intros Hin Hunique. simpl.
  destruct (String.eqb_spec (qe_id y) (qe_id e)) as [Hid|Hid].
  - rewrite (Hunique y); [done| |done]. apply elem_of_cons. by left.
  - apply elem_of_cons in Hin as [->|Hin]; [done|].
    rewrite (IH Hin) at 1.
    + apply perm_swap.
    + intros x Hx. apply Hunique, elem_of_cons. by right.
Qed.

(** X9.  Leaving right after joining undoes the join in the queue: the
    entry handed back is the one that was queued, the connection has no
    entry any more, its bucket holds again what it held before, and a
    bucket that was not there before is not there afterwards.  The id of
    the entry, a fresh UUID, is taken to be new to the bucket. *)
Theorem X9_join_then_leave randomUUID sid payload priorityMs now w state :
  socketState w !! sid = Some state →
  let joined := enqueueFromSocketState randomUUID sid payload priorityMs now w in
  let left := removeQueueEntry (ss_socketId state) joined in
  ∃ key entry,
    queueEntryBySocket joined !! ss_socketId state = Some (key, entry)
    ∧ ("q_" +:+ randomUUID (drawn w)
         ∉ qe_id <$> default [] (oget key (queueByBucket w)) →
       snd left = Some entry
       ∧ queueEntryBySocket (fst left) = delete (ss_socketId state) (queueEntryBySocket w)
       ∧ match default [] (oget key (queueByBucket w)) with
         | [] => oget key (queueByBucket (fst left)) = None
         | before =>
             ∃ bucket, oget key (queueByBucket (fst left)) = Some bucket ∧ bucket ≡ₚ before
         end
       ∧ ∀ other, other ≠ key →
           oget other (queueByBucket (fst left)) = oget other (queueByBucket w)).
Proof.
  intros Hstate joined left. subst left joined.
  destruct (enqueueFromSocketState_maps randomUUID sid payload priorityMs now w state Hstate)
    as (entry & Hsockets & Hqueue & Hid & _).
  cbv zeta in Hsockets, Hqueue.
  set (joined := enqueueFromSocketState randomUUID sid payload priorityMs now w) in *.
  set (key := getBucketKey entry) in *.
  remember (default [] (oget key (queueByBucket w))) as before eqn:Hbefore.
  set (sorted := sort_by byJoinedAt (sort_by byJoinedAt (before ++ [entry]))) in *.
  exists key, entry. rewrite <- Hbefore.
  assert (Hentry : queueEntryBySocket joined !! ss_socketId state = Some (key, entry))
    by (rewrite Hsockets; apply lookup_insert_eq).
  split; [done|]. rewrite <- Hid. intros Hfresh.
  assert (Hsorted : sorted ≡ₚ entry :: before).
  { unfold sorted. rewrite !sort_by_Permutation. by rewrite Permutation_app_comm. }
  assert (Hrest : removeFirstId (qe_id entry) sorted ≡ₚ before).
  { apply (Permutation_cons_inv (a := entry)). rewrite <- Hsorted. symmetry.
    apply removeFirstId_Permutation.
    - rewrite Hsorted. apply elem_of_cons. by left.
    - intros x Hx Hsame. rewrite Hsorted in Hx. apply elem_of_cons in Hx as [->|Hx]; [done|].
      exfalso. apply Hfresh. rewrite <- Hsame. by apply list_elem_of_fmap_2. }
  unfold removeQueueEntry. rewrite Hentry, Hqueue, oget_oset.
  destruct (length (removeFirstId (qe_id entry) sorted) =? 0)%nat eqn:Hempty; simpl.
  - apply Nat.eqb_eq, length_zero_iff_nil in Hempty. rewrite Hempty in Hrest.
    apply Permutation_nil_l in Hrest. rewrite <- Hrest. split_and!.
    + done.
    + rewrite Hsockets. apply delete_insert_eq.
    + rewrite Hqueue. apply oget_odelete.
    + intros other Hother. rewrite Hqueue, oget_odelete_ne by done. by apply oget_oset_ne.
  - split_and!.
    + done.
    + rewrite Hsockets. apply delete_insert_eq.
    + destruct before as [|x before'].
      * apply Permutation_nil_r in Hrest. rewrite Hrest in Hempty. done.
      * eexists. rewrite Hqueue, oset_oset. split; [apply oget_oset|done].
    + intros other Hother. rewrite Hqueue, oset_oset. by apply oget_oset_ne.
Qed.

(** * Rooms *)

Lemma seatMember_slots w now room members :
  let room' := foldl (seatMember w now) room members in
  room_activeSlots room'
  = room_activeSlots room ∪ list_to_set (concat (rdm_slots <$> members))
  ∧ room_inactiveSlots room'
    = room_inactiveSlots room ∖ list_to_set (concat (rdm_slots <$> members))
  ∧ room_id room' = room_id room ∧ room_ended room' = room_ended room
  ∧ room_lastSnapshot room' = room_lastSnapshot room
  ∧ room_startedAt room' = room_startedAt room.
Proof.
  revert room. induction members as [|member members IH]; intros room; simpl.
  - by rewrite union_empty_r_L, difference_empty_L.
  - destruct (IH (seatMember w now room member)) as (-> & -> & -> & -> & -> & ->).
    simpl. rewrite list_to_set_app_L.
    split_and!; try done.
    + by rewrite (assoc_L (∪)).
    + apply difference_difference_l_L.
Qed.

Lemma createRoomFromReady_room ready now w :
  let w' := createRoomFromReady ready now w in
  ∃ room,
    rooms w' = rooms w ++ [room]
    ∧ activeRooms w' = <[room_id room := length (rooms w)]> (activeRooms w)
    ∧ roomSequence w' = S (roomSequence w)
    ∧ room = foldl (seatMember (upd_roomSequence S w) now)
               {| room_id := "match-" +:+ pretty (roomSequence w);
                  room_playlist := rd_playlist ready; room_region := rd_region ready;
                  room_seed := rd_seed ready; room_startedAt := now; room_createdAt := now;
                  room_members := []; room_slotOwner := [None; None; None; None];
                  room_serverSeq := 0; room_lastSnapshot := {| snap_score := (0, 0) |};
                  room_activeSlots := ∅;
                  room_inactiveSlots := list_to_set [0; 1; 2; 3]%nat;
                  room_ended := false |} (rd_members ready).
Proof.
  intros w'. subst w'. unfold createRoomFromReady.
  match goal with
  | |- context [foldl ?f (upd_activeRooms ?g (upd_rooms ?h ?w0)) (rd_members ready)] =>
      set (step := f); set (w1 := w0); set (w2 := upd_activeRooms g (upd_rooms h w1))
  end.
  assert (Hstep : ∀ w a, rooms (step w a) = rooms w ∧ activeRooms (step w a) = activeRooms w
                         ∧ roomSequence (step w a) = roomSequence w).
  { intros w0 a. unfold step. by case_bool_decide. }
  assert (Hw1 : rooms w1 = rooms w ∧ activeRooms w1 = activeRooms w
                ∧ roomSequence w1 = S (roomSequence w)).
  { unfold w1. split_and!.
    - by rewrite (foldl_frame rooms); [|by intros].
    - by rewrite (foldl_frame activeRooms); [|by intros].
    - by rewrite (foldl_frame roomSequence); [|by intros]. }
  destruct Hw1 as (Hr1 & Ha1 & Hs1).
  eexists. split_and!.
  - rewrite (foldl_frame rooms step); [|intros; apply Hstep].
    unfold w2. cbn [rooms upd_activeRooms upd_rooms]. by rewrite Hr1.
  - rewrite (foldl_frame activeRooms step); [|intros; apply Hstep].
    unfold w2. cbn [activeRooms upd_activeRooms upd_rooms]. rewrite Ha1, Hr1.
    f_equal. by destruct (seatMember_slots (upd_roomSequence S w) now
                            {| room_id := "match-" +:+ pretty (roomSequence w);
                               room_playlist := rd_playlist ready;
                               room_region := rd_region ready;
                               room_seed := rd_seed ready; room_startedAt := now;
                               room_createdAt := now; room_members := [];
                               room_slotOwner := [None; None; None; None];
                               room_serverSeq := 0;
                               room_lastSnapshot := {| snap_score := (0, 0) |};
                               room_activeSlots := ∅;
                               room_inactiveSlots := list_to_set [0; 1; 2; 3]%nat;
                               room_ended := false |} (rd_members ready))
      as (_ & _ & -> & _).
  - rewrite (foldl_frame roomSequence step); [|intros; apply Hstep].
    unfold w2. cbn [roomSequence upd_activeRooms upd_rooms]. exact Hs1.
  - reflexivity.
Qed.

(** X10.  The room that [createRoomFromReady] makes is registered under a
    new id, is live at 0-0, and splits the four seats in two: the active
    seats are the seats of the members of the ready check and the inactive
    seats are all the others. *)
Theorem X10_new_room_splits_the_seats ready now w :
  let w' := createRoomFromReady ready now w in
  ∃ room,
    rooms w' = rooms w ++ [room]
    ∧ activeRooms w' !! room_id room = Some (length (rooms w))
    ∧ room_id room = "match-" +:+ pretty (roomSequence w)
    ∧ roomSequence w' = S (roomSequence w)
    ∧ room_ended room = false
    ∧ snap_score (room_lastSnapshot room) = (0, 0)
    ∧ room_activeSlots room = list_to_set (concat (rdm_slots <$> rd_members ready))
    ∧ room_inactiveSlots room = list_to_set [0; 1; 2; 3]%nat ∖ room_activeSlots room.
Proof.
  intros w'. subst w'.
  destruct (createRoomFromReady_room ready now w) as (room & Hrooms & Hactive & Hseq & Hroom).
  exists room. rewrite Hactive.
  match type of Hroom with
  | _ = foldl ?f ?empty ?members =>
      destruct (seatMember_slots (upd_roomSequence S w) now empty members)
        as (Hon & Hoff & Hid & Hended & Hsnap & _)
  end.
  rewrite <- Hroom in Hon, Hoff, Hid, Hended, Hsnap. simpl in *.
  split_and!; try done.
  - apply lookup_insert_eq.
  - by rewrite Hsnap.
  - rewrite Hon. apply union_empty_l_L.
  - by rewrite Hoff, Hon, union_empty_l_L.
Qed.

(** X11.  A reconnection is accepted whenever the guard holds: the room is
    live, the member entered under the player of the connection holds the
    token, and the member is not away for longer than the grace window.
    The member is then attached to the new connection with its disconnect
    time cleared and one more reconnection counted, and the state of the
    connection names the room, the seats and the token. *)
Theorem X11_reconnection_succeeds socketId roomId token now w state ref room member :
  socketState w !! socketId = Some state →
  roomId ≠ "" → token ≠ "" →
  activeRooms w !! roomId = Some ref → rooms w !! ref = Some room →
  getMember (ss_playerId state) (room_members room) = Some member →
  rm_reconnectToken member = token →
  (∀ t, rm_disconnectedAt member = Some t → now - t <= RECONNECT_GRACE_MS) →
  let attempt := tryReconnectToRoom socketId (Some (Some roomId, Some token)) now w in
  snd attempt = true
  ∧ ∃ member' state',
      memberAt (fst attempt) ref (ss_playerId state) = Some member'
      ∧ rm_socketId member' = Some socketId
      ∧ rm_disconnectedAt member' = None
      ∧ rm_reconnectCount member' = rm_reconnectCount member + 1
      ∧ rm_abandoned member' = rm_abandoned member
      ∧ socketState (fst attempt) !! socketId = Some state'
      ∧ ss_roomId state' = Some (room_id room)
      ∧ ss_slots state' = rm_slots member
      ∧ ss_reconnect state' = Some (room_id room, token).
Proof.
  intros Hstate HroomId Htoken Hactive Hroom Hmember Hholds Hgrace attempt.
  subst attempt. unfold tryReconnectToRoom. rewrite Hstate. simpl.
  rewrite (proj2 (String.eqb_neq roomId "")), (proj2 (String.eqb_neq token "")) by done.
  simpl. rewrite Hactive. simpl. rewrite Hroom. simpl. rewrite Hmember, Hholds.
  rewrite String.eqb_refl. simpl.
  assert (truthyT (rm_disconnectedAt member)
          && (now - default 0 (rm_disconnectedAt member) >? RECONNECT_GRACE_MS) = false)
    as ->.
  { destruct (rm_disconnectedAt member) as [t|] eqn:Haway; simpl; [|done].
    specialize (Hgrace t eq_refl).
    replace (now - t >? RECONNECT_GRACE_MS) with false by (symmetry; lia).
    apply andb_false_r. }
  split; [done|].
  set (f := λ m0, withReconnectCount (rm_reconnectCount m0 + 1)
                    (withConnection (Some socketId) None m0)).
  exists (f member),
    (set_ss_reconnect (Some (room_id room, token))
       (set_ss_slots (rm_slots member) (set_ss_roomId (Some (room_id room)) state))).
  split_and!; try reflexivity.
  - unfold memberAt, emitPresence, emit, updState, updMember, updRoom.
    destruct (rm_socketId member) as [old|]; [destruct (_ && _)|]; simpl;
      rewrite list_lookup_alter, Hroom; (destruct (decide (ref = ref)); [|done]); simpl;
      by apply (getMember_alterMember _ f).
  - unfold emitPresence, emit, updState, updMember, updRoom.
    destruct (rm_socketId member) as [old|]; [destruct (_ && _)|]; simpl;
      rewrite lookup_alter_eq, Hstate; reflexivity.
Qed.

(** X12.  [markMemberDisconnected] keeps the seat: the member stays in the
    room, detached, with its flag and its token as they were.  The grace
    window runs from the first disconnect: a member that already has a
    disconnect time keeps it, any other is stamped with the time of the
    call. *)
Theorem X12_disconnect_keeps_the_seat socketId reason now w state roomId ref room member :
  socketState w !! socketId = Some state →
  ss_roomId state = Some roomId → roomId ≠ "" →
  activeRooms w !! roomId = Some ref → rooms w !! ref = Some room →
  getMember (ss_playerId state) (room_members room) = Some member →
  let w' := markMemberDisconnected socketId reason now w in
  ∃ member',
    memberAt w' ref (ss_playerId state) = Some member'
    ∧ rm_socketId member' = None
    ∧ (∀ t, rm_disconnectedAt member = Some t → t ≠ 0 → rm_disconnectedAt member' = Some t)
    ∧ (rm_disconnectedAt member = None ∨ rm_disconnectedAt member = Some 0 →
       rm_disconnectedAt member' = Some now)
    ∧ rm_abandoned member' = rm_abandoned member
    ∧ rm_reconnectToken member' = rm_reconnectToken member
    ∧ rm_slots member' = rm_slots member.
Proof.
  intros Hstate HroomId Hne Hactive Hroom Hmember w'. subst w'.
  unfold markMemberDisconnected. rewrite Hstate, HroomId. unfold truthyS at 1.
  rewrite (proj2 (String.eqb_neq roomId "")) by done. simpl.
  rewrite Hactive. simpl. rewrite Hroom. simpl. rewrite Hmember.
  set (disconnectedAt := if negb (truthyT (rm_disconnectedAt member)) then Some now
                         else rm_disconnectedAt member).
  exists (withConnection None disconnectedAt member). split_and!; try reflexivity.
  - unfold memberAt, emit, updState, updMember, updRoom. simpl.
    rewrite list_lookup_alter_eq, Hroom. simpl.
    by apply (getMember_alterMember _ (withConnection None disconnectedAt)).
  - intros t Ht Hnz. simpl. unfold disconnectedAt. rewrite Ht. simpl.
    by rewrite (proj2 (Z.eqb_neq t 0)).
  - intros [Hnone|Hzero]; simpl; unfold disconnectedAt.
    + by rewrite Hnone.
    + by rewrite Hzero.
Qed.

Lemma finishMember_freed roomId payload w member s :
  (∀ state, socketState w !! s = Some state → clearRoomState state = state) →
  ∀ state, socketState (finishMember roomId payload w member) !! s = Some state →
           clearRoomState state = state.
Proof.
  intros Hfree state. unfold finishMember.
  destruct (rm_socketId member) as [socketId|]; [|apply Hfree].
  destruct (negb (truthyS (Some socketId))); [apply Hfree|].
  assert (∀ w0, socketState w0 = alter clearRoomState socketId (socketState w) →
                socketState w0 !! s = Some state → clearRoomState state = state) as Hother.
  { intros w0 -> Hs. destruct (decide (socketId = s)) as [->|Hne].
    - rewrite lookup_alter_eq in Hs.
      destruct (socketState w !! s) as [old|]; [|done]. by injection Hs as <-.
    - rewrite lookup_alter_ne in Hs by done. by apply Hfree. }
  case_bool_decide; by apply Hother.
Qed.

Lemma finishMember_frees roomId payload w member s :
  rm_socketId member = Some s → s ≠ "" →
  ∀ state, socketState (finishMember roomId payload w member) !! s = Some state →
           clearRoomState state = state.
Proof.
  intros Hs Hne state. unfold finishMember. rewrite Hs. unfold truthyS.
  rewrite (proj2 (String.eqb_neq s "")) by done. simpl.
  assert (∀ w0, socketState w0 = alter clearRoomState s (socketState w) →
                socketState w0 !! s = Some state → clearRoomState state = state) as Hother.
  { intros w0 -> Hlook. rewrite lookup_alter_eq in Hlook.
    destruct (socketState w !! s) as [old|]; [|done]. by injection Hlook as <-. }
  case_bool_decide; by apply Hother.
Qed.

Lemma finishMembers_free roomId payload members w member s :
  member ∈ members → rm_socketId member = Some s → s ≠ "" →
  ∀ state, socketState (foldl (finishMember roomId payload) w members) !! s = Some state →
           clearRoomState state = state.
Proof.
  intros Hin Hs Hne.
  assert (Hkeep : ∀ l w0,
            (∀ state, socketState w0 !! s = Some state → clearRoomState state = state) →
            ∀ state, socketState (foldl (finishMember roomId payload) w0 l) !! s = Some state →
                     clearRoomState state = state).
  { induction l as [|a l IH]; intros w0 Hfree; simpl; [done|].
    apply IH. by apply finishMember_freed. }
  revert w. induction members as [|a members IH]; intros w; [by apply elem_of_nil in Hin|].
  apply elem_of_cons in Hin as [<-|Hin]; simpl.
  - apply Hkeep. by apply finishMember_frees.
  - by apply IH.
Qed.

(** X13.  When a match has ended, every connection that a member of the room
    was attached to is free again: its state names no room, no seats and
    no reconnect token, so that [joinQueue] will take it. *)
Theorem X13_match_end_frees_the_connections randomUUID hashToken ref reason winner now
    w room member s state :
  rooms w !! ref = Some room → room_ended room = false →
  member ∈ room_members room → rm_socketId member = Some s → s ≠ "" →
  socketState (endRoom randomUUID hashToken ref reason winner now w) !! s = Some state →
  ss_roomId state = None ∧ ss_slots state = [] ∧ ss_reconnect state = None.
Proof.
  intros Hroom Hlive Hin Hs Hne Hstate.
  destruct (endRoomBegin_live randomUUID hashToken ref reason winner now w room Hroom Hlive)
    as (wmid & payload & record & room' & Hbegin & Hroom' & _ & _ & Hsockets & _).
  unfold endRoom in Hstate. rewrite Hbegin in Hstate.
  unfold endRoomResume, finishRoomForSockets in Hstate. rewrite Hroom' in Hstate.
  assert (Hmember' : ∃ member', member' ∈ room_members room' ∧ rm_socketId member' = Some s).
  { assert (Some s ∈ rm_socketId <$> room_members room') as Hin'.
    { rewrite Hsockets, <- Hs. by apply list_elem_of_fmap_2. }
    apply list_elem_of_fmap in Hin' as (member' & Hs' & Hin'). by exists member'. }
  destruct Hmember' as (member' & Hin' & Hs').
  pose proof (finishMembers_free _ _ _ _ _ _ Hin' Hs' Hne _ Hstate) as Hfree.
  rewrite <- Hfree. done.
Qed.

(** What the first run of [endRoom] settles. *)
Lemma endRoomBegin_settles randomUUID hashToken ref reason winner now w room :
  rooms w !! ref = Some room → room_ended room = false →
  ∃ wmid payload record room',
    endRoomBegin randomUUID hashToken ref reason winner now w = (wmid, Some payload)
    ∧ me_reason payload = reason
    ∧ me_winnerTeam payload
      = match winner with
        | Some t => Some t
        | None => scoreWinner (snap_score (room_lastSnapshot room))
        end
    ∧ me_score payload = snap_score (room_lastSnapshot room)
    ∧ matches wmid = matches w ++ [record]
    ∧ mr_matchId record = room_id room
    ∧ mr_winnerTeam record = me_winnerTeam payload
    ∧ (mr_team0Score record, mr_team1Score record) = me_score payload
    ∧ activeRooms wmid = delete (room_id room) (activeRooms w)
    ∧ rooms wmid !! ref = Some room'
    ∧ room_ended room' = true.
Proof.
  intros Hroom Hlive.
  destruct (endRoomBegin_live randomUUID hashToken ref reason winner now w room Hroom Hlive)
    as (wmid & payload & record & room' & Hbegin & Hroom' & Hended & _ & _ & _ & _ & Hmatches
        & Hid & Hactive).
  exists wmid, payload, record, room'.
  unfold endRoomBegin in Hbegin. rewrite Hroom, Hlive in Hbegin.
  destruct (snap_score (room_lastSnapshot room)) as [team0 team1] eqn:Hscore.
  injection Hbegin as Hw Hpayload.
  assert (Hrecord : mr_winnerTeam record = me_winnerTeam payload
                    ∧ (mr_team0Score record, mr_team1Score record) = (team0, team1)).
  { rewrite <- Hw in Hmatches.
    match type of Hmatches with
    | matches (applyMatchResult _ _ ?r _ ?w0) = _ =>
        destruct (applyMatchResult_frame randomUUID hashToken r now w0)
          as (_ & _ & _ & Happlied & _);
        assert (matches w0 = matches w) as Hbefore
          by (rewrite (foldl_frame matches); [done|intros; apply storeStateRating_frame])
    end.
    rewrite Happlied, Hbefore in Hmatches. apply app_inv_head in Hmatches.
    injection Hmatches as <-. rewrite <- Hpayload. done. }
  destruct Hrecord as [Hwinner Hscores].
  rewrite <- Hpayload in *. simpl in *. unfold endRoomBegin. rewrite Hroom, Hlive, Hscore.
  split_and!; try done.
  - by rewrite Hw, Hpayload.
Qed.

(** X14.  The tick of a live room ends it exactly when [shouldEndRoom] gives
    a decision.  The match is then recorded once with the score of the
    snapshot and the reason of the decision, and the room leaves
    [activeRooms]; the winner is that of the decision, or, when the
    decision names none, the side with the higher score.  Without a
    decision the room stays live and nothing is recorded. *)
Theorem X14_tick_ends_the_room_on_a_decision SCORE_LIMIT randomUUID hashToken ref snapshot
    (broadcast : bool) now (w : World) (room : Room) :
  rooms w !! ref = Some room → room_ended room = false →
  let serverSeq := if broadcast then room_serverSeq room + 1 else room_serverSeq room in
  let outcome := tickRoom SCORE_LIMIT randomUUID hashToken ref snapshot broadcast now w in
  match snd (shouldEndRoom SCORE_LIMIT (withSnapshot snapshot serverSeq room) now) with
  | Some decision =>
      ∃ payload record,
        snd outcome = Some payload
        ∧ me_reason payload = ed_reason decision
        ∧ me_winnerTeam payload
          = match ed_winner decision with
            | Some t => Some t
            | None => scoreWinner (snap_score snapshot)
            end
        ∧ me_score payload = snap_score snapshot
        ∧ matches (fst outcome) = matches w ++ [record]
        ∧ mr_matchId record = room_id room
        ∧ mr_winnerTeam record = me_winnerTeam payload
        ∧ activeRooms (fst outcome) = delete (room_id room) (activeRooms w)
        ∧ (room_ended <$> rooms (fst outcome) !! ref) = Some true
  | None =>
      snd outcome = None
      ∧ matches (fst outcome) = matches w
      ∧ activeRooms (fst outcome) = activeRooms w
      ∧ (room_ended <$> rooms (fst outcome) !! ref) = Some false
  end.
Proof.
  intros Hroom Hlive serverSeq outcome. subst outcome. unfold tickRoom.
  rewrite Hroom, Hlive. fold serverSeq.
  destruct (shouldEndRoom SCORE_LIMIT (withSnapshot snapshot serverSeq room) now)
    as [room' decision] eqn:Hend.
  assert (Hkept : room_lastSnapshot room' = snapshot ∧ room_ended room' = false
                  ∧ room_id room' = room_id room).
  { unfold shouldEndRoom in Hend.
    repeat (case_match; simplify_eq/=); done. }
  destruct Hkept as (Hsnap & Hlive' & Hid).
  set (w1 := updRoom ref (λ _, room')
               (if broadcast
                then emit (emitRoom (room_id (withSnapshot snapshot serverSeq room))
                             (stateSnapshot (room_id (withSnapshot snapshot serverSeq room))
                                snapshot now serverSeq))
                       (updRoom ref (λ _, withSnapshot snapshot serverSeq room) w)
                else updRoom ref (λ _, withSnapshot snapshot serverSeq room) w)).
  assert (Hw1 : rooms w1 !! ref = Some room' ∧ matches w1 = matches w
                ∧ activeRooms w1 = activeRooms w).
  { unfold w1, updRoom. destruct broadcast; simpl;
      rewrite !list_lookup_alter_eq, Hroom; done. }
  destruct Hw1 as (Hroom1 & Hmatches1 & Hactive1).
  simpl. destruct decision as [decision|].
  - destruct (endRoomBegin_settles randomUUID hashToken ref (ed_reason decision)
                (ed_winner decision) now w1 room' Hroom1 Hlive')
      as (wmid & payload & record & room'' & Hbegin & Hreason & Hwinner & Hscore & Hmatches
          & Hmatch & Hrecord & _ & Hactive & Hroom'' & Hended).
    fold w1. rewrite Hbegin. simpl. exists payload, record.
    rewrite Hsnap in Hwinner, Hscore. rewrite Hroom''. simpl.
    split_and!; try done; congruence.
  - fold w1. cbn [fst snd]. rewrite Hroom1. cbn [fmap option_fmap option_map].
    by rewrite Hlive'.
Qed.

(** * The in-memory gateway *)

Section GatewayFacts.
Variable randomUUID : nat → string.
Variable hashToken : string → string.

(** What [createPlayer] stores. *)
Lemma createPlayer_stores nickname tokenHash providedPlayerId now w :
  let '(player, w') := createPlayer randomUUID nickname tokenHash providedPlayerId now w in
  pp_playerId player
  = (if String.eqb providedPlayerId "" then "p_" +:+ randomUUID (drawn w)
     else providedPlayerId)
  ∧ pp_playerId player ≠ ""
  ∧ pp_tokenHash player = tokenHash ∧ pp_nickname player = nickname
  ∧ pp_rating player = Some DEFAULT_RATING
  ∧ pp_games player = 0 ∧ pp_wins player = 0 ∧ pp_losses player = 0
  ∧ pp_abandons player = 0
  ∧ playersById w' = <[pp_playerId player := player]> (playersById w)
  ∧ playerIdByTokenHash w' = <[tokenHash := pp_playerId player]> (playerIdByTokenHash w).
Proof.
  unfold createPlayer.
  destruct (String.eqb_spec providedPlayerId "") as [->|Hne]; simpl; split_and!; done.
Qed.

(** X16.  [getOrCreatePlayer] without a token makes a new account, also
    when the player id that comes with the request is the id of a stored
    player: that player's record is then replaced by a new one with the
    rating 1000 and no games, under a token that is issued with it. *)
Theorem X16_no_token_makes_a_new_account playerId playerToken nickname now w :
  trim (default "" playerToken) = "" →
  let '(result, w') :=
    getOrCreatePlayer randomUUID hashToken playerId playerToken nickname now w in
  ir_created result = true
  ∧ (∀ known, playerId = Some known → known ≠ "" →
       id_playerId (ir_player result) = known)
  ∧ id_rating (ir_player result) = Some DEFAULT_RATING
  ∧ id_games (ir_player result) = 0
  ∧ ∃ stored,
      playersById w' !! id_playerId (ir_player result) = Some stored
      ∧ publicPlayer stored = ir_player result
      ∧ pp_tokenHash stored = hashToken (ir_playerToken result)
      ∧ playerIdByTokenHash w' !! hashToken (ir_playerToken result)
        = Some (id_playerId (ir_player result)).
Proof.
  intros Hblank. unfold getOrCreatePlayer. rewrite Hblank. simpl.
  assert (playerByIdAndHash playerId None w = None) as -> by (by destruct playerId).
  unfold createSessionToken.
  match goal with
  | |- context [createPlayer randomUUID ?n ?h ?p now ?w0] =>
      pose proof (createPlayer_stores n h p now w0) as Hstored;
      destruct (createPlayer randomUUID n h p now w0) as [player w'] eqn:Hcreate
  end.
  destruct Hstored as (Hid & _ & Hhash & _ & Hrating & Hgames & _ & _ & _ & Hplayers & Htokens).
  simpl. split_and!; try done.
  - intros known -> Hknown. rewrite Hid. simpl.
    by rewrite (proj2 (String.eqb_neq known "")).
  - exists player. rewrite Hplayers, Htokens, Hhash. split_and!; try done.
    + apply lookup_insert_eq.
    + apply lookup_insert_eq.
Qed.

(** A token that [getOrCreatePlayer] has issued, presented again. *)
Lemma getOrCreatePlayer_again playerId playerToken nickname now w
    nickname' now' :
  let '(first, w1) :=
    getOrCreatePlayer randomUUID hashToken playerId playerToken nickname now w in
  ir_created first = true →
  trim (ir_playerToken first) = ir_playerToken first →
  ir_playerToken first ≠ "" → hashToken (ir_playerToken first) ≠ "" →
  ∀ presented, presented = Some (id_playerId (ir_player first)) ∨ presented = None →
    let '(again, w2) :=
      getOrCreatePlayer randomUUID hashToken presented (Some (ir_playerToken first))
        nickname' now' w1 in
    ir_created again = false
    ∧ ir_playerToken again = ir_playerToken first
    ∧ id_playerId (ir_player again) = id_playerId (ir_player first)
    ∧ id_nickname (ir_player again) = sanitizeNickname nickname'
    ∧ id_rating (ir_player again) = id_rating (ir_player first)
    ∧ id_games (ir_player again) = id_games (ir_player first)
    ∧ dom (playersById w2) = dom (playersById w1).
Proof.
  unfold getOrCreatePlayer at 1.
  destruct (match playerByIdAndHash _ _ w with
            | Some known => Some known
            | None => playerByHash _ w
            end) as [[key player]|]; [by intros [=]|].
  unfold createSessionToken.
  match goal with
  | |- context [createPlayer randomUUID ?n ?h ?p now ?w0] =>
      pose proof (createPlayer_stores n h p now w0) as Hstored;
      destruct (createPlayer randomUUID n h p now w0) as [player w1] eqn:Hcreate
  end.
  destruct Hstored as (_ & Hid & Hhash & _ & _ & _ & _ & _ & _ & Hplayers & Htokens).
  cbn [ir_created ir_playerToken ir_player].
  set (token := stripDashes (randomUUID (drawn w)) +:+ stripDashes (randomUUID (S (drawn w))))
    in *.
  intros _ Htrim Htoken Hhashed presented Hpresented.
  assert (Hfound : match playerByIdAndHash presented (Some (hashToken token)) w1 with
                   | Some known => Some known
                   | None => playerByHash (Some (hashToken token)) w1
                   end = Some (pp_playerId player, player)).
  { assert (Hstoredp : playersById w1 !! pp_playerId player = Some player)
      by (rewrite Hplayers; apply lookup_insert_eq).
    assert (Hbyhash : playerByHash (Some (hashToken token)) w1
                      = Some (pp_playerId player, player)).
    { unfold playerByHash, truthyS.
      rewrite (proj2 (String.eqb_neq (hashToken token) "")) by done. simpl.
      rewrite Htokens, lookup_insert_eq.
      rewrite (proj2 (String.eqb_neq (pp_playerId player) "")) by done. simpl.
      by rewrite Hstoredp. }
    destruct Hpresented as [->| ->]; [|done].
    unfold playerByIdAndHash, truthyS. simpl.
    rewrite (proj2 (String.eqb_neq (pp_playerId player) "")) by done.
    rewrite (proj2 (String.eqb_neq (hashToken token) "")) by done. simpl.
    by rewrite Hstoredp, Hhash, String.eqb_refl. }
  unfold getOrCreatePlayer. simpl default. rewrite Htrim.
  replace (truthyS (Some token)) with true
    by (unfold truthyS; by rewrite (proj2 (String.eqb_neq token ""))).
  cbv iota. rewrite Hfound. simpl. split_and!; try done.
  apply set_eq. intros id. rewrite !elem_of_dom.
  destruct (decide (id = pp_playerId player)) as [->|Hne].
  - rewrite lookup_insert_eq, Hplayers, lookup_insert_eq. split; eauto.
  - by rewrite lookup_insert_ne by done.
Qed.

(** X15.  A token that [getOrCreatePlayer] has issued brings the same player
    back: presented with the player id, or alone, it is answered with that
    player, not a new one, under the same token and with the nickname now
    sent.  The token, two UUIDs, is taken to have no white space at its
    ends and its hash not to be empty. *)
Theorem X15_issued_token_brings_the_player_back playerId playerToken nickname now w
    first w1 nickname' now' presented again w2 :
  getOrCreatePlayer randomUUID hashToken playerId playerToken nickname now w = (first, w1) →
  ir_created first = true →
  trim (ir_playerToken first) = ir_playerToken first →
  ir_playerToken first ≠ "" → hashToken (ir_playerToken first) ≠ "" →
  presented = Some (id_playerId (ir_player first)) ∨ presented = None →
  getOrCreatePlayer randomUUID hashToken presented (Some (ir_playerToken first))
    nickname' now' w1 = (again, w2) →
  ir_created again = false
  ∧ ir_playerToken again = ir_playerToken first
  ∧ id_playerId (ir_player again) = id_playerId (ir_player first)
  ∧ id_nickname (ir_player again) = sanitizeNickname nickname'
  ∧ id_rating (ir_player again) = id_rating (ir_player first)
  ∧ id_games (ir_player again) = id_games (ir_player first)
  ∧ dom (playersById w2) = dom (playersById w1).
Proof.
  intros Hfirst Hcreated Htrim Htoken Hhashed Hpresented Hagain.
  pose proof (getOrCreatePlayer_again playerId playerToken nickname now w nickname' now')
    as Hround.
  rewrite Hfirst in Hround.
  specialize (Hround Hcreated Htrim Htoken Hhashed presented Hpresented).
  by rewrite Hagain in Hround.
Qed.

(** What one turn of the loop of [applyMatchResult] does to the stored
    players: the player of the entry, made first if it is not there, gets
    the result; nobody else is touched. *)
Lemma applyPlayerResult_players now w entry :
  rc_playerId entry ≠ "" →
  let before :=
    match playersById w !! rc_playerId entry with
    | Some player => player
    | None =>
        {| pp_playerId := rc_playerId entry;
           pp_tokenHash :=
             hashToken (stripDashes (randomUUID (drawn w))
                        +:+ stripDashes (randomUUID (S (drawn w))));
           pp_nickname := "Jugador-" +:+ sliceLast 4 (rc_playerId entry);
           pp_rating := rc_ratingBefore entry; pp_games := 0; pp_wins := 0;
           pp_losses := 0; pp_abandons := 0; pp_createdAt := now; pp_updatedAt := now |}
    end in
  playersById (applyPlayerResult randomUUID hashToken now w entry)
  = <[rc_playerId entry := recordResult entry now before]> (playersById w).
Proof.
  intros Hid. unfold applyPlayerResult.
  destruct (playersById w !! rc_playerId entry) as [player|] eqn:Hplayer; simpl.
  - apply map_eq. intros id. destruct (decide (id = rc_playerId entry)) as [->|Hne].
    + by rewrite lookup_alter_eq, lookup_insert_eq, Hplayer.
    + by rewrite lookup_alter_ne, lookup_insert_ne.
  - unfold createPlayer. rewrite (proj2 (String.eqb_neq (rc_playerId entry) "")) by done.
    simpl. apply map_eq. intros id.
    destruct (decide (id = rc_playerId entry)) as [->|Hne].
    + by rewrite !lookup_alter_eq, !lookup_insert_eq.
    + by rewrite !lookup_alter_ne, !lookup_insert_ne.
Qed.

Lemma recordResult_consistent entry now player :
  countsConsistent player → countsConsistent (recordResult entry now player).
Proof.
  unfold countsConsistent, recordResult. simpl.
  destruct (rc_result entry), (rc_abandoned entry); lia.
Qed.

Lemma applyPlayerResult_consistent now w entry :
  (∀ id player, playersById w !! id = Some player → countsConsistent player) →
  ∀ id player,
    playersById (applyPlayerResult randomUUID hashToken now w entry) !! id = Some player →
    countsConsistent player.
Proof.
  intros Hinv id player. unfold applyPlayerResult.
  set (w1 := match playersById w !! rc_playerId entry with
             | Some _ => w
             | None => _
             end).
  assert (Hinv1 : ∀ id player, playersById w1 !! id = Some player → countsConsistent player).
  { unfold w1. destruct (playersById w !! rc_playerId entry); [done|].
    unfold createPlayer, createSessionToken.
    destruct (String.eqb (rc_playerId entry) ""); simpl; intros id0 player0;
      match goal with
      | |- alter ?f ?k ?m !! id0 = _ → _ =>
          destruct (decide (id0 = k)) as [->|Hne];
          [rewrite lookup_alter_eq, lookup_insert_eq|
           rewrite lookup_alter_ne, lookup_insert_ne by done; apply Hinv]
      end; simpl; intros [= <-]; unfold countsConsistent; simpl; lia. }
  simpl. destruct (decide (id = rc_playerId entry)) as [->|Hne].
  - rewrite lookup_alter_eq.
    destruct (playersById w1 !! rc_playerId entry) as [old|] eqn:Hold; [|done].
    intros [= <-]. apply recordResult_consistent. by eapply Hinv1.
  - rewrite lookup_alter_ne by done. apply Hinv1.
Qed.

(** X17.  The counters of the stored players stay consistent: if every
    player has no more wins and losses, and no more abandons, than games,
    and nothing negative, then so it is after [applyMatchResult], after
    [getOrCreatePlayer] and after [updateNickname]. *)
Theorem X17_counters_stay_consistent w :
  (∀ id player, playersById w !! id = Some player → countsConsistent player) →
  (∀ record now id player,
     playersById (applyMatchResult randomUUID hashToken record now w) !! id = Some player →
     countsConsistent player)
  ∧ (∀ playerId playerToken nickname now id player,
       playersById (snd (getOrCreatePlayer randomUUID hashToken playerId playerToken
                           nickname now w)) !! id = Some player →
       countsConsistent player)
  ∧ (∀ playerId nickname now id player,
       playersById (updateNickname playerId nickname now w) !! id = Some player →
       countsConsistent player).
Proof.
  intros Hinv. split_and!.
  - intros record now. unfold applyMatchResult. simpl.
    generalize (mr_players record). intros players. revert w Hinv.
    induction players as [|entry players IH]; intros w Hinv; simpl; [done|].
    apply IH. by apply applyPlayerResult_consistent.
  - intros playerId playerToken nickname now id player. unfold getOrCreatePlayer.
    destruct (match playerByIdAndHash _ _ w with
              | Some known => Some known
              | None => playerByHash _ w
              end) as [[key found]|] eqn:Hfound.
    + assert (playersById w !! key = Some found) as Hkey.
      { destruct (playerByIdAndHash _ _ w) as [known|] eqn:Hbyid.
        - injection Hfound as ->. unfold playerByIdAndHash in Hbyid.
          repeat (case_match; simplify_eq/=). done.
        - unfold playerByHash in Hfound. repeat (case_match; simplify_eq/=). done. }
      simpl. destruct (decide (id = key)) as [->|Hne].
      * rewrite lookup_insert_eq. intros [= <-]. exact (Hinv key found Hkey).
      * rewrite lookup_insert_ne by done. apply Hinv.
    + unfold createSessionToken, createPlayer.
      destruct (String.eqb (default "" playerId) ""); simpl;
        match goal with
        | |- <[?k := _]> _ !! id = _ → _ =>
            destruct (decide (id = k)) as [->|Hne];
            [rewrite lookup_insert_eq|rewrite lookup_insert_ne by done; apply Hinv]
        end; intros [= <-]; unfold countsConsistent; simpl; lia.
  - intros playerId nickname now id player. unfold updateNickname. simpl.
    destruct (decide (id = playerId)) as [->|Hne].
    + rewrite lookup_alter_eq.
      destruct (playersById w !! playerId) as [old|] eqn:Hold; [|done].
      intros [= <-]. exact (Hinv playerId old Hold).
    + rewrite lookup_alter_ne by done. apply Hinv.
Qed.

Lemma applyPlayerResults_players now players w :
  NoDup (rc_playerId <$> players) → Forall (λ entry, rc_playerId entry ≠ "") players →
  let w' := foldl (applyPlayerResult randomUUID hashToken now) w players in
  (∀ entry, entry ∈ players →
     ∃ stored,
       playersById w' !! rc_playerId entry = Some stored
       ∧ pp_rating stored = clampN (rc_ratingAfter entry) 100 4000
       ∧ pp_games stored = default 0 (pp_games <$> playersById w !! rc_playerId entry) + 1
       ∧ pp_wins stored
         = default 0 (pp_wins <$> playersById w !! rc_playerId entry)
           + match rc_result entry with Win => 1 | _ => 0 end
       ∧ pp_losses stored
         = default 0 (pp_losses <$> playersById w !! rc_playerId entry)
           + match rc_result entry with Loss => 1 | _ => 0 end
       ∧ pp_abandons stored
         = default 0 (pp_abandons <$> playersById w !! rc_playerId entry)
           + (if rc_abandoned entry then 1 else 0))
  ∧ (∀ id, id ∉ rc_playerId <$> players → playersById w' !! id = playersById w !! id).
Proof.
  revert w. induction players as [|entry players IH]; intros w Hnd Hids; cbn [foldl].
  - split; [by intros ? ?%elem_of_nil|done].
  - rewrite fmap_cons in Hnd. apply NoDup_cons in Hnd as [Hfresh Hnd].
    apply Forall_cons in Hids as [Hid Hids].
    destruct (IH (applyPlayerResult randomUUID hashToken now w entry) Hnd Hids)
      as [Hnamed Hothers].
    pose proof (applyPlayerResult_players now w entry Hid) as Hstep. cbv zeta in Hstep.
    split.
    + intros e [->|He]%elem_of_cons.
      * rewrite (Hothers _ Hfresh), Hstep, lookup_insert_eq. eexists. split; [reflexivity|].
        destruct (playersById w !! rc_playerId entry) as [old|]; simpl;
          destruct (rc_result entry), (rc_abandoned entry); simpl; split_and!; try done; lia.
      * destruct (Hnamed e He) as (stored & Hstored & Hfields).
        exists stored. split; [done|].
        assert (rc_playerId e ≠ rc_playerId entry) as Hne.
        { intros Heq. apply Hfresh. rewrite <- Heq. by apply list_elem_of_fmap_2. }
        by rewrite Hstep, lookup_insert_ne in Hfields.
    + intros id Hid'. rewrite fmap_cons in Hid'. apply not_elem_of_cons in Hid' as [Hne Hid'].
      by rewrite (Hothers id Hid'), Hstep, lookup_insert_ne.
Qed.

(** X18.  [applyMatchResult] on a record that names every player once books
    the match for each of them and for nobody else: the player, made with
    the record if it is not stored yet, has one game more, one win or one
    loss more according to the result, one abandon more if flagged, and
    the new rating held between 100 and 4000 (or [NaN] if it was); every
    other player is as before, and the record is the last of [matches]. *)
Theorem X18_applyMatchResult_books_the_match record now w :
  NoDup (rc_playerId <$> mr_players record) →
  Forall (λ entry, rc_playerId entry ≠ "") (mr_players record) →
  let w' := applyMatchResult randomUUID hashToken record now w in
  matches w' = matches w ++ [record]
  ∧ (∀ entry, entry ∈ mr_players record →
       ∃ stored,
         playersById w' !! rc_playerId entry = Some stored
         ∧ pp_rating stored = clampN (rc_ratingAfter entry) 100 4000
         ∧ pp_games stored = default 0 (pp_games <$> playersById w !! rc_playerId entry) + 1
         ∧ pp_wins stored
           = default 0 (pp_wins <$> playersById w !! rc_playerId entry)
             + match rc_result entry with Win => 1 | _ => 0 end
         ∧ pp_losses stored
           = default 0 (pp_losses <$> playersById w !! rc_playerId entry)
             + match rc_result entry with Loss => 1 | _ => 0 end
         ∧ pp_abandons stored
           = default 0 (pp_abandons <$> playersById w !! rc_playerId entry)
             + (if rc_abandoned entry then 1 else 0))
  ∧ (∀ id, id ∉ rc_playerId <$> mr_players record →
           playersById w' !! id = playersById w !! id).
Proof.
  intros Hnd Hids w'. subst w'.
  destruct (applyMatchResult_frame randomUUID hashToken record now w)
    as (_ & _ & _ & Hmatches & _).
  split; [done|].
  unfold applyMatchResult. cbn [playersById upd_matches].
  by apply applyPlayerResults_players.
Qed.
End GatewayFacts.

(** * Player input *)

Lemma ownSeat_Some slots x slot :
  ownSeat slots x = Some slot → slot ∈ slots ∧ (slot <= 3)%nat.
Proof.
  unfold ownSeat. destruct x as [| | |q]; try done.
  destruct (Qle_bool 0 q && Qle_bool q 3) eqn:Hrange; [|done].
  apply andb_true_iff in Hrange as [_ Hle%Qle_bool_iff].
  intros [Hin Heq%Qeq_bool_iff]%find_some.
  split; [by apply list_elem_of_In|].
  rewrite <- Heq in Hle. unfold Qle, inject_Z in Hle. simpl in Hle. lia.
Qed.

Lemma clampNum_axis x :
  ∃ v, clampNum (orZero x) (-1) 1 = Fin v ∧ (-1 <= v <= 1)%Q.
Proof.
  assert (Hfin : ∀ q, ∃ v, clampNum (Fin q) (-1) 1 = Fin v ∧ (-1 <= v <= 1)%Q).
  { intros q. unfold clampNum, minWith, maxWith. eexists. split; [reflexivity|].
    destruct (Qle_bool 1 q) eqn:H1; simpl.
    - split; by vm_compute.
    - destruct (Qle_bool (-1) q) eqn:H2.
      + apply Qle_bool_iff in H2. split; [done|].
        apply Qnot_lt_le. intros Hlt. apply Qlt_le_weak, Qle_bool_iff in Hlt. congruence.
      + split; by vm_compute. }
  destruct x as [| | |q]; simpl.
  - apply Hfin.
  - exists (-1)%Q. split; [reflexivity|]. split; by vm_compute.
  - exists 1%Q. split; [reflexivity|]. split; by vm_compute.
  - destruct (Qeq_bool q 0); apply Hfin.
Qed.

Lemma seatWritten_refl slots now slot b : seatWritten slots now slot b b.
Proof. by left. Qed.

Lemma seatWritten_trans slots now slot b1 b2 b3 :
  seatWritten slots now slot b1 b2 → seatWritten slots now slot b2 b3 →
  seatWritten slots now slot b1 b3.
Proof.
  intros [[Hi12 Hf12]|(Hin & Hle & Hf12 & Hi12)] [[Hi23 Hf23]|(Hin' & Hle' & Hf23 & Hi23)].
  - left. split; [congruence|]. by rewrite Hf23.
  - right. refine (conj Hin' (conj Hle' (conj _ _))).
    + intros Hf. apply Hf23. by apply Hf12.
    + destruct Hi23 as [Hsame|Hv]; [left; congruence|by right].
  - right. refine (conj Hin (conj Hle (conj _ _))).
    + intros Hf. apply Hf23. by apply Hf12.
    + rewrite Hi23. exact Hi12.
  - right. refine (conj Hin (conj Hle (conj _ _))).
    + intros Hf. apply Hf23. by apply Hf12.
    + destruct Hi23 as [Hsame|Hv]; [rewrite Hsame; exact Hi12|by right].
Qed.

Section InputFacts.
Variable Value : Type.
Variable NumberOf : Value → jsNum.
Variable NumberOfKey : string → jsNum.

Lemma registerAxis_written slots now slot board entry :
  seatWritten slots now slot board (registerAxis Value NumberOf NumberOfKey slots now board entry).
Proof.
  unfold registerAxis.
  destruct (ownSeat slots (NumberOfKey entry.1)) as [own|] eqn:Hown; [|by left].
  apply ownSeat_Some in Hown as [Hin Hle].
  destruct (decide (slot = own)) as [->|Hne].
  - right. refine (conj Hin (conj Hle (conj (λ H, H) _))). right. simpl.
    rewrite lookup_insert_eq.
    destruct (clampNum_axis (NumberOf entry.2)) as (v & -> & Hv). by exists v.
  - left. simpl. by rewrite lookup_insert_ne.
Qed.

Lemma registerFire_written slots now slot board slotRaw :
  seatWritten slots now slot board (registerFire Value NumberOf slots board slotRaw).
Proof.
  unfold registerFire.
  destruct (ownSeat slots (NumberOf slotRaw)) as [own|] eqn:Hown; [|by left].
  apply ownSeat_Some in Hown as [Hin Hle].
  destruct (decide (slot = own)) as [->|Hne].
  - right. refine (conj Hin (conj Hle (conj _ _))); [|by left]. simpl. intros _.
    apply elem_of_union. left. by apply elem_of_singleton.
  - left. simpl. split; [done|]. rewrite elem_of_union, elem_of_singleton.
    split; [intros [?|?]; [done|done]|by right].
Qed.

Lemma seatWritten_foldl {A} (f : InputBoard → A → InputBoard) slots now slot l board :
  (∀ b a, seatWritten slots now slot b (f b a)) →
  seatWritten slots now slot board (foldl f board l).
Proof.
  intros Hf. revert board. induction l as [|a l IH]; intros board; simpl.
  - apply seatWritten_refl.
  - eapply seatWritten_trans; [apply Hf|apply IH].
Qed.

(** X19.  [registerInput] writes only where the sender sits: whatever the
    payload, a seat of a room is left as it was unless the room is the
    live room of the connection, the member entered there under its player
    is attached to this very connection, and the seat is one of that
    member's seats; and an axis value that is written is a finite number
    between -1 and 1, stamped with the time of the call. *)
Theorem X19_input_only_for_own_seats socketId (payload : InputPayload Value) now w boards :
  let boards' := fst (registerInput Value NumberOf NumberOfKey socketId payload now w boards) in
  ∀ ref slot,
    (slotInputs (boardOf boards' ref) !! slot = slotInputs (boardOf boards ref) !! slot
     ∧ (slot ∈ slotFires (boardOf boards' ref) ↔ slot ∈ slotFires (boardOf boards ref)))
    ∨ ∃ state roomId room member,
        socketState w !! socketId = Some state
        ∧ ss_roomId state = Some roomId
        ∧ activeRooms w !! roomId = Some ref
        ∧ rooms w !! ref = Some room
        ∧ getMember (ss_playerId state) (room_members room) = Some member
        ∧ rm_socketId member = Some socketId
        ∧ seatWritten (rm_slots member) now slot (boardOf boards ref) (boardOf boards' ref)
        ∧ slot ∈ rm_slots member.
Proof.
  intros boards' ref slot. subst boards'. unfold registerInput.
  destruct (socketState w !! socketId) as [state|] eqn:Hstate; [|by left].
  destruct (ss_roomId state) as [roomId|] eqn:HroomId; [|by left].
  destruct (negb (truthyS (Some roomId))); [by left|].
  destruct (activeRooms w !! roomId) as [r|] eqn:Hactive; simpl; [|by left].
  destruct (rooms w !! r) as [room|] eqn:Hroom; simpl; [|by left].
  destruct (getMember _ _) as [member|] eqn:Hmember; [|by left].
  case_bool_decide as Hattached; simpl; [|by left].
  set (axes := default (default [] (ip_inputs payload)) (ip_axes payload)).
  set (board1 := foldl (registerAxis Value NumberOf NumberOfKey (rm_slots member) now)
                   (default emptyBoard (boards !! r)) axes).
  assert (H1 : seatWritten (rm_slots member) now slot (boardOf boards r) board1).
  { apply seatWritten_foldl. intros. apply registerAxis_written. }
  assert (Hany : ∀ board2 (threw : bool),
            seatWritten (rm_slots member) now slot (boardOf boards r) board2 →
            (slotInputs (boardOf (<[r := board2]> boards, threw).1 ref) !! slot
             = slotInputs (boardOf boards ref) !! slot
             ∧ (slot ∈ slotFires (boardOf (<[r := board2]> boards, threw).1 ref)
                ↔ slot ∈ slotFires (boardOf boards ref)))
            ∨ ∃ state roomId room member,
                socketState w !! socketId = Some state
                ∧ ss_roomId state = Some roomId
                ∧ activeRooms w !! roomId = Some ref
                ∧ rooms w !! ref = Some room
                ∧ getMember (ss_playerId state) (room_members room) = Some member
                ∧ rm_socketId member = Some socketId
                ∧ seatWritten (rm_slots member) now slot (boardOf boards ref)
                    (boardOf (<[r := board2]> boards, threw).1 ref)
                ∧ slot ∈ rm_slots member).
  { intros board2 threw Hwritten. simpl. unfold boardOf at 1 3 5.
    destruct (decide (ref = r)) as [->|Hne].
    - rewrite lookup_insert_eq. simpl. fold (boardOf boards r).
      destruct Hwritten as [Hsame|Hown]; [by left|].
      right. exists state, roomId, room, member.
      refine (conj Hstate (conj HroomId (conj Hactive (conj Hroom (conj Hmember
                (conj Hattached (conj _ _))))))).
      + unfold boardOf at 2. rewrite lookup_insert_eq. by right.
      + by destruct Hown.
    - rewrite lookup_insert_ne by done. by left. }
  destruct (ip_fires payload) as [|fires|].
  - pose proof (Hany board1 false H1) as Hresult. by rewrite Hstate in Hresult.
  - assert (H2 : seatWritten (rm_slots member) now slot (boardOf boards r)
                   (foldl (registerFire Value NumberOf (rm_slots member)) board1 fires)).
    { eapply seatWritten_trans; [exact H1|].
      apply seatWritten_foldl. intros. apply registerFire_written. }
    pose proof (Hany _ false H2) as Hresult. by rewrite Hstate in Hresult.
  - pose proof (Hany board1 true H1) as Hresult. by rewrite Hstate in Hresult.
Qed.
End InputFacts.

(** * Steps and what they leave alone, once more *)

Global Instance untouched_refl : Reflexive untouched.
Proof. by intros w. Qed.

Global Instance untouched_trans : Transitive untouched.
Proof.
  intros w1 w2 w3 (? & ? & ? & ? & ? & ? & ? & ?) (? & ? & ? & ? & ? & ? & ? & ?).
  unfold untouched. split_and!; congruence.
Qed.

Global Instance readySide_refl : Reflexive readySide.
Proof. by intros w. Qed.

Global Instance readySide_trans : Transitive readySide.
Proof.
  intros w1 w2 w3 (? & ? & ? & ? & ?) (? & ? & ? & ? & ?).
  unfold readySide. split_and!; congruence.
Qed.

Global Instance roomSide_refl : Reflexive roomSide.
Proof. by intros w. Qed.

Global Instance roomSide_trans : Transitive roomSide.
Proof.
  intros w1 w2 w3 (? & ? & ?) (? & ? & ?). unfold roomSide. split_and!; congruence.
Qed.

Lemma untouched_readySide w w' : untouched w w' → readySide w w'.
Proof. intros (? & ? & ? & ? & ? & _). by unfold readySide. Qed.

Lemma untouched_roomSide w w' : untouched w w' → roomSide w w'.
Proof. intros (_ & _ & _ & _ & _ & ? & ? & ?). by unfold roomSide. Qed.

Lemma untouched_foldl {A} (f : World → A → World) (l : list A) (w : World) :
  (∀ w a, untouched w (f w a)) → untouched w (foldl f w l).
Proof.
  intros Hf. revert w. induction l as [|a l IH]; intros w; simpl; [done|].
  etrans; [apply Hf|apply IH].
Qed.

Lemma readySide_foldl {A} (f : World → A → World) (l : list A) (w : World) :
  (∀ w a, readySide w (f w a)) → readySide w (foldl f w l).
Proof.
  intros Hf. revert w. induction l as [|a l IH]; intros w; simpl; [done|].
  etrans; [apply Hf|apply IH].
Qed.

Lemma roomSide_foldl {A} (f : World → A → World) (l : list A) (w : World) :
  (∀ w a, roomSide w (f w a)) → roomSide w (foldl f w l).
Proof.
  intros Hf. revert w. induction l as [|a l IH]; intros w; simpl; [done|].
  etrans; [apply Hf|apply IH].
Qed.

Section Frames.
Variable SCORE_LIMIT : Z.
Variable randomUUID : nat → string.
Variable hashToken : string → string.
Variable randomSeed : nat → Z.

Lemma untouched_removeQueueEntry socketId w :
  untouched w (fst (removeQueueEntry socketId w)).
Proof. unfold removeQueueEntry, untouched. frame_step. Qed.

Lemma untouched_reportPositions now total index bucket w :
  untouched w (reportPositions now total index bucket w).
Proof.
  revert index w. induction bucket as [|entry rest IH]; intros index w; simpl; [done|].
  etrans; [|apply IH]. by case_bool_decide.
Qed.

Lemma untouched_updateQueuePositions bucketKey now w :
  untouched w (updateQueuePositions bucketKey now w).
Proof.
  unfold updateQueuePositions. destruct (oget _ _); [|done].
  etrans; [|apply untouched_reportPositions]. done.
Qed.

Lemma untouched_updateAllQueuePositions now w :
  untouched w (updateAllQueuePositions now w).
Proof.
  unfold updateAllQueuePositions. apply untouched_foldl.
  intros; apply untouched_updateQueuePositions.
Qed.

Lemma untouched_enqueueFromSocketState sid payload priorityMs now w :
  untouched w (enqueueFromSocketState randomUUID sid payload priorityMs now w).
Proof.
  unfold enqueueFromSocketState. destruct (socketState w !! sid) as [state|]; [|done].
  cbv zeta. unfold createQueueEntry.
  etrans; [|apply untouched_updateQueuePositions].
  unfold untouched. frame_step.
Qed.

Lemma untouched_clearPendingReadyAssociation ready w :
  untouched w (clearPendingReadyAssociation ready w).
Proof. unfold clearPendingReadyAssociation. apply untouched_foldl. by intros. Qed.

Lemma untouched_requeueMember ready acceptedOnly excludePlayerId now w member :
  untouched w (requeueMember randomUUID ready acceptedOnly excludePlayerId now w member).
Proof.
  unfold requeueMember.
  repeat (case_match; try done).
  etrans; [apply untouched_removeQueueEntry|apply untouched_enqueueFromSocketState].
Qed.

Lemma untouched_inviteMember ready w member : untouched w (inviteMember ready w member).
Proof. unfold inviteMember. by case_bool_decide. Qed.

Lemma untouched_readyMembers candidate selected w :
  untouched w (snd (readyMembers randomUUID candidate selected w)).
Proof.
  revert w. induction selected as [|entry rest IH]; intros w; simpl; [done|].
  repeat (case_match; simplify_eq/=; try done); try apply IH.
  match goal with
  | H : readyMembers _ _ _ ?w0 = (_, ?w1) |- _ =>
      pose proof (IH w0) as Hq; rewrite H in Hq; simpl in Hq
  end.
  etrans; [|exact Hq]. done.
Qed.

Lemma untouched_finishRoomForSockets ref payload w :
  untouched w (finishRoomForSockets ref payload w).
Proof.
  unfold finishRoomForSockets. destruct (rooms w !! ref) as [room|]; [|done].
  apply untouched_foldl. intros w0 member. unfold finishMember.
  repeat (case_match; try done).
Qed.

Lemma readySide_markMemberDisconnected socketId reason now w :
  readySide w (markMemberDisconnected socketId reason now w).
Proof. unfold markMemberDisconnected. repeat (case_match; simplify_eq/=; try done). Qed.

Lemma readySide_tryReconnectToRoom socketId payload now w :
  readySide w (fst (tryReconnectToRoom socketId payload now w)).
Proof. unfold tryReconnectToRoom. repeat (case_match; simplify_eq/=; try done). Qed.

Lemma readySide_leaveMatch socketId now w : readySide w (leaveMatch socketId now w).
Proof. unfold leaveMatch. repeat (case_match; simplify_eq/=; try done). Qed.

Lemma readySide_connect socketId player reconnect now w :
  readySide w (connect socketId player reconnect now w).
Proof.
  unfold connect.
  match goal with
  | |- context [tryReconnectToRoom socketId reconnect now ?w0] => set (w1 := w0)
  end.
  assert (readySide w w1) as H1 by (unfold w1; repeat (case_match; try done)).
  pose proof (readySide_tryReconnectToRoom socketId reconnect now w1) as H2.
  destruct (tryReconnectToRoom socketId reconnect now w1) as [w2 ok]. simpl in H2.
  etrans; [exact H1|]. etrans; [exact H2|]. by destruct (_ && _).
Qed.

Lemma readySide_applyMatchResult record now w :
  readySide w (applyMatchResult randomUUID hashToken record now w).
Proof.
  unfold applyMatchResult.
  transitivity (foldl (applyPlayerResult randomUUID hashToken now) w (mr_players record));
    [|done].
  apply readySide_foldl.
  intros w0 entry. unfold applyPlayerResult, createPlayer, createSessionToken.
  repeat (case_match; simplify_eq/=; try done).
Qed.

Lemma readySide_endRoomBegin ref reason winner now w :
  readySide w (fst (endRoomBegin randomUUID hashToken ref reason winner now w)).
Proof.
  unfold endRoomBegin. destruct (rooms w !! ref) as [room|]; [|done].
  destruct (room_ended room); [done|].
  destruct (snap_score (room_lastSnapshot room)) as [team0 team1]. cbn [fst].
  etrans; [|apply readySide_applyMatchResult].
  etrans; [|apply readySide_foldl; intros w0 member; unfold storeStateRating;
             repeat (case_match; try done)].
  done.
Qed.

Lemma readySide_tickRoom ref snapshot broadcast now w :
  readySide w (fst (tickRoom SCORE_LIMIT randomUUID hashToken ref snapshot broadcast now w)).
Proof.
  unfold tickRoom. destruct (rooms w !! ref) as [room|]; [|done].
  destruct (room_ended room); [done|].
  destruct (shouldEndRoom SCORE_LIMIT _ now) as [room' decision].
  destruct decision as [decision|].
  - etrans; [|apply readySide_endRoomBegin]. by destruct broadcast.
  - by destruct broadcast.
Qed.

Lemma readySide_createRoomFromReady ready now w :
  readySide w (createRoomFromReady ready now w).
Proof.
  unfold createRoomFromReady.
  etrans; [|apply readySide_foldl; intros w0 member; by case_bool_decide].
  match goal with
  | |- readySide w (upd_activeRooms _ (upd_rooms _ ?w0)) =>
      assert (readySide w w0) as H0
        by (etrans; [|apply readySide_foldl; by intros]; done)
  end.
  etrans; [exact H0|]. done.
Qed.

Lemma roomSide_cancelReadyCheck ref reason acceptedOnly excludePlayerId now w :
  roomSide w (cancelReadyCheck randomUUID ref reason acceptedOnly excludePlayerId now w).
Proof.
  unfold cancelReadyCheck.
  destruct (readies w !! ref) as [ready|]; [|done].
  destruct (pendingReadyById w !! rd_id ready); [|done].
  etrans; [|apply roomSide_foldl; intros; apply untouched_roomSide, untouched_requeueMember].
  etrans; [|apply roomSide_foldl; intros; by case_bool_decide].
  etrans; [|apply untouched_roomSide, untouched_clearPendingReadyAssociation].
  by destruct (rd_timeoutHandle ready).
Qed.

Lemma roomSide_fireTimer handle now w : roomSide w (fireTimer randomUUID handle now w).
Proof.
  unfold fireTimer, readyTimeout. repeat (case_match; try done);
    (etrans; [|apply roomSide_cancelReadyCheck]); done.
Qed.

Lemma roomSide_readyLoop fuel bucketKey playlistConfig now bucket w :
  roomSide w (readyLoop randomUUID randomSeed fuel bucketKey playlistConfig now bucket w).
Proof.
  revert bucket w. induction fuel as [|fuel IH]; intros bucket w; simpl; [done|].
  destruct (findBestCandidate now playlistConfig bucket) as [[candidate|]|]; try done.
  set (selected := reverse (List.filter (inCandidate candidate) bucket)).
  set (w1 := foldl (λ w entry, upd_queueEntryBySocket (delete (qe_socketId entry)) w)
               w selected).
  assert (roomSide w w1) as Hq1 by (apply roomSide_foldl; by intros).
  match goal with
  | |- context [match oget bucketKey (queueByBucket w1) with _ => _ end] =>
      set (w2 := match oget bucketKey (queueByBucket w1) with
                 | Some _ => _
                 | None => w1
                 end)
  end.
  assert (roomSide w1 w2) as Hq2 by (unfold w2; by destruct (oget _ _)).
  destruct selected as [|first others] eqn:Hsel.
  { by etrans. }
  match goal with
  | |- context [readyMembers randomUUID candidate (first :: others) ?w0] =>
      set (w3 := w0);
      pose proof (untouched_roomSide _ _
                    (untouched_readyMembers candidate (first :: others) w3)) as Hq4;
      destruct (readyMembers randomUUID candidate (first :: others) w3)
        as [members w4] eqn:Hmembers
  end.
  simpl in Hq4.
  assert (roomSide w2 w3) as Hq3 by (unfold w3; by destruct (_ =? 0)%nat).
  assert (roomSide w w4) as Hq by (etrans; [|exact Hq4]; etrans; [|exact Hq3]; by etrans).
  destruct (length members =? 0)%nat.
  { etrans; [|apply IH]. done. }
  etrans; [|apply IH].
  etrans; [|apply roomSide_foldl; intros; apply untouched_roomSide, untouched_inviteMember].
  etrans; [exact Hq|]. done.
Qed.

Lemma roomSide_tickQueueMatchmaking now w :
  roomSide w (tickQueueMatchmaking randomUUID randomSeed now w).
Proof.
  unfold tickQueueMatchmaking. apply roomSide_foldl. intros w0 key.
  unfold tryCreateReadyChecks. repeat (case_match; try done).
  etrans; [apply roomSide_readyLoop
          |apply untouched_roomSide, untouched_updateQueuePositions].
Qed.

Lemma roomSide_joinQueue socketId payload now w :
  roomSide w (joinQueue randomUUID randomSeed socketId payload now w).
Proof.
  unfold joinQueue. repeat (case_match; try done).
  etrans; [|apply roomSide_tickQueueMatchmaking].
  apply untouched_roomSide.
  etrans; [apply untouched_removeQueueEntry|apply untouched_enqueueFromSocketState].
Qed.

Lemma untouched_leaveQueue socketId now w : untouched w (leaveQueue socketId now w).
Proof.
  unfold leaveQueue.
  pose proof (untouched_removeQueueEntry socketId w) as Hq.
  destruct (removeQueueEntry socketId w) as [w' removed]. simpl in Hq.
  etrans; [exact Hq|].
  repeat (case_match; try done);
    auto using untouched_updateQueuePositions, untouched_updateAllQueuePositions.
Qed.
End Frames.

(** * The ready checks are in order *)

Lemma readyInv_readySide w w' : readySide w w' → readyInv w → readyInv w'.
Proof.
  intros (Hd & Hp & Ht & Hn & Hs). unfold readyInv. by rewrite Hd, Hp, Ht, Hn, Hs.
Qed.

Lemma readyInv_emptyWorld : readyInv emptyWorld.
Proof.
  unfold readyInv. simpl. split_and!.
  - intros id ref Hin. by rewrite lookup_empty in Hin.
  - intros handle ref due Hin. by rewrite lookup_empty in Hin.
  - by intros [] ?.
  - by intros [] ? ? ?.
  - by intros [] ?.
Qed.

Lemma ready_id_inj (n m : nat) : "ready-" +:+ pretty n = "ready-" +:+ pretty m → n = m.
Proof. intros H. by apply (inj pretty), (inj (String.append "ready-")). Qed.

(** A ready check goes out of [pendingReadyById], and its timer with it. *)
Lemma readyInv_retire w w' ref ready :
  readyInv w →
  readies w !! ref = Some ready → pendingReadyById w !! rd_id ready = Some ref →
  readies w' = readies w →
  pendingReadyById w' = delete (rd_id ready) (pendingReadyById w) →
  timers w' = match rd_timeoutHandle ready with
              | Some handle => delete handle (timers w)
              | None => timers w
              end →
  nextTimer w' = nextTimer w → readySequence w' = readySequence w →
  readyInv w'.
Proof.
  intros (T1 & T2 & T3 & T5 & T6) Hready Hpending Hd Hp Ht Hn Hs.
  destruct (T1 _ _ Hpending) as (ready0 & handle & Hready0 & _ & Hhandle & Htimer).
  assert (ready0 = ready) as -> by congruence.
  rewrite Hhandle in Ht.
  unfold readyInv. rewrite Hd, Hp, Ht, Hn, Hs. split_and!; try done.
  - intros id' ref' [Hne Hin]%lookup_delete_Some.
    destruct (T1 _ _ Hin) as (ready' & handle' & Hready' & Hid' & Hhandle' & Htimer').
    exists ready', handle'. split_and!; try done.
    rewrite lookup_delete_ne; [done|].
    intros <-. rewrite Htimer in Htimer'. injection Htimer' as <- _. congruence.
  - intros handle' ref' due [Hne Hin]%lookup_delete_Some.
    destruct (T2 _ _ _ Hin) as (Hlt & ready' & Hready' & Hhandle' & Hpending').
    split; [done|]. exists ready'. split_and!; try done.
    rewrite lookup_delete_ne; [done|].
    intros Hsame. rewrite <- Hsame, Hpending in Hpending'. injection Hpending' as <-.
    congruence.
Qed.

(** A member is added to the accepted of a ready check. *)
Lemma readyInv_accept w ref ready playerId :
  readyInv w → readies w !! ref = Some ready → playerId ∈ memberIds ready →
  readyInv (updReady ref (withAccepted ({[ playerId ]} ∪ rd_accepted ready)) w).
Proof.
  intros (T1 & T2 & T3 & T5 & T6) Hready Hmember.
  set (f := withAccepted ({[ playerId ]} ∪ rd_accepted ready)).
  assert (Hlook : ∀ r x, alter f ref (readies w) !! r = Some x →
            ∃ x0, readies w !! r = Some x0 ∧ rd_id x = rd_id x0
                  ∧ rd_timeoutHandle x = rd_timeoutHandle x0
                  ∧ rd_createdAt x = rd_createdAt x0 ∧ memberIds x = memberIds x0
                  ∧ (rd_accepted x = rd_accepted x0
                     ∨ (x0 = ready ∧ rd_accepted x = {[ playerId ]} ∪ rd_accepted ready))).
  { intros r x. destruct (decide (r = ref)) as [->|Hne].
    - rewrite list_lookup_alter_eq, Hready. intros [= <-].
      exists ready. split_and!; try done. by right.
    - rewrite list_lookup_alter_ne by done. intros Hx. exists x. split_and!; try done.
      by left. }
  assert (Hback : ∀ r x0, readies w !! r = Some x0 →
            ∃ x, alter f ref (readies w) !! r = Some x ∧ rd_id x = rd_id x0
                 ∧ rd_timeoutHandle x = rd_timeoutHandle x0
                 ∧ rd_createdAt x = rd_createdAt x0).
  { intros r x0 Hx0. destruct (decide (r = ref)) as [->|Hne].
    - rewrite list_lookup_alter_eq, Hx0. by eexists.
    - rewrite list_lookup_alter_ne by done. by exists x0. }
  unfold readyInv, updReady. simpl. split_and!.
  - intros id r Hin.
    destruct (T1 _ _ Hin) as (x0 & handle & Hx0 & Hid & Hhandle & Htimer).
    destruct (Hback _ _ Hx0) as (x & Hx & Hidx & Hhx & Hcx).
    exists x, handle. rewrite Hidx, Hhx, Hcx. done.
  - intros handle r due Hin.
    destruct (T2 _ _ _ Hin) as (Hlt & x0 & Hx0 & Hhandle & Hpending).
    split; [done|]. destruct (Hback _ _ Hx0) as (x & Hx & Hidx & Hhx & Hcx).
    exists x. rewrite Hidx, Hhx. done.
  - intros r x Hx. destruct (Hlook _ _ Hx) as (x0 & Hx0 & -> & _). by eapply T3.
  - intros r1 r2 x1 x2 Hx1 Hx2.
    destruct (Hlook _ _ Hx1) as (y1 & Hy1 & -> & _).
    destruct (Hlook _ _ Hx2) as (y2 & Hy2 & -> & _). by eapply T5.
  - intros r x Hx. destruct (Hlook _ _ Hx) as (x0 & Hx0 & _ & _ & _ & -> & [->|[-> ->]]).
    + by eapply T6.
    + apply union_subseteq. split; [by apply singleton_subseteq_l|by eapply T6].
Qed.

(** A new ready check comes in, with its timer. *)
Lemma readyInv_create w w' ready now :
  readyInv w →
  rd_id ready = "ready-" +:+ pretty (readySequence w) →
  rd_timeoutHandle ready = Some (nextTimer w) →
  rd_createdAt ready = now → rd_accepted ready = ∅ →
  readies w' = readies w ++ [ready] →
  pendingReadyById w' = <[rd_id ready := length (readies w)]> (pendingReadyById w) →
  timers w' = <[nextTimer w := (length (readies w), now + (READY_CHECK_MS + 80))]> (timers w) →
  nextTimer w' = S (nextTimer w) → readySequence w' = S (readySequence w) →
  readyInv w'.
Proof.
  intros (T1 & T2 & T3 & T5 & T6) Hid Hhandle Hcreated Haccepted Hd Hp Ht Hn Hs.
  assert (Hnew : ∀ r x, readies w !! r = Some x → rd_id x ≠ rd_id ready).
  { intros r x Hx Hsame. destruct (T3 _ _ Hx) as (n & Hlt & Hn').
    rewrite Hid, Hn' in Hsame. apply ready_id_inj in Hsame. lia. }
  assert (Hlook : ∀ r x, (readies w ++ [ready]) !! r = Some x →
            readies w !! r = Some x ∨ (r = length (readies w) ∧ x = ready)).
  { intros r x Hx. apply lookup_app_Some in Hx as [Hx|[Hge Hx]]; [by left|].
    right. apply list_lookup_singleton_Some in Hx as [Hr ->]. split; [lia|done]. }
  unfold readyInv. rewrite Hd, Hp, Ht, Hn, Hs. split_and!.
  - intros id r Hin. apply lookup_insert_Some in Hin as [[<- <-]|[Hne Hin]].
    + exists ready, (nextTimer w). split_and!; try done.
      * by rewrite lookup_app_r, Nat.sub_diag.
      * rewrite lookup_insert_eq, Hcreated. done.
    + destruct (T1 _ _ Hin) as (x & handle & Hx & Hidx & Hhx & Htimer).
      exists x, handle. split_and!; try done.
      * by apply lookup_app_l_Some.
      * rewrite lookup_insert_ne; [done|].
        intros <-. destruct (T2 _ _ _ Htimer) as [Hlt _]. lia.
  - intros handle r due Hin. apply lookup_insert_Some in Hin as [[<- [= <- <-]]|[Hne Hin]].
    + split; [lia|]. exists ready. split_and!; try done.
      * by rewrite lookup_app_r, Nat.sub_diag.
      * apply lookup_insert_eq.
    + destruct (T2 _ _ _ Hin) as (Hlt & x & Hx & Hhx & Hpending).
      split; [lia|]. exists x. split_and!; try done.
      * by apply lookup_app_l_Some.
      * rewrite lookup_insert_ne; [done|]. intros Hsame. by apply (Hnew _ _ Hx).
  - intros r x Hx. destruct (Hlook _ _ Hx) as [Hold|[-> ->]].
    + destruct (T3 _ _ Hold) as (n & Hlt & Hn'). exists n. split; [lia|done].
    + exists (readySequence w). split; [lia|done].
  - intros r1 r2 x1 x2 Hx1 Hx2 Hsame.
    destruct (Hlook _ _ Hx1) as [Hold1|[-> ->]], (Hlook _ _ Hx2) as [Hold2|[-> ->]].
    + by eapply T5.
    + by apply Hnew in Hold1.
    + symmetry in Hsame. by apply Hnew in Hold2.
    + done.
  - intros r x Hx. destruct (Hlook _ _ Hx) as [Hold|[-> ->]].
    + by eapply T6.
    + rewrite Haccepted. apply empty_subseteq.
Qed.

Lemma readyInv_later w w' :
  readies w' = readies w → pendingReadyById w' = pendingReadyById w →
  timers w' = timers w → nextTimer w' = nextTimer w →
  (readySequence w ≤ readySequence w')%nat →
  readyInv w → readyInv w'.
Proof.
  intros Hd Hp Ht Hn Hs (T1 & T2 & T3 & T5 & T6).
  unfold readyInv. rewrite Hd, Hp, Ht, Hn. split_and!; try done.
  intros ref ready Hready. destruct (T3 _ _ Hready) as (n & Hlt & Hid).
  exists n. split; [lia|done].
Qed.

Lemma readyInv_pending_ref w ref ready :
  readyInv w → readies w !! ref = Some ready →
  is_Some (pendingReadyById w !! rd_id ready) →
  pendingReadyById w !! rd_id ready = Some ref.
Proof.
  intros (T1 & _ & _ & T5 & _) Hready [ref0 Hpending].
  destruct (T1 _ _ Hpending) as (ready0 & handle & Hready0 & Hid & _).
  by rewrite (T5 _ _ _ _ Hready Hready0 (eq_sym Hid)).
Qed.

Section ReadyChecks.
Variable SCORE_LIMIT : Z.
Variable randomUUID : nat → string.
Variable hashToken : string → string.
Variable randomSeed : nat → Z.

Lemma readyInv_cancelReadyCheck ref reason acceptedOnly excludePlayerId now w :
  readyInv w →
  readyInv (cancelReadyCheck randomUUID ref reason acceptedOnly excludePlayerId now w).
Proof.
  intros Hinv. unfold cancelReadyCheck.
  destruct (readies w !! ref) as [ready|] eqn:Hready; [|done].
  destruct (pendingReadyById w !! rd_id ready) as [ref0|] eqn:Hpending; [|done].
  pose proof (readyInv_pending_ref w ref ready Hinv Hready) as Hown.
  rewrite Hpending in Hown. specialize (Hown (mk_is_Some _ _ eq_refl)).
  eapply readyInv_readySide.
  { apply readySide_foldl. intros w0 member.
    apply untouched_readySide, (untouched_requeueMember randomUUID). }
  eapply readyInv_readySide.
  { apply readySide_foldl. intros w0 member. by case_bool_decide. }
  eapply readyInv_readySide.
  { apply untouched_readySide, untouched_clearPendingReadyAssociation. }
  eapply (readyInv_retire w _ ref ready); try done.
  - by rewrite Hpending.
  - by destruct (rd_timeoutHandle ready).
  - by destruct (rd_timeoutHandle ready).
  - by destruct (rd_timeoutHandle ready).
  - by destruct (rd_timeoutHandle ready).
  - by destruct (rd_timeoutHandle ready).
Qed.

Lemma readyInv_fireTimer handle now w :
  readyInv w → readyInv (fireTimer randomUUID handle now w).
Proof.
  intros Hinv. unfold fireTimer.
  destruct (timers w !! handle) as [[ref due]|] eqn:Htimer; [|done].
  destruct (due <=? now); [|done].
  destruct Hinv as (T1 & T2 & T3 & T5 & T6).
  destruct (T2 _ _ _ Htimer) as (Hlt & ready & Hready & Hhandle & Hpending).
  unfold readyTimeout. simpl. rewrite Hready, Hpending.
  unfold cancelReadyCheck. simpl. rewrite Hready, Hpending.
  eapply readyInv_readySide.
  { apply readySide_foldl. intros w0 member.
    apply untouched_readySide, (untouched_requeueMember randomUUID). }
  eapply readyInv_readySide.
  { apply readySide_foldl. intros w0 member. by case_bool_decide. }
  eapply readyInv_readySide.
  { apply untouched_readySide, untouched_clearPendingReadyAssociation. }
  eapply (readyInv_retire w _ ref ready); try done; rewrite Hhandle; simpl; try done.
  by rewrite delete_delete_eq.
Qed.

Lemma readyInv_readyLoop fuel bucketKey playlistConfig now bucket w :
  readyInv w →
  readyInv (readyLoop randomUUID randomSeed fuel bucketKey playlistConfig now bucket w).
Proof.
  revert bucket w. induction fuel as [|fuel IH]; intros bucket w Hinv; simpl; [done|].
  destruct (findBestCandidate now playlistConfig bucket) as [[candidate|]|]; try done.
  set (selected := reverse (List.filter (inCandidate candidate) bucket)).
  set (w1 := foldl (λ w entry, upd_queueEntryBySocket (delete (qe_socketId entry)) w)
               w selected).
  assert (readySide w w1) as Hq1 by (apply readySide_foldl; by intros).
  match goal with
  | |- context [match oget bucketKey (queueByBucket w1) with _ => _ end] =>
      set (w2 := match oget bucketKey (queueByBucket w1) with
                 | Some _ => _
                 | None => w1
                 end)
  end.
  assert (readySide w1 w2) as Hq2 by (unfold w2; by destruct (oget _ _)).
  destruct selected as [|first others] eqn:Hsel.
  { eapply readyInv_readySide; [|exact Hinv]. by etrans. }
  match goal with
  | |- context [if (length ?b =? 0)%nat then upd_queueByBucket ?f w2 else w2] =>
      set (w3 := if (length b =? 0)%nat then upd_queueByBucket f w2 else w2)
  end.
  assert (readySide w2 w3) as Hq3 by (unfold w3; by destruct (_ =? 0)%nat).
  assert (readySide w w3) as (Hd & Hp & Ht & Hn & Hs)
    by (etrans; [|exact Hq3]; by etrans).
  pose proof (untouched_readyMembers randomUUID candidate (first :: others)
                (upd_drawn S (upd_readySequence S w3))) as Hq4.
  destruct (readyMembers randomUUID candidate (first :: others)
              (upd_drawn S (upd_readySequence S w3))) as [members w4] eqn:Hmembers.
  destruct Hq4 as (Hd4 & Hp4 & Ht4 & Hn4 & Hs4 & _). simpl in Hd4, Hp4, Ht4, Hn4, Hs4.
  destruct (length members =? 0)%nat.
  { apply IH. apply (readyInv_later w); [congruence..| |done]. rewrite Hs4, Hs. lia. }
  apply IH.
  eapply readyInv_readySide.
  { apply readySide_foldl. intros w0 member. apply untouched_readySide, untouched_inviteMember. }
  match goal with
  | |- readyInv (upd_nextTimer _ (upd_timers _ (upd_pendingReadyById _
                   (upd_readies (λ h, h ++ [?r]) _)))) =>
      eapply (readyInv_create w _ r now Hinv)
  end; simpl; rewrite ?Hd4, ?Hp4, ?Ht4, ?Hn4, ?Hs4, ?Hd, ?Hp, ?Ht, ?Hn, ?Hs; done.
Qed.

Lemma readyInv_tickQueueMatchmaking now w :
  readyInv w → readyInv (tickQueueMatchmaking randomUUID randomSeed now w).
Proof.
  unfold tickQueueMatchmaking. generalize (okeys (queueByBucket w)). intros keys.
  revert w. induction keys as [|key keys IH]; intros w Hinv; simpl; [done|].
  apply IH. unfold tryCreateReadyChecks. repeat (case_match; try done).
  eapply readyInv_readySide; [apply untouched_readySide, untouched_updateQueuePositions|].
  by apply readyInv_readyLoop.
Qed.

Lemma readyInv_joinQueue socketId payload now w :
  readyInv w → readyInv (joinQueue randomUUID randomSeed socketId payload now w).
Proof.
  intros Hinv. unfold joinQueue. repeat (case_match; try done);
    try (eapply readyInv_readySide; [|exact Hinv]; done).
  apply readyInv_tickQueueMatchmaking.
  eapply readyInv_readySide; [|exact Hinv]. apply untouched_readySide.
  etrans; [apply untouched_removeQueueEntry|apply untouched_enqueueFromSocketState].
Qed.

Lemma member_of_ready playerId (members : list ReadyMember) :
  existsb (λ entry, String.eqb (rdm_playerId entry) playerId) members = true →
  playerId ∈ rdm_playerId <$> members.
Proof.
  intros (member & Hin & Heq)%existsb_exists. apply String.eqb_eq in Heq as <-.
  apply list_elem_of_fmap_2. by apply list_elem_of_In.
Qed.

Lemma readyInv_acceptReady socketId payload now w :
  readyInv w → readyInv (acceptReady randomUUID socketId payload now w).
Proof.
  intros Hinv. unfold acceptReady.
  destruct (socketState w !! socketId) as [state|]; [|done].
  destruct (ss_pendingReadyId state) as [pendingReadyId|]; [|done].
  destruct (negb (truthyS (Some pendingReadyId))); [done|].
  destruct (pendingReadyById w !! default pendingReadyId (rr_matchId payload))
    as [ref|] eqn:Hpending; simpl;
    [|eapply readyInv_readySide; [|exact Hinv]; done].
  destruct (readies w !! ref) as [ready|] eqn:Hready; simpl;
    [|eapply readyInv_readySide; [|exact Hinv]; done].
  destruct (existsb _ (rd_members ready)) eqn:Hmember; simpl; [|done].
  case_bool_decide; [by apply readyInv_cancelReadyCheck|].
  apply member_of_ready in Hmember.
  pose proof (readyInv_accept w ref ready (ss_playerId state) Hinv Hready) as Hinv1.
  specialize (Hinv1 ltac:(unfold memberIds; by apply elem_of_list_to_set)).
  set (accepted := {[ ss_playerId state ]} ∪ rd_accepted ready) in *.
  set (w1 := updReady ref (withAccepted accepted) w) in *.
  match goal with
  | |- context [foldl ?f w1 (rd_members ready)] => set (w2 := foldl f w1 (rd_members ready))
  end.
  assert (readySide w1 w2) as Hq2
    by (apply readySide_foldl; intros; by case_bool_decide).
  assert (readyInv w2) as Hinv2 by (by eapply readyInv_readySide).
  destruct (size accepted <? length (rd_members ready))%nat; [done|].
  eapply readyInv_readySide; [apply (readySide_createRoomFromReady)|].
  eapply readyInv_readySide.
  { apply untouched_readySide, untouched_clearPendingReadyAssociation. }
  destruct Hq2 as (Hd & Hp & Ht & Hn & Hs).
  assert (readies w2 !! ref = Some (withAccepted accepted ready)) as Hready2.
  { rewrite Hd. unfold w1, updReady. simpl. by rewrite list_lookup_alter_eq, Hready. }
  destruct Hinv as (T1 & _).
  destruct (T1 _ _ Hpending) as (ready0 & handle & Hready0 & Hid & _).
  assert (ready0 = ready) as -> by congruence.
  eapply (readyInv_retire w2 _ ref (withAccepted accepted ready)); try done.
  - rewrite Hp. simpl. by rewrite Hid.
  - by destruct (rd_timeoutHandle ready).
  - by destruct (rd_timeoutHandle ready).
  - simpl. by destruct (rd_timeoutHandle ready).
  - by destruct (rd_timeoutHandle ready).
  - by destruct (rd_timeoutHandle ready).
Qed.

Lemma readyInv_disconnect socketId now w :
  readyInv w → readyInv (disconnect randomUUID socketId now w).
Proof.
  intros Hinv. unfold disconnect.
  destruct (socketState (upd_sockets _ w) !! socketId) as [current|];
    [|eapply readyInv_readySide; [|exact Hinv]; done].
  eapply readyInv_readySide.
  { apply untouched_readySide, untouched_updateAllQueuePositions. }
  match goal with
  | |- context [markMemberDisconnected ?s ?r ?n ?w0] =>
      pose proof (readySide_markMemberDisconnected s r n w0) as Hmark;
      set (w1 := w0) in *;
      set (w2 := markMemberDisconnected s r n w1) in *
  end.
  assert (readyInv w1) as Hinv1.
  { unfold w1.
    assert (readyInv (removeQueueEntry socketId (upd_sockets (λ ss, ss ∖ {[socketId]}) w)).1)
      as Hinv0.
    { eapply readyInv_readySide; [|exact Hinv].
      etrans; [|apply untouched_readySide, untouched_removeQueueEntry]. done. }
    repeat (case_match; try done). by apply readyInv_cancelReadyCheck. }
  eapply readyInv_readySide; [|exact Hinv1].
  etrans; [exact Hmark|]. by case_bool_decide.
Qed.

Lemma readyInv_handle e w :
  readyInv w → readyInv (handle SCORE_LIMIT randomUUID hashToken randomSeed e w).
Proof.
  intros Hinv. destruct e; simpl.
  - eapply readyInv_readySide; [apply readySide_connect|done].
  - by apply readyInv_joinQueue.
  - eapply readyInv_readySide; [apply untouched_readySide, untouched_leaveQueue|done].
  - by apply readyInv_acceptReady.
  - eapply readyInv_readySide; [apply readySide_leaveMatch|done].
  - by apply readyInv_disconnect.
  - by apply readyInv_tickQueueMatchmaking.
  - by apply readyInv_fireTimer.
  - eapply readyInv_readySide; [apply readySide_tickRoom|done].
  - eapply readyInv_readySide; [|done]. apply untouched_readySide.
    apply untouched_finishRoomForSockets.
  - eapply readyInv_readySide; [apply readySide_endRoomBegin|done].
Qed.

Lemma reachable_readyInv w :
  reachable SCORE_LIMIT randomUUID hashToken randomSeed w → readyInv w.
Proof.
  induction 1 as [|e w _ IH]; [apply readyInv_emptyWorld|by apply readyInv_handle].
Qed.
End ReadyChecks.

(** * The rooms are in order *)

Global Instance roomsKeep_refl : Reflexive roomsKeep.
Proof. by intros w. Qed.

Global Instance roomsKeep_trans : Transitive roomsKeep.
Proof.
  intros w1 w2 w3 (Hr & Ha & Hs) (Hr' & Ha' & Hs').
  unfold roomsKeep. by rewrite Hr', Ha', Hs'.
Qed.

Lemma roomSide_roomsKeep w w' : roomSide w w' → roomsKeep w w'.
Proof. intros (Hr & Ha & Hs). unfold roomsKeep. by rewrite Hr. Qed.

Lemma roomsKeep_foldl {A} (f : World → A → World) (l : list A) (w : World) :
  (∀ w a, roomsKeep w (f w a)) → roomsKeep w (foldl f w l).
Proof.
  intros Hf. revert w. induction l as [|a l IH]; intros w; simpl; [done|].
  etrans; [apply Hf|apply IH].
Qed.

Lemma roomTag_alter (f : Room → Room) ref (l : list Room) :
  (∀ room, l !! ref = Some room → roomTag (f room) = roomTag room) →
  roomTag <$> alter f ref l = roomTag <$> l.
Proof.
  intros Hf. apply list_eq. intros i. rewrite !list_lookup_fmap.
  destruct (decide (i = ref)) as [->|Hne].
  - rewrite list_lookup_alter_eq. destruct (l !! ref) as [room|] eqn:Hroom; [|done].
    simpl. f_equal. by apply Hf.
  - by rewrite list_lookup_alter_ne.
Qed.

Lemma roomsKeep_updRoom ref f w :
  (∀ room, rooms w !! ref = Some room → roomTag (f room) = roomTag room) →
  roomsKeep w (updRoom ref f w).
Proof. intros Hf. split; [|done]. simpl. by apply roomTag_alter. Qed.

Lemma roomTag_lookup w w' ref room' :
  roomTag <$> rooms w' = roomTag <$> rooms w → rooms w' !! ref = Some room' →
  ∃ room, rooms w !! ref = Some room ∧ room_id room = room_id room'
          ∧ room_ended room = room_ended room'.
Proof.
  intros Htags Hroom'.
  assert ((roomTag <$> rooms w) !! ref = Some (roomTag room')) as Hlook
    by (by rewrite <- Htags, list_lookup_fmap, Hroom').
  rewrite list_lookup_fmap in Hlook.
  destruct (rooms w !! ref) as [room|]; [|done].
  injection Hlook as Hid Hended. by exists room.
Qed.

Lemma roomInv_roomsKeep w w' : roomsKeep w w' → roomInv w → roomInv w'.
Proof.
  intros (Htags & Ha & Hs) (R1 & R2 & R3 & R4).
  assert (Hto := λ ref room', roomTag_lookup w w' ref room' Htags).
  assert (Hfrom := λ ref room', roomTag_lookup w' w ref room' (eq_sym Htags)).
  unfold roomInv. rewrite Ha, Hs. split_and!.
  - intros id ref Hin. destruct (R1 _ _ Hin) as (room & Hroom & Hid & Hended).
    destruct (Hfrom _ _ Hroom) as (room' & Hroom' & Hid' & Hended').
    exists room'. split_and!; congruence.
  - intros ref room' Hroom' Hended'.
    destruct (Hto _ _ Hroom') as (room & Hroom & Hid & Hended).
    rewrite <- Hid. apply R2; congruence.
  - intros ref room' Hroom'. destruct (Hto _ _ Hroom') as (room & Hroom & Hid & Hended).
    rewrite <- Hid. by eapply R3.
  - intros ref1 ref2 room1 room2 Hroom1 Hroom2 Hsame.
    destruct (Hto _ _ Hroom1) as (old1 & Hold1 & Hid1 & _).
    destruct (Hto _ _ Hroom2) as (old2 & Hold2 & Hid2 & _).
    eapply R4; [exact Hold1|exact Hold2|congruence].
Qed.

Lemma roomInv_emptyWorld : roomInv emptyWorld.
Proof.
  unfold roomInv. simpl. split_and!.
  - intros id ref Hin. by rewrite lookup_empty in Hin.
  - by intros [] ?.
  - by intros [] ?.
  - by intros [] ? ? ?.
Qed.

Lemma match_id_inj (n m : nat) : "match-" +:+ pretty n = "match-" +:+ pretty m → n = m.
Proof. intros H. by apply (inj pretty), (inj (String.append "match-")). Qed.

(** A room ends: its flag is set and it goes out of [activeRooms]. *)
Lemma roomInv_end w ref room :
  roomInv w → rooms w !! ref = Some room →
  roomInv (upd_activeRooms (delete (room_id room)) (updRoom ref (withEnded true) w)).
Proof.
  intros (R1 & R2 & R3 & R4) Hroom.
  assert (Hlook : ∀ r x, alter (withEnded true) ref (rooms w) !! r = Some x →
            ∃ x0, rooms w !! r = Some x0 ∧ room_id x = room_id x0
                  ∧ (r = ref ∧ room_ended x = true
                     ∨ r ≠ ref ∧ room_ended x = room_ended x0)).
  { intros r x. destruct (decide (r = ref)) as [->|Hne].
    - rewrite list_lookup_alter_eq, Hroom. intros [= <-]. exists room. split_and!; auto.
    - rewrite list_lookup_alter_ne by done. intros Hx. exists x. split_and!; auto. }
  unfold roomInv, updRoom. simpl. split_and!.
  - intros id r [Hne Hin]%lookup_delete_Some.
    destruct (R1 _ _ Hin) as (x0 & Hx0 & Hid & Hended).
    exists x0. split_and!; try done.
    rewrite list_lookup_alter_ne; [done|]. intros ->. congruence.
  - intros r x Hx Hended. destruct (Hlook _ _ Hx) as (x0 & Hx0 & Hid & [[-> He]|[Hne He]]).
    { congruence. }
    rewrite Hid. rewrite lookup_delete_ne.
    + apply R2; congruence.
    + intros Hsame. apply Hne. symmetry. by eapply R4.
  - intros r x Hx. destruct (Hlook _ _ Hx) as (x0 & Hx0 & -> & _). by eapply R3.
  - intros r1 r2 x1 x2 Hx1 Hx2.
    destruct (Hlook _ _ Hx1) as (y1 & Hy1 & -> & _).
    destruct (Hlook _ _ Hx2) as (y2 & Hy2 & -> & _). by eapply R4.
Qed.

(** A room starts. *)
Lemma roomInv_start w w' room :
  roomInv w →
  rooms w' = rooms w ++ [room] →
  activeRooms w' = <[room_id room := length (rooms w)]> (activeRooms w) →
  roomSequence w' = S (roomSequence w) →
  room_id room = "match-" +:+ pretty (roomSequence w) → room_ended room = false →
  roomInv w'.
Proof.
  intros (R1 & R2 & R3 & R4) Hr Ha Hs Hid Hended.
  assert (Hnew : ∀ r x, rooms w !! r = Some x → room_id x ≠ room_id room).
  { intros r x Hx Hsame. destruct (R3 _ _ Hx) as (n & Hlt & Hn).
    rewrite Hid, Hn in Hsame. apply match_id_inj in Hsame. lia. }
  assert (Hlook : ∀ r x, (rooms w ++ [room]) !! r = Some x →
            rooms w !! r = Some x ∨ (r = length (rooms w) ∧ x = room)).
  { intros r x Hx. apply lookup_app_Some in Hx as [Hx|[Hge Hx]]; [by left|].
    right. apply list_lookup_singleton_Some in Hx as [Hr' ->]. split; [lia|done]. }
  unfold roomInv. rewrite Hr, Ha, Hs. split_and!.
  - intros id r Hin. apply lookup_insert_Some in Hin as [[<- <-]|[Hne Hin]].
    + exists room. split_and!; try done. by rewrite lookup_app_r, Nat.sub_diag.
    + destruct (R1 _ _ Hin) as (x & Hx & Hidx & Hex). exists x. split_and!; try done.
      by apply lookup_app_l_Some.
  - intros r x Hx Hex. destruct (Hlook _ _ Hx) as [Hold|[-> ->]].
    + rewrite lookup_insert_ne; [by apply R2|]. intros Hsame. by apply (Hnew _ _ Hold).
    + apply lookup_insert_eq.
  - intros r x Hx. destruct (Hlook _ _ Hx) as [Hold|[-> ->]].
    + destruct (R3 _ _ Hold) as (n & Hlt & Hn). exists n. split; [lia|done].
    + exists (roomSequence w). split; [lia|done].
  - intros r1 r2 x1 x2 Hx1 Hx2 Hsame.
    destruct (Hlook _ _ Hx1) as [Hold1|[-> ->]], (Hlook _ _ Hx2) as [Hold2|[-> ->]].
    + by eapply R4.
    + by apply Hnew in Hold1.
    + symmetry in Hsame. by apply Hnew in Hold2.
    + done.
Qed.

Ltac keep_step :=
  repeat (case_match; simplify_eq/=; try done);
  try (split; [simpl; by apply roomTag_alter|done]).

Section Rooms.
Variable SCORE_LIMIT : Z.
Variable randomUUID : nat → string.
Variable hashToken : string → string.
Variable randomSeed : nat → Z.

Lemma roomsKeep_markMemberDisconnected socketId reason now w :
  roomsKeep w (markMemberDisconnected socketId reason now w).
Proof. unfold markMemberDisconnected. keep_step. Qed.

Lemma roomsKeep_tryReconnectToRoom socketId payload now w :
  roomsKeep w (fst (tryReconnectToRoom socketId payload now w)).
Proof. unfold tryReconnectToRoom. keep_step. Qed.

Lemma roomsKeep_leaveMatch socketId now w : roomsKeep w (leaveMatch socketId now w).
Proof. unfold leaveMatch. keep_step. Qed.

Lemma roomsKeep_connect socketId player reconnect now w :
  roomsKeep w (connect socketId player reconnect now w).
Proof.
  unfold connect.
  match goal with
  | |- context [tryReconnectToRoom socketId reconnect now ?w0] => set (w1 := w0)
  end.
  assert (roomsKeep w w1) as H1 by (unfold w1; repeat (case_match; try done)).
  pose proof (roomsKeep_tryReconnectToRoom socketId reconnect now w1) as H2.
  destruct (tryReconnectToRoom socketId reconnect now w1) as [w2 ok]. simpl in H2.
  etrans; [exact H1|]. etrans; [exact H2|]. by destruct (_ && _).
Qed.

Lemma roomSide_applyMatchResult record now w :
  roomSide w (applyMatchResult randomUUID hashToken record now w).
Proof.
  unfold applyMatchResult.
  transitivity (foldl (applyPlayerResult randomUUID hashToken now) w (mr_players record));
    [|done].
  apply roomSide_foldl.
  intros w0 entry. unfold applyPlayerResult, createPlayer, createSessionToken.
  repeat (case_match; simplify_eq/=; try done).
Qed.

Lemma roomInv_endRoomBegin ref reason winner now w :
  roomInv w → roomInv (fst (endRoomBegin randomUUID hashToken ref reason winner now w)).
Proof.
  intros Hinv. unfold endRoomBegin. destruct (rooms w !! ref) as [room|] eqn:Hroom; [|done].
  destruct (room_ended room); [done|].
  destruct (snap_score (room_lastSnapshot room)) as [team0 team1]. cbn [fst].
  eapply roomInv_roomsKeep; [apply roomSide_roomsKeep, roomSide_applyMatchResult|].
  eapply roomInv_roomsKeep.
  { apply roomsKeep_foldl. intros w0 member. unfold storeStateRating.
    repeat (case_match; try done). }
  eapply roomInv_roomsKeep; [by apply roomsKeep_updRoom|].
  by apply roomInv_end.
Qed.

Lemma shouldEndRoom_tag room now :
  roomTag (fst (shouldEndRoom SCORE_LIMIT room now)) = roomTag room.
Proof.
  unfold shouldEndRoom. repeat (case_match; simplify_eq/=; try done).
Qed.

Lemma roomInv_tickRoom ref snapshot broadcast now w :
  roomInv w →
  roomInv (fst (tickRoom SCORE_LIMIT randomUUID hashToken ref snapshot broadcast now w)).
Proof.
  intros Hinv. unfold tickRoom. destruct (rooms w !! ref) as [room|] eqn:Hroom; [|done].
  destruct (room_ended room); [done|].
  pose proof (shouldEndRoom_tag
                (withSnapshot snapshot
                   (if broadcast then room_serverSeq room + 1 else room_serverSeq room) room)
                now) as Htag.
  destruct (shouldEndRoom SCORE_LIMIT _ now) as [room' decision]. simpl in Htag.
  match goal with
  | |- context [updRoom ref (λ _, room') ?w0] => set (w1 := w0)
  end.
  assert (roomsKeep w w1) as H1.
  { unfold w1.
    transitivity (updRoom ref
                    (λ _, withSnapshot snapshot
                            (if broadcast then room_serverSeq room + 1
                             else room_serverSeq room) room) w).
    - apply roomsKeep_updRoom. intros old Hold.
      assert (old = room) as -> by congruence. done.
    - by destruct broadcast. }
  assert (roomsKeep w1 (updRoom ref (λ _, room') w1)) as H2.
  { apply roomsKeep_updRoom. intros old Hold.
    assert (roomTag old = roomTag room) as ->; [|done].
    destruct H1 as (Htags & _).
    destruct (roomTag_lookup w w1 ref old Htags Hold) as (old0 & Hold0 & Hid & Hended).
    assert (old0 = room) as -> by congruence. unfold roomTag. congruence. }
  assert (roomInv (updRoom ref (λ _, room') w1)) as Hinv2.
  { eapply roomInv_roomsKeep; [|exact Hinv]. by etrans. }
  destruct decision as [decision|]; [by apply roomInv_endRoomBegin|done].
Qed.

Lemma roomInv_createRoomFromReady ready now w :
  roomInv w → roomInv (createRoomFromReady ready now w).
Proof.
  intros Hinv.
  destruct (createRoomFromReady_room ready now w) as (room & Hr & Ha & Hs & Hroom).
  eapply (roomInv_start w _ room); try done.
  - rewrite Hroom.
    by destruct (seatMember_slots (upd_roomSequence S w) now
                   {| room_id := "match-" +:+ pretty (roomSequence w);
                      room_playlist := rd_playlist ready; room_region := rd_region ready;
                      room_seed := rd_seed ready; room_startedAt := now;
                      room_createdAt := now; room_members := [];
                      room_slotOwner := [None; None; None; None]; room_serverSeq := 0;
                      room_lastSnapshot := {| snap_score := (0, 0) |};
                      room_activeSlots := ∅;
                      room_inactiveSlots := list_to_set [0; 1; 2; 3]%nat;
                      room_ended := false |} (rd_members ready))
      as (_ & _ & -> & _).
  - rewrite Hroom.
    by destruct (seatMember_slots (upd_roomSequence S w) now
                   {| room_id := "match-" +:+ pretty (roomSequence w);
                      room_playlist := rd_playlist ready; room_region := rd_region ready;
                      room_seed := rd_seed ready; room_startedAt := now;
                      room_createdAt := now; room_members := [];
                      room_slotOwner := [None; None; None; None]; room_serverSeq := 0;
                      room_lastSnapshot := {| snap_score := (0, 0) |};
                      room_activeSlots := ∅;
                      room_inactiveSlots := list_to_set [0; 1; 2; 3]%nat;
                      room_ended := false |} (rd_members ready))
      as (_ & _ & _ & -> & _).
Qed.

Lemma roomInv_acceptReady socketId payload now w :
  roomInv w → roomInv (acceptReady randomUUID socketId payload now w).
Proof.
  intros Hinv. unfold acceptReady.
  destruct (socketState w !! socketId) as [state|]; [|done].
  destruct (ss_pendingReadyId state) as [pendingReadyId|]; [|done].
  destruct (negb (truthyS (Some pendingReadyId))); [done|].
  destruct (pendingReadyById w !! default pendingReadyId (rr_matchId payload))
    as [ref|] eqn:Hpending; simpl;
    [|eapply roomInv_roomsKeep; [|exact Hinv]; done].
  destruct (readies w !! ref) as [ready|] eqn:Hready; simpl;
    [|eapply roomInv_roomsKeep; [|exact Hinv]; done].
  destruct (existsb _ (rd_members ready)); simpl; [|done].
  case_bool_decide.
  { eapply roomInv_roomsKeep; [|exact Hinv].
    apply roomSide_roomsKeep, roomSide_cancelReadyCheck. }
  set (accepted := {[ ss_playerId state ]} ∪ rd_accepted ready) in *.
  set (w1 := updReady ref (withAccepted accepted) w) in *.
  match goal with
  | |- context [foldl ?f w1 (rd_members ready)] => set (w2 := foldl f w1 (rd_members ready))
  end.
  assert (roomsKeep w w2) as Hq2.
  { transitivity w1; [done|]. apply roomsKeep_foldl; intros; by case_bool_decide. }
  assert (roomInv w2) as Hinv2 by (by eapply roomInv_roomsKeep).
  destruct (size accepted <? length (rd_members ready))%nat; [done|].
  apply roomInv_createRoomFromReady.
  eapply roomInv_roomsKeep; [|exact Hinv2].
  etrans; [|apply roomSide_roomsKeep, untouched_roomSide,
             untouched_clearPendingReadyAssociation].
  by destruct (rd_timeoutHandle ready).
Qed.

Lemma roomInv_disconnect socketId now w :
  roomInv w → roomInv (disconnect randomUUID socketId now w).
Proof.
  intros Hinv. unfold disconnect.
  destruct (socketState (upd_sockets _ w) !! socketId) as [current|];
    [|eapply roomInv_roomsKeep; [|exact Hinv]; done].
  eapply roomInv_roomsKeep; [|exact Hinv].
  etrans; [|apply roomSide_roomsKeep, untouched_roomSide, untouched_updateAllQueuePositions].
  match goal with
  | |- context [markMemberDisconnected ?s ?r ?n ?w0] =>
      pose proof (roomsKeep_markMemberDisconnected s r n w0) as Hmark;
      set (w1 := w0) in *;
      set (w2 := markMemberDisconnected s r n w1) in *
  end.
  assert (roomsKeep w w1) as H1.
  { unfold w1.
    assert (roomsKeep w (removeQueueEntry socketId
                           (upd_sockets (λ ss, ss ∖ {[socketId]}) w)).1) as H0.
    { etrans; [|apply roomSide_roomsKeep, untouched_roomSide, untouched_removeQueueEntry].
      done. }
    repeat (case_match; try done).
    etrans; [exact H0|]. apply roomSide_roomsKeep, roomSide_cancelReadyCheck. }
  etrans; [exact H1|]. etrans; [exact Hmark|]. by case_bool_decide.
Qed.

Lemma roomInv_handle e w :
  roomInv w → roomInv (handle SCORE_LIMIT randomUUID hashToken randomSeed e w).
Proof.
  intros Hinv. destruct e; simpl.
  - eapply roomInv_roomsKeep; [apply roomsKeep_connect|done].
  - eapply roomInv_roomsKeep; [apply roomSide_roomsKeep, roomSide_joinQueue|done].
  - eapply roomInv_roomsKeep;
      [apply roomSide_roomsKeep, untouched_roomSide, untouched_leaveQueue|done].
  - by apply roomInv_acceptReady.
  - eapply roomInv_roomsKeep; [apply roomsKeep_leaveMatch|done].
  - by apply roomInv_disconnect.
  - eapply roomInv_roomsKeep;
      [apply roomSide_roomsKeep, roomSide_tickQueueMatchmaking|done].
  - eapply roomInv_roomsKeep; [apply roomSide_roomsKeep, roomSide_fireTimer|done].
  - by apply roomInv_tickRoom.
  - eapply roomInv_roomsKeep; [|done].
    apply roomSide_roomsKeep, untouched_roomSide, untouched_finishRoomForSockets.
  - by apply roomInv_endRoomBegin.
Qed.

Lemma reachable_roomInv w :
  reachable SCORE_LIMIT randomUUID hashToken randomSeed w → roomInv w.
Proof.
  induction 1 as [|e w _ IH]; [apply roomInv_emptyWorld|by apply roomInv_handle].
Qed.
End Rooms.

(** * What holds in every state of the server *)

Lemma reachable_run events w :
  reachable 7 demoUUID demoHash demoSeed w →
  reachable 7 demoUUID demoHash demoSeed (run events w).
Proof.
  revert w. induction events as [|e events IH]; intros w Hw; [done|].
  apply IH. by constructor.
Qed.

Lemma reachable_anaQueued : reachable 7 demoUUID demoHash demoSeed anaQueued.
Proof. apply reachable_run. constructor. Qed.

Lemma reachable_anaAccepted : reachable 7 demoUUID demoHash demoSeed anaAccepted.
Proof. apply reachable_run, reachable_anaQueued. Qed.

Lemma reachable_playing : reachable 7 demoUUID demoHash demoSeed playing.
Proof. apply reachable_run, reachable_anaAccepted. Qed.

Lemma size_list_to_set_le (l : list string) :
  (size (list_to_set (C := gset string) l) ≤ length l)%nat.
Proof.
  induction l as [|x l IH].
  - by rewrite list_to_set_nil, size_empty.
  - rewrite list_to_set_cons, size_union_alt, size_singleton. cbn [length].
    pose proof (subseteq_size (list_to_set (C := gset string) l ∖ {[x]}) (list_to_set l)) as Hle.
    specialize (Hle ltac:(by apply subseteq_difference_l)). lia.
Qed.

Section Always.
Variable SCORE_LIMIT : Z.
Variable randomUUID : nat → string.
Variable hashToken : string → string.
Variable randomSeed : nat → Z.

(** X20: in every state of the server, a ready check that is pending has
    its timeout armed, due [READY_CHECK_MS + 80] ms after the ready check
    was made: no ready check waits for ever. *)
Theorem X20_pending_ready_check_has_its_timeout w id ref :
  reachable SCORE_LIMIT randomUUID hashToken randomSeed w →
  pendingReadyById w !! id = Some ref →
  ∃ ready handle,
    readies w !! ref = Some ready ∧ rd_id ready = id
    ∧ rd_timeoutHandle ready = Some handle
    ∧ timers w !! handle = Some (ref, rd_createdAt ready + (READY_CHECK_MS + 80)).
Proof.
  intros Hw Hpending. destruct (reachable_readyInv _ _ _ _ _ Hw) as (T1 & _).
  by apply T1.
Qed.

(** X21: in every state of the server, a timeout that is armed belongs to
    a ready check that is still pending: confirming or cancelling a ready
    check clears its timeout, every time. *)
Theorem X21_timeout_belongs_to_a_pending_ready_check w handle ref due :
  reachable SCORE_LIMIT randomUUID hashToken randomSeed w →
  timers w !! handle = Some (ref, due) →
  ∃ ready,
    readies w !! ref = Some ready ∧ rd_timeoutHandle ready = Some handle
    ∧ pendingReadyById w !! rd_id ready = Some ref.
Proof.
  intros Hw Htimer. destruct (reachable_readyInv _ _ _ _ _ Hw) as (_ & T2 & _).
  by destruct (T2 _ _ _ Htimer) as [_ Hready].
Qed.

(** X22: in every state of the server, [acceptReady] starts a match only
    when the answer is not a refusal and, with it, every member of the
    ready check has accepted; the ready check is pending no more. *)
Theorem X22_match_starts_when_everyone_has_accepted socketId payload now w :
  reachable SCORE_LIMIT randomUUID hashToken randomSeed w →
  rooms (acceptReady randomUUID socketId payload now w) ≠ rooms w →
  ∃ state ref ready,
    socketState w !! socketId = Some state
    ∧ pendingReadyById w !! rd_id ready = Some ref ∧ readies w !! ref = Some ready
    ∧ rr_accept payload ≠ Some false
    ∧ (∀ member, member ∈ rd_members ready →
         rdm_playerId member ∈ {[ ss_playerId state ]} ∪ rd_accepted ready)
    ∧ pendingReadyById (acceptReady randomUUID socketId payload now w) !! rd_id ready
      = None.
Proof.
  intros Hw. pose proof (reachable_readyInv _ _ _ _ _ Hw) as Hinv.
  unfold acceptReady.
  destruct (socketState w !! socketId) as [state|]; [|done].
  destruct (ss_pendingReadyId state) as [pendingReadyId|]; [|done].
  destruct (negb (truthyS (Some pendingReadyId))); [done|].
  destruct (pendingReadyById w !! default pendingReadyId (rr_matchId payload))
    as [ref|] eqn:Hpending; simpl; [|done].
  destruct (readies w !! ref) as [ready|] eqn:Hready; simpl; [|done].
  destruct (existsb _ (rd_members ready)) eqn:Hmember; simpl; [|done].
  case_bool_decide as Haccept.
  { intros Hrooms. exfalso. apply Hrooms.
    by destruct (roomSide_cancelReadyCheck randomUUID ref
                   "Un jugador rechazo el ready-check" true (Some (ss_playerId state))
                   now w) as (-> & _). }
  set (accepted := {[ ss_playerId state ]} ∪ rd_accepted ready) in *.
  set (w1 := updReady ref (withAccepted accepted) w) in *.
  match goal with
  | |- context [foldl ?f w1 (rd_members ready)] => set (w2 := foldl f w1 (rd_members ready))
  end.
  assert (untouched w1 w2) as Hq2
    by (apply untouched_foldl; intros; by case_bool_decide).
  destruct (size accepted <? length (rd_members ready))%nat eqn:Hsize.
  { intros Hrooms. exfalso. apply Hrooms.
    by destruct Hq2 as (_ & _ & _ & _ & _ & -> & _). }
  intros _. apply Nat.ltb_ge in Hsize.
  destruct Hinv as (T1 & _ & _ & _ & T6).
  destruct (T1 _ _ Hpending) as (ready0 & handle & Hready0 & Hid & _).
  assert (ready0 = ready) as -> by congruence.
  exists state, ref, ready. split_and!; try done.
  - by rewrite Hid.
  - assert (accepted ⊆ memberIds ready) as Hsub.
    { apply union_subseteq. split; [|by eapply T6].
      apply singleton_subseteq_l, elem_of_list_to_set. by apply member_of_ready. }
    assert (accepted = memberIds ready) as Hall.
    { apply set_subseteq_size_eq; [done|].
      etrans; [apply size_list_to_set_le|]. by rewrite length_fmap. }
    intros member Hin. fold accepted. rewrite Hall.
    apply elem_of_list_to_set. by apply list_elem_of_fmap_2.
  - destruct (readySide_createRoomFromReady (withAccepted accepted ready) now
                (clearPendingReadyAssociation ready
                   (upd_pendingReadyById (delete (rd_id ready))
                      (clearTimeout (rd_timeoutHandle ready) w2)))) as (_ & -> & _).
    destruct (untouched_clearPendingReadyAssociation ready
                (upd_pendingReadyById (delete (rd_id ready))
                   (clearTimeout (rd_timeoutHandle ready) w2))) as (_ & -> & _).
    simpl. apply lookup_delete_eq.
Qed.

(** X23: in every state of the server, [activeRooms] holds the rooms that
    have not ended, each under its own id, and no others: a room that has
    ended is out of reach of ticks and reconnections. *)
Theorem X23_active_rooms_are_the_rooms_not_ended w :
  reachable SCORE_LIMIT randomUUID hashToken randomSeed w →
  (∀ id ref, activeRooms w !! id = Some ref →
     ∃ room, rooms w !! ref = Some room ∧ room_id room = id ∧ room_ended room = false)
  ∧ (∀ ref room, rooms w !! ref = Some room → room_ended room = false →
       activeRooms w !! room_id room = Some ref).
Proof.
  intros Hw. destruct (reachable_roomInv _ _ _ _ _ Hw) as (R1 & R2 & _). by split.
Qed.

(** X24: in every state of the server, no two rooms have the same id, and
    no two ready checks: the ids are ["match-n"] and ["ready-n"] with [n]
    below the sequence counter, never given twice. *)
Theorem X24_ids_are_never_given_twice w :
  reachable SCORE_LIMIT randomUUID hashToken randomSeed w →
  (∀ ref1 ref2 room1 room2,
     rooms w !! ref1 = Some room1 → rooms w !! ref2 = Some room2 →
     room_id room1 = room_id room2 → ref1 = ref2)
  ∧ (∀ ref1 ref2 ready1 ready2,
       readies w !! ref1 = Some ready1 → readies w !! ref2 = Some ready2 →
       rd_id ready1 = rd_id ready2 → ref1 = ref2)
  ∧ (∀ ref room, rooms w !! ref = Some room →
       ∃ n, (n < roomSequence w)%nat ∧ room_id room = "match-" +:+ pretty n)
  ∧ (∀ ref ready, readies w !! ref = Some ready →
       ∃ n, (n < readySequence w)%nat ∧ rd_id ready = "ready-" +:+ pretty n).
Proof.
  intros Hw. destruct (reachable_roomInv _ _ _ _ _ Hw) as (_ & _ & R3 & R4).
  destruct (reachable_readyInv _ _ _ _ _ Hw) as (_ & _ & T3 & T5 & _). done.
Qed.
End Always.

(** * The properties at work in the run *)

(** Out of range, missing or not whole. *)
Example a_party_of_one_and_a_half state :
  qf_partySize (queueFields state oddRequest) = Fin (3 # 2)
  ∧ qf_maxPingMs (queueFields state oddRequest) = Fin 500
  ∧ qf_playlist (queueFields state oddRequest) = "ranked".
Proof. done. Qed.

(** Luis joins the queue where Ana waits; and what a party of one and a
    half would give. *)
Lemma X7_witness :
  (∃ size, qf_partySize (queueFields (theState "s2" anaQueued) oddRequest) = Fin size
           ∧ (1 <= size <= 2)%Q)
  ∧ ∃ entry,
      queueEntryBySocket
        (enqueueFromSocketState demoUUID "s2" (duelRequest "us east 1") 0 2000 anaQueued)
        !! "s2" = Some (getBucketKey entry, entry)
      ∧ qe_playlist entry = "duel" ∧ qe_partySize entry = 1%nat
      ∧ qe_maxPingMs entry = 220 ∧ qe_region entry = "us east ".
Proof.
  assert (socketState anaQueued !! "s2" = Some (theState "s2" anaQueued)) as Hstate
    by (vm_compute; reflexivity).
  destruct (X7_queue_fields_are_well_formed demoUUID "s2" 0 2000 anaQueued
              (theState "s2" anaQueued) Hstate) as [Hfields Hentry].
  split.
  - destruct (Hfields oddRequest) as (_ & Hsize & _). exact Hsize.
  - destruct (Hentry (duelRequest "us east 1"))
      as (entry & Hstored & Hplaylist & Hparty & Hping & Hregion & _).
    exists entry. split; [exact Hstored|].
    split; [exact Hplaylist|].
    split; [|split; [|exact Hregion]].
    + vm_compute in Hparty. injection Hparty as Hparty.
      apply Nat2Z.inj. exact Hparty.
    + vm_compute in Hping. injection Hping as Hping. exact Hping.
Defined.

Lemma X8_witness :
  let w' := enqueueFromSocketState demoUUID "s2" (duelRequest "us east 1") 0 2000 anaQueued in
  ∃ key entry bucket,
    queueEntryBySocket w' !! ss_socketId (theState "s2" anaQueued) = Some (key, entry)
    ∧ oget key (queueByBucket w') = Some bucket
    ∧ bucket ≡ₚ default [] (oget key (queueByBucket anaQueued)) ++ [entry]
    ∧ StronglySorted joinOrder bucket
    ∧ ∀ other, other ≠ key →
        oget other (queueByBucket w') = oget other (queueByBucket anaQueued).
Proof.
  apply (X8_bucket_in_join_order demoUUID "s2" (duelRequest "us east 1") 0 2000
           anaQueued (theState "s2" anaQueued)).
  vm_compute. reflexivity.
Defined.

Lemma X9_witness :
  let joined :=
    enqueueFromSocketState demoUUID "s2" (duelRequest "us east 1") 0 2000 anaQueued in
  let left := removeQueueEntry (ss_socketId (theState "s2" anaQueued)) joined in
  ∃ key entry,
    queueEntryBySocket joined !! ss_socketId (theState "s2" anaQueued) = Some (key, entry)
    ∧ ("q_" +:+ demoUUID (drawn anaQueued)
         ∉ qe_id <$> default [] (oget key (queueByBucket anaQueued)) →
       snd left = Some entry
       ∧ queueEntryBySocket (fst left)
         = delete (ss_socketId (theState "s2" anaQueued)) (queueEntryBySocket anaQueued)
       ∧ match default [] (oget key (queueByBucket anaQueued)) with
         | [] => oget key (queueByBucket (fst left)) = None
         | before =>
             ∃ bucket, oget key (queueByBucket (fst left)) = Some bucket ∧ bucket ≡ₚ before
         end
       ∧ ∀ other, other ≠ key →
           oget other (queueByBucket (fst left)) = oget other (queueByBucket anaQueued)).
Proof.
  apply (X9_join_then_leave demoUUID "s2" (duelRequest "us east 1") 0 2000
           anaQueued (theState "s2" anaQueued)).
  vm_compute. reflexivity.
Defined.

(** Ana, who left [match-1] 10 ms ago, comes back on a new connection. *)
Lemma X11_witness :
  let attempt :=
    tryReconnectToRoom "s3" (Some (Some "match-1", Some "rc_4")) 20010 anaKnocks in
  snd attempt = true
  ∧ ∃ member' state',
      memberAt (fst attempt) 0 (ss_playerId (theState "s3" anaKnocks)) = Some member'
      ∧ rm_socketId member' = Some "s3"
      ∧ rm_disconnectedAt member' = None
      ∧ rm_reconnectCount member' = rm_reconnectCount (anaIn anaKnocks) + 1
      ∧ rm_abandoned member' = rm_abandoned (anaIn anaKnocks)
      ∧ socketState (fst attempt) !! "s3" = Some state'
      ∧ ss_roomId state' = Some (room_id (theRoom anaKnocks))
      ∧ ss_slots state' = rm_slots (anaIn anaKnocks)
      ∧ ss_reconnect state' = Some (room_id (theRoom anaKnocks), "rc_4").
Proof.
  apply (X11_reconnection_succeeds "s3" "match-1" "rc_4" 20010 anaKnocks
           (theState "s3" anaKnocks) 0%nat (theRoom anaKnocks) (anaIn anaKnocks)).
  - vm_compute. reflexivity.
  - intros H. inversion H.
  - intros H. inversion H.
  - vm_compute. reflexivity.
  - vm_compute. reflexivity.
  - vm_compute. reflexivity.
  - vm_compute. reflexivity.
  - intros t Ht.
    assert (Hwas : rm_disconnectedAt (anaIn anaKnocks) = Some 20000)
      by (vm_compute; reflexivity).
    rewrite Hwas in Ht. injection Ht as <-. vm_compute. intros H. inversion H.
Defined.

(** Ana's connection drops during [match-1]. *)
Lemma X12_witness :
  let w' := markMemberDisconnected "s1" "Jugador desconectado" 20000 playing in
  ∃ member',
    memberAt w' 0 (ss_playerId (theState "s1" playing)) = Some member'
    ∧ rm_socketId member' = None
    ∧ (∀ t, rm_disconnectedAt (anaIn playing) = Some t → t ≠ 0 →
            rm_disconnectedAt member' = Some t)
    ∧ (rm_disconnectedAt (anaIn playing) = None
       ∨ rm_disconnectedAt (anaIn playing) = Some 0 →
       rm_disconnectedAt member' = Some 20000)
    ∧ rm_abandoned member' = rm_abandoned (anaIn playing)
    ∧ rm_reconnectToken member' = rm_reconnectToken (anaIn playing)
    ∧ rm_slots member' = rm_slots (anaIn playing).
Proof.
  apply (X12_disconnect_keeps_the_seat "s1" "Jugador desconectado" 20000 playing
           (theState "s1" playing) "match-1" 0%nat (theRoom playing) (anaIn playing)).
  - vm_compute. reflexivity.
  - vm_compute. reflexivity.
  - intros H. inversion H.
  - vm_compute. reflexivity.
  - vm_compute. reflexivity.
  - vm_compute. reflexivity.
Defined.

(** [match-1] ends at 30000, and Ana's connection is free again. *)
Lemma X13_witness :
  ss_roomId (theState "s1" (endRoom demoUUID demoHash 0 "fin" None 30000 playing)) = None
  ∧ ss_slots (theState "s1" (endRoom demoUUID demoHash 0 "fin" None 30000 playing)) = []
  ∧ ss_reconnect (theState "s1" (endRoom demoUUID demoHash 0 "fin" None 30000 playing))
    = None.
Proof.
  apply (X13_match_end_frees_the_connections demoUUID demoHash 0%nat "fin" None 30000
           playing (theRoom playing) (anaIn playing) "s1").
  - vm_compute. reflexivity.
  - vm_compute. reflexivity.
  - apply list_elem_of_In. vm_compute. auto.
  - vm_compute. reflexivity.
  - intros H. inversion H.
  - vm_compute. reflexivity.
Defined.

(** The tick that sees 7-3 on the board of [match-1] ends it. *)
Lemma X14_witness :
  let serverSeq := room_serverSeq (theRoom playing) + 1 in
  let outcome := tickRoom 7 demoUUID demoHash 0 (mkSnapshot (7, 3)) true 30000 playing in
  match snd (shouldEndRoom 7 (withSnapshot (mkSnapshot (7, 3)) serverSeq (theRoom playing))
               30000) with
  | Some decision =>
      ∃ payload record,
        snd outcome = Some payload
        ∧ me_reason payload = ed_reason decision
        ∧ me_winnerTeam payload
          = match ed_winner decision with
            | Some t => Some t
            | None => scoreWinner (snap_score (mkSnapshot (7, 3)))
            end
        ∧ me_score payload = snap_score (mkSnapshot (7, 3))
        ∧ matches (fst outcome) = matches playing ++ [record]
        ∧ mr_matchId record = room_id (theRoom playing)
        ∧ mr_winnerTeam record = me_winnerTeam payload
        ∧ activeRooms (fst outcome) = delete (room_id (theRoom playing)) (activeRooms playing)
        ∧ (room_ended <$> rooms (fst outcome) !! 0%nat) = Some true
  | None =>
      snd outcome = None
      ∧ matches (fst outcome) = matches playing
      ∧ activeRooms (fst outcome) = activeRooms playing
      ∧ (room_ended <$> rooms (fst outcome) !! 0%nat) = Some false
  end.
Proof.
  apply (X14_tick_ends_the_room_on_a_decision 7 demoUUID demoHash 0%nat (mkSnapshot (7, 3))
           true 30000 playing (theRoom playing)).
  - vm_compute. reflexivity.
  - vm_compute. reflexivity.
Defined.

(** Ana's token, presented without her player id under a new nickname. *)
Lemma X15_witness :
  ir_created
    (fst (getOrCreatePlayer demoUUID demoHash None (Some "01") (Some "Anita") 5 anaSignedUp))
  = false
  ∧ id_playerId
      (ir_player
         (fst (getOrCreatePlayer demoUUID demoHash None (Some "01") (Some "Anita") 5
                 anaSignedUp)))
    = "p_2"
  ∧ id_nickname
      (ir_player
         (fst (getOrCreatePlayer demoUUID demoHash None (Some "01") (Some "Anita") 5
                 anaSignedUp)))
    = "Anita".
Proof.
  destruct (X15_issued_token_brings_the_player_back demoUUID demoHash None None (Some "Ana")
              0 emptyWorld
              (fst (getOrCreatePlayer demoUUID demoHash None None (Some "Ana") 0 emptyWorld))
              anaSignedUp (Some "Anita") 5 None
              (fst (getOrCreatePlayer demoUUID demoHash None (Some "01") (Some "Anita") 5
                      anaSignedUp))
              (snd (getOrCreatePlayer demoUUID demoHash None (Some "01") (Some "Anita") 5
                      anaSignedUp)))
    as (Hcreated & _ & Hid & Hnickname & _).
  - vm_compute. reflexivity.
  - vm_compute. reflexivity.
  - vm_compute. reflexivity.
  - vm_compute. intros H. inversion H.
  - vm_compute. intros H. inversion H.
  - by right.
  - vm_compute. reflexivity.
  - split; [exact Hcreated|]. split; [exact Hid|exact Hnickname].
Defined.

(** Ana's first connection: no token, no player id. *)
Lemma X16_witness :
  let '(result, w') :=
    getOrCreatePlayer demoUUID demoHash None None (Some "Ana") 0 emptyWorld in
  ir_created result = true
  ∧ (∀ known, None = Some known → known ≠ "" → id_playerId (ir_player result) = known)
  ∧ id_rating (ir_player result) = Some DEFAULT_RATING
  ∧ id_games (ir_player result) = 0
  ∧ ∃ stored,
      playersById w' !! id_playerId (ir_player result) = Some stored
      ∧ publicPlayer stored = ir_player result
      ∧ pp_tokenHash stored = demoHash (ir_playerToken result)
      ∧ playerIdByTokenHash w' !! demoHash (ir_playerToken result)
        = Some (id_playerId (ir_player result)).
Proof.
  apply (X16_no_token_makes_a_new_account demoUUID demoHash None None (Some "Ana") 0
           emptyWorld).
  reflexivity.
Defined.

Lemma countsConsistent_anaSignedUp id player :
  playersById anaSignedUp !! id = Some player → countsConsistent player.
Proof.
  assert (playersById anaSignedUp
          = {[ "p_2" := mkPlayer "p_2" "h01" "Ana" (Some 1000) 0 0 0 0 0 0 ]}) as ->
    by (vm_compute; reflexivity).
  intros [_ <-]%lookup_singleton_Some. unfold countsConsistent. simpl. lia.
Qed.

(** The counters of the accounts, starting from Ana's new one. *)
Lemma X17_witness :
  (∀ record now id player,
     playersById (applyMatchResult demoUUID demoHash record now anaSignedUp) !! id
     = Some player →
     countsConsistent player)
  ∧ (∀ playerId playerToken nickname now id player,
       playersById (snd (getOrCreatePlayer demoUUID demoHash playerId playerToken
                           nickname now anaSignedUp)) !! id = Some player →
       countsConsistent player)
  ∧ (∀ playerId nickname now id player,
       playersById (updateNickname playerId nickname now anaSignedUp) !! id = Some player →
       countsConsistent player).
Proof.
  apply (X17_counters_stay_consistent demoUUID demoHash anaSignedUp).
  exact countsConsistent_anaSignedUp.
Defined.

(** The duel that Ana won is booked on top of her account. *)
Lemma X18_witness :
  let w' := applyMatchResult demoUUID demoHash demoRecord 30000 anaSignedUp in
  matches w' = matches anaSignedUp ++ [demoRecord]
  ∧ (∀ entry, entry ∈ mr_players demoRecord →
       ∃ stored,
         playersById w' !! rc_playerId entry = Some stored
         ∧ pp_rating stored = clampN (rc_ratingAfter entry) 100 4000
         ∧ pp_games stored
           = default 0 (pp_games <$> playersById anaSignedUp !! rc_playerId entry) + 1
         ∧ pp_wins stored
           = default 0 (pp_wins <$> playersById anaSignedUp !! rc_playerId entry)
             + match rc_result entry with Win => 1 | _ => 0 end
         ∧ pp_losses stored
           = default 0 (pp_losses <$> playersById anaSignedUp !! rc_playerId entry)
             + match rc_result entry with Loss => 1 | _ => 0 end
         ∧ pp_abandons stored
           = default 0 (pp_abandons <$> playersById anaSignedUp !! rc_playerId entry)
             + (if rc_abandoned entry then 1 else 0))
  ∧ (∀ id, id ∉ rc_playerId <$> mr_players demoRecord →
           playersById w' !! id = playersById anaSignedUp !! id).
Proof.
  apply (X18_applyMatchResult_books_the_match demoUUID demoHash demoRecord 30000
           anaSignedUp).
  - replace (rc_playerId <$> mr_players demoRecord) with ["ana"; "luis"]
      by (vm_compute; reflexivity).
    repeat constructor; rewrite ?list_elem_of_In; simpl; intros H;
      repeat (destruct H as [H|H]; [inversion H|]); exact H.
  - repeat constructor; intros H; inversion H.
Defined.

(** The ready check of Ana and Luis, out since 2000. *)
Lemma X20_witness :
  ∃ ready handle,
    readies anaAccepted !! 0%nat = Some ready ∧ rd_id ready = "ready-1"
    ∧ rd_timeoutHandle ready = Some handle
    ∧ timers anaAccepted !! handle
      = Some (0%nat, rd_createdAt ready + (READY_CHECK_MS + 80)).
Proof.
  apply (X20_pending_ready_check_has_its_timeout 7 demoUUID demoHash demoSeed anaAccepted
           "ready-1" 0%nat reachable_anaAccepted).
  vm_compute. reflexivity.
Defined.

Lemma X21_witness :
  ∃ ready,
    readies anaAccepted !! 0%nat = Some ready ∧ rd_timeoutHandle ready = Some 0%nat
    ∧ pendingReadyById anaAccepted !! rd_id ready = Some 0%nat.
Proof.
  apply (X21_timeout_belongs_to_a_pending_ready_check 7 demoUUID demoHash demoSeed
           anaAccepted 0%nat 0%nat 12080 reachable_anaAccepted).
  vm_compute. reflexivity.
Defined.

(** Luis accepts after Ana, and [match-1] starts. *)
Lemma X22_witness :
  ∃ state ref ready,
    socketState anaAccepted !! "s2" = Some state
    ∧ pendingReadyById anaAccepted !! rd_id ready = Some ref
    ∧ readies anaAccepted !! ref = Some ready
    ∧ rr_accept acceptIt ≠ Some false
    ∧ (∀ member, member ∈ rd_members ready →
         rdm_playerId member ∈ {[ ss_playerId state ]} ∪ rd_accepted ready)
    ∧ pendingReadyById (acceptReady demoUUID "s2" acceptIt 12050 anaAccepted) !! rd_id ready
      = None.
Proof.
  apply (X22_match_starts_when_everyone_has_accepted 7 demoUUID demoHash demoSeed "s2"
           acceptIt 12050 anaAccepted reachable_anaAccepted).
  assert (rooms anaAccepted = []) as -> by (vm_compute; reflexivity).
  assert (length (rooms (acceptReady demoUUID "s2" acceptIt 12050 anaAccepted)) = 1%nat)
    as Hone by (vm_compute; reflexivity).
  intros Hnone. rewrite Hnone in Hone. inversion Hone.
Defined.

Lemma X23_witness :
  (∀ id ref, activeRooms playing !! id = Some ref →
     ∃ room, rooms playing !! ref = Some room ∧ room_id room = id
             ∧ room_ended room = false)
  ∧ (∀ ref room, rooms playing !! ref = Some room → room_ended room = false →
       activeRooms playing !! room_id room = Some ref).
Proof.
  apply (X23_active_rooms_are_the_rooms_not_ended 7 demoUUID demoHash demoSeed playing).
  exact reachable_playing.
Defined.

Lemma X24_witness :
  (∀ ref1 ref2 room1 room2,
     rooms playing !! ref1 = Some room1 → rooms playing !! ref2 = Some room2 →
     room_id room1 = room_id room2 → ref1 = ref2)
  ∧ (∀ ref1 ref2 ready1 ready2,
       readies playing !! ref1 = Some ready1 → readies playing !! ref2 = Some ready2 →
       rd_id ready1 = rd_id ready2 → ref1 = ref2)
  ∧ (∀ ref room, rooms playing !! ref = Some room →
       ∃ n, (n < roomSequence playing)%nat ∧ room_id room = "match-" +:+ pretty n)
  ∧ (∀ ref ready, readies playing !! ref = Some ready →
       ∃ n, (n < readySequence playing)%nat ∧ rd_id ready = "ready-" +:+ pretty n).
Proof.
  apply (X24_ids_are_never_given_twice 7 demoUUID demoHash demoSeed playing).
  exact reachable_playing.
Defined.

(** * Back in the queue after a cancelled ready check *)

Global Instance sessionsKeep_refl : Reflexive sessionsKeep.
Proof. by intros w. Qed.

Global Instance sessionsKeep_trans : Transitive sessionsKeep.
Proof.
  intros w1 w2 w3 (Hp & Hs) (Hp' & Hs'). unfold sessionsKeep. by rewrite Hp', Hs'.
Qed.

Lemma sessionsKeep_foldl {A} (f : World → A → World) (l : list A) (w : World) :
  (∀ w a, sessionsKeep w (f w a)) → sessionsKeep w (foldl f w l).
Proof.
  intros Hf. revert w. induction l as [|a l IH]; intros w; simpl; [done|].
  etrans; [apply Hf|apply IH].
Qed.

Lemma stateTag_alter (f : SocketState → SocketState) socketId
    (states : gmap string SocketState) :
  (∀ state, stateTag (f state) = stateTag state) →
  stateTag <$> alter f socketId states = stateTag <$> states.
Proof.
  intros Hf. apply map_eq. intros s. rewrite !lookup_fmap.
  destruct (decide (s = socketId)) as [->|Hne].
  - rewrite lookup_alter_eq. destruct (states !! socketId); simpl; [|done]. by rewrite Hf.
  - by rewrite lookup_alter_ne.
Qed.

Lemma sessionsKeep_updState socketId f w :
  (∀ state, stateTag (f state) = stateTag state) →
  sessionsKeep w (updState socketId f w).
Proof. intros Hf. split; [done|]. simpl. by apply stateTag_alter. Qed.

Lemma sessionsKeep_lookup w w' socketId state :
  sessionsKeep w w' → socketState w !! socketId = Some state →
  ∃ state', socketState w' !! socketId = Some state' ∧ stateTag state' = stateTag state.
Proof.
  intros [_ Htags] Hstate.
  assert ((stateTag <$> socketState w') !! socketId = Some (stateTag state)) as Hlook
    by (rewrite Htags, lookup_fmap, Hstate; reflexivity).
  rewrite lookup_fmap in Hlook.
  destruct (socketState w' !! socketId) as [state'|]; [|done].
  simpl in Hlook. exists state'. split; [done|]. congruence.
Qed.

Section Requeue.
Variable randomUUID : nat → string.

Lemma sessionsKeep_removeQueueEntry socketId w :
  sessionsKeep w (fst (removeQueueEntry socketId w)).
Proof. unfold removeQueueEntry. repeat (case_match; simplify_eq/=; try done). Qed.

Lemma sessionsKeep_reportPositions now total index bucket w :
  sessionsKeep w (reportPositions now total index bucket w).
Proof.
  revert index w. induction bucket as [|entry rest IH]; intros index w; simpl; [done|].
  etrans; [|apply IH]. by case_bool_decide.
Qed.

Lemma sessionsKeep_updateQueuePositions bucketKey now w :
  sessionsKeep w (updateQueuePositions bucketKey now w).
Proof.
  unfold updateQueuePositions. destruct (oget _ _); [|done].
  etrans; [|apply sessionsKeep_reportPositions]. done.
Qed.

Lemma sessionsKeep_enqueueFromSocketState sid payload priorityMs now w :
  sessionsKeep w (enqueueFromSocketState randomUUID sid payload priorityMs now w).
Proof.
  unfold enqueueFromSocketState. destruct (socketState w !! sid) as [state|]; [|done].
  cbv zeta. unfold createQueueEntry.
  etrans; [|apply sessionsKeep_updateQueuePositions].
  match goal with
  | |- sessionsKeep w ?w' =>
      assert (playerSocket w' = playerSocket w) as Hp by frame_step;
      assert (socketState w'
              = socketState (updState sid
                   (λ s, set_ss_inputMode (normalizeInputMode (qp_inputMode payload))
                           (set_ss_region (normalizeRegion (qp_region payload))
                              (set_ss_playlist (normalizePlaylist (qp_playlist payload))
                                 (set_ss_partySize
                                    (Z.to_nat
                                       (clamp (clamp (numberOr (qp_partySize payload) 1) 1 4) 1
                                          (Z.of_nat (maxPartySize
                                             (getPlaylistConfig
                                                (normalizePlaylist (qp_playlist payload)))))))
                                    (set_ss_nickname
                                       (sanitizeNickname
                                          (Some (default (ss_nickname state)
                                                   (qp_nickname payload)))) s))))) w))
        as Hs by frame_step
  end.
  split; [done|]. rewrite Hs. simpl. by apply stateTag_alter.
Qed.

Lemma sessionsKeep_clearPendingReadyAssociation ready w :
  sessionsKeep w (clearPendingReadyAssociation ready w).
Proof.
  unfold clearPendingReadyAssociation. apply sessionsKeep_foldl. intros w0 member.
  apply sessionsKeep_updState. intros state. by case_bool_decide.
Qed.

Lemma sessionsKeep_requeueMember ready acceptedOnly excludePlayerId now w member :
  sessionsKeep w (requeueMember randomUUID ready acceptedOnly excludePlayerId now w member).
Proof.
  unfold requeueMember. repeat (case_match; try done).
  etrans; [apply sessionsKeep_removeQueueEntry|apply sessionsKeep_enqueueFromSocketState].
Qed.

Lemma idle_sessionsKeep socketId w w' : sessionsKeep w w' → idle socketId w → idle socketId w'.
Proof.
  intros Hkeep (state & Hstate & Hown & Hroom).
  destruct (sessionsKeep_lookup _ _ _ _ Hkeep Hstate) as (state' & Hstate' & Htag).
  exists state'. unfold stateTag in Htag. injection Htag as Hsid _ Hrid.
  split_and!; [done|congruence|by rewrite Hrid].
Qed.

Lemma removeQueueEntry_entries socketId w :
  queueEntryBySocket (fst (removeQueueEntry socketId w))
  = delete socketId (queueEntryBySocket w)
  ∧ socketState (fst (removeQueueEntry socketId w)) = socketState w.
Proof.
  unfold removeQueueEntry.
  destruct (queueEntryBySocket w !! socketId) as [[key entry]|] eqn:Hentry; simpl.
  - repeat (case_match; simplify_eq/=; try done).
  - by rewrite delete_id.
Qed.

(** One turn of the second loop of [cancelReadyCheck], seen from the
    connection [socketId]. *)
Lemma requeueMember_keeps ready acceptedOnly excludePlayerId now w member socketId :
  idle socketId w → requeued ready now socketId w →
  requeued ready now socketId
    (requeueMember randomUUID ready acceptedOnly excludePlayerId now w member).
Proof.
  intros (own & Hown & Hname & _) Hqueued. unfold requeueMember.
  case_bool_decide; [done|].
  destruct (acceptedOnly && _); [done|].
  destruct (playerSocket w !! rdm_playerId member) as [current|]; [|done].
  destruct (negb (truthyS (Some current))); [done|].
  destruct (socketState w !! current) as [state|] eqn:Hstate; [|done].
  destruct (truthyS (ss_roomId state)); [done|].
  destruct (removeQueueEntry_entries current w) as [Hentries Hstates].
  rewrite <- Hstates in Hstate.
  destruct (enqueueFromSocketState_maps randomUUID current
              {| qp_nickname := Some (rdm_nickname member);
                 qp_partySize := Some (Z.of_nat (rdm_partySize member));
                 qp_playlist := Some (rd_playlist ready);
                 qp_region := Some (rd_region ready);
                 qp_inputMode := Some (rdm_inputMode member); qp_maxPingMs := None |}
              QUEUE_REQUEUE_PRIORITY_MS now (fst (removeQueueEntry current w)) state Hstate)
    as (entry & Hmap & _ & _ & Hsocket & _ & _ & _ & _ & Hjoined & Hplaylist & Hregion & _).
  cbv zeta in Hmap. unfold requeued. rewrite Hmap.
  destruct (decide (ss_socketId state = socketId)) as [Hsame|Hother].
  - rewrite Hsame, lookup_insert_eq. eexists _, entry. split_and!; try done; congruence.
  - rewrite lookup_insert_ne by done. rewrite Hentries.
    rewrite lookup_delete_ne; [done|].
    intros ->. rewrite Hstates, Hown in Hstate. congruence.
Qed.

Lemma requeueMember_requeues ready acceptedOnly excludePlayerId now w member socketId :
  idle socketId w →
  playerSocket w !! rdm_playerId member = Some socketId → socketId ≠ "" →
  Some (rdm_playerId member) ≠ excludePlayerId →
  (acceptedOnly = true → rdm_playerId member ∈ rd_accepted ready) →
  requeued ready now socketId
    (requeueMember randomUUID ready acceptedOnly excludePlayerId now w member).
Proof.
  intros (own & Hown & Hname & Hroom) Hsocket Hreal Hexclude Haccepted.
  unfold requeueMember.
  rewrite bool_decide_eq_false_2 by done.
  assert (acceptedOnly && negb (bool_decide (rdm_playerId member ∈ rd_accepted ready))
          = false) as ->.
  { destruct acceptedOnly; [|done]. simpl.
    by rewrite bool_decide_eq_true_2 by auto. }
  rewrite Hsocket.
  assert (truthyS (Some socketId) = true) as ->
    by (unfold truthyS; by rewrite (proj2 (String.eqb_neq socketId ""))).
  simpl negb. cbv iota. rewrite Hown, Hroom.
  destruct (removeQueueEntry_entries socketId w) as [Hentries Hstates].
  rewrite <- Hstates in Hown.
  destruct (enqueueFromSocketState_maps randomUUID socketId
              {| qp_nickname := Some (rdm_nickname member);
                 qp_partySize := Some (Z.of_nat (rdm_partySize member));
                 qp_playlist := Some (rd_playlist ready);
                 qp_region := Some (rd_region ready);
                 qp_inputMode := Some (rdm_inputMode member); qp_maxPingMs := None |}
              QUEUE_REQUEUE_PRIORITY_MS now (fst (removeQueueEntry socketId w)) own Hown)
    as (entry & Hmap & _ & _ & Hsocket' & _ & _ & _ & _ & Hjoined & Hplaylist & Hregion & _).
  cbv zeta in Hmap. unfold requeued. rewrite Hmap, Hname, lookup_insert_eq.
  eexists _, entry. split_and!; try done; congruence.
Qed.

Lemma requeue_loop_keeps ready acceptedOnly excludePlayerId now members w socketId :
  idle socketId w → requeued ready now socketId w →
  requeued ready now socketId
    (foldl (requeueMember randomUUID ready acceptedOnly excludePlayerId now) w members).
Proof.
  revert w. induction members as [|member members IH]; intros w Hidle Hqueued; [done|].
  simpl. apply IH.
  - eapply idle_sessionsKeep; [apply sessionsKeep_requeueMember|done].
  - by apply requeueMember_keeps.
Qed.

Lemma requeue_loop_requeues ready acceptedOnly excludePlayerId now members w member
    socketId :
  member ∈ members → idle socketId w →
  playerSocket w !! rdm_playerId member = Some socketId → socketId ≠ "" →
  Some (rdm_playerId member) ≠ excludePlayerId →
  (acceptedOnly = true → rdm_playerId member ∈ rd_accepted ready) →
  requeued ready now socketId
    (foldl (requeueMember randomUUID ready acceptedOnly excludePlayerId now) w members).
Proof.
  intros Hin. revert w.
  induction Hin as [member members|member other members Hin IH];
    intros w Hidle Hsocket Hreal Hexclude Haccepted; simpl.
  - apply requeue_loop_keeps.
    + eapply idle_sessionsKeep; [apply sessionsKeep_requeueMember|done].
    + by apply requeueMember_requeues.
  - pose proof (sessionsKeep_requeueMember ready acceptedOnly excludePlayerId now w other)
      as Hkeep.
    apply IH; try done.
    + by eapply idle_sessionsKeep.
    + destruct Hkeep as [-> _]. done.
Qed.
End Requeue.

(** X25.  When a pending ready check is cancelled, a member that is to go
    back (not the player left out and, if only those who accepted go back,
    one who accepted) is in the queue again afterwards, provided its
    player's connection is known and in no room: the connection has an
    entry whose join time is [QUEUE_REQUEUE_PRIORITY_MS] before the
    cancellation, and whose playlist and region are what
    [normalizePlaylist] and [normalizeRegion] make of the playlist and the
    region of the ready check.  That need not be the region of the ready
    check itself: normalised once more, ["us east "] becomes ["us east"].
    The ready check is pending no more. *)
Theorem X25_cancelled_ready_check_requeues_its_members randomUUID ref reason acceptedOnly
    excludePlayerId now w ready member socketId state :
  readies w !! ref = Some ready → is_Some (pendingReadyById w !! rd_id ready) →
  member ∈ rd_members ready →
  Some (rdm_playerId member) ≠ excludePlayerId →
  (acceptedOnly = true → rdm_playerId member ∈ rd_accepted ready) →
  playerSocket w !! rdm_playerId member = Some socketId → socketId ≠ "" →
  socketState w !! socketId = Some state → ss_socketId state = socketId →
  truthyS (ss_roomId state) = false →
  let w' := cancelReadyCheck randomUUID ref reason acceptedOnly excludePlayerId now w in
  pendingReadyById w' !! rd_id ready = None
  ∧ ∃ key entry,
      queueEntryBySocket w' !! socketId = Some (key, entry)
      ∧ qe_socketId entry = socketId
      ∧ qe_joinedAt entry = now - QUEUE_REQUEUE_PRIORITY_MS
      ∧ qe_playlist entry = normalizePlaylist (Some (rd_playlist ready))
      ∧ qe_region entry = normalizeRegion (Some (rd_region ready)).
Proof.
  intros Hready [pending Hpending] Hin Hexclude Haccepted Hsocket Hreal Hstate Hname Hroom w'.
  subst w'. unfold cancelReadyCheck. rewrite Hready, Hpending.
  match goal with
  | |- context [foldl (requeueMember _ _ _ _ _) ?w0 _] => set (w3 := w0)
  end.
  assert (sessionsKeep w w3) as Hkeep.
  { unfold w3. etrans; [|apply sessionsKeep_foldl; intros; by case_bool_decide].
    etrans; [|apply sessionsKeep_clearPendingReadyAssociation].
    by destruct (rd_timeoutHandle ready). }
  assert (pendingReadyById w3 = delete (rd_id ready) (pendingReadyById w)) as Hgone.
  { unfold w3. rewrite (foldl_frame pendingReadyById); [|intros; by case_bool_decide].
    destruct (untouched_clearPendingReadyAssociation ready
                (upd_pendingReadyById (delete (rd_id ready))
                   (clearTimeout (rd_timeoutHandle ready) w))) as (_ & -> & _).
    by destruct (rd_timeoutHandle ready). }
  split.
  - destruct (untouched_foldl (requeueMember randomUUID ready acceptedOnly excludePlayerId now)
                (rd_members ready) w3) as (_ & -> & _).
    { intros. apply untouched_requeueMember. }
    rewrite Hgone. apply lookup_delete_eq.
  - apply (requeue_loop_requeues randomUUID ready acceptedOnly excludePlayerId now
             (rd_members ready) w3 member socketId); try done.
    + eapply idle_sessionsKeep; [exact Hkeep|]. by exists state.
    + destruct Hkeep as [-> _]. done.
Qed.

(** The ready check of Ana and Luis, made for the region ["us east "],
    runs out at 12080: Ana, who accepted, is back in the queue as if she
    had joined at 80, under the region ["us east"]. *)
Lemma X25_witness :
  let w' := cancelReadyCheck demoUUID 0 "Ready-check expiro" true None 12080 anaAccepted in
  pendingReadyById w' !! rd_id (theReady anaAccepted) = None
  ∧ ∃ key entry,
      queueEntryBySocket w' !! "s1" = Some (key, entry)
      ∧ qe_socketId entry = "s1"
      ∧ qe_joinedAt entry = 12080 - QUEUE_REQUEUE_PRIORITY_MS
      ∧ qe_playlist entry = normalizePlaylist (Some (rd_playlist (theReady anaAccepted)))
      ∧ qe_region entry = normalizeRegion (Some (rd_region (theReady anaAccepted))).
Proof.
  apply (X25_cancelled_ready_check_requeues_its_members demoUUID 0%nat "Ready-check expiro"
           true None 12080 anaAccepted (theReady anaAccepted) (anaInvited anaAccepted) "s1"
           (theState "s1" anaAccepted)).
  - vm_compute. reflexivity.
  - exists 0%nat. vm_compute. reflexivity.
  - apply list_elem_of_In. vm_compute. auto.
  - intros H. inversion H.
  - intros _. replace (rd_accepted (theReady anaAccepted)) with ({[ "ana" ]} : gset string)
      by (vm_compute; reflexivity).
    replace (rdm_playerId (anaInvited anaAccepted)) with "ana" by (vm_compute; reflexivity).
    by apply elem_of_singleton.
  - vm_compute. reflexivity.
  - intros H. inversion H.
  - vm_compute. reflexivity.
  - vm_compute. reflexivity.
  - vm_compute. reflexivity.
Defined.

(** * The queue is in order *)

Global Instance queueKeep_refl : Reflexive queueKeep.
Proof. intros w. by split_and!. Qed.

Global Instance queueKeep_trans : Transitive queueKeep.
Proof.
  intros w1 w2 w3 (Hb & He & Hd & Hn) (Hb' & He' & Hd' & Hn').
  split_and!.
  - intros key. by rewrite Hb', Hb.
  - by rewrite He', He.
  - lia.
  - by rewrite Hn', Hn.
Qed.

Lemma queueKeep_foldl {A} (f : World → A → World) (l : list A) (w : World) :
  (∀ w a, queueKeep w (f w a)) → queueKeep w (foldl f w l).
Proof.
  intros Hf. revert w. induction l as [|a l IH]; intros w; simpl; [done|].
  etrans; [apply Hf|apply IH].
Qed.

(** The steps that do not touch the queue at all. *)
Lemma queueKeep_same w w' :
  queueByBucket w' = queueByBucket w → queueEntryBySocket w' = queueEntryBySocket w →
  (drawn w ≤ drawn w')%nat →
  ss_socketId <$> socketState w' = ss_socketId <$> socketState w →
  queueKeep w w'.
Proof. intros Hb He Hd Hn. split_and!; try done. intros key. unfold bucketOf. by rewrite Hb. Qed.

Lemma names_alter (f : SocketState → SocketState) socketId (states : gmap string SocketState) :
  (∀ state, ss_socketId (f state) = ss_socketId state) →
  ss_socketId <$> alter f socketId states = ss_socketId <$> states.
Proof.
  intros Hf. apply map_eq. intros s. rewrite !lookup_fmap.
  destruct (decide (s = socketId)) as [->|Hne].
  - rewrite lookup_alter_eq. destruct (states !! socketId); simpl; [|done]. by rewrite Hf.
  - by rewrite lookup_alter_ne.
Qed.

Lemma queueKeep_updState socketId f w :
  (∀ state, ss_socketId (f state) = ss_socketId state) →
  queueKeep w (updState socketId f w).
Proof. intros Hf. apply queueKeep_same; try done. simpl. by apply names_alter. Qed.

Lemma names_lookup w w' socketId state' :
  ss_socketId <$> socketState w' = ss_socketId <$> socketState w →
  socketState w' !! socketId = Some state' →
  ∃ state, socketState w !! socketId = Some state ∧ ss_socketId state = ss_socketId state'.
Proof.
  intros Hnames Hstate'.
  assert ((ss_socketId <$> socketState w) !! socketId = Some (ss_socketId state')) as Hlook
    by (rewrite <- Hnames, lookup_fmap, Hstate'; reflexivity).
  rewrite lookup_fmap in Hlook.
  destruct (socketState w !! socketId) as [state|]; [|done].
  simpl in Hlook. exists state. split; [done|]. congruence.
Qed.

Lemma queueInv_queueKeep randomUUID w w' :
  queueKeep w w' → queueInv randomUUID w → queueInv randomUUID w'.
Proof.
  intros (Hb & He & Hd & Hn) (Q1 & Q2 & Q3 & Q4 & Q5).
  unfold queueInv. rewrite He. split_and!.
  - intros s key e Hentry. destruct (Q1 _ _ _ Hentry) as [Hs Hin].
    split; [done|]. by rewrite Hb.
  - intros key e Hin. apply Q2. by rewrite <- Hb.
  - intros key. rewrite Hb. apply Q3.
  - intros key e Hin. rewrite Hb in Hin. destruct (Q4 _ _ Hin) as (n & Hlt & Hid).
    exists n. split; [lia|done].
  - intros s state' Hstate'.
    destruct (names_lookup _ _ _ _ Hn Hstate') as (state & Hstate & <-). by eapply Q5.
Qed.

Lemma queueInv_emptyWorld randomUUID : queueInv randomUUID emptyWorld.
Proof.
  unfold queueInv, bucketOf. simpl. split_and!.
  - intros s key e Hentry. by rewrite lookup_empty in Hentry.
  - by intros key e ?%elem_of_nil.
  - intros key. constructor.
  - by intros key e ?%elem_of_nil.
  - intros s state Hstate. by rewrite lookup_empty in Hstate.
Qed.

(** ** Leaving the queue *)

Lemma removeFirstId_elem (id : string) (bucket : list QueueEntry) (e : QueueEntry) :
  NoDup (qe_id <$> bucket) →
  e ∈ removeFirstId id bucket ↔ e ∈ bucket ∧ qe_id e ≠ id.
Proof.
  induction bucket as [|x bucket IH]; simpl; intros Hnodup.
  - split; [by intros ?%elem_of_nil|by intros [?%elem_of_nil _]].
  - apply NoDup_cons in Hnodup as [Hx Hnodup].
    destruct (String.eqb_spec (qe_id x) id) as [<-|Hne].
    + split.
      * intros Hin. split; [by apply elem_of_cons; right|].
        intros Hsame. apply Hx. rewrite <- Hsame. by apply list_elem_of_fmap_2.
      * intros [[->|Hin]%elem_of_cons Hid]; done.
    + rewrite !elem_of_cons, IH by done. split.
      * intros [->|[Hin Hid]]; [split; [by left|done]|split; [by right|done]].
      * intros [[->|Hin] Hid]; [by left|by right].
Qed.

Lemma removeFirstId_NoDup (id : string) (bucket : list QueueEntry) :
  NoDup (qe_id <$> bucket) → NoDup (qe_id <$> removeFirstId id bucket).
Proof.
  induction bucket as [|x bucket IH]; simpl; intros Hnodup; [done|].
  apply NoDup_cons in Hnodup as [Hx Hnodup].
  destruct (String.eqb (qe_id x) id); [done|].
  simpl. apply NoDup_cons. split; [|by apply IH].
  intros (e & Hid & Hin)%list_elem_of_fmap.
  apply removeFirstId_elem in Hin as [Hin _]; [|done].
  apply Hx. rewrite Hid. by apply list_elem_of_fmap_2.
Qed.

Lemma bucketOf_oset key key' bucket w :
  bucketOf key' (upd_queueByBucket (oset key bucket) w)
  = if decide (key' = key) then bucket else bucketOf key' w.
Proof.
  unfold bucketOf. simpl. destruct (decide (key' = key)) as [->|Hne].
  - by rewrite oget_oset.
  - by rewrite oget_oset_ne.
Qed.

Lemma bucketOf_odelete key key' w :
  bucketOf key' (upd_queueByBucket (odelete key) w)
  = if decide (key' = key) then [] else bucketOf key' w.
Proof.
  unfold bucketOf. simpl. destruct (decide (key' = key)) as [->|Hne].
  - by rewrite oget_odelete.
  - by rewrite oget_odelete_ne.
Qed.

(** What [removeQueueEntry] does to the queue. *)
Lemma removeQueueEntry_queue socketId w :
  let w' := fst (removeQueueEntry socketId w) in
  queueEntryBySocket w' = delete socketId (queueEntryBySocket w)
  ∧ drawn w' = drawn w ∧ socketState w' = socketState w
  ∧ ∀ key',
      bucketOf key' w'
      = match queueEntryBySocket w !! socketId with
        | Some (key, entry) =>
            if decide (key' = key) then removeFirstId (qe_id entry) (bucketOf key w)
            else bucketOf key' w
        | None => bucketOf key' w
        end.
Proof.
  unfold removeQueueEntry.
  destruct (queueEntryBySocket w !! socketId) as [[key entry]|] eqn:Hentry; simpl.
  - split_and!.
    all: try (repeat (case_match; simplify_eq/=; try done); fail).
    intros key'.
    destruct (oget key (queueByBucket w)) as [bucket|] eqn:Hbucket.
    + assert (bucketOf key w = bucket) as -> by (unfold bucketOf; by rewrite Hbucket).
      destruct (length (removeFirstId (qe_id entry) bucket) =? 0)%nat eqn:Hlen.
      * apply Nat.eqb_eq, nil_length_inv in Hlen. rewrite Hlen.
        apply (bucketOf_odelete key key' w).
      * apply (bucketOf_oset key key' (removeFirstId (qe_id entry) bucket) w).
    + assert (bucketOf key w = []) as -> by (unfold bucketOf; by rewrite Hbucket).
      apply (bucketOf_odelete key key' w).
  - by rewrite delete_id.
Qed.

Lemma queueInv_removeQueueEntry randomUUID socketId w :
  queueInv randomUUID w → queueInv randomUUID (fst (removeQueueEntry socketId w)).
Proof.
  intros (Q1 & Q2 & Q3 & Q4 & Q5).
  destruct (removeQueueEntry_queue socketId w) as (He & Hd & Hs & Hb).
  unfold queueInv. rewrite He, Hd, Hs.
  destruct (queueEntryBySocket w !! socketId) as [[key entry]|] eqn:Hentry.
  - destruct (Q1 _ _ _ Hentry) as [Hown Hin].
    assert (Hleft : ∀ key' e, e ∈ bucketOf key' (fst (removeQueueEntry socketId w)) ↔
                              e ∈ bucketOf key' w ∧ qe_socketId e ≠ socketId).
    { intros key' e. rewrite Hb. destruct (decide (key' = key)) as [->|Hne].
      - rewrite removeFirstId_elem by apply Q3. split.
        + intros [He' Hid]. split; [done|]. intros Hsame.
          pose proof (Q2 _ _ He') as Hmap. rewrite Hsame, Hentry in Hmap. congruence.
        + intros [He' Hsock]. split; [done|]. intros Hid. apply Hsock.
          assert (e = entry) as ->; [|done].
          pose proof (Q3 key) as Hnodup.
          apply list_elem_of_lookup in He' as [i Hi], Hin as [j Hj].
          assert (i = j) as ->; [|congruence].
          eapply NoDup_lookup; [exact Hnodup| |];
            rewrite list_lookup_fmap; [by rewrite Hi|by rewrite Hj, Hid].
      - split; [|by intros [? _]]. intros He'. split; [done|]. intros Hsame.
        pose proof (Q2 _ _ He') as Hmap. rewrite Hsame, Hentry in Hmap. congruence. }
    split_and!.
    + intros s key' e [Hne Hold]%lookup_delete_Some.
      destruct (Q1 _ _ _ Hold) as [Hs' Hin']. split; [done|].
      apply Hleft. split; [done|]. congruence.
    + intros key' e [Hin' Hsock]%Hleft. rewrite lookup_delete_ne by done. by apply Q2.
    + intros key'. rewrite Hb. destruct (decide (key' = key)) as [->|Hne]; [|apply Q3].
      apply removeFirstId_NoDup, Q3.
    + intros key' e [Hin' _]%Hleft. by eapply Q4.
    + done.
  - rewrite delete_id by done. split_and!; try done.
    + intros s key e Hold. rewrite Hb. by apply Q1.
    + intros key e. rewrite Hb. apply Q2.
    + intros key. rewrite Hb. apply Q3.
    + intros key e. rewrite Hb. apply Q4.
Qed.

(** ** Joining the queue *)

Lemma reportPositions_drawn now total index bucket w :
  drawn (reportPositions now total index bucket w) = drawn w.
Proof.
  revert index w. induction bucket as [|entry rest IH]; intros index w; simpl; [done|].
  rewrite IH. by case_bool_decide.
Qed.

Lemma updateQueuePositions_drawn bucketKey now w :
  drawn (updateQueuePositions bucketKey now w) = drawn w.
Proof.
  unfold updateQueuePositions. destruct (oget _ _); [|done].
  by rewrite reportPositions_drawn.
Qed.

Lemma enqueueFromSocketState_drawn randomUUID sid payload priorityMs now w state :
  socketState w !! sid = Some state →
  drawn (enqueueFromSocketState randomUUID sid payload priorityMs now w) = S (drawn w).
Proof.
  intros Hstate. unfold enqueueFromSocketState. rewrite Hstate. cbv zeta.
  unfold createQueueEntry. rewrite updateQueuePositions_drawn. frame_step.
Qed.

Lemma names_of_tags (states states' : gmap string SocketState) :
  stateTag <$> states' = stateTag <$> states →
  ss_socketId <$> states' = ss_socketId <$> states.
Proof.
  intros Htags.
  assert (∀ m : gmap string SocketState,
            ss_socketId <$> m = (λ tag, fst (fst tag)) <$> (stateTag <$> m)) as Hvia.
  { intros m. rewrite <- map_fmap_compose. done. }
  by rewrite !Hvia, Htags.
Qed.

Lemma sort_by_elem (cmp : QueueEntry → QueueEntry → Z) (l : list QueueEntry) e :
  e ∈ sort_by cmp l ↔ e ∈ l.
Proof. by rewrite (sort_by_Permutation cmp l). Qed.

Section QueueFacts.
Variable randomUUID : nat → string.
Hypothesis randomUUID_inj : ∀ n m, randomUUID n = randomUUID m → n = m.

Lemma queueInv_enqueueFromSocketState sid payload priorityMs now w :
  queueInv randomUUID w → queueEntryBySocket w !! sid = None →
  queueInv randomUUID (enqueueFromSocketState randomUUID sid payload priorityMs now w).
Proof.
  intros Hinv Hnone.
  destruct (socketState w !! sid) as [state|] eqn:Hstate;
    [|unfold enqueueFromSocketState; by rewrite Hstate].
  destruct Hinv as (Q1 & Q2 & Q3 & Q4 & Q5).
  pose proof (Q5 _ _ Hstate) as Hname.
  destruct (enqueueFromSocketState_maps randomUUID sid payload priorityMs now w state Hstate)
    as (entry & Hmap & Hbuckets & Hid & Hsocket & _).
  cbv zeta in Hmap, Hbuckets. rewrite Hname in Hmap, Hsocket.
  pose proof (enqueueFromSocketState_drawn randomUUID sid payload priorityMs now w state
                Hstate) as Hdrawn.
  destruct (sessionsKeep_enqueueFromSocketState randomUUID sid payload priorityMs now w)
    as [_ Htags].
  apply names_of_tags in Htags.
  set (w' := enqueueFromSocketState randomUUID sid payload priorityMs now w) in *.
  set (key := getBucketKey entry) in *.
  assert (Hb : ∀ key', bucketOf key' w'
                       ≡ₚ if decide (key' = key) then bucketOf key w ++ [entry]
                          else bucketOf key' w).
  { intros key'. unfold bucketOf at 1. rewrite Hbuckets.
    destruct (decide (key' = key)) as [->|Hne].
    - rewrite oget_oset. simpl. by rewrite !sort_by_Permutation.
    - by rewrite oget_oset_ne. }
  assert (Hin : ∀ key' e, e ∈ bucketOf key' w' ↔
                          e ∈ bucketOf key' w ∨ (key' = key ∧ e = entry)).
  { intros key' e. rewrite Hb. destruct (decide (key' = key)) as [->|Hne].
    - rewrite elem_of_app, list_elem_of_singleton.
      split; [intros [?|?]; [by left|by right]|intros [?|[_ ?]]; [by left|by right]].
    - split; [by left|intros [?|[? _]]; done]. }
  assert (Hfree : ∀ key' e, e ∈ bucketOf key' w → qe_socketId e ≠ sid).
  { intros key' e He Hsame. pose proof (Q2 _ _ He) as Hold. rewrite Hsame, Hnone in Hold.
    done. }
  assert (Hfresh : ∀ key' e, e ∈ bucketOf key' w → qe_id e ≠ qe_id entry).
  { intros key' e He Hsame. destruct (Q4 _ _ He) as (n & Hlt & Hn).
    rewrite Hid, Hn in Hsame. apply (inj (String.append "q_")), randomUUID_inj in Hsame. lia. }
  unfold queueInv. rewrite Hmap, Hdrawn. split_and!.
  - intros s key' e Hlook. apply lookup_insert_Some in Hlook as [[<- [= <- <-]]|[Hne Hold]].
    + split; [done|]. apply Hin. by right.
    + destruct (Q1 _ _ _ Hold) as [Hs' He]. split; [done|]. apply Hin. by left.
  - intros key' e [He|[-> ->]]%Hin.
    + rewrite lookup_insert_ne; [by apply Q2|]. intros Hsame. by eapply Hfree.
    + rewrite Hsocket. apply lookup_insert_eq.
  - intros key'. rewrite Hb. destruct (decide (key' = key)) as [->|Hne]; [|apply Q3].
    rewrite fmap_app. apply NoDup_app. split_and!.
    + apply Q3.
    + intros id (e & -> & He)%list_elem_of_fmap Hnew. simpl in Hnew.
      apply list_elem_of_singleton in Hnew. by eapply Hfresh.
    + simpl. apply NoDup_singleton.
  - intros key' e [He|[-> ->]]%Hin.
    + destruct (Q4 _ _ He) as (n & Hlt & Hn). exists n. split; [lia|done].
    + exists (drawn w). split; [lia|done].
  - intros s state' Hstate'.
    destruct (names_lookup _ _ _ _ Htags Hstate') as (state0 & Hstate0 & <-). by eapply Q5.
Qed.
End QueueFacts.

(** ** The steps that leave the queue alone *)

Ltac names_step :=
  rewrite ?names_alter by (intros; repeat case_match; done).

Ltac queue_step :=
  repeat (case_match; simplify_eq/=; try done);
  try (apply queueKeep_same; simpl; names_step; first [done | lia]).

Section QueueFrames.
Variable SCORE_LIMIT : Z.
Variable randomUUID : nat → string.
Variable hashToken : string → string.
Variable randomSeed : nat → Z.

Lemma reportPositions_states now total index bucket w :
  socketState (reportPositions now total index bucket w) = socketState w.
Proof.
  revert index w. induction bucket as [|entry rest IH]; intros index w; simpl; [done|].
  rewrite IH. by case_bool_decide.
Qed.

Lemma queueKeep_updateQueuePositions bucketKey now w :
  queueKeep w (updateQueuePositions bucketKey now w).
Proof.
  split_and!.
  - intros key. unfold bucketOf.
    destruct (oget bucketKey (queueByBucket w)) as [bucket|] eqn:Hbucket.
    + rewrite (updateQueuePositions_queue _ _ _ _ Hbucket).
      destruct (decide (key = bucketKey)) as [->|Hne].
      * rewrite oget_oset, Hbucket. simpl. apply sort_by_Permutation.
      * by rewrite oget_oset_ne.
    + unfold updateQueuePositions. by rewrite Hbucket.
  - apply updateQueuePositions_entries.
  - by rewrite updateQueuePositions_drawn.
  - unfold updateQueuePositions. destruct (oget _ _); [|done].
    by rewrite reportPositions_states.
Qed.

Lemma queueKeep_updateAllQueuePositions now w :
  queueKeep w (updateAllQueuePositions now w).
Proof.
  unfold updateAllQueuePositions. apply queueKeep_foldl.
  intros; apply queueKeep_updateQueuePositions.
Qed.

Lemma queueKeep_clearPendingReadyAssociation ready w :
  queueKeep w (clearPendingReadyAssociation ready w).
Proof.
  unfold clearPendingReadyAssociation. apply queueKeep_foldl. intros w0 member.
  apply queueKeep_updState. intros state. by case_bool_decide.
Qed.

Lemma queueKeep_inviteMember ready w member : queueKeep w (inviteMember ready w member).
Proof. unfold inviteMember. queue_step. Qed.

Lemma queueKeep_readyMembers candidate selected w :
  queueKeep w (snd (readyMembers randomUUID candidate selected w)).
Proof.
  revert w. induction selected as [|entry rest IH]; intros w; simpl; [done|].
  repeat (case_match; simplify_eq/=; try done); try apply IH.
  match goal with
  | H : readyMembers _ _ _ ?w0 = (_, ?w1) |- _ =>
      pose proof (IH w0) as Hq; rewrite H in Hq; simpl in Hq
  end.
  etrans; [|exact Hq]. queue_step.
Qed.

Lemma queueKeep_finishRoomForSockets ref payload w :
  queueKeep w (finishRoomForSockets ref payload w).
Proof.
  unfold finishRoomForSockets. destruct (rooms w !! ref) as [room|]; [|done].
  apply queueKeep_foldl. intros w0 member. unfold finishMember. queue_step.
Qed.

Lemma queueKeep_markMemberDisconnected socketId reason now w :
  queueKeep w (markMemberDisconnected socketId reason now w).
Proof. unfold markMemberDisconnected. queue_step. Qed.

Lemma queueKeep_tryReconnectToRoom socketId payload now w :
  queueKeep w (fst (tryReconnectToRoom socketId payload now w)).
Proof. unfold tryReconnectToRoom. queue_step. Qed.

Lemma queueKeep_leaveMatch socketId now w : queueKeep w (leaveMatch socketId now w).
Proof. unfold leaveMatch. queue_step. Qed.

Lemma queueKeep_applyMatchResult record now w :
  queueKeep w (applyMatchResult randomUUID hashToken record now w).
Proof.
  unfold applyMatchResult.
  transitivity (foldl (applyPlayerResult randomUUID hashToken now) w (mr_players record));
    [|queue_step].
  apply queueKeep_foldl.
  intros w0 entry. unfold applyPlayerResult, createPlayer, createSessionToken. queue_step.
Qed.

Lemma queueKeep_endRoomBegin ref reason winner now w :
  queueKeep w (fst (endRoomBegin randomUUID hashToken ref reason winner now w)).
Proof.
  unfold endRoomBegin. destruct (rooms w !! ref) as [room|]; [|done].
  destruct (room_ended room); [done|].
  destruct (snap_score (room_lastSnapshot room)) as [team0 team1]. cbn [fst].
  etrans; [|apply queueKeep_applyMatchResult].
  etrans; [|apply queueKeep_foldl; intros w0 member; unfold storeStateRating; queue_step].
  queue_step.
Qed.

Lemma queueKeep_tickRoom ref snapshot broadcast now w :
  queueKeep w (fst (tickRoom SCORE_LIMIT randomUUID hashToken ref snapshot broadcast now w)).
Proof.
  unfold tickRoom. destruct (rooms w !! ref) as [room|]; [|done].
  destruct (room_ended room); [done|].
  destruct (shouldEndRoom SCORE_LIMIT _ now) as [room' decision].
  destruct decision as [decision|].
  - etrans; [|apply queueKeep_endRoomBegin]. destruct broadcast; queue_step.
  - destruct broadcast; queue_step.
Qed.

Lemma queueKeep_createRoomFromReady ready now w :
  queueKeep w (createRoomFromReady ready now w).
Proof.
  unfold createRoomFromReady.
  etrans; [|apply queueKeep_foldl; intros w0 member; queue_step].
  match goal with
  | |- queueKeep w (upd_activeRooms _ (upd_rooms _ ?w0)) =>
      assert (queueKeep w w0) as H0
        by (etrans; [|apply queueKeep_foldl; intros; by apply queueKeep_updState];
            queue_step)
  end.
  etrans; [exact H0|]. queue_step.
Qed.
End QueueFrames.

(** ** Taking a combination out of its bucket *)

Lemma queueInv_frame randomUUID w w' :
  (∀ key, bucketOf key w' ≡ₚ bucketOf key w) →
  queueEntryBySocket w' = queueEntryBySocket w → (drawn w ≤ drawn w')%nat →
  (∀ socketId state, socketState w' !! socketId = Some state → ss_socketId state = socketId) →
  queueInv randomUUID w → queueInv randomUUID w'.
Proof.
  intros Hb He Hd Hn (Q1 & Q2 & Q3 & Q4 & Q5).
  unfold queueInv. rewrite He. split_and!; [| | | |done].
  - intros s key e Hentry. destruct (Q1 _ _ _ Hentry) as [Hs Hin].
    split; [done|]. by rewrite Hb.
  - intros key e Hin. apply Q2. by rewrite <- Hb.
  - intros key. rewrite Hb. apply Q3.
  - intros key e Hin. rewrite Hb in Hin. destruct (Q4 _ _ Hin) as (n & Hlt & Hid).
    exists n. split; [lia|done].
Qed.

Lemma unqueue_lookup (selected : list QueueEntry) w socketId :
  queueEntryBySocket
    (foldl (λ w entry, upd_queueEntryBySocket (delete (qe_socketId entry)) w) w selected)
    !! socketId
  = if bool_decide (socketId ∈ qe_socketId <$> selected) then None
    else queueEntryBySocket w !! socketId.
Proof.
  revert w. induction selected as [|e selected IH]; intros w.
  - rewrite fmap_nil. cbn [foldl].
    rewrite bool_decide_eq_false_2; [done|]. by intros ?%elem_of_nil.
  - rewrite fmap_cons. cbn [foldl]. rewrite IH.
    change (queueEntryBySocket (upd_queueEntryBySocket (delete (qe_socketId e)) w))
      with (delete (qe_socketId e) (queueEntryBySocket w)).
    destruct (decide (socketId = qe_socketId e)) as [->|Hne].
    + rewrite lookup_delete_eq. rewrite (bool_decide_eq_true_2 (_ ∈ _ :: _)).
      * by case_bool_decide.
      * apply elem_of_cons. by left.
    + rewrite lookup_delete_ne by done.
      destruct (decide (socketId ∈ qe_socketId <$> selected)) as [Hin|Hout].
      * rewrite !bool_decide_eq_true_2; [done| |done]. apply elem_of_cons. by right.
      * rewrite !bool_decide_eq_false_2; [done| |done].
        intros [?|?]%elem_of_cons; done.
Qed.

Lemma unqueue_frame {B} (proj : World → B) (selected : list QueueEntry) w :
  (∀ f w, proj (upd_queueEntryBySocket f w) = proj w) →
  proj (foldl (λ w entry, upd_queueEntryBySocket (delete (qe_socketId entry)) w) w selected)
  = proj w.
Proof. intros Hproj. apply foldl_frame. intros. apply Hproj. Qed.

Lemma filter_ids_NoDup (keep : QueueEntry → bool) (bucket : list QueueEntry) :
  NoDup (qe_id <$> bucket) → NoDup (qe_id <$> List.filter keep bucket).
Proof.
  induction bucket as [|x bucket IH]; simpl; intros Hnodup; [done|].
  apply NoDup_cons in Hnodup as [Hx Hnodup].
  destruct (keep x); [|by apply IH].
  simpl. apply NoDup_cons. split; [|by apply IH].
  intros (e & Hid & Hin)%list_elem_of_fmap.
  apply list_elem_of_In, filter_In in Hin as [Hin _]. apply list_elem_of_In in Hin.
  apply Hx. rewrite Hid. by apply list_elem_of_fmap_2.
Qed.

Lemma filter_elem (keep : QueueEntry → bool) (bucket : list QueueEntry) e :
  e ∈ List.filter keep bucket ↔ e ∈ bucket ∧ keep e = true.
Proof. by rewrite !list_elem_of_In, filter_In. Qed.

(** The entries that [taken] picks leave the bucket [key] and the index,
    as in a turn of the loop of [tryCreateReadyChecks]. *)
Lemma queueInv_take randomUUID (taken : QueueEntry → bool) key w :
  queueInv randomUUID w →
  let bucket := bucketOf key w in
  let selected := reverse (List.filter taken bucket) in
  let w1 := foldl (λ w entry, upd_queueEntryBySocket (delete (qe_socketId entry)) w)
              w selected in
  let rest := List.filter (λ e, negb (taken e)) bucket in
  let w2 := match oget key (queueByBucket w1) with
            | Some _ => upd_queueByBucket (oset key rest) w1
            | None => w1
            end in
  queueInv randomUUID w2 ∧ bucketOf key w2 = rest.
Proof.
  intros (Q1 & Q2 & Q3 & Q4 & Q5) bucket selected w1 rest w2.
  assert (Hq1 : queueByBucket w1 = queueByBucket w)
    by (unfold w1; by apply unqueue_frame).
  assert (Hb : ∀ key', bucketOf key' w2 = if decide (key' = key) then rest
                                           else bucketOf key' w).
  { intros key'. unfold w2.
    destruct (oget key (queueByBucket w1)) as [old|] eqn:Hold.
    - rewrite bucketOf_oset. destruct (decide (key' = key)); [done|].
      unfold bucketOf. by rewrite Hq1.
    - destruct (decide (key' = key)) as [->|Hne].
      + unfold rest, bucket, bucketOf. rewrite <- Hq1, Hold. done.
      + unfold bucketOf. by rewrite Hq1. }
  assert (He : ∀ s, queueEntryBySocket w2 !! s
                    = if bool_decide (s ∈ qe_socketId <$> selected) then None
                      else queueEntryBySocket w !! s).
  { intros s. rewrite <- (unqueue_lookup selected w s). fold w1.
    unfold w2. by destruct (oget key (queueByBucket w1)). }
  assert (Hd : drawn w2 = drawn w).
  { unfold w2. destruct (oget key (queueByBucket w1)); simpl;
      unfold w1; by apply unqueue_frame. }
  assert (Hs : socketState w2 = socketState w).
  { unfold w2. destruct (oget key (queueByBucket w1)); simpl;
      unfold w1; by apply unqueue_frame. }
  assert (Hsel : ∀ s, s ∈ qe_socketId <$> selected ↔
                      ∃ e, e ∈ bucket ∧ taken e = true ∧ qe_socketId e = s).
  { intros s. unfold selected. rewrite list_elem_of_fmap. split.
    - intros (e & -> & [Hin Htaken]%elem_of_reverse%filter_elem). by exists e.
    - intros (e & Hin & Htaken & <-). exists e. split; [done|].
      apply elem_of_reverse, filter_elem. done. }
  split; [|by rewrite Hb, decide_True].
  unfold queueInv. rewrite Hd, Hs. split_and!; [| | | |done].
  - intros s key' e Hlook. rewrite He in Hlook.
    case_bool_decide as Hout; [done|].
    destruct (Q1 _ _ _ Hlook) as [Hown Hin]. split; [done|].
    rewrite Hb. destruct (decide (key' = key)) as [->|Hne]; [|done].
    apply filter_elem. split; [done|].
    destruct (taken e) eqn:Htaken; [|done].
    exfalso. apply Hout, Hsel. by exists e.
  - intros key' e Hin. rewrite Hb in Hin. rewrite He.
    destruct (decide (key' = key)) as [->|Hne].
    + apply filter_elem in Hin as [Hin Hnot].
      rewrite bool_decide_eq_false_2; [by apply Q2|].
      intros (e' & Hin' & Htaken & Hsame)%Hsel.
      pose proof (Q2 _ _ Hin) as Hmap. pose proof (Q2 _ _ Hin') as Hmap'.
      rewrite Hsame, Hmap in Hmap'. injection Hmap' as ->. by rewrite Htaken in Hnot.
    + rewrite bool_decide_eq_false_2; [by apply Q2|].
      intros (e' & Hin' & Htaken & Hsame)%Hsel.
      pose proof (Q2 _ _ Hin) as Hmap. pose proof (Q2 _ _ Hin') as Hmap'.
      rewrite Hsame, Hmap in Hmap'. by injection Hmap' as -> _.
  - intros key'. rewrite Hb. destruct (decide (key' = key)); [|apply Q3].
    apply filter_ids_NoDup, Q3.
  - intros key' e Hin. rewrite Hb in Hin. destruct (decide (key' = key)) as [->|Hne].
    + apply filter_elem in Hin as [Hin _]. by eapply Q4.
    + by eapply Q4.
Qed.

(** ** The handlers keep the queue in order *)

Section QueueHandlers.
Variable SCORE_LIMIT : Z.
Variable randomUUID : nat → string.
Variable hashToken : string → string.
Variable randomSeed : nat → Z.
Hypothesis randomUUID_inj : ∀ n m, randomUUID n = randomUUID m → n = m.

Lemma readyMembers_buckets candidate selected w :
  queueByBucket (snd (readyMembers randomUUID candidate selected w)) = queueByBucket w.
Proof.
  revert w. induction selected as [|entry rest IH]; intros w; simpl; [done|].
  repeat (case_match; simplify_eq/=; try done); try apply IH.
  match goal with
  | H : readyMembers _ _ _ ?w0 = (_, ?w1) |- _ =>
      pose proof (IH w0) as Hq; rewrite H in Hq; simpl in Hq
  end.
  by rewrite Hq.
Qed.

Lemma inviteMember_buckets ready w member :
  queueByBucket (inviteMember ready w member) = queueByBucket w.
Proof. unfold inviteMember. by case_bool_decide. Qed.

Lemma queueInv_readyLoop fuel bucketKey playlistConfig now w :
  queueInv randomUUID w →
  queueInv randomUUID
    (readyLoop randomUUID randomSeed fuel bucketKey playlistConfig now
       (bucketOf bucketKey w) w).
Proof.
  revert w. induction fuel as [|fuel IH]; intros w Hinv; simpl; [done|].
  destruct (findBestCandidate now playlistConfig (bucketOf bucketKey w))
    as [[candidate|]|]; try done.
  destruct (queueInv_take randomUUID (inCandidate candidate) bucketKey w Hinv)
    as [Hinv2 Hrest].
  cbv zeta in Hinv2, Hrest.
  set (selected := reverse (List.filter (inCandidate candidate) (bucketOf bucketKey w))) in *.
  set (rest := List.filter (λ e, negb (inCandidate candidate e)) (bucketOf bucketKey w)) in *.
  set (w1 := foldl (λ w entry, upd_queueEntryBySocket (delete (qe_socketId entry)) w)
               w selected) in *.
  set (w2 := match oget bucketKey (queueByBucket w1) with
             | Some _ => upd_queueByBucket (oset bucketKey rest) w1
             | None => w1
             end) in *.
  destruct selected as [|first others] eqn:Hsel; [done|].
  set (w3 := if (length rest =? 0)%nat then upd_queueByBucket (odelete bucketKey) w2 else w2).
  assert (Hb3 : ∀ key, bucketOf key w3 = bucketOf key w2).
  { intros key. unfold w3. destruct (length rest =? 0)%nat eqn:Hlen; [|done].
    apply Nat.eqb_eq, nil_length_inv in Hlen. rewrite bucketOf_odelete.
    destruct (decide (key = bucketKey)) as [->|Hne]; [|done]. by rewrite Hrest. }
  assert (Hinv3 : queueInv randomUUID w3).
  { apply (queueInv_frame randomUUID w2); try done.
    - intros key. by rewrite Hb3.
    - unfold w3. by destruct (_ =? 0)%nat.
    - unfold w3. by destruct (_ =? 0)%nat.
    - destruct Hinv2 as (_ & _ & _ & _ & Q5). unfold w3. by destruct (_ =? 0)%nat. }
  pose proof (queueKeep_readyMembers randomUUID candidate (first :: others)
                (upd_drawn S (upd_readySequence S w3))) as Hkeep.
  pose proof (readyMembers_buckets candidate (first :: others)
                (upd_drawn S (upd_readySequence S w3))) as Hsame.
  destruct (readyMembers randomUUID candidate (first :: others)
              (upd_drawn S (upd_readySequence S w3))) as [members w4] eqn:Hmembers.
  simpl in Hkeep, Hsame.
  assert (Hinv4 : queueInv randomUUID w4).
  { eapply queueInv_queueKeep; [|exact Hinv3]. etrans; [|exact Hkeep].
    apply queueKeep_same; simpl; try done. lia. }
  assert (Hb4 : bucketOf bucketKey w4 = rest).
  { unfold bucketOf. rewrite Hsame. fold (bucketOf bucketKey w3). by rewrite Hb3. }
  destruct (length members =? 0)%nat.
  { rewrite <- Hb4. by apply IH. }
  match goal with
  | |- context [foldl (inviteMember ?r) ?w0 members] =>
      set (ready := r); set (w5 := w0); set (w6 := foldl (inviteMember ready) w5 members)
  end.
  assert (Hb6 : queueByBucket w6 = queueByBucket w4).
  { unfold w6. rewrite (foldl_frame queueByBucket); [done|].
    intros. apply inviteMember_buckets. }
  assert (Hinv6 : queueInv randomUUID w6).
  { eapply queueInv_queueKeep; [|exact Hinv4].
    etrans; [|apply queueKeep_foldl; intros; apply queueKeep_inviteMember].
    by apply queueKeep_same. }
  replace rest with (bucketOf bucketKey w6); [by apply IH|].
  unfold bucketOf. rewrite Hb6. exact Hb4.
Qed.

Lemma queueInv_tryCreateReadyChecks bucketKey now w :
  queueInv randomUUID w →
  queueInv randomUUID (tryCreateReadyChecks randomUUID randomSeed bucketKey now w).
Proof.
  intros Hinv. unfold tryCreateReadyChecks.
  destruct (oget bucketKey (queueByBucket w)) as [bucket|] eqn:Hbucket; [|done].
  destruct (length bucket <? 2)%nat; [done|].
  eapply queueInv_queueKeep; [apply queueKeep_updateQueuePositions|].
  pose proof (queueInv_readyLoop (S (length bucket)) bucketKey
                (getPlaylistConfig (default "ranked" (qe_playlist <$> head bucket)))
                now w Hinv) as Hloop.
  assert (bucketOf bucketKey w = bucket) as Hb by (unfold bucketOf; by rewrite Hbucket).
  by rewrite Hb in Hloop.
Qed.

Lemma queueInv_tickQueueMatchmaking now w :
  queueInv randomUUID w →
  queueInv randomUUID (tickQueueMatchmaking randomUUID randomSeed now w).
Proof.
  unfold tickQueueMatchmaking. generalize (okeys (queueByBucket w)). intros keys.
  revert w. induction keys as [|key keys IH]; intros w Hinv; simpl; [done|].
  apply IH. by apply queueInv_tryCreateReadyChecks.
Qed.

Lemma queueInv_requeueMember ready acceptedOnly excludePlayerId now w member :
  queueInv randomUUID w →
  queueInv randomUUID
    (requeueMember randomUUID ready acceptedOnly excludePlayerId now w member).
Proof.
  intros Hinv. unfold requeueMember. repeat (case_match; try done).
  apply queueInv_enqueueFromSocketState; [done|by apply queueInv_removeQueueEntry|].
  destruct (removeQueueEntry_queue s w) as (-> & _). apply lookup_delete_eq.
Qed.

Lemma queueInv_cancelReadyCheck ref reason acceptedOnly excludePlayerId now w :
  queueInv randomUUID w →
  queueInv randomUUID
    (cancelReadyCheck randomUUID ref reason acceptedOnly excludePlayerId now w).
Proof.
  intros Hinv. unfold cancelReadyCheck.
  destruct (readies w !! ref) as [ready|]; [|done].
  destruct (pendingReadyById w !! rd_id ready); [|done].
  match goal with
  | |- context [foldl (requeueMember _ _ _ _ _) ?w0 _] => set (w3 := w0)
  end.
  assert (queueInv randomUUID w3) as Hinv3.
  { eapply queueInv_queueKeep; [|exact Hinv]. unfold w3.
    etrans; [|apply queueKeep_foldl; intros; by case_bool_decide].
    etrans; [|apply queueKeep_clearPendingReadyAssociation].
    by destruct (rd_timeoutHandle ready). }
  clearbody w3. generalize (rd_members ready). intros members. revert w3 Hinv3.
  induction members as [|member members IH]; intros w0 Hinv0; simpl; [done|].
  apply IH. by apply queueInv_requeueMember.
Qed.

Lemma queueInv_fireTimer handle now w :
  queueInv randomUUID w → queueInv randomUUID (fireTimer randomUUID handle now w).
Proof.
  intros Hinv. unfold fireTimer, readyTimeout. repeat (case_match; try done).
  apply queueInv_cancelReadyCheck.
  eapply queueInv_queueKeep; [|exact Hinv]. done.
Qed.

Lemma queueInv_joinQueue socketId payload now w :
  queueInv randomUUID w →
  queueInv randomUUID (joinQueue randomUUID randomSeed socketId payload now w).
Proof.
  intros Hinv. unfold joinQueue. repeat (case_match; try done);
    try (eapply queueInv_queueKeep; [|exact Hinv]; done).
  apply queueInv_tickQueueMatchmaking.
  apply queueInv_enqueueFromSocketState; [done|by apply queueInv_removeQueueEntry|].
  destruct (removeQueueEntry_queue socketId w) as (-> & _). apply lookup_delete_eq.
Qed.

Lemma queueInv_leaveQueue socketId now w :
  queueInv randomUUID w → queueInv randomUUID (leaveQueue socketId now w).
Proof.
  intros Hinv. unfold leaveQueue.
  pose proof (queueInv_removeQueueEntry randomUUID socketId w Hinv) as Hinv1.
  destruct (removeQueueEntry socketId w) as [w1 removed]. simpl in Hinv1.
  repeat (case_match; try done);
    (eapply queueInv_queueKeep; [|exact Hinv1]);
    auto using queueKeep_updateQueuePositions, queueKeep_updateAllQueuePositions.
Qed.

Lemma queueInv_acceptReady socketId payload now w :
  queueInv randomUUID w → queueInv randomUUID (acceptReady randomUUID socketId payload now w).
Proof.
  intros Hinv. unfold acceptReady.
  destruct (socketState w !! socketId) as [state|]; [|done].
  destruct (ss_pendingReadyId state) as [pendingReadyId|]; [|done].
  destruct (negb (truthyS (Some pendingReadyId))); [done|].
  destruct (pendingReadyById w !! default pendingReadyId (rr_matchId payload))
    as [ref|]; simpl;
    [|eapply queueInv_queueKeep; [|exact Hinv]; by apply queueKeep_updState].
  destruct (readies w !! ref) as [ready|]; simpl;
    [|eapply queueInv_queueKeep; [|exact Hinv]; by apply queueKeep_updState].
  destruct (existsb _ (rd_members ready)); simpl; [|done].
  case_bool_decide; [by apply queueInv_cancelReadyCheck|].
  set (accepted := {[ ss_playerId state ]} ∪ rd_accepted ready) in *.
  set (w1 := updReady ref (withAccepted accepted) w) in *.
  match goal with
  | |- context [foldl ?f w1 (rd_members ready)] => set (w2 := foldl f w1 (rd_members ready))
  end.
  assert (queueKeep w w2) as Hq2.
  { transitivity w1; [by apply queueKeep_same|].
    apply queueKeep_foldl; intros; by case_bool_decide. }
  eapply queueInv_queueKeep; [|exact Hinv]. etrans; [exact Hq2|].
  destruct (size accepted <? length (rd_members ready))%nat; [done|].
  etrans; [|apply queueKeep_createRoomFromReady].
  etrans; [|apply queueKeep_clearPendingReadyAssociation].
  by destruct (rd_timeoutHandle ready).
Qed.

Lemma queueInv_connect socketId player reconnect now w :
  queueInv randomUUID w → queueInv randomUUID (connect socketId player reconnect now w).
Proof.
  intros Hinv. unfold connect.
  match goal with
  | |- context [tryReconnectToRoom socketId reconnect now ?w0] => set (w1 := w0)
  end.
  assert (queueInv randomUUID w1) as Hinv1.
  { apply (queueInv_frame randomUUID w); try done.
    - intros key. unfold w1. repeat (case_match; try done).
    - unfold w1. repeat (case_match; try done).
    - unfold w1. repeat (case_match; try done).
    - intros s state. unfold w1.
      destruct Hinv as (_ & _ & _ & _ & Q5).
      assert (∀ w0, socketState w0 = socketState w →
                (<[socketId := {| ss_socketId := socketId; ss_playerId := id_playerId player;
                      ss_nickname := id_nickname player; ss_rating := id_rating player;
                      ss_games := id_games player; ss_wins := id_wins player;
                      ss_losses := id_losses player; ss_abandons := id_abandons player;
                      ss_partySize := 1; ss_playlist := "ranked"; ss_region := "na";
                      ss_inputMode := "mixed"; ss_pendingReadyId := None; ss_roomId := None;
                      ss_slots := []; ss_reconnect := None; ss_pingMs := 80 |}]>
                   (socketState w0)) !! s = Some state → ss_socketId state = s) as Hnew.
      { intros w0 -> [[<- <-]|[_ Hold]]%lookup_insert_Some; [done|by eapply Q5]. }
      repeat (case_match; try done); simpl; by apply Hnew. }
  pose proof (queueKeep_tryReconnectToRoom socketId reconnect now w1) as H2.
  destruct (tryReconnectToRoom socketId reconnect now w1) as [w2 ok]. simpl in H2.
  eapply queueInv_queueKeep; [|exact Hinv1]. etrans; [exact H2|]. by destruct (_ && _).
Qed.

Lemma queueInv_disconnect socketId now w :
  queueInv randomUUID w → queueInv randomUUID (disconnect randomUUID socketId now w).
Proof.
  intros Hinv. unfold disconnect.
  destruct (socketState (upd_sockets _ w) !! socketId) as [current|];
    [|eapply queueInv_queueKeep; [|exact Hinv]; done].
  eapply queueInv_queueKeep; [apply queueKeep_updateAllQueuePositions|].
  match goal with
  | |- context [markMemberDisconnected ?s ?r ?n ?w0] =>
      pose proof (queueKeep_markMemberDisconnected s r n w0) as Hmark;
      set (w1 := w0) in *;
      set (w2 := markMemberDisconnected s r n w1) in *
  end.
  assert (queueInv randomUUID w1) as Hinv1.
  { unfold w1.
    assert (queueInv randomUUID
              (removeQueueEntry socketId (upd_sockets (λ ss, ss ∖ {[socketId]}) w)).1)
      as Hinv0.
    { apply queueInv_removeQueueEntry. eapply queueInv_queueKeep; [|exact Hinv]. done. }
    repeat (case_match; try done). by apply queueInv_cancelReadyCheck. }
  assert (queueInv randomUUID w2) as Hinv2 by (by eapply queueInv_queueKeep).
  match goal with
  | |- queueInv _ (upd_socketState _ ?w0) => set (w3 := w0)
  end.
  assert (queueInv randomUUID w3) as Hinv3.
  { unfold w3. case_bool_decide; [|done].
    eapply queueInv_queueKeep; [|exact Hinv2]. done. }
  apply (queueInv_frame randomUUID w3); try done.
  intros s state Hstate. simpl in Hstate.
  apply lookup_delete_Some in Hstate as [_ Hold].
  destruct Hinv3 as (_ & _ & _ & _ & Q5). by eapply Q5.
Qed.

Lemma queueInv_handle e w :
  queueInv randomUUID w →
  queueInv randomUUID (handle SCORE_LIMIT randomUUID hashToken randomSeed e w).
Proof.
  intros Hinv. destruct e; simpl.
  - by apply queueInv_connect.
  - by apply queueInv_joinQueue.
  - by apply queueInv_leaveQueue.
  - by apply queueInv_acceptReady.
  - eapply queueInv_queueKeep; [apply queueKeep_leaveMatch|done].
  - by apply queueInv_disconnect.
  - by apply queueInv_tickQueueMatchmaking.
  - by apply queueInv_fireTimer.
  - eapply queueInv_queueKeep; [apply queueKeep_tickRoom|done].
  - eapply queueInv_queueKeep; [apply queueKeep_finishRoomForSockets|done].
  - eapply queueInv_queueKeep; [apply queueKeep_endRoomBegin|done].
Qed.

Lemma reachable_queueInv w :
  reachable SCORE_LIMIT randomUUID hashToken randomSeed w → queueInv randomUUID w.
Proof.
  induction 1 as [|e w _ IH]; [apply queueInv_emptyWorld|by apply queueInv_handle].
Qed.
End QueueHandlers.

(** ** The queue in every state of the server *)

Lemma bucketOf_Some key w bucket :
  oget key (queueByBucket w) = Some bucket → bucketOf key w = bucket.
Proof. intros Hbucket. unfold bucketOf. by rewrite Hbucket. Qed.

Lemma bucketOf_elem key w entry :
  entry ∈ bucketOf key w →
  ∃ bucket, oget key (queueByBucket w) = Some bucket ∧ entry ∈ bucket.
Proof.
  unfold bucketOf. destruct (oget key (queueByBucket w)) as [bucket|]; simpl.
  - intros Hin. by exists bucket.
  - by intros ?%elem_of_nil.
Qed.

Lemma demoUUID_inj n m : demoUUID n = demoUUID m → n = m.
Proof. apply (inj pretty). Qed.

Section QueueAlways.
Variable SCORE_LIMIT : Z.
Variable randomUUID : nat → string.
Variable hashToken : string → string.
Variable randomSeed : nat → Z.

(** X26.  In every state of the server the two halves of the queue agree,
    no UUID being drawn twice: the entry that [queueEntryBySocket] has for
    a connection belongs to that connection and is in the bucket named
    with it, an entry in a bucket is the one that [queueEntryBySocket] has
    for its connection, and no two entries of a bucket have the same id or
    the same connection.  A connection is queued at most once. *)
Theorem X26_the_queue_and_its_index_agree w :
  (∀ n m, randomUUID n = randomUUID m → n = m) →
  reachable SCORE_LIMIT randomUUID hashToken randomSeed w →
  (∀ socketId key entry,
     queueEntryBySocket w !! socketId = Some (key, entry) →
     qe_socketId entry = socketId
     ∧ ∃ bucket, oget key (queueByBucket w) = Some bucket ∧ entry ∈ bucket)
  ∧ (∀ key bucket entry,
       oget key (queueByBucket w) = Some bucket → entry ∈ bucket →
       queueEntryBySocket w !! qe_socketId entry = Some (key, entry))
  ∧ (∀ key bucket,
       oget key (queueByBucket w) = Some bucket →
       NoDup (qe_id <$> bucket) ∧ NoDup (qe_socketId <$> bucket)).
Proof.
  intros Hinj Hw.
  destruct (reachable_queueInv SCORE_LIMIT randomUUID hashToken randomSeed Hinj w Hw)
    as (Q1 & Q2 & Q3 & _).
  split_and!.
  - intros s key entry Hentry. destruct (Q1 _ _ _ Hentry) as [Hown Hin].
    split; [done|]. by apply bucketOf_elem.
  - intros key bucket entry Hbucket Hin. apply Q2. by rewrite (bucketOf_Some _ _ _ Hbucket).
  - intros key bucket Hbucket. pose proof (Q3 key) as Hids.
    rewrite (bucketOf_Some _ _ _ Hbucket) in Hids. split; [done|].
    apply NoDup_fmap_2_strong; [|by eapply NoDup_fmap_1].
    intros e e' He He' Hsame.
    rewrite <- (bucketOf_Some _ _ _ Hbucket) in He, He'.
    pose proof (Q2 _ _ He) as Hmap. pose proof (Q2 _ _ He') as Hmap'.
    rewrite Hsame, Hmap' in Hmap. by injection Hmap as ->.
Qed.

(** X27.  In every state of the server, no UUID being drawn twice, a
    connection that leaves the queue is out of every bucket: no entry that
    [tryCreateReadyChecks] can pick afterwards is an entry of that
    connection. *)
Theorem X27_leaving_takes_the_connection_out_of_the_buckets socketId now w :
  (∀ n m, randomUUID n = randomUUID m → n = m) →
  reachable SCORE_LIMIT randomUUID hashToken randomSeed w →
  queueEntryBySocket (leaveQueue socketId now w) !! socketId = None
  ∧ ∀ key bucket entry,
      oget key (queueByBucket (leaveQueue socketId now w)) = Some bucket →
      entry ∈ bucket → qe_socketId entry ≠ socketId.
Proof.
  intros Hinj Hw.
  pose proof (reachable_queueInv SCORE_LIMIT randomUUID hashToken randomSeed Hinj w Hw)
    as Hinv.
  apply (queueInv_leaveQueue randomUUID socketId now) in Hinv.
  assert (queueEntryBySocket (leaveQueue socketId now w) !! socketId = None) as Hgone.
  { unfold leaveQueue.
    destruct (removeQueueEntry_queue socketId w) as (Hentries & _).
    destruct (removeQueueEntry socketId w) as [w1 removed]. simpl in Hentries.
    assert (queueEntryBySocket w1 !! socketId = None) as Hnone
      by (rewrite Hentries; apply lookup_delete_eq).
    repeat (case_match; try done).
    - by rewrite updateQueuePositions_entries.
    - by destruct (queueKeep_updateAllQueuePositions now w1) as (_ & -> & _).
    - by destruct (queueKeep_updateAllQueuePositions now w1) as (_ & -> & _). }
  split; [done|].
  intros key bucket entry Hbucket Hin Hsame.
  destruct Hinv as (_ & Q2 & _).
  rewrite <- (bucketOf_Some _ _ _ Hbucket) in Hin.
  pose proof (Q2 _ _ Hin) as Hmap. rewrite Hsame, Hgone in Hmap. done.
Qed.
End QueueAlways.

(** Ana waits alone in her bucket. *)
Lemma X26_witness :
  (∀ socketId key entry,
     queueEntryBySocket anaQueued !! socketId = Some (key, entry) →
     qe_socketId entry = socketId
     ∧ ∃ bucket, oget key (queueByBucket anaQueued) = Some bucket ∧ entry ∈ bucket)
  ∧ (∀ key bucket entry,
       oget key (queueByBucket anaQueued) = Some bucket → entry ∈ bucket →
       queueEntryBySocket anaQueued !! qe_socketId entry = Some (key, entry))
  ∧ (∀ key bucket,
       oget key (queueByBucket anaQueued) = Some bucket →
       NoDup (qe_id <$> bucket) ∧ NoDup (qe_socketId <$> bucket)).
Proof.
  apply (X26_the_queue_and_its_index_agree 7 demoUUID demoHash demoSeed anaQueued).
  - exact demoUUID_inj.
  - exact reachable_anaQueued.
Defined.

(** Ana leaves the queue at 1500. *)
Lemma X27_witness :
  queueEntryBySocket (leaveQueue "s1" 1500 anaQueued) !! "s1" = None
  ∧ ∀ key bucket entry,
      oget key (queueByBucket (leaveQueue "s1" 1500 anaQueued)) = Some bucket →
      entry ∈ bucket → qe_socketId entry ≠ "s1".
Proof.
  apply (X27_leaving_takes_the_connection_out_of_the_buckets 7 demoUUID demoHash demoSeed
           "s1" 1500 anaQueued).
  - exact demoUUID_inj.
  - exact reachable_anaQueued.
Defined.

(** * The end of a room at a tick *)

Section EndOfRoom.
Variable SCORE_LIMIT : Z.
Variable randomUUID : nat → string.
Variable hashToken : string → string.

(** The tick of a live room, by what [shouldEndRoom] makes of the room
    with the snapshot of the tick. *)
Lemma tickRoom_outcome ref snapshot (broadcast : bool) now (w : World) (room : Room) :
  rooms w !! ref = Some room → room_ended room = false →
  let serverSeq := if broadcast then room_serverSeq room + 1 else room_serverSeq room in
  let outcome := tickRoom SCORE_LIMIT randomUUID hashToken ref snapshot broadcast now w in
  match snd (shouldEndRoom SCORE_LIMIT (withSnapshot snapshot serverSeq room) now) with
  | Some decision =>
      endedWith w ref room outcome (ed_reason decision)
        match ed_winner decision with
        | Some t => Some t
        | None => scoreWinner (snap_score snapshot)
        end
  | None => goesOn w ref outcome
  end.
Proof.
  intros Hroom Hlive serverSeq outcome. subst outcome. unfold tickRoom.
  rewrite Hroom, Hlive. fold serverSeq.
  destruct (shouldEndRoom SCORE_LIMIT (withSnapshot snapshot serverSeq room) now)
    as [room' decision] eqn:Hend.
  assert (Hkept : room_lastSnapshot room' = snapshot ∧ room_ended room' = false
                  ∧ room_id room' = room_id room).
  { unfold shouldEndRoom in Hend.
    repeat (case_match; simplify_eq/=); done. }
  destruct Hkept as (Hsnap & Hlive' & Hid).
  set (w1 := updRoom ref (λ _, room')
               (if broadcast
                then emit (emitRoom (room_id (withSnapshot snapshot serverSeq room))
                             (stateSnapshot (room_id (withSnapshot snapshot serverSeq room))
                                snapshot now serverSeq))
                       (updRoom ref (λ _, withSnapshot snapshot serverSeq room) w)
                else updRoom ref (λ _, withSnapshot snapshot serverSeq room) w)).
  assert (Hw1 : rooms w1 !! ref = Some room' ∧ matches w1 = matches w
                ∧ activeRooms w1 = activeRooms w).
  { unfold w1, updRoom. destruct broadcast; simpl;
      rewrite !list_lookup_alter_eq, Hroom; done. }
  destruct Hw1 as (Hroom1 & Hmatches1 & Hactive1).
  simpl. destruct decision as [decision|].
  - destruct (endRoomBegin_settles randomUUID hashToken ref (ed_reason decision)
                (ed_winner decision) now w1 room' Hroom1 Hlive')
      as (wmid & payload & record & room'' & Hbegin & Hreason & Hwinner & _ & Hmatches
          & Hmatch & Hrecord & _ & Hactive & Hroom'' & Hended).
    fold w1. rewrite Hbegin. exists payload, record. simpl.
    rewrite Hsnap in Hwinner. rewrite Hroom''. simpl.
    split_and!; try done; congruence.
  - fold w1. unfold goesOn. cbn [fst snd]. rewrite Hroom1.
    cbn [fmap option_fmap option_map]. by rewrite Hlive'.
Qed.

(** C3.  The tick of a live room ends the room on the first of these that
    holds, in this order: (a) a score of the snapshot is at the limit,
    (b) the match is longer than the maximum, (c) every member of a team
    is abandoned, once the members away for longer than the grace window
    have been marked; otherwise the room goes on.  (a) and (b) give the
    side with the higher score, nobody on a tie, and (c) gives the team
    that is not abandoned.  When both teams are abandoned the room does not
    end without a winner: the score decides as in (a) and (b), since
    [endRoom] takes the [null] that [shouldEndRoom] hands it for no winner
    given. *)
Theorem C3_tick_ends_the_room_in_order ref snapshot (broadcast : bool) now (w : World)
    (room : Room) :
  rooms w !! ref = Some room → room_ended room = false →
  let score := snap_score snapshot in
  let members := markIfExpired now <$> room_members room in
  let outcome := tickRoom SCORE_LIMIT randomUUID hashToken ref snapshot broadcast now w in
  (Z.max (fst score) (snd score) >= SCORE_LIMIT →
     ∃ winner,
       higherScore score winner
       ∧ endedWith w ref room outcome
           ("Limite de puntuacion alcanzado (" +:+ pretty SCORE_LIMIT +:+ ")") winner)
  ∧ (Z.max (fst score) (snd score) < SCORE_LIMIT →
     now - room_startedAt room > MATCH_MAX_DURATION_MS →
     ∃ winner,
       higherScore score winner
       ∧ endedWith w ref room outcome "Tiempo maximo de partida alcanzado" winner)
  ∧ (Z.max (fst score) (snd score) < SCORE_LIMIT →
     now - room_startedAt room <= MATCH_MAX_DURATION_MS →
     (allAbandoned Team0 members → ¬ allAbandoned Team1 members →
        endedWith w ref room outcome "Equipo completo abandono la partida" (Some Team1))
     ∧ (¬ allAbandoned Team0 members → allAbandoned Team1 members →
        endedWith w ref room outcome "Equipo completo abandono la partida" (Some Team0))
     ∧ (allAbandoned Team0 members → allAbandoned Team1 members →
        ∃ winner,
          higherScore score winner
          ∧ endedWith w ref room outcome "Equipo completo abandono la partida" winner)
     ∧ (¬ allAbandoned Team0 members → ¬ allAbandoned Team1 members →
        goesOn w ref outcome)).
Proof.
  intros Hroom Hlive score members outcome.
  pose proof (tickRoom_outcome ref snapshot broadcast now w room Hroom Hlive) as Htick.
  cbv zeta in Htick. fold outcome in Htick.
  set (serverSeq := if broadcast then room_serverSeq room + 1 else room_serverSeq room) in *.
  destruct (shouldEndRoom_in_order SCORE_LIMIT (withSnapshot snapshot serverSeq room) now)
    as (Ha & Hb & Hc).
  change (snap_score (room_lastSnapshot (withSnapshot snapshot serverSeq room)))
    with score in Ha, Hb, Hc.
  change (room_startedAt (withSnapshot snapshot serverSeq room))
    with (room_startedAt room) in Hb, Hc.
  change (room_members (withSnapshot snapshot serverSeq room))
    with (room_members room) in Hc.
  assert (Hscore : ∀ winner, higherScore score winner →
            higherScore score match winner with
                              | Some t => Some t
                              | None => scoreWinner score
                              end).
  { intros [t|] Hw; [done|]. apply scoreWinner_higherScore. }
  split_and!.
  - intros Hmax. destruct (Ha Hmax) as (d & Hd & Hreason & Hwinner).
    rewrite Hd, Hreason in Htick. eexists. split; [|exact Htick]. by apply Hscore.
  - intros Hmax Hlong. destruct (Hb Hmax Hlong) as (d & Hd & Hreason & Hwinner).
    rewrite Hd, Hreason in Htick. eexists. split; [|exact Htick]. by apply Hscore.
  - intros Hmax Hshort. destruct (Hc Hmax Hshort) as (Hmembers & Hend & Hon).
    rewrite Hmembers in Hend, Hon. fold members in Hend, Hon.
    split_and!.
    + intros H0 H1. destruct (Hend (or_introl H0)) as (d & Hd & Hreason & _ & Hw & _).
      rewrite Hd, Hreason, (Hw H0 H1) in Htick. exact Htick.
    + intros H0 H1. destruct (Hend (or_intror H1)) as (d & Hd & Hreason & _ & _ & Hw).
      rewrite Hd, Hreason, (Hw H0 H1) in Htick. exact Htick.
    + intros H0 H1. destruct (Hend (or_introl H0)) as (d & Hd & Hreason & Hw & _).
      rewrite Hd, Hreason, (Hw H0 H1) in Htick.
      eexists. split; [|exact Htick]. apply scoreWinner_higherScore.
    + intros H0 H1. rewrite (Hon H0 H1) in Htick. exact Htick.
Qed.
End EndOfRoom.

(** Ana and Luis have both left [match-1] when the room ticks at 1-0: the
    room ends for an abandoned team, and the match is recorded as won by
    Ana's team, which is ahead. *)
Lemma C3_witness :
  endedWith bothGone 0 (theRoom bothGone)
    (tickRoom 7 demoUUID demoHash 0 (mkSnapshot (1, 0)) false 20016 bothGone)
    "Equipo completo abandono la partida" (Some Team0).
Proof.
  destruct (C3_tick_ends_the_room_in_order 7 demoUUID demoHash 0%nat (mkSnapshot (1, 0)) false
              20016 bothGone (theRoom bothGone)) as (_ & _ & Hc).
  - vm_compute. reflexivity.
  - vm_compute. reflexivity.
  - destruct Hc as (_ & _ & Hboth & _).
    + vm_compute. reflexivity.
    + vm_compute. intros H. inversion H.
    + destruct Hboth as (winner & Hscore & Hended).
      * refine (proj1 (teamActive_false Team0 _) _). vm_compute. reflexivity.
      * refine (proj1 (teamActive_false Team1 _) _). vm_compute. reflexivity.
      * destruct Hscore as [[Heq _]|[[_ Hwinner]|[Hlt _]]].
        -- inversion Heq.
        -- rewrite <- Hwinner. exact Hended.
        -- inversion Hlt.
Defined.

(** * The ready check from start to end *)

Lemma expiryInv_emptyWorld : expiryInv emptyWorld.
Proof. by intros [] ?. Qed.

Lemma expiryInv_readies w w' : readies w' = readies w → expiryInv w → expiryInv w'.
Proof. intros Hsame Hinv ref ready. rewrite Hsame. apply Hinv. Qed.

Lemma expiryInv_readySide w w' : readySide w w' → expiryInv w → expiryInv w'.
Proof. intros (Hsame & _). by apply expiryInv_readies. Qed.

Lemma expiryInv_accept w ref accepted :
  expiryInv w → expiryInv (updReady ref (withAccepted accepted) w).
Proof.
  intros Hinv r ready. unfold updReady. simpl.
  destruct (decide (r = ref)) as [->|Hne].
  - rewrite list_lookup_alter_eq.
    destruct (readies w !! ref) as [old|] eqn:Hold; [|done].
    intros [= <-]. simpl. by eapply Hinv.
  - rewrite list_lookup_alter_ne by done. apply Hinv.
Qed.

Section ReadyCheckTimes.
Variable SCORE_LIMIT : Z.
Variable randomUUID : nat → string.
Variable hashToken : string → string.
Variable randomSeed : nat → Z.

Lemma cancelReadyCheck_readies ref reason acceptedOnly excludePlayerId now w :
  readies (cancelReadyCheck randomUUID ref reason acceptedOnly excludePlayerId now w)
  = readies w.
Proof.
  unfold cancelReadyCheck.
  destruct (readies w !! ref) as [ready|]; [|done].
  destruct (pendingReadyById w !! rd_id ready); [|done].
  rewrite (foldl_frame readies);
    [|intros; by destruct (untouched_requeueMember randomUUID ready acceptedOnly
                             excludePlayerId now w0 a) as (-> & _)].
  rewrite (foldl_frame readies); [|intros; by case_bool_decide].
  destruct (untouched_clearPendingReadyAssociation ready
              (upd_pendingReadyById (delete (rd_id ready))
                 (clearTimeout (rd_timeoutHandle ready) w))) as (-> & _).
  by destruct (rd_timeoutHandle ready).
Qed.

Lemma expiryInv_readyLoop fuel bucketKey playlistConfig now bucket w :
  expiryInv w →
  expiryInv (readyLoop randomUUID randomSeed fuel bucketKey playlistConfig now bucket w).
Proof.
  revert bucket w. induction fuel as [|fuel IH]; intros bucket w Hinv; simpl; [done|].
  destruct (findBestCandidate now playlistConfig bucket) as [[candidate|]|]; try done.
  set (selected := reverse (List.filter (inCandidate candidate) bucket)).
  set (w1 := foldl (λ w entry, upd_queueEntryBySocket (delete (qe_socketId entry)) w)
               w selected).
  assert (readySide w w1) as Hq1 by (apply readySide_foldl; by intros).
  match goal with
  | |- context [match oget bucketKey (queueByBucket w1) with _ => _ end] =>
      set (w2 := match oget bucketKey (queueByBucket w1) with
                 | Some _ => _
                 | None => w1
                 end)
  end.
  assert (readySide w1 w2) as Hq2 by (unfold w2; by destruct (oget _ _)).
  destruct selected as [|first others] eqn:Hsel.
  { eapply expiryInv_readySide; [|exact Hinv]. by etrans. }
  match goal with
  | |- context [if (length ?b =? 0)%nat then upd_queueByBucket ?f w2 else w2] =>
      set (w3 := if (length b =? 0)%nat then upd_queueByBucket f w2 else w2)
  end.
  assert (readySide w2 w3) as Hq3 by (unfold w3; by destruct (_ =? 0)%nat).
  assert (readies w3 = readies w) as Hd.
  { destruct Hq3 as (-> & _), Hq2 as (-> & _), Hq1 as (-> & _). done. }
  pose proof (untouched_readyMembers randomUUID candidate (first :: others)
                (upd_drawn S (upd_readySequence S w3))) as Hq4.
  destruct (readyMembers randomUUID candidate (first :: others)
              (upd_drawn S (upd_readySequence S w3))) as [members w4] eqn:Hmembers.
  destruct Hq4 as (Hd4 & _). simpl in Hd4.
  assert (expiryInv w4) as Hinv4 by (apply (expiryInv_readies w); [congruence|done]).
  destruct (length members =? 0)%nat; [by apply IH|].
  apply IH.
  eapply expiryInv_readySide.
  { apply readySide_foldl. intros w0 member. apply untouched_readySide, untouched_inviteMember. }
  intros r ready. simpl. intros Hlook.
  apply lookup_app_Some in Hlook as [Hold|[_ Hnew]]; [by eapply Hinv4|].
  apply list_lookup_singleton_Some in Hnew as [_ <-]. simpl. done.
Qed.

Lemma expiryInv_tickQueueMatchmaking now w :
  expiryInv w → expiryInv (tickQueueMatchmaking randomUUID randomSeed now w).
Proof.
  unfold tickQueueMatchmaking. generalize (okeys (queueByBucket w)). intros keys.
  revert w. induction keys as [|key keys IH]; intros w Hinv; simpl; [done|].
  apply IH. unfold tryCreateReadyChecks. repeat (case_match; try done).
  eapply expiryInv_readySide; [apply untouched_readySide, untouched_updateQueuePositions|].
  by apply expiryInv_readyLoop.
Qed.

Lemma expiryInv_acceptReady socketId payload now w :
  expiryInv w → expiryInv (acceptReady randomUUID socketId payload now w).
Proof.
  intros Hinv. unfold acceptReady.
  destruct (socketState w !! socketId) as [state|]; [|done].
  destruct (ss_pendingReadyId state) as [pendingReadyId|]; [|done].
  destruct (negb (truthyS (Some pendingReadyId))); [done|].
  destruct (pendingReadyById w !! default pendingReadyId (rr_matchId payload))
    as [ref|]; simpl; [|eapply expiryInv_readies; [|exact Hinv]; done].
  destruct (readies w !! ref) as [ready|]; simpl;
    [|eapply expiryInv_readies; [|exact Hinv]; done].
  destruct (existsb _ (rd_members ready)); simpl; [|done].
  case_bool_decide.
  { eapply expiryInv_readies; [apply cancelReadyCheck_readies|done]. }
  set (accepted := {[ ss_playerId state ]} ∪ rd_accepted ready) in *.
  set (w1 := updReady ref (withAccepted accepted) w) in *.
  match goal with
  | |- context [foldl ?f w1 (rd_members ready)] => set (w2 := foldl f w1 (rd_members ready))
  end.
  assert (expiryInv w2) as Hinv2.
  { eapply expiryInv_readies; [|by apply (expiryInv_accept w ref accepted)].
    unfold w2. by rewrite (foldl_frame readies); [|intros; by case_bool_decide]. }
  destruct (size accepted <? length (rd_members ready))%nat; [done|].
  eapply expiryInv_readySide; [apply readySide_createRoomFromReady|].
  eapply expiryInv_readySide;
    [apply untouched_readySide, untouched_clearPendingReadyAssociation|].
  eapply expiryInv_readies; [|exact Hinv2]. by destruct (rd_timeoutHandle ready).
Qed.

Lemma expiryInv_handle e w :
  expiryInv w → expiryInv (handle SCORE_LIMIT randomUUID hashToken randomSeed e w).
Proof.
  intros Hinv. destruct e; simpl.
  - eapply expiryInv_readySide; [apply readySide_connect|done].
  - unfold joinQueue. repeat (case_match; try done);
      try (eapply expiryInv_readySide; [|exact Hinv]; done).
    apply expiryInv_tickQueueMatchmaking.
    eapply expiryInv_readySide; [|exact Hinv]. apply untouched_readySide.
    etrans; [apply untouched_removeQueueEntry
            |apply (untouched_enqueueFromSocketState randomUUID)].
  - eapply expiryInv_readySide; [apply untouched_readySide, untouched_leaveQueue|done].
  - by apply expiryInv_acceptReady.
  - eapply expiryInv_readySide; [apply readySide_leaveMatch|done].
  - unfold disconnect.
    destruct (socketState (upd_sockets _ w) !! socketId) as [current|];
      [|eapply expiryInv_readies; [|exact Hinv]; done].
    eapply expiryInv_readySide.
    { apply untouched_readySide, untouched_updateAllQueuePositions. }
    match goal with
    | |- context [markMemberDisconnected ?s ?r ?n ?w0] =>
        pose proof (readySide_markMemberDisconnected s r n w0) as Hmark;
        set (w1 := w0) in *;
        set (w2 := markMemberDisconnected s r n w1) in *
    end.
    assert (expiryInv w1) as Hinv1.
    { unfold w1.
      assert (expiryInv (removeQueueEntry socketId
                           (upd_sockets (λ ss, ss ∖ {[socketId]}) w)).1) as Hinv0.
      { eapply expiryInv_readySide; [|exact Hinv].
        etrans; [|apply untouched_readySide, untouched_removeQueueEntry]. done. }
      repeat (case_match; try done).
      eapply expiryInv_readies; [apply cancelReadyCheck_readies|done]. }
    eapply expiryInv_readySide; [|exact Hinv1].
    etrans; [exact Hmark|]. by case_bool_decide.
  - by apply expiryInv_tickQueueMatchmaking.
  - unfold fireTimer, readyTimeout. repeat (case_match; try done);
      try (eapply expiryInv_readies; [|exact Hinv]; done).
    eapply expiryInv_readies; [apply cancelReadyCheck_readies|].
    eapply expiryInv_readies; [|exact Hinv]. done.
  - eapply expiryInv_readySide; [apply readySide_tickRoom|done].
  - eapply expiryInv_readySide; [|done]. apply untouched_readySide.
    apply untouched_finishRoomForSockets.
  - eapply expiryInv_readySide; [apply readySide_endRoomBegin|done].
Qed.

Lemma reachable_expiryInv w :
  reachable SCORE_LIMIT randomUUID hashToken randomSeed w → expiryInv w.
Proof.
  induction 1 as [|e w _ IH]; [apply expiryInv_emptyWorld|by apply expiryInv_handle].
Qed.
End ReadyCheckTimes.

(** ** An acceptance while the ready check is pending *)

Lemma outbox_foldl {A} (f : World → A → World) (l : list A) (w : World) :
  (∀ w a, outbox w `prefix_of` outbox (f w a)) →
  outbox w `prefix_of` outbox (foldl f w l).
Proof.
  intros Hf. revert w. induction l as [|a l IH]; intros w; simpl; [done|].
  etrans; [apply Hf|apply IH].
Qed.

Lemma outbox_emit e w : outbox w `prefix_of` outbox (emit e w).
Proof. by exists [e]. Qed.

Lemma told_all (message : Message) (members : list ReadyMember) (w : World) :
  let step := λ w (member : ReadyMember),
                if bool_decide (rdm_socketId member ∈ sockets w)
                then emit (emitTo (rdm_socketId member) message) w else w in
  sockets (foldl step w members) = sockets w
  ∧ outbox w `prefix_of` outbox (foldl step w members)
  ∧ ∀ member, member ∈ members → rdm_socketId member ∈ sockets w →
      emitTo (rdm_socketId member) message ∈ outbox (foldl step w members).
Proof.
  intros step. revert w. induction members as [|m members IH]; intros w; simpl.
  - split_and!; [done|done|]. by intros member ?%elem_of_nil.
  - destruct (IH (step w m)) as (Hsockets & Hprefix & Htold).
    assert (sockets (step w m) = sockets w) as Hs by (unfold step; by case_bool_decide).
    assert (outbox w `prefix_of` outbox (step w m)) as Hp.
    { unfold step. case_bool_decide; [apply outbox_emit|done]. }
    split_and!.
    + by rewrite Hsockets.
    + by etrans.
    + intros member [->|Hin]%elem_of_cons Hlive.
      * destruct Hprefix as [more ->]. apply elem_of_app. left.
        unfold step. rewrite bool_decide_eq_true_2 by done.
        simpl. apply elem_of_app. right. by apply list_elem_of_singleton.
      * apply Htold; [done|]. by rewrite Hs.
Qed.

Lemma outbox_createRoomFromReady ready now w :
  outbox w `prefix_of` outbox (createRoomFromReady ready now w).
Proof.
  unfold createRoomFromReady.
  etrans; [|apply outbox_foldl; intros w0 member; case_bool_decide; [|done];
            etrans; [|apply outbox_emit]; etrans; [|apply outbox_emit]; done].
  simpl. by rewrite (foldl_frame outbox).
Qed.

Section Acceptance.
Variable randomUUID : nat → string.

(** [acceptReady] does not look at the clock: the acceptance of a member
    of a ready check that is pending is recorded and told to the members
    that are connected, whatever the time; and when it is the last one the
    ready check is confirmed: it leaves [pendingReadyById] with its timer
    and the room is made. *)
Lemma acceptReady_honoured socketId payload now w state pendingId ref ready :
  socketState w !! socketId = Some state →
  ss_pendingReadyId state = Some pendingId → pendingId ≠ "" →
  pendingReadyById w !! default pendingId (rr_matchId payload) = Some ref →
  readies w !! ref = Some ready →
  ss_playerId state ∈ rdm_playerId <$> rd_members ready →
  rr_accept payload ≠ Some false →
  let w' := acceptReady randomUUID socketId payload now w in
  let accepted := {[ ss_playerId state ]} ∪ rd_accepted ready in
  readies w' !! ref = Some (withAccepted accepted ready)
  ∧ (∀ member, member ∈ rd_members ready → rdm_socketId member ∈ sockets w →
       emitTo (rdm_socketId member)
         (readyUpdate (rd_id ready) (size accepted) (length (rd_members ready)))
       ∈ outbox w')
  ∧ ((size accepted < length (rd_members ready))%nat →
       pendingReadyById w' = pendingReadyById w ∧ timers w' = timers w
       ∧ rooms w' = rooms w)
  ∧ ((length (rd_members ready) ≤ size accepted)%nat →
       pendingReadyById w' = delete (rd_id ready) (pendingReadyById w)
       ∧ timers w' = timers (clearTimeout (rd_timeoutHandle ready) w)
       ∧ ∃ room,
           rooms w' = rooms w ++ [room] ∧ room_startedAt room = now
           ∧ room_ended room = false
           ∧ activeRooms w' !! room_id room = Some (length (rooms w))).
Proof.
  intros Hstate Hpending Hreal Hready Hobject Hmember Haccept w' accepted. subst w'.
  unfold acceptReady. rewrite Hstate, Hpending.
  assert (truthyS (Some pendingId) = true) as ->
    by (unfold truthyS; by rewrite (proj2 (String.eqb_neq pendingId ""))).
  simpl negb. cbv iota. rewrite Hready. simpl. rewrite Hobject. simpl.
  assert (existsb (λ entry, String.eqb (rdm_playerId entry) (ss_playerId state))
            (rd_members ready) = true) as ->.
  { apply list_elem_of_fmap in Hmember as (member & Hid & Hin).
    apply existsb_exists. exists member. split; [by apply list_elem_of_In|].
    rewrite Hid. apply String.eqb_refl. }
  simpl negb. cbv iota. rewrite bool_decide_eq_false_2 by done.
  fold accepted.
  set (w1 := updReady ref (withAccepted accepted) w).
  destruct (told_all (readyUpdate (rd_id ready) (size accepted) (length (rd_members ready)))
              (rd_members ready) w1) as (Hsockets & Hprefix & Htold).
  cbv zeta in Hsockets, Hprefix, Htold.
  set (w2 := foldl (λ w readyMember,
                      if bool_decide (rdm_socketId readyMember ∈ sockets w)
                      then emit (emitTo (rdm_socketId readyMember)
                                   (readyUpdate (rd_id ready) (size accepted)
                                      (length (rd_members ready)))) w
                      else w) w1 (rd_members ready)) in *.
  assert (Hq2 : untouched w1 w2)
    by (apply untouched_foldl; intros; by case_bool_decide).
  destruct Hq2 as (Hd2 & Hp2 & Ht2 & _ & _ & Hr2 & Ha2 & _).
  assert (Hready1 : readies w1 !! ref = Some (withAccepted accepted ready)).
  { unfold w1, updReady. simpl. by rewrite list_lookup_alter_eq, Hobject. }
  destruct (size accepted <? length (rd_members ready))%nat eqn:Hsize.
  - apply Nat.ltb_lt in Hsize. split_and!.
    + by rewrite Hd2.
    + exact Htold.
    + intros _. by rewrite Hp2, Ht2, Hr2.
    + intros Hall. lia.
  - apply Nat.ltb_ge in Hsize.
    set (w3 := clearPendingReadyAssociation ready
                 (upd_pendingReadyById (delete (rd_id ready))
                    (clearTimeout (rd_timeoutHandle ready) w2))).
    assert (Hq3 : untouched (upd_pendingReadyById (delete (rd_id ready))
                               (clearTimeout (rd_timeoutHandle ready) w2)) w3)
      by apply untouched_clearPendingReadyAssociation.
    destruct Hq3 as (Hd3 & Hp3 & Ht3 & _ & _ & Hr3 & Ha3 & _).
    assert (Ho3 : outbox w3 = outbox w2).
    { unfold w3, clearPendingReadyAssociation.
      rewrite (foldl_frame outbox); [|by intros]. by destruct (rd_timeoutHandle ready). }
    destruct (readySide_createRoomFromReady (withAccepted accepted ready) now w3)
      as (Hd4 & Hp4 & Ht4 & _).
    destruct (createRoomFromReady_room (withAccepted accepted ready) now w3)
      as (room & Hrooms & Hactive & _ & Hroom).
    cbv zeta in Hrooms, Hactive, Hroom.
    split_and!.
    + rewrite Hd4, Hd3. simpl.
      replace (readies (clearTimeout (rd_timeoutHandle ready) w2)) with (readies w2)
        by (by destruct (rd_timeoutHandle ready)).
      by rewrite Hd2.
    + intros member Hin Hlive.
      destruct (outbox_createRoomFromReady (withAccepted accepted ready) now w3)
        as [more ->].
      apply elem_of_app. left. rewrite Ho3. by apply Htold.
    + intros Hfew. lia.
    + intros _. split_and!.
      * rewrite Hp4, Hp3. simpl.
        replace (pendingReadyById (clearTimeout (rd_timeoutHandle ready) w2))
          with (pendingReadyById w2) by (by destruct (rd_timeoutHandle ready)).
        by rewrite Hp2.
      * rewrite Ht4, Ht3. simpl. destruct (rd_timeoutHandle ready); simpl; by rewrite Ht2.
      * exists room.
        assert (rooms w3 = rooms w) as Hsame.
        { rewrite Hr3. simpl.
          replace (rooms (clearTimeout (rd_timeoutHandle ready) w2)) with (rooms w2)
            by (by destruct (rd_timeoutHandle ready)).
          by rewrite Hr2. }
        rewrite Hsame in Hrooms, Hactive.
        destruct (seatMember_slots (upd_roomSequence S w3) now
                    {| room_id := "match-" +:+ pretty (roomSequence w3);
                       room_playlist := rd_playlist (withAccepted accepted ready);
                       room_region := rd_region (withAccepted accepted ready);
                       room_seed := rd_seed (withAccepted accepted ready);
                       room_startedAt := now; room_createdAt := now; room_members := [];
                       room_slotOwner := [None; None; None; None]; room_serverSeq := 0;
                       room_lastSnapshot := {| snap_score := (0, 0) |};
                       room_activeSlots := ∅;
                       room_inactiveSlots := list_to_set [0; 1; 2; 3]%nat;
                       room_ended := false |}
                    (rd_members (withAccepted accepted ready)))
          as (_ & _ & _ & Hended & _ & Hstarted).
        cbv zeta in Hended, Hstarted. rewrite <- Hroom in Hended, Hstarted.
        split_and!; try done.
        rewrite Hactive. apply lookup_insert_eq.
Qed.
End Acceptance.

Section ReadyCheckEnd.
Variable SCORE_LIMIT : Z.
Variable randomUUID : nat → string.
Variable hashToken : string → string.
Variable randomSeed : nat → Z.

(** The timer of a ready check, once due, cancels it if it is still
    pending; either way the ready check is out afterwards. *)
Lemma readyTimer_cancels timer ref due now w ready :
  timers w !! timer = Some (ref, due) → due <= now →
  readies w !! ref = Some ready →
  (∀ id, pendingReadyById w !! id = Some ref → id = rd_id ready) →
  let w' := handle SCORE_LIMIT randomUUID hashToken randomSeed (EvReadyTimer timer now) w in
  readies w' !! ref = Some ready ∧ ¬ pendingRef w' ref.
Proof.
  intros Htimer Hdue Hready Hkeys. simpl.
  unfold fireTimer. rewrite Htimer.
  destruct (due <=? now) eqn:Hle; [|lia].
  set (w0 := upd_timers (delete timer) w).
  unfold readyTimeout.
  change (readies w0) with (readies w). rewrite Hready.
  change (pendingReadyById w0) with (pendingReadyById w).
  destruct (pendingReadyById w !! rd_id ready) as [current|] eqn:Hpending.
  + destruct (readies w !! current) as [ready'|] eqn:Hcurrent.
    * pose proof (grows_cancelReadyCheck randomUUID current "Ready-check expiro" true None
                    now w0) as (_ & _ & [more Hmore] & _).
      split; [rewrite Hmore; by apply lookup_app_l_Some|].
      intros [id Hin].
      rewrite (cancelReadyCheck_pending _ _ _ _ _ _ _ ready') in Hin by done.
      apply lookup_delete_Some in Hin as [Hne Hin].
      change (pendingReadyById w0) with (pendingReadyById w) in Hin.
      pose proof (Hkeys _ Hin) as ->.
      rewrite Hpending in Hin. injection Hin as ->.
      rewrite Hready in Hcurrent. injection Hcurrent as <-. done.
    * unfold cancelReadyCheck.
      change (readies w0) with (readies w). rewrite Hcurrent.
      split; [done|]. intros [id Hin].
      change (pendingReadyById w0) with (pendingReadyById w) in Hin.
      pose proof (Hkeys _ Hin) as ->. rewrite Hpending in Hin.
      injection Hin as ->. rewrite Hready in Hcurrent. done.
  + split; [done|]. intros [id Hin].
    change (pendingReadyById w0) with (pendingReadyById w) in Hin.
    pose proof (Hkeys _ Hin) as ->. by rewrite Hpending in Hin.
Qed.

(** C9, amended.  What ends a pending ready check in time is its timer,
    not the expiry time.
    - While a ready check is pending, the acceptance of one of its members
      is honoured whatever the clock says: it is recorded, the connected
      members are sent the [readyUpdate], and if it is the last one the
      ready check is confirmed (it leaves [pendingReadyById], its timer is
      cleared and the room is made, starting at that time).
    - In every state the server can reach, a pending ready check expires
      [READY_CHECK_MS] after its creation and its timer is armed for
      [READY_CHECK_MS + 80] after its creation, 80 ms after the expiry
      time; before that the timer does nothing, and from then on it
      cancels the ready check, which is then out of [pendingReadyById].
    - A ready check out of [pendingReadyById] (confirmed or cancelled) is
      never touched again and never comes back, whatever happens. *)
Theorem C9_ready_checks_end_by_their_timer :
  (∀ socketId payload now w state pendingId ref ready,
     socketState w !! socketId = Some state →
     ss_pendingReadyId state = Some pendingId → pendingId ≠ "" →
     pendingReadyById w !! default pendingId (rr_matchId payload) = Some ref →
     readies w !! ref = Some ready →
     ss_playerId state ∈ rdm_playerId <$> rd_members ready →
     rr_accept payload ≠ Some false →
     let w' := handle SCORE_LIMIT randomUUID hashToken randomSeed
                 (EvReadyCheckResponse socketId payload now) w in
     let accepted := {[ ss_playerId state ]} ∪ rd_accepted ready in
     readies w' !! ref = Some (withAccepted accepted ready)
     ∧ (∀ member, member ∈ rd_members ready → rdm_socketId member ∈ sockets w →
          emitTo (rdm_socketId member)
            (readyUpdate (rd_id ready) (size accepted) (length (rd_members ready)))
          ∈ outbox w')
     ∧ ((size accepted < length (rd_members ready))%nat →
          pendingReadyById w' = pendingReadyById w ∧ timers w' = timers w
          ∧ rooms w' = rooms w)
     ∧ ((length (rd_members ready) ≤ size accepted)%nat →
          pendingReadyById w' = delete (rd_id ready) (pendingReadyById w)
          ∧ timers w' = timers (clearTimeout (rd_timeoutHandle ready) w)
          ∧ ∃ room,
              rooms w' = rooms w ++ [room] ∧ room_startedAt room = now
              ∧ room_ended room = false
              ∧ activeRooms w' !! room_id room = Some (length (rooms w))))
  ∧ (∀ w id ref,
       reachable SCORE_LIMIT randomUUID hashToken randomSeed w →
       pendingReadyById w !! id = Some ref →
       ∃ ready timer,
         readies w !! ref = Some ready ∧ rd_id ready = id
         ∧ rd_expiresAt ready = rd_createdAt ready + READY_CHECK_MS
         ∧ rd_timeoutHandle ready = Some timer
         ∧ timers w !! timer = Some (ref, rd_createdAt ready + (READY_CHECK_MS + 80))
         ∧ (∀ now, now < rd_expiresAt ready + 80 →
              handle SCORE_LIMIT randomUUID hashToken randomSeed (EvReadyTimer timer now) w
              = w)
         ∧ (∀ now, rd_expiresAt ready + 80 <= now →
              let w' := handle SCORE_LIMIT randomUUID hashToken randomSeed
                          (EvReadyTimer timer now) w in
              readies w' !! ref = Some ready ∧ ¬ pendingRef w' ref))
  ∧ (∀ e w ref ready,
       readies w !! ref = Some ready → ¬ pendingRef w ref →
       readies (handle SCORE_LIMIT randomUUID hashToken randomSeed e w) !! ref = Some ready
       ∧ ¬ pendingRef (handle SCORE_LIMIT randomUUID hashToken randomSeed e w) ref).
Proof.
  split_and!.
  - intros socketId payload now w state pendingId ref ready. simpl.
    apply acceptReady_honoured.
  - intros w id ref Hreach Hpending.
    pose proof (reachable_readyInv _ _ _ _ w Hreach) as Hinv.
    pose proof (reachable_expiryInv _ _ _ _ w Hreach) as Hexpiry.
    destruct Hinv as (Hpend & _ & _ & Hunique & _).
    destruct (Hpend id ref Hpending) as (ready & timer & Hready & Hid & Hhandle & Htimer).
    pose proof (Hexpiry ref ready Hready) as Hexpires.
    exists ready, timer. split_and!; try done.
    + intros now Hearly. simpl. unfold fireTimer. rewrite Htimer.
      destruct (_ <=? now) eqn:Hle; [|done]. apply Z.leb_le in Hle. lia.
    + intros now Hdue.
      apply (readyTimer_cancels timer ref _ now w ready Htimer); [lia|done|].
      intros id' Hid'.
      destruct (Hpend id' ref Hid') as (ready' & _ & Hready' & <- & _).
      congruence.
  - intros e w ref ready. apply handle_readies.
Qed.
End ReadyCheckEnd.

(** Luis accepts at 12050, after the expiry time 12000 of the ready check
    and before its timer is due at 12080: the acceptance is recorded, Ana
    is told, and as it is the last one the ready check is confirmed and
    the match starts at 12050. *)
Lemma C9_witness :
  rd_expiresAt (theReady anaAccepted) < 12050
  ∧ readies playing !! 0%nat
    = Some (withAccepted ({[ "luis" ]} ∪ rd_accepted (theReady anaAccepted))
              (theReady anaAccepted))
  ∧ emitTo "s1" (readyUpdate "ready-1" 2 2) ∈ outbox playing
  ∧ pendingReadyById playing = delete "ready-1" (pendingReadyById anaAccepted)
  ∧ ∃ room, rooms playing = rooms anaAccepted ++ [room] ∧ room_startedAt room = 12050.
Proof.
  assert (socketState anaAccepted !! "s2"
          = Some {| ss_socketId := "s2"; ss_playerId := "luis"; ss_nickname := "luis";
                    ss_rating := Some 1000; ss_games := 0; ss_wins := 0; ss_losses := 0;
                    ss_abandons := 0; ss_partySize := 1; ss_playlist := "duel";
                    ss_region := "us east "; ss_inputMode := "mixed";
                    ss_pendingReadyId := Some "ready-1"; ss_roomId := None;
                    ss_slots := []; ss_reconnect := None; ss_pingMs := 80 |}) as Hstate
    by (vm_compute; reflexivity).
  assert (pendingReadyById anaAccepted !! "ready-1" = Some 0%nat) as Hpending
    by (vm_compute; reflexivity).
  assert (readies anaAccepted !! 0%nat = Some (theReady anaAccepted)) as Hready
    by (vm_compute; reflexivity).
  assert (rd_id (theReady anaAccepted) = "ready-1") as Hid by (vm_compute; reflexivity).
  assert (size ({[ "luis" ]} ∪ rd_accepted (theReady anaAccepted)) = 2%nat) as Hsize
    by (vm_compute; reflexivity).
  assert (length (rd_members (theReady anaAccepted)) = 2%nat) as Hlength
    by (vm_compute; reflexivity).
  destruct (proj1 (C9_ready_checks_end_by_their_timer 7 demoUUID demoHash demoSeed)
              "s2" acceptIt 12050 anaAccepted _ "ready-1" 0%nat (theReady anaAccepted)
              Hstate eq_refl)
    as (Hrecorded & Htold & _ & Hconfirmed).
  - intros Hempty. inversion Hempty.
  - exact Hpending.
  - exact Hready.
  - vm_compute. apply list_elem_of_here.
  - intros Hrefused. inversion Hrefused.
  - cbn [ss_playerId] in Hrecorded, Htold, Hconfirmed.
    rewrite Hsize, Hlength, Hid in Htold.
    rewrite Hsize, Hlength, Hid in Hconfirmed.
    destruct (Hconfirmed (le_n 2)) as (Hout & _ & room & Hrooms & Hstarted & _).
    split; [vm_compute; reflexivity|].
    split; [exact Hrecorded|].
    split.
    { apply (Htold {| rdm_socketId := "s1"; rdm_playerId := "ana"; rdm_nickname := "ana";
                      rdm_partySize := 1; rdm_ratingBefore := Some 1000; rdm_team := Team0;
                      rdm_slots := [0%nat]; rdm_reconnectToken := "rc_4";
                      rdm_inputMode := "mixed" |}).
      - vm_compute. apply list_elem_of_further, list_elem_of_here.
      - assert (sockets anaAccepted = {[ "s1"; "s2" ]}) as -> by (vm_compute; reflexivity).
        apply elem_of_union_l, elem_of_singleton. reflexivity. }
    split; [exact Hout|].
    exists room. split; [exact Hrooms|exact Hstarted].
Defined.
